(** * PaperGraph: the graph-build engine, embedded and verified

    A shallow embedding of the TypeScript sources of PaperGraph
    (source adapters' utilities, persistent store, tokenizer, TF-IDF corpus,
    similarity and citation-analytic edges, composite scorer, HTTP transport,
    response cache and build orchestrator), followed by the theorems that
    settle the properties stated about them.

    Conventions of the embedding.
    - A JavaScript [Map] or [Set] is an association list / list in insertion
      order with unique keys; [Map.set] on an existing key replaces the value
      in place, on a new key appends.
    - Integer-valued numbers (row ids, years, counts, positions) are [Z].
    - Real-valued numbers (weights, similarities, scores) are exact reals
      [R]: rounding of IEEE doubles is not modelled there.  The laws of
      [cosineSimilarity] that depend on rounding are settled on a second
      embedding of it over binary64 doubles, [Similarity64].
    - Remote services, the clock and external libraries are parameters. *)

From Stdlib Require Import ZArith List String Ascii Bool Lia Arith.
From Stdlib Require Import Permutation Sorted.
From Stdlib Require Import Reals Lra.
From Stdlib Require Import DecimalString.
From Stdlib Require DecimalZ.
From Stdlib Require Floats.
Import ListNotations.

Set Implicit Arguments.

(* ================================================================== *)
(** * JavaScript containers *)
(* ================================================================== *)

Module Js.

Section AssocMap.
Variables K V : Type.
Variable eqb : K -> K -> bool.

(** [Map.prototype.get]: [None] is [undefined]. *)
Fixpoint map_get (m : list (K * V)) (k : K) : option V :=
  match m with
  | [] => None
  | (k', v) :: m' => if eqb k k' then Some v else map_get m' k
  end.

(** [Map.prototype.has] *)
Definition map_has (m : list (K * V)) (k : K) : bool :=
  match map_get m k with Some _ => true | None => false end.

(** [Map.prototype.set]: an existing key keeps its place in the
    iteration order, a new key goes last. *)
Fixpoint map_set (m : list (K * V)) (k : K) (v : V) : list (K * V) :=
  match m with
  | [] => [(k, v)]
  | (k', v') :: m' =>
      if eqb k k' then (k', v) :: m' else (k', v') :: map_set m' k v
  end.

(** [Map.prototype.keys], [Map.prototype.values] *)
Definition map_keys (m : list (K * V)) : list K := map fst m.
Definition map_values (m : list (K * V)) : list V := map snd m.

(** [Set.prototype.has], [Set.prototype.add] *)
Definition set_has (s : list K) (k : K) : bool := existsb (eqb k) s.
Definition set_add (s : list K) (k : K) : list K :=
  if set_has s k then s else s ++ [k].
End AssocMap.

(** [Array.prototype.sort] with a comparator is stable: a stable insertion
    sort, [leb a b] being [cmp(a, b) <= 0]. *)
Section StableSort.
Variable A : Type.
Variable leb : A -> A -> bool.

Fixpoint sort_insert (x : A) (l : list A) : list A :=
  match l with
  | [] => [x]
  | y :: l' => if leb x y then x :: l else y :: sort_insert x l'
  end.

Fixpoint array_sort (l : list A) : list A :=
  match l with
  | [] => []
  | x :: l' => sort_insert x (array_sort l')
  end.
End StableSort.

(** [Array.prototype.slice(0, k)] for an integer [k]: a negative [k]
    counts from the end. *)
Definition array_slice0 (A : Type) (k : Z) (l : list A) : list A :=
  if (k <? 0)%Z
  then firstn (Z.to_nat (Z.max (Z.of_nat (List.length l) + k) 0)) l
  else firstn (Z.to_nat k) l.

(** Comparisons of numbers, as booleans. *)
Definition Rleb (a b : R) : bool := if Rle_dec a b then true else false.
Definition Rltb (a b : R) : bool := if Rlt_dec a b then true else false.
Definition Reqb (a b : R) : bool := if Req_dec_T a b then true else false.

(** [Math.max(x, ...values)] and [Math.min(x, ...values)] on numbers. *)
Definition math_max (x : R) (values : list R) : R := fold_left Rmax values x.
Definition math_min (x : R) (values : list R) : R := fold_left Rmin values x.

Definition pair_eqb (a b : Z * Z) : bool :=
  (fst a =? fst b)%Z && (snd a =? snd b)%Z.

(** [String(n)] for an integer, ["undefined"] for a missing one. *)
Definition String_of_number (n : option Z) : string :=
  match n with
  | Some z => DecimalString.NilZero.string_of_int (Z.to_int z)
  | None => "undefined"%string
  end.

(** [Array.prototype.join] *)
Definition array_join (sep : string) (l : list string) : string :=
  String.concat sep l.

(** JSON values as the adapters receive them.  Numbers are the integral
    ones ([Z]); the wire format of an inverted index has integer positions. *)
#[warnings="-register-all"]
Inductive JValue : Type :=
| JNull
| JBool (b : bool)
| JNum (n : Z)
| JStr (s : string)
| JArr (items : list JValue)
| JObj (fields : list (string * JValue)).

End Js.

(* ================================================================== *)
(** * src/sources/utils.ts *)
(* ================================================================== *)

Module SourceUtils.
Import Js.

(** Inner loop of [invertedIndexToText]:
    [for (const pos of positions) if (typeof pos === 'number' && pos >= 0)
       words.push([pos, word])]. *)
Definition push_positions (word : string) (positions : list JValue)
    (words : list (Z * string)) : list (Z * string) :=
  fold_left
    (fun ws pos =>
       match pos with
       | JNum n => if (0 <=? n)%Z then ws ++ [(n, word)] else ws
       | _ => ws
       end)
    positions words.

(** Outer loop: [for (const [word, positions] of Object.entries(index))],
    skipping entries whose value is not an array. *)
Definition collect_words (entries : list (string * JValue)) : list (Z * string) :=
  fold_left
    (fun ws entry =>
       match snd entry with
       | JArr positions => push_positions (fst entry) positions ws
       | _ => ws
       end)
    entries [].

(** [invertedIndexToText].  The argument is the inverted index as received:
    [None] for [null]/[undefined], [Some entries] for an object whose
    [Object.entries] are [entries], in enumeration order.  The result is
    [None] for [null]. *)
Definition invertedIndexToText (invertedIndex : option (list (string * JValue)))
    : option string :=
  match invertedIndex with
  | None => None
  | Some entries =>
      let words := collect_words entries in
      match words with
      | [] => None
      | _ =>
          let sorted := array_sort (fun a b => (fst a <=? fst b)%Z) words in
          Some (array_join " " (map snd sorted))
      end
  end.

(** The reading of the specification: the tokens of an index are one
    [(position, word)] per word and per position of it that is a
    non-negative number inside an array of positions. *)
Definition spec_tokens (entries : list (string * JValue)) : list (Z * string) :=
  flat_map
    (fun entry =>
       match snd entry with
       | JArr positions =>
           flat_map
             (fun pos =>
                match pos with
                | JNum n => if (0 <=? n)%Z then [(n, fst entry)] else []
                | _ => []
                end)
             positions
       | _ => []
       end)
    entries.

Definition example_index_1 : list (string * JValue) :=
  [ ("This"%string, JArr [JNum 0]); ("is"%string, JArr [JNum 1]);
    ("a"%string, JArr [JNum 2]); ("test"%string, JArr [JNum 3]) ].

(** An index with a non-array entry, a negative and a non-numeric
    position, and two words at the same position. *)
Definition malformed_index : list (string * JValue) :=
  [ ("x"%string, JStr "oops"); ("b"%string, JArr [JNum 1; JNum (-2); JStr "q"]);
    ("a"%string, JArr [JNum 0]); ("c"%string, JArr [JNum 1]);
    ("d"%string, JNull) ].

Definition example_index_2 : list (string * JValue) :=
  [ ("the"%string, JArr [JNum 0; JNum 3]); ("cat"%string, JArr [JNum 1]);
    ("chased"%string, JArr [JNum 2]); ("mouse"%string, JArr [JNum 4]) ].

End SourceUtils.

(* ================================================================== *)
(** * src/types: papers, edges, configuration, run records *)
(* ================================================================== *)

Module Types.

(** [EdgeType] (types/edge.ts) *)
Inductive EdgeType : Set :=
| CITES | CITED_BY | CO_CITED | BIB_COUPLED | SIMILAR_TEXT
| SHARED_KEYWORDS | SAME_AUTHOR | SAME_VENUE
| EXTENDS | IMPROVES | SURVEYS | CONTRADICTS
| USES_METHOD | INTRODUCES_METHOD | USES_DATASET | INTRODUCES_DATASET.

Scheme Equality for EdgeType.

Inductive EdgeCreator : Set := algo | llm.

(** The provenance blob of an edge, before [JSON.stringify]. *)
Inductive Provenance : Type :=
| ProvCites (source : string) (depth : Z)
| ProvTfidf (topK : Z) (threshold : R)
| ProvCoCitation (count : Z)
| ProvBibCoupling (overlap refsA refsB : Z)
| ProvJson (json : string).

(** [Paper] (types/paper.ts).  [paper_id] is [None] until the store assigns
    it; [keywords_json] holds the array that [JSON.parse] reads back from
    the column ([None] when the column is null or does not parse); the
    column [created_at] is filled by the database clock and is not
    modelled. *)
Record Paper : Type := mkPaper {
  paper_id : option Z;
  source : string;
  source_id : string;
  doi : option string;
  arxiv_id : option string;
  title : string;
  abstract : option string;
  year : option Z;
  venue : option string;
  url : option string;
  citation_count : Z;
  influence_score : option R;
  keywords_json : option (list string);
  concepts_json : option string
}.

(** [{ ...paper, paper_id: id }] *)
Definition with_paper_id (p : Paper) (id : option Z) : Paper :=
  mkPaper id (source p) (source_id p) (doi p) (arxiv_id p) (title p)
          (abstract p) (year p) (venue p) (url p) (citation_count p)
          (influence_score p) (keywords_json p) (concepts_json p).

Definition with_influence_score (p : Paper) (s : option R) : Paper :=
  mkPaper (paper_id p) (source p) (source_id p) (doi p) (arxiv_id p) (title p)
          (abstract p) (year p) (venue p) (url p) (citation_count p)
          s (keywords_json p) (concepts_json p).

(** [Edge] (types/edge.ts); [edge_id] is [None] until stored. *)
Record Edge : Type := mkEdge {
  edge_id : option Z;
  src_paper_id : Z;
  dst_paper_id : Z;
  type : EdgeType;
  weight : R;
  confidence : R;
  rationale : option string;
  evidence : option string;
  created_by : EdgeCreator;
  provenance_json : Provenance
}.

Definition with_edge_id (e : Edge) (id : option Z) : Edge :=
  mkEdge id (src_paper_id e) (dst_paper_id e) (type e) (weight e)
         (confidence e) (rationale e) (evidence e) (created_by e)
         (provenance_json e).

(** [Cluster] (types/cluster.ts); [stats_json] before serialisation is the
    pair of member count and community id. *)
Record Cluster : Type := mkCluster {
  cluster_id : option Z;
  method : string;
  name : option string;
  description : option string;
  stats_member_count : Z;
  stats_community_id : Z
}.

Inductive SpineType : Set :=
| spine_citation | spine_similarity | spine_co_citation | spine_coupling
| spine_hybrid.

(** The fields of [PaperGraphConfig] (types/config.ts) that the build
    engine reads. *)
Record PaperGraphConfig : Type := mkConfig {
  topic : option string;
  paper : option (list string);
  cfg_doi : option (list string);
  cfg_source : string;
  spine : SpineType;
  depth : Z;
  maxPapers : Z;
  maxRefsPerPaper : Z;
  out : string;
  similarity_topK : option Z;
  similarity_threshold : option R;
  pagerankWeight : option R;
  relevanceWeight : option R;
  recencyWeight : option R
}.

(** The object returned by [getStats]. *)
Record Stats : Type := mkStats {
  stats_papers : Z;
  stats_edges : Z;
  stats_clusters : Z;
  stats_entities : Z;
  stats_runs : Z;
  edgesByType : list (EdgeType * Z)
}.

(** [RunRecord] (types/config.ts); the two JSON columns hold the values
    that are serialised into them. *)
Record RunRecord : Type := mkRun {
  run_id : option Z;
  created_at : string;
  papergraph_version : string;
  config_json : PaperGraphConfig;
  run_source : string;
  run_spine : SpineType;
  run_depth : Z;
  stats_json : Stats
}.

End Types.

(* ================================================================== *)
(** * src/storage/database.ts *)
(* ================================================================== *)

Module Database.
Import Types.
Local Open Scope Z_scope.

(** The tables the build engine writes, in rowid order, the connection's
    [last_insert_rowid] and whether the handle is still open. *)
Record Store : Type := mkStore {
  papers : list Paper;
  edges : list Edge;
  clusters : list Cluster;
  paper_clusters : list (Z * Z);
  entities : list (string * string);
  runs : list RunRecord;
  last_insert_rowid : Z;
  is_open : bool
}.

(** A freshly migrated database. *)
Definition empty_store : Store := mkStore [] [] [] [] [] [] 0 true.

Definition set_papers (db : Store) (ps : list Paper) (rowid : Z) : Store :=
  mkStore ps (edges db) (clusters db) (paper_clusters db) (entities db)
          (runs db) rowid (is_open db).
Definition set_edges (db : Store) (es : list Edge) (rowid : Z) : Store :=
  mkStore (papers db) es (clusters db) (paper_clusters db) (entities db)
          (runs db) rowid (is_open db).
Definition set_clusters (db : Store) (cs : list Cluster) (links : list (Z * Z))
    (rowid : Z) : Store :=
  mkStore (papers db) (edges db) cs links (entities db) (runs db) rowid
          (is_open db).
Definition set_runs (db : Store) (rs : list RunRecord) (rowid : Z) : Store :=
  mkStore (papers db) (edges db) (clusters db) (paper_clusters db)
          (entities db) rs rowid (is_open db).

(** The rowid SQLite gives to a new row of an [INTEGER PRIMARY KEY] table:
    one more than the largest in use, 1 in an empty table. *)
Definition next_rowid (ids : list (option Z)) : Z :=
  fold_left (fun m id => match id with Some i => Z.max m i | None => m end)
            ids 0 + 1.

Definition same_key (src sid : string) (p : Paper) : bool :=
  String.eqb (source p) src && String.eqb (source_id p) sid.

(** [SELECT * FROM papers WHERE source = ? AND source_id = ?] *)
Definition getPaperBySourceId (db : Store) (src sid : string) : option Paper :=
  find (same_key src sid) (papers db).

Definition getAllPapers (db : Store) : list Paper := papers db.
Definition getPaperCount (db : Store) : Z := Z.of_nat (List.length (papers db)).
Definition getAllEdges (db : Store) : list Edge := edges db.
Definition getEdgeCount (db : Store) : Z := Z.of_nat (List.length (edges db)).
Definition getClusterCount (db : Store) : Z := Z.of_nat (List.length (clusters db)).
Definition getEntityCount (db : Store) : Z := Z.of_nat (List.length (entities db)).

(** One [INSERT OR IGNORE INTO papers]: the row is ignored when its
    [(source, source_id)] is already there.  Returns the new rowid when a
    row was inserted ([changes > 0]). *)
Definition insert_or_ignore (db : Store) (p : Paper) : Store * option Z :=
  match getPaperBySourceId db (source p) (source_id p) with
  | Some _ => (db, None)
  | None =>
      let id := next_rowid (map paper_id (papers db)) in
      (set_papers db (papers db ++ [with_paper_id p (Some id)]) id, Some id)
  end.

(** [insertPapers]: the ids pushed, in input order. *)
Definition insertPapers (db : Store) (ps : list Paper)
    : Store * list (option Z) :=
  fold_left
    (fun (st : Store * list (option Z)) p =>
       let (db', ids) := st in
       match insert_or_ignore db' p with
       | (db'', Some id) => (db'', ids ++ [Some id])
       | (db'', None) =>
           match getPaperBySourceId db'' (source p) (source_id p) with
           | Some existing => (db'', ids ++ [paper_id existing])
           | None => (db'', ids)
           end
       end)
    ps (db, []).

(** SQL [COALESCE(excluded.x, x)] *)
Definition coalesce (A : Type) (excluded old : option A) : option A :=
  match excluded with Some _ => excluded | None => old end.

(** The [DO UPDATE SET] clause of [upsertPaper]: [old] is the stored row,
    [excluded] the row that was to be inserted. *)
Definition merge_on_conflict (old excluded : Paper) : Paper :=
  mkPaper (paper_id old) (source old) (source_id old)
          (coalesce (doi excluded) (doi old))
          (coalesce (arxiv_id excluded) (arxiv_id old))
          (title excluded)
          (coalesce (abstract excluded) (abstract old))
          (coalesce (year excluded) (year old))
          (coalesce (venue excluded) (venue old))
          (coalesce (url excluded) (url old))
          (Z.max (citation_count old) (citation_count excluded))
          (coalesce (influence_score excluded) (influence_score old))
          (coalesce (keywords_json excluded) (keywords_json old))
          (coalesce (concepts_json excluded) (concepts_json old)).

Definition update_conflicting (rows : list Paper) (excluded : Paper) : list Paper :=
  map (fun row =>
         if same_key (source excluded) (source_id excluded) row
         then merge_on_conflict row excluded else row)
      rows.

(** [upsertPaper]: the statement changes one row in both cases; on the
    update path [lastInsertRowid] is the connection's previous one. *)
Definition upsertPaper (db : Store) (p : Paper) : Store * Z :=
  let db' :=
    match getPaperBySourceId db (source p) (source_id p) with
    | Some _ =>
        set_papers db (update_conflicting (papers db) p) (last_insert_rowid db)
    | None => fst (insert_or_ignore db p)
    end in
  if negb (last_insert_rowid db' =? 0) then (db', last_insert_rowid db')
  else
    match getPaperBySourceId db' (source p) (source_id p) with
    | Some existing =>
        (db', match paper_id existing with Some i => i | None => -1 end)
    | None => (db', -1)
    end.

(** [insertEdges].  The foreign keys to [papers] are not checked: the
    engine inserts edges between stored papers only.  The insert with the
    check is [ForeignKeys.insertEdges]. *)
Definition insertEdges (db : Store) (es : list Edge) : Store :=
  fold_left
    (fun db' e =>
       let id := next_rowid (map edge_id (edges db')) in
       set_edges db' (edges db' ++ [with_edge_id e (Some id)]) id)
    es db.

(** [insertClusters]: [paperMappings] maps the index of a cluster in
    [clusters] to its paper ids; the junction ignores duplicate links. *)
Definition insertClusters (db : Store) (cs : list Cluster)
    (paperMappings : list (Z * list Z)) : Store :=
  fst (fold_left
    (fun (st : Store * Z) c =>
       let (db', clusterIndex) := st in
       let clusterId := next_rowid (map cluster_id (clusters db')) in
       let row := mkCluster (Some clusterId) (method c) (name c)
                            (description c) (stats_member_count c)
                            (stats_community_id c) in
       let paperIds :=
         match Js.map_get Z.eqb paperMappings clusterIndex with
         | Some ids => ids
         | None => []
         end in
       let links :=
         fold_left
           (fun ls pid =>
              if existsb (fun l => (fst l =? pid) && (snd l =? clusterId)) ls
              then ls else ls ++ [(pid, clusterId)])
           paperIds (paper_clusters db') in
       (set_clusters db' (clusters db' ++ [row]) links clusterId,
        clusterIndex + 1))
    cs (db, 0)).

(** [insertRun] *)
Definition insertRun (db : Store) (run : RunRecord) : Store * Z :=
  let id := next_rowid (map run_id (runs db)) in
  let row := mkRun (Some id) (created_at run) (papergraph_version run)
                   (config_json run) (run_source run) (run_spine run)
                   (run_depth run) (stats_json run) in
  (set_runs db (runs db ++ [row]) id, id).

(** [SELECT type, COUNT( * ) FROM edges GROUP BY type] *)
Definition count_by_type (es : list Edge) : list (EdgeType * Z) :=
  fold_left
    (fun m e =>
       Js.map_set EdgeType_beq m (type e)
         (match Js.map_get EdgeType_beq m (type e) with
          | Some n => n + 1
          | None => 1
          end))
    es [].

(** [getStats] *)
Definition getStats (db : Store) : Stats :=
  mkStats (getPaperCount db) (getEdgeCount db) (getClusterCount db)
          (getEntityCount db) (Z.of_nat (List.length (runs db)))
          (count_by_type (edges db)).

(** [updatePaperScore]: [UPDATE papers SET influence_score = ? WHERE
    paper_id = ?]. *)
Definition updatePaperScore (db : Store) (paperId : Z) (score : R) : Store :=
  set_papers db
    (map (fun row =>
            match paper_id row with
            | Some i => if i =? paperId
                        then with_influence_score row (Some score) else row
            | None => row
            end)
         (papers db))
    (last_insert_rowid db).

(** [close] *)
Definition close (db : Store) : Store :=
  mkStore (papers db) (edges db) (clusters db) (paper_clusters db)
          (entities db) (runs db) (last_insert_rowid db) false.

(** The natural key of a row; the unique index on
    [papers(source, source_id)] says that [paper_keys] has no duplicate. *)
Definition key_of (p : Paper) : string * string := (source p, source_id p).

Definition paper_keys (db : Store) : list (string * string) :=
  map key_of (papers db).

Definition rows_with_key (db : Store) (src sid : string) : list Paper :=
  filter (same_key src sid) (papers db).

(** The paper of the upsert test of database.test.ts and its update. *)
Definition paper_W123 : Paper :=
  mkPaper None "openalex" "W123" None None "Original Title" None (Some 2024)
          None None 10 None None None.

Definition paper_W123_updated : Paper :=
  mkPaper None "openalex" "W123" None None "Updated Title" None (Some 2024)
          None None 20 None None None.

End Database.

(* ================================================================== *)
(** * src/storage/database.ts: the foreign keys of the edges table *)
(* ================================================================== *)

(** [insertEdges] with the check that [PRAGMA foreign_keys = ON] adds to
    every insert into [edges], whose [src_paper_id] and [dst_paper_id]
    reference [papers(paper_id)].  [Database.insertEdges] is the insert
    without the check. *)
Module ForeignKeys.
Import Js Types Database.
Local Open Scope Z_scope.

(** [papers] has a row with this [paper_id]. *)
Definition paper_exists (db : Store) (id : Z) : bool :=
  existsb (fun p => match paper_id p with
                    | Some i => i =? id
                    | None => false
                    end)
          (papers db).

(** One [stmt.run(edge)] of [insertEdges] with [foreign_keys = ON]: the
    insert fails, [None], when [src_paper_id] or [dst_paper_id] is not the
    [paper_id] of a stored paper. *)
Definition run_insert_edge (db : Store) (e : Edge) : option Store :=
  if paper_exists db (src_paper_id e) && paper_exists db (dst_paper_id e)
  then
    let id := next_rowid (map edge_id (edges db)) in
    Some (set_edges db (edges db ++ [with_edge_id e (Some id)]) id)
  else None.

(** [insertEdges]: the loop runs inside one transaction, so an insert that
    fails undoes the ones before it and the error is thrown: [None], with
    the store as it was. *)
Definition insertEdges (db : Store) (es : list Edge) : option Store :=
  fold_left
    (fun odb e =>
       match odb with
       | Some db' => run_insert_edge db' e
       | None => None
       end)
    es (Some db).

(** Both ends of an edge are stored papers. *)
Definition joins_stored (db : Store) (e : Edge) : bool :=
  paper_exists db (src_paper_id e) && paper_exists db (dst_paper_id e).

End ForeignKeys.

(* ================================================================== *)
(** * src/nlp/stopwords.ts, src/nlp/tokenizer.ts *)
(* ================================================================== *)

Module Tokenizer.
Local Open Scope string_scope.

(** [STOPWORDS], the literal list of the source. *)
Definition STOPWORDS : list string :=
  [
    "a"; "about"; "above"; "after"; "again"; "against"; "all"; "am"; "an";
    "and"; "any"; "are"; "aren"; "aren't"; "as"; "at"; "be"; "because";
    "been"; "before"; "being"; "below"; "between"; "both"; "but"; "by";
    "can"; "could"; "couldn"; "couldn't"; "d"; "did"; "didn"; "didn't";
    "do"; "does"; "doesn"; "doesn't"; "doing"; "don"; "don't"; "down";
    "during"; "each"; "few"; "for"; "from"; "further"; "get"; "got"; "had";
    "hadn"; "hadn't"; "has"; "hasn"; "hasn't"; "have"; "haven"; "haven't";
    "having"; "he"; "her"; "here"; "hers"; "herself"; "him"; "himself";
    "his"; "how"; "i"; "if"; "in"; "into"; "is"; "isn"; "isn't"; "it";
    "it's"; "its"; "itself"; "just"; "let"; "ll"; "m"; "ma"; "may"; "me";
    "might"; "mightn"; "mightn't"; "more"; "most"; "much"; "must"; "mustn";
    "mustn't"; "my"; "myself"; "need"; "needn"; "needn't"; "no"; "nor";
    "not"; "now"; "o"; "of"; "off"; "on"; "once"; "only"; "or"; "other";
    "our"; "ours"; "ourselves"; "out"; "over"; "own"; "quite"; "re"; "s";
    "said"; "same"; "shan"; "shan't"; "she"; "she's"; "should"; "should've";
    "shouldn"; "shouldn't"; "so"; "some"; "such"; "t"; "than"; "that";
    "that'll"; "the"; "their"; "theirs"; "them"; "themselves"; "then";
    "there"; "these"; "they"; "this"; "those"; "through"; "to"; "too";
    "under"; "until"; "up"; "upon"; "ve"; "very"; "was"; "wasn"; "wasn't";
    "we"; "were"; "weren"; "weren't"; "what"; "when"; "where"; "which";
    "while"; "who"; "whom"; "why"; "will"; "with"; "won"; "won't"; "would";
    "wouldn"; "wouldn't"; "y"; "you"; "you'd"; "you'll"; "you're"; "you've";
    "your"; "yours"; "yourself"; "yourselves"; "also"; "based"; "et"; "al";
    "using"; "via"; "vs"; "use"; "used"; "show"; "shows"; "shown";
    "propose"; "proposed"; "paper"; "approach"; "method"; "results";
    "model"; "models"; "work"; "study"; "new"; "novel"; "present";
    "presented"; "demonstrate"; "demonstrated"; "provide"; "provided";
    "however"; "therefore"; "thus"; "hence"; "although"; "moreover";
    "furthermore"; "additionally"; "specifically"; "respectively"
  ].

(** Characters are the bytes of the text; the model is exact on ASCII text.
    A byte above 127 is not in [[a-z0-9\s-]] and becomes a space. *)
Definition code (c : ascii) : nat := nat_of_ascii c.

(** [toLowerCase] *)
Definition to_lower (c : ascii) : ascii :=
  if (65 <=? code c)%nat && (code c <=? 90)%nat
  then ascii_of_nat (code c + 32) else c.

(** The class [\s]: tab, line feed, vertical tab, form feed, carriage
    return and space. *)
Definition is_space (c : ascii) : bool :=
  (code c =? 32)%nat || ((9 <=? code c)%nat && (code c <=? 13)%nat).

Definition is_digit (c : ascii) : bool :=
  (48 <=? code c)%nat && (code c <=? 57)%nat.

Definition is_lower_alpha (c : ascii) : bool :=
  (97 <=? code c)%nat && (code c <=? 122)%nat.

Definition is_hyphen (c : ascii) : bool := (code c =? 45)%nat.

(** [.replace(/[^a-z0-9\s-]/g, ' ')] on one character *)
Definition replace_char (c : ascii) : ascii :=
  if is_lower_alpha c || is_digit c || is_space c || is_hyphen c
  then c else " "%char.

(** [.split(/\s+/)]: the pieces between maximal runs of white space; a
    leading or trailing run leaves an empty piece. *)
Fixpoint split_ws (cur : list ascii) (in_ws : bool) (s : list ascii)
    : list (list ascii) :=
  match s with
  | [] => [cur]
  | c :: s' =>
      if is_space c
      then if in_ws then split_ws [] true s' else cur :: split_ws [] true s'
      else split_ws (cur ++ [c]) false s'
  end.

Fixpoint drop_hyphens (s : list ascii) : list ascii :=
  match s with
  | c :: s' => if is_hyphen c then drop_hyphens s' else s
  | [] => []
  end.

(** [token.replace(/^-+|-+$/g, '')] *)
Definition trim_hyphens (token : list ascii) : list ascii :=
  rev (drop_hyphens (rev (drop_hyphens token))).

(** [/^\d+$/.test(token)] *)
Definition pure_number (token : list ascii) : bool :=
  match token with [] => false | _ => forallb is_digit token end.

(** [tokenize] *)
Definition tokenize (text : string) : list string :=
  if String.eqb text "" then []
  else
    let lowered := map to_lower (list_ascii_of_string text) in
    let replaced := map replace_char lowered in
    let pieces := split_ws [] false replaced in
    let trimmed := map trim_hyphens pieces in
    map string_of_list_ascii
      (filter
         (fun token =>
            (1 <? List.length token)%nat
            && negb (Js.set_has String.eqb STOPWORDS (string_of_list_ascii token))
            && negb (pure_number token))
         trimmed).

End Tokenizer.

(* ================================================================== *)
(** * src/nlp/tfidf.ts *)
(* ================================================================== *)

Module TfIdf.
Import Js Types Tokenizer.

(** A sparse vector [Map<string, number>]. *)
Definition Vec : Type := list (string * R).

(** [TfIdfCorpus] *)
Record TfIdfCorpus : Type := mkCorpus {
  documents : list (string * Vec);
  df : list (string * Z);
  size : Z
}.

(** [paper.source_id || String(paper.paper_id)] *)
Definition doc_id (p : Paper) : string :=
  if String.eqb (source_id p) "" then String_of_number (paper_id p)
  else source_id p.

(** The text of a paper: title and abstract, or title and keywords when
    the abstract is null or empty. *)
Definition paper_text (p : Paper) : string :=
  let fallback :=
    match keywords_json p with
    | Some keywords => (title p ++ " " ++ array_join " " keywords)%string
    | None => title p
    end in
  match abstract p with
  | Some a => if String.eqb a "" then fallback
              else (title p ++ " " ++ a)%string
  | None => fallback
  end.

(** [tf.set(token, (tf.get(token) ?? 0) + 1)] over the tokens *)
Definition term_counts (tokens : list string) : list (string * Z) :=
  fold_left
    (fun tf token =>
       map_set String.eqb tf token
         (match map_get String.eqb tf token with
          | Some n => n + 1
          | None => 1
          end)%Z)
    tokens [].

(** [Math.max(...tf.values())] of a non-empty map of counts *)
Definition max_count (counts : list Z) : Z :=
  match counts with
  | [] => 0%Z
  | c :: rest => fold_left Z.max rest c
  end.

(** Augmented term frequency: [count / maxTf]. *)
Definition normalize_tf (tf : list (string * Z)) : Vec :=
  let maxTf := max_count (map_values tf) in
  map (fun tc => (fst tc, (IZR (snd tc) / IZR maxTf)%R)) tf.

(** [new Set(tokens)] *)
Definition unique_terms (tokens : list string) : list string :=
  fold_left (set_add String.eqb) tokens [].

Definition bump_df (df : list (string * Z)) (terms : list string)
    : list (string * Z) :=
  fold_left
    (fun df term =>
       map_set String.eqb df term
         (match map_get String.eqb df term with
          | Some n => n + 1
          | None => 1
          end)%Z)
    terms df.

(** The first loop of [buildCorpus] for one paper: a paper without tokens
    is skipped. *)
Definition add_paper (st : list (string * Vec) * list (string * Z)) (p : Paper)
    : list (string * Vec) * list (string * Z) :=
  let (documents, df) := st in
  let tokens := tokenize (paper_text p) in
  match tokens with
  | [] => st
  | _ =>
      (map_set String.eqb documents (doc_id p) (normalize_tf (term_counts tokens)),
       bump_df df (unique_terms tokens))
  end.

(** The second loop: [docTf.set(term, tf * Math.log(N / (df.get(term) ?? 1)))]. *)
Definition idf (N : Z) (df : list (string * Z)) (term : string) : R :=
  let termDf := match map_get String.eqb df term with
                | Some n => n
                | None => 1%Z
                end in
  ln (IZR N / IZR termDf).

Definition weigh (N : Z) (df : list (string * Z)) (docTf : Vec) : Vec :=
  map (fun e => (fst e, (snd e * idf N df (fst e))%R)) docTf.

(** [buildCorpus] *)
Definition buildCorpus (papers : list Paper) : TfIdfCorpus :=
  let (documents, df) := fold_left add_paper papers ([], []) in
  let N := Z.of_nat (List.length documents) in
  mkCorpus (map (fun d => (fst d, weigh N df (snd d))) documents) df N.

(** [getDocumentVector] *)
Definition getDocumentVector (corpus : TfIdfCorpus) (docId : string)
    : option Vec :=
  map_get String.eqb (documents corpus) docId.

(** [getTopTerms] *)
Definition getTopTerms (corpus : TfIdfCorpus) (docIds : list string) (topN : Z)
    : list string :=
  let termScores :=
    fold_left
      (fun (scores : Vec) docId =>
         match map_get String.eqb (documents corpus) docId with
         | None => scores
         | Some vector =>
             fold_left
               (fun (sc : Vec) e =>
                  map_set String.eqb sc (fst e)
                    (match map_get String.eqb sc (fst e) with
                     | Some x => x + snd e
                     | None => 0 + snd e
                     end)%R)
               vector scores
         end)
      docIds [] in
  map fst
    (array_slice0 topN
       (array_sort (fun a b : string * R => Rleb (snd b) (snd a)) termScores)).

(** [computeRelevance] *)
Definition computeRelevance (corpus : TfIdfCorpus) (docId : string)
    (queryTokens : list string) : R :=
  match map_get String.eqb (documents corpus) docId, queryTokens with
  | None, _ => 0%R
  | _, [] => 0%R
  | Some docVector, _ =>
      let score :=
        fold_left
          (fun acc token =>
             match map_get String.eqb docVector token with
             | Some w => acc + w
             | None => acc + 0
             end)%R
          queryTokens 0%R in
      Rmin 1 (score / IZR (Z.of_nat (List.length queryTokens)))
  end.

End TfIdf.

(* ================================================================== *)
(** * src/nlp/similarity.ts *)
(* ================================================================== *)

Module Similarity.
Import Js Types TfIdf.

(** [for (const [, w] of vec) norm += w * w] *)
Definition norm2 (vec : Vec) : R :=
  fold_left (fun acc e => (acc + snd e * snd e)%R) vec 0%R.

(** The dot product loop, over the smaller vector. *)
Definition dot (smaller larger : Vec) : R :=
  fold_left
    (fun acc e =>
       match map_get String.eqb larger (fst e) with
       | Some weightB => (acc + snd e * weightB)%R
       | None => acc
       end)
    smaller 0%R.

(** What one entry of the iterated vector adds to the dot product. *)
Definition term_product (larger : Vec) (e : string * R) : R :=
  match map_get String.eqb larger (fst e) with
  | Some weightB => (snd e * weightB)%R
  | None => 0%R
  end.

(** [cosineSimilarity], over exact reals.  The norms accumulated inside the
    first two loops of the source are overwritten before use and are left
    out.  [Similarity64.cosineSimilarity] is the function over doubles. *)
Definition cosineSimilarity (vecA vecB : Vec) : R :=
  if (List.length vecA =? 0)%nat || (List.length vecB =? 0)%nat then 0%R
  else
    let (smaller, larger) :=
      if (List.length vecA <=? List.length vecB)%nat
      then (vecA, vecB) else (vecB, vecA) in
    let dotProduct := dot smaller larger in
    let normA := norm2 vecA in
    let normB := norm2 vecB in
    let denominator := (sqrt normA * sqrt normB)%R in
    if Reqb denominator 0 then 0%R else (dotProduct / denominator)%R.

(** [findTopKSimilar]: pairs of a document id and its similarity. *)
Definition findTopKSimilar (docId : string) (corpus : TfIdfCorpus) (k : Z)
    (threshold : R) : list (string * R) :=
  match map_get String.eqb (documents corpus) docId with
  | None => []
  | Some docVector =>
      let similarities :=
        fold_left
          (fun (acc : list (string * R)) other =>
             if String.eqb (fst other) docId then acc
             else
               let sim := cosineSimilarity docVector (snd other) in
               if Rleb threshold sim then acc ++ [(fst other, sim)] else acc)
          (documents corpus) [] in
      array_slice0 k
        (array_sort (fun a b : string * R => Rleb (snd b) (snd a)) similarities)
  end.

(** The key of [seenPairs].  The source joins the smaller and the larger
    id with a dash; for ids that are not negative (row ids are positive)
    that string and the pair determine each other. *)
Definition pairKey (a b : Z) : Z * Z := (Z.min a b, Z.max a b).

Definition similarity_edge (paperId neighborPaperId : Z) (similarity : R)
    (topK : Z) (threshold : R) : Edge :=
  mkEdge None paperId neighborPaperId SIMILAR_TEXT similarity similarity
         None None algo (ProvTfidf topK threshold).

(** The two nested loops of [buildSimilarityEdges]; the state is the array
    [edges] and the set [seenPairs]. *)
Definition similarity_loop (paperIdMap : list (string * Z))
    (corpus : TfIdfCorpus) (topK : Z) (threshold : R)
    : list Edge * list (Z * Z) :=
  fold_left
    (fun (st : list Edge * list (Z * Z)) entry =>
       let sourceId := fst entry in
       let paperId := snd entry in
       let neighbors := findTopKSimilar sourceId corpus topK threshold in
       fold_left
         (fun (st' : list Edge * list (Z * Z)) neighbor =>
            let (edges, seenPairs) := st' in
            match map_get String.eqb paperIdMap (fst neighbor) with
            | None => st'
            | Some neighborPaperId =>
                let key := pairKey paperId neighborPaperId in
                if set_has pair_eqb seenPairs key then st'
                else
                  (edges ++ [similarity_edge paperId neighborPaperId
                               (snd neighbor) topK threshold],
                   set_add pair_eqb seenPairs key)
            end)
         neighbors st)
    paperIdMap ([], []).

(** [buildSimilarityEdges] *)
Definition buildSimilarityEdges (paperIdMap : list (string * Z))
    (corpus : TfIdfCorpus) (topK : Z) (threshold : R) : list Edge :=
  fst (similarity_loop paperIdMap corpus topK threshold).

(** Invariant of the loop of [buildSimilarityEdges]: [seenPairs] holds the
    keys of the edges emitted so far, each once. *)
Definition pairs_ok (st : list Edge * list (Z * Z)) : Prop :=
  map (fun e => pairKey (src_paper_id e) (dst_paper_id e)) (fst st) = snd st
  /\ NoDup (snd st)
  /\ Forall (fun e => type e = SIMILAR_TEXT) (fst st).

(** Example corpora: one document; two documents sharing a term. *)
Definition paper_speech : Paper :=
  mkPaper (Some 1%Z) "openalex" "p1" None None "Speech Recognition" None
          (Some 2020%Z) None None 10 None None None.

Definition paper_image : Paper :=
  mkPaper (Some 2%Z) "openalex" "p2" None None "Image Recognition" None
          (Some 2021%Z) None None 20 None None None.

(** The vector of [paper_speech] in the corpus of [paper_speech] alone:
    every weight is [tf * ln (1 / 1)]. *)
Definition single_document_vector : Vec :=
  [ ("speech"%string, (1 / 1 * ln (1 / 1))%R);
    ("recognition"%string, (1 / 1 * ln (1 / 1))%R) ].

(** Its vector in the corpus of both papers. *)
Definition two_document_vector : Vec :=
  [ ("speech"%string, (1 / 1 * ln (2 / 1))%R);
    ("recognition"%string, (1 / 1 * ln (2 / 2))%R) ].

(** Three documents with the same vector, and their ids in ascending
    order, as the build lists them. *)
Definition unit_vector : Vec := [ ("a"%string, 1%R) ].

Definition three_alike : TfIdfCorpus :=
  mkCorpus [ ("p1"%string, unit_vector); ("p2"%string, unit_vector);
             ("p3"%string, unit_vector) ]
           [ ("a"%string, 3%Z) ] 3.

Definition ids_ascending : list (string * Z) :=
  [ ("p1"%string, 1%Z); ("p2"%string, 2%Z); ("p3"%string, 3%Z) ].

End Similarity.

(* ================================================================== *)
(** * src/nlp/similarity.ts: cosine similarity in binary64 *)
(* ================================================================== *)

(** [cosineSimilarity] once more, with the numbers the program has: IEEE
    754 binary64 doubles, rounded to nearest after every operation.
    [Math.sqrt] is the correctly rounded square root, [===] on numbers is
    the IEEE equality ([-0] equals [0], [NaN] equals nothing). *)
Module Similarity64.
Import Js.
Import PrimFloat.
Local Open Scope float_scope.

Definition Vec64 : Type := list (string * float).

(** [for (const [, w] of vec) norm += w * w] *)
Definition norm2 (vec : Vec64) : float :=
  fold_left (fun acc e => acc + snd e * snd e) vec 0.

(** The dot product loop, over the smaller vector. *)
Definition dot (smaller larger : Vec64) : float :=
  fold_left
    (fun acc e =>
       match map_get String.eqb larger (fst e) with
       | Some weightB => acc + snd e * weightB
       | None => acc
       end)
    smaller 0.

(** [cosineSimilarity].  The norms accumulated inside the first two loops
    of the source are overwritten before use and are left out. *)
Definition cosineSimilarity (vecA vecB : Vec64) : float :=
  if (List.length vecA =? 0)%nat || (List.length vecB =? 0)%nat then 0
  else
    let (smaller, larger) :=
      if (List.length vecA <=? List.length vecB)%nat
      then (vecA, vecB) else (vecB, vecA) in
    let dotProduct := dot smaller larger in
    let normA := norm2 vecA in
    let normB := norm2 vecB in
    let denominator := sqrt normA * sqrt normB in
    if denominator =? 0 then 0 else dotProduct / denominator.

(** The terms of [u] that [v] has too, in the order of [u]. *)
Definition common_terms (u v : Vec64) : list string :=
  filter (fun term => map_has String.eqb v term) (map fst u).

(** The weight of a term in a vector, 0 when the vector lacks it. *)
Definition term_weight (v : Vec64) (term : string) : float :=
  match map_get String.eqb v term with
  | Some w => w
  | None => 0
  end.


Definition tenths : Vec64 :=
  [ ("a"%string, 0x1.999999999999ap-4); ("b"%string, 0x1.999999999999ap-3);
    ("c"%string, 0x1.3333333333333p-2) ].

Definition ones_reversed : Vec64 :=
  [ ("c"%string, 1); ("b"%string, 1); ("a"%string, 1) ].

(** The vector of the only document of a corpus, with the two terms of
    [Speech Recognition]: every weight is [1 / 1 * Math.log(1 / 1)], and
    [Math.log(1)] is 0. *)
Definition single_document_vector : Vec64 :=
  [ ("speech"%string, 1 / 1 * 0); ("recognition"%string, 1 / 1 * 0) ].

End Similarity64.

(* ================================================================== *)
(** * src/graph/algorithms.ts *)
(* ================================================================== *)

Module Algorithms.
Import Js Types.
Local Open Scope Z_scope.

(** [edges.filter((e) => e.type === EdgeType.CITES)] *)
Definition citesEdges (edges : list Edge) : list Edge :=
  filter (fun e => EdgeType_beq (type e) CITES) edges.

(** Citing paper to the set of papers it cites:
    [if (!m.has(src)) m.set(src, new Set()); m.get(src)!.add(dst)]. *)
Definition add_ref (m : list (Z * list Z)) (e : Edge) : list (Z * list Z) :=
  let m1 := if map_has Z.eqb m (src_paper_id e) then m
            else map_set Z.eqb m (src_paper_id e) [] in
  match map_get Z.eqb m1 (src_paper_id e) with
  | Some refs =>
      map_set Z.eqb m1 (src_paper_id e) (set_add Z.eqb refs (dst_paper_id e))
  | None => m1
  end.

Definition group_refs (cites : list Edge) : list (Z * list Z) :=
  fold_left add_ref cites [].

(** The pairs [(l[i], l[j])] for [i < j], [i] in the outer loop. *)
Fixpoint index_pairs (A : Type) (l : list A) : list (A * A) :=
  match l with
  | [] => []
  | x :: rest => map (fun y => (x, y)) rest ++ index_pairs rest
  end.

(** The key of [pairCounts]: the smaller id, a dash, the larger id; for
    ids that are not negative the string and the pair determine each other,
    and [key.split('-').map(Number)] gives the pair back.  The strings
    themselves are in [CoCitationKeys]. *)
Definition coCitationKey (x y : Z) : Z * Z := (Z.min x y, Z.max x y).

Definition count_pair (pairCounts : list (Z * Z * Z)) (xy : Z * Z)
    : list (Z * Z * Z) :=
  let key := coCitationKey (fst xy) (snd xy) in
  map_set pair_eqb pairCounts key
    (match map_get pair_eqb pairCounts key with
     | Some n => n + 1
     | None => 0 + 1
     end).

Definition count_pairs (citingToRefs : list (Z * list Z)) : list (Z * Z * Z) :=
  fold_left
    (fun pairCounts entry => fold_left count_pair (index_pairs (snd entry)) pairCounts)
    citingToRefs [].

(** [computeCoCitation] *)
Definition computeCoCitation (edges : list Edge) : list Edge :=
  let pairCounts := count_pairs (group_refs (citesEdges edges)) in
  let maxCount := fold_left Z.max (map_values pairCounts) 1 in
  map (fun kc =>
         mkEdge None (fst (fst kc)) (snd (fst kc)) CO_CITED
                (IZR (snd kc) / IZR maxCount)%R 1%R None None algo
                (ProvCoCitation (snd kc)))
      pairCounts.

(** [for (const ref of refsA) if (refsB.has(ref)) overlap++] *)
Definition overlap_size (refsA refsB : list Z) : Z :=
  Z.of_nat (List.length (filter (fun ref => set_has Z.eqb refsB ref) refsA)).

Definition refs_of (paperRefs : list (Z * list Z)) (p : Z) : list Z :=
  match map_get Z.eqb paperRefs p with Some refs => refs | None => [] end.

Definition set_size (s : list Z) : Z := Z.of_nat (List.length s).

(** The inner loop of [computeBibCoupling] for the paper [pa] and the
    papers after it. *)
Definition couple_with (paperRefs : list (Z * list Z)) (pa : Z)
    (later : list Z) : list Edge :=
  let refsA := refs_of paperRefs pa in
  if set_size refsA =? 0 then []
  else
    flat_map
      (fun pb =>
         let refsB := refs_of paperRefs pb in
         if set_size refsB =? 0 then []
         else
           let overlap := overlap_size refsA refsB in
           if overlap =? 0 then []
           else
             [mkEdge None pa pb BIB_COUPLED
                     (IZR overlap / IZR (Z.min (set_size refsA) (set_size refsB)))%R
                     1%R None None algo
                     (ProvBibCoupling overlap (set_size refsA) (set_size refsB))])
      later.

Fixpoint couple_all (paperRefs : list (Z * list Z)) (papers : list Z)
    : list Edge :=
  match papers with
  | [] => []
  | pa :: later => couple_with paperRefs pa later ++ couple_all paperRefs later
  end.

(** [computeBibCoupling] *)
Definition computeBibCoupling (edges : list Edge) : list Edge :=
  let paperRefs := group_refs (citesEdges edges) in
  couple_all paperRefs (map_keys paperRefs).

(** A graphology graph: its nodes and its weighted arcs, in insertion
    order.  Node keys are the decimal strings of paper ids; the ids stand
    for them. *)
Record Graph : Type := mkGraph {
  nodes : list Z;
  arcs : list (Z * Z * R)
}.

Definition hasNode (g : Graph) (n : Z) : bool := set_has Z.eqb (nodes g) n.
Definition hasEdge (g : Graph) (a b : Z) : bool :=
  existsb (fun arc => pair_eqb (fst arc) (a, b)) (arcs g).

(** [graph.addNode] throws on a node that is already there; [None] is a
    thrown error. *)
Definition addNode (g : Graph) (n : Z) : option Graph :=
  if hasNode g n then None else Some (mkGraph (nodes g ++ [n]) (arcs g)).

(** [graph.addEdge] throws on a loop in a graph built with
    [allowSelfLoops: false]. *)
Definition addEdge (allowSelfLoops : bool) (g : Graph) (a b : Z) (w : R)
    : option Graph :=
  if negb allowSelfLoops && (a =? b) then None
  else Some (mkGraph (nodes g) (arcs g ++ [(a, b, w)])).

Definition add_paper_nodes (papers : list Paper) : option Graph :=
  fold_left
    (fun og p =>
       match og, paper_id p with
       | Some g, Some id => addNode g id
       | _, _ => og
       end)
    papers (Some (mkGraph [] [])).

Definition add_edges (allowSelfLoops : bool) (edges : list Edge)
    (og : option Graph) : option Graph :=
  fold_left
    (fun og e =>
       match og with
       | Some g =>
           if hasNode g (src_paper_id e) && hasNode g (dst_paper_id e)
              && negb (hasEdge g (src_paper_id e) (dst_paper_id e))
           then addEdge allowSelfLoops g (src_paper_id e) (dst_paper_id e)
                        (weight e)
           else og
       | None => None
       end)
    edges og.

(** The graphology routines the build engine calls: PageRank with
    [alpha = 0.85], 100 iterations and tolerance [1e-6], which throws when it
    does not converge, and Louvain with resolution 1 on the undirected
    projection ([toUndirected]) of a directed graph, whose result is listed
    as [Object.entries] lists it. *)
Record GraphLibrary : Type := mkGraphLibrary {
  pagerank : Graph -> option (list (Z * R));
  louvain_undirected : Graph -> list (Z * Z)
}.

(** [computePageRank]; [None] when an error is thrown. *)
Definition computePageRank (lib : GraphLibrary) (papers : list Paper)
    (edges : list Edge) : option (list (Z * R)) :=
  match add_edges true (citesEdges edges) (add_paper_nodes papers) with
  | None => None
  | Some graph =>
      match pagerank lib graph with
      | None => None
      | Some scores =>
          Some (fold_left (fun m ns => map_set Z.eqb m (fst ns) (snd ns)) scores [])
      end
  end.

(** [computeLouvainClusters]; [None] when an error is thrown. *)
Definition computeLouvainClusters (lib : GraphLibrary) (papers : list Paper)
    (edges : list Edge) : option (list (Z * list Z)) :=
  match add_edges false edges (add_paper_nodes papers) with
  | None => None
  | Some directedGraph =>
      if (List.length (nodes directedGraph) =? 0)%nat then Some []
      else
        Some
          (fold_left
             (fun clusterMap nc =>
                let m1 := if map_has Z.eqb clusterMap (snd nc) then clusterMap
                          else map_set Z.eqb clusterMap (snd nc) [] in
                match map_get Z.eqb m1 (snd nc) with
                | Some ids => map_set Z.eqb m1 (snd nc) (ids ++ [fst nc])
                | None => m1
                end)
             (louvain_undirected lib directedGraph) [])
  end.

(** [buildClusterObjects]; a cluster without a name in [clusterNames] is
    called [Cluster <id>]. *)
Definition buildClusterObjects (clusterMap : list (Z * list Z))
    (clusterNames : list (Z * string))
    : list Cluster * list (Z * list Z) :=
  fst
    (fold_left
       (fun (st : list Cluster * list (Z * list Z) * Z) entry =>
          let '(clusters, paperMappings, idx) := st in
          let communityId := fst entry in
          let paperIds := snd entry in
          let name :=
            match map_get Z.eqb clusterNames communityId with
            | Some n => n
            | None => ("Cluster " ++ String_of_number (Some communityId))%string
            end in
          (clusters ++ [mkCluster None "louvain_citation" (Some name) None
                                  (Z.of_nat (List.length paperIds)) communityId],
           map_set Z.eqb paperMappings idx paperIds,
           idx + 1))
       clusterMap ([], [], 0)).

(** Invariants of the loops: the map from citing paper to reference set
    has distinct keys and sets without repetition; the pair counts have
    distinct keys, each with its smaller id first. *)
Definition refs_ok (m : list (Z * list Z)) : Prop :=
  NoDup (map fst m) /\ Forall (fun entry => NoDup (snd entry)) m.

Definition counts_ok (pc : list (Z * Z * Z)) : Prop :=
  NoDup (map fst pc) /\ Forall (fun kc => fst (fst kc) < snd (fst kc)) pc.

(** The CITES edges [5 -> 1] and [3 -> 1]. *)
Definition cites (a b : Z) : Edge :=
  mkEdge None a b CITES 1%R 1%R None None algo (ProvJson "{}").

Definition coupling_example : list Edge := [cites 5 1; cites 3 1].

End Algorithms.

(* ================================================================== *)
(** * src/graph/algorithms.ts: the string keys of computeCoCitation *)
(* ================================================================== *)

(** [computeCoCitation] with the keys of [pairCounts] as the strings the
    source builds and splits again.  [Algorithms.computeCoCitation] has the
    pairs themselves as keys; for ids that are not negative the two agree
    ([computeCoCitation_keys]). *)
Module CoCitationKeys.
Import Js Types Algorithms.
Local Open Scope string_scope.
Local Open Scope Z_scope.

(** [`${a}-${b}`] for the smaller and the larger of two ids. *)
Definition pairCountsKey (x y : Z) : string :=
  String_of_number (Some (Z.min x y)) ++ "-"
  ++ String_of_number (Some (Z.max x y)).

(** [key.split('-')]: [cur] is the piece being read. *)
Fixpoint split_dash (cur : string) (s : string) : list string :=
  match s with
  | EmptyString => [cur]
  | String c s' =>
      if Ascii.eqb c "-" then cur :: split_dash "" s'
      else split_dash (cur ++ String c "") s'
  end.

(** [Number(piece)] for a piece of a key: the empty string is 0, a string
    of digits its decimal value.  Any other string is [NaN], which no piece
    of a key is ([pairCountsKey_pieces]); 0 stands for it here. *)
Definition Number (piece : string) : Z :=
  match NilEmpty.uint_of_string piece with
  | Some d => Z.of_uint d
  | None => 0
  end.

(** [const [a, b] = key.split('-').map(Number)]; a key has two pieces at
    least ([pairCountsKey_pieces]). *)
Definition key_ends (key : string) : Z * Z :=
  let pieces := map Number (split_dash "" key) in
  (nth 0 pieces 0, nth 1 pieces 0).

Definition count_key (pairCounts : list (string * Z)) (xy : Z * Z)
    : list (string * Z) :=
  let key := pairCountsKey (fst xy) (snd xy) in
  map_set String.eqb pairCounts key
    (match map_get String.eqb pairCounts key with
     | Some n => n + 1
     | None => 0 + 1
     end).

Definition count_keys (citingToRefs : list (Z * list Z)) : list (string * Z) :=
  fold_left
    (fun pairCounts entry => fold_left count_key (index_pairs (snd entry)) pairCounts)
    citingToRefs [].

(** [computeCoCitation] *)
Definition computeCoCitation (edges : list Edge) : list Edge :=
  let pairCounts := count_keys (group_refs (citesEdges edges)) in
  let maxCount := fold_left Z.max (map_values pairCounts) 1 in
  map (fun kc =>
         mkEdge None (fst (key_ends (fst kc))) (snd (key_ends (fst kc))) CO_CITED
                (IZR (snd kc) / IZR maxCount)%R 1%R None None algo
                (ProvCoCitation (snd kc)))
      pairCounts.

(** The key of a pair whose smaller id comes first. *)
Definition key_of_pair (k : Z * Z) : string :=
  String_of_number (Some (fst k)) ++ "-" ++ String_of_number (Some (snd k)).

Definition no_dash (s : string) : Prop :=
  forall c, In c (list_ascii_of_string s) -> c <> "-"%char.

(** [Number(piece)] is a number, not [NaN]. *)
Definition numeric (piece : string) : Prop :=
  NilEmpty.uint_of_string piece <> None.

Definition digit_or_dash (c : ascii) : Prop :=
  c = "-"%char \/ numeric (String c "").

(** Both ids of a pair are not negative. *)
Definition not_negative (k : Z * Z) : Prop := 0 <= fst k /\ 0 <= snd k.

(** A pair count under the key of its pair. *)
Definition keyed (kc : Z * Z * Z) : string * Z := (key_of_pair (fst kc), snd kc).

(** Papers 3 and 4 both cite papers 1 and 2. *)
Definition cocitation_example : list Edge :=
  [cites 3 1; cites 3 2; cites 4 1; cites 4 2].

(** Paper 1 cites a paper with the id -1, and paper 2. *)
Definition negative_id_example : list Edge := [cites 1 (-1); cites 1 2].

End CoCitationKeys.

(* ================================================================== *)
(** * src/graph/scoring.ts *)
(* ================================================================== *)

Module Scoring.
Import Js Types TfIdf Tokenizer.

(** A JavaScript number that may have left the reals: the oldest year is
    [Infinity] when no paper has a year above 1900. *)
Inductive Num : Type :=
| Finite (r : R)
| PosInfinity
| NegInfinity
| NaN.

(** [ScoringWeights] and [DEFAULT_WEIGHTS] *)
Record ScoringWeights : Type := mkWeights {
  w_pagerank : R;
  w_relevance : R;
  w_recency : R
}.

Definition DEFAULT_WEIGHTS : ScoringWeights :=
  mkWeights (5 / 10)%R (3 / 10)%R (2 / 10)%R.

(** [Math.min(...years)]: [None] is [Infinity], the minimum of nothing. *)
Definition min_years (years : list Z) : option Z :=
  match years with
  | [] => None
  | y :: rest => Some (fold_left Z.min rest y)
  end.

(** [p.year ?? currentYear] *)
Definition year_or (currentYear : Z) (p : Paper) : Z :=
  match year p with Some y => y | None => currentYear end.

(** [oldestYear] *)
Definition oldestYear (currentYear : Z) (papers : list Paper) : option Z :=
  min_years (filter (fun y => (1900 <? y)%Z) (map (year_or currentYear) papers)).

(** [yearRange = Math.max(1, currentYear - oldestYear)] *)
Definition yearRange (currentYear : Z) (oldest : option Z) : Z :=
  match oldest with
  | Some o => Z.max 1 (currentYear - o)
  | None => 1%Z
  end.

(** [recency = yearRange > 0 ? (paperYear - oldestYear) / yearRange : 0.5] *)
Definition recency (paperYear : Z) (oldest : option Z) (range : Z) : Num :=
  if (0 <? range)%Z then
    match oldest with
    | Some o => Finite (IZR (paperYear - o) / IZR range)
    | None => NegInfinity
    end
  else Finite (1 / 2).

(** [x * w] for a real weight [w] *)
Definition num_times (x : Num) (w : R) : Num :=
  match x with
  | Finite r => Finite (r * w)
  | PosInfinity =>
      if Rltb 0 w then PosInfinity else if Rltb w 0 then NegInfinity else NaN
  | NegInfinity =>
      if Rltb 0 w then NegInfinity else if Rltb w 0 then PosInfinity else NaN
  | NaN => NaN
  end.

(** [a + x] for a real [a] *)
Definition num_plus (a : R) (x : Num) : Num :=
  match x with
  | Finite r => Finite (a + r)
  | other => other
  end.

(** [Math.min(1.0, x)] *)
Definition num_min1 (x : Num) : Num :=
  match x with
  | Finite r => Finite (Rmin 1 r)
  | PosInfinity => Finite 1
  | NegInfinity => NegInfinity
  | NaN => NaN
  end.

(** [maxPagerank = Math.max(0.001, ...pagerankScores.values())] *)
Definition maxPagerank (pagerankScores : list (Z * R)) : R :=
  math_max (1 / 1000) (map_values pagerankScores).

(** Normalised PageRank of a paper *)
Definition normalized_pagerank (pagerankScores : list (Z * R)) (id : Z) : R :=
  ((match map_get Z.eqb pagerankScores id with Some s => s | None => 0 end)
   / maxPagerank pagerankScores)%R.

(** Relevance of a paper to the query *)
Definition relevance_of (corpus : TfIdfCorpus) (queryTokens : list string)
    (p : Paper) (id : Z) : R :=
  let sourceId := if String.eqb (source_id p) ""
                  then String_of_number (Some id) else source_id p in
  match queryTokens with
  | [] => 0%R
  | _ => computeRelevance corpus sourceId queryTokens
  end.

(** The body of the loop of [computeCompositeScores] for the paper [p]
    with id [id]. *)
Definition composite_of (currentYear : Z) (papers : list Paper)
    (pagerankScores : list (Z * R)) (corpus : TfIdfCorpus)
    (queryTokens : list string) (weights : ScoringWeights)
    (p : Paper) (id : Z) : Num :=
  let oldest := oldestYear currentYear papers in
  let range := yearRange currentYear oldest in
  let pr := normalized_pagerank pagerankScores id in
  let relevance := relevance_of corpus queryTokens p id in
  let paperYear := year_or currentYear p in
  let rec := recency paperYear oldest range in
  num_min1
    (num_plus (pr * w_pagerank weights + relevance * w_relevance weights)%R
              (num_times rec (w_recency weights))).

(** [computeCompositeScores]; [currentYear] is [new Date().getFullYear()]. *)
Definition computeCompositeScores (currentYear : Z) (papers : list Paper)
    (pagerankScores : list (Z * R)) (corpus : TfIdfCorpus)
    (topic : option string) (weights : ScoringWeights) : list (Z * Num) :=
  let queryTokens := match topic with
                     | Some t => tokenize t
                     | None => []
                     end in
  fold_left
    (fun scores p =>
       match paper_id p with
       | None => scores
       | Some id =>
           map_set Z.eqb scores id
             (composite_of currentYear papers pagerankScores corpus
                           queryTokens weights p id)
       end)
    papers [].

(** Two papers, of 2000 and of 1850. *)
Definition paper_2000 : Paper :=
  mkPaper (Some 1%Z) "openalex" "W1" None None "Attention" None (Some 2000%Z)
          None None 0 None None None.

Definition paper_1850 : Paper :=
  mkPaper (Some 2%Z) "openalex" "W2" None None "Electromagnetism" None
          (Some 1850%Z) None None 0 None None None.

(** PageRank scores and a corpus for the two papers. *)
Definition example_pagerank : list (Z * R) :=
  [ (1%Z, (3 / 4)%R); (2%Z, (1 / 4)%R) ].

Definition example_corpus : TfIdfCorpus :=
  mkCorpus [ ("W1"%string, [ ("attention"%string, 1%R) ]);
             ("W2"%string, [ ("electromagnetism"%string, 1%R) ]) ]
           [ ("attention"%string, 1%Z); ("electromagnetism"%string, 1%Z) ]
           2.

End Scoring.

(* ================================================================== *)
(** * src/cache/response-cache.ts *)
(* ================================================================== *)

Module Cache.
Import Js.
Local Open Scope string_scope.
Local Open Scope R_scope.

(** A file of the cache directory: a parsed entry
    [{timestamp, url, data}], or content that [JSON.parse] rejects.  Times
    are milliseconds since the epoch. *)
Inductive CacheFile : Type :=
| Entry (timestamp : R) (url : string) (data : string)
| Unreadable.

(** The files, by path. *)
Definition FileSystem : Type := list (string * CacheFile).

Record ResponseCache : Type := mkCache {
  cacheDir : string;
  ttlMs : R;
  enabled : bool
}.

(** The constructor; the directory it creates has no content of its own. *)
Definition new_ResponseCache (dir : option string) (ttlHours : option R)
    (on : option bool) : ResponseCache :=
  mkCache (match dir with Some d => d | None => ".papergraph-cache"%string end)
          ((match ttlHours with Some h => h | None => 24 end) * 60 * 60 * 1000)
          (match on with Some b => b | None => true end).

Section WithHash.
(** [createHash('sha256').update(url).digest('hex')] *)
Variable sha256 : string -> string.

Definition makeKey (url : string) : string := sha256 url.

(** [join(this.cacheDir, `${key}.json`)] *)
Definition filePath (c : ResponseCache) (url : string) : string :=
  (cacheDir c ++ "/" ++ makeKey url ++ ".json")%string.

(** [get] at time [now]; [None] is [null]. *)
Definition get (c : ResponseCache) (fs : FileSystem) (now : R) (url : string)
    : option string :=
  if negb (enabled c) then None
  else
    match map_get String.eqb fs (filePath c url) with
    | None => None
    | Some Unreadable => None
    | Some (Entry timestamp _ data) =>
        if Rltb (ttlMs c) (now - timestamp) then None else Some data
    end.

(** [set] at time [now]; the stored url is cut to 200 characters. *)
Definition set (c : ResponseCache) (fs : FileSystem) (now : R) (url data : string)
    : FileSystem :=
  if negb (enabled c) then fs
  else map_set String.eqb fs (filePath c url)
               (Entry now (String.substring 0 200 url) data).

(** [has] *)
Definition has (c : ResponseCache) (fs : FileSystem) (now : R) (url : string)
    : bool :=
  match get c fs now url with Some _ => true | None => false end.
End WithHash.

End Cache.

(* ================================================================== *)
(** * src/utils/http-client.ts *)
(* ================================================================== *)

Module Http.
Import Js Cache.
Local Open Scope string_scope.
Local Open Scope R_scope.

Definition RETRYABLE_STATUS_CODES : list Z := [429; 500; 502; 503; 504]%Z.

Definition RETRYABLE_ERROR_CODES : list string :=
  [ "ECONNRESET"; "ECONNREFUSED"; "ETIMEDOUT"; "UND_ERR_SOCKET";
    "UND_ERR_CONNECT_TIMEOUT" ]%string.

(** What [fetch] does on one call: a response, or a thrown error with its
    [code] and whether it is an [AbortError]. *)
Inductive FetchOutcome : Type :=
| Responded (status : Z) (statusText : string)
            (headers : list (string * string)) (body : string)
            (bodyParses : bool)
| Failed (code : option string) (aborted : bool) (message : string).

Inductive Event : Type :=
| Fetched (url method : string) (headers : list (string * string))
          (body : option string)
| Slept (ms : R).

(** The world around the transport: the clock (which a sleep advances), the
    cache directory, what the network will answer to the successive calls of
    [fetch], the values [Math.random] will return, and what happened. *)
Record World : Type := mkWorld {
  now : R;
  files : FileSystem;
  network : list FetchOutcome;
  random : list R;
  events : list Event
}.

(** [sleep(ms)] *)
Definition sleep (w : World) (ms : R) : World :=
  mkWorld (now w + ms) (files w) (network w) (random w)
          (events w ++ [Slept ms]).

(** One call of [fetch]; a network that answers nothing refuses the
    connection. *)
Definition fetch (w : World) (url method : string)
    (headers : list (string * string)) (body : option string)
    : FetchOutcome * World :=
  let w' := mkWorld (now w) (files w) (tl (network w)) (random w)
                    (events w ++ [Fetched url method headers body]) in
  match network w with
  | outcome :: _ => (outcome, w')
  | [] => (Failed (Some "ECONNREFUSED"%string) false "fetch failed", w')
  end.

(** [Math.random()] *)
Definition math_random (w : World) : R * World :=
  (match random w with r :: _ => r | [] => 0 end,
   mkWorld (now w) (files w) (network w) (tl (random w)) (events w)).

(** [TokenBucket] *)
Record TokenBucket : Type := mkBucket {
  tokensPerSecond : R;
  maxTokens : R;
  tokens : R;
  lastRefill : R
}.

(** [refill] *)
Definition refill (b : TokenBucket) (t : R) : TokenBucket :=
  let elapsed := (t - lastRefill b) / 1000 in
  mkBucket (tokensPerSecond b) (maxTokens b)
           (Rmin (maxTokens b) (tokens b + elapsed * tokensPerSecond b)) t.

Definition take_token (b : TokenBucket) : TokenBucket :=
  mkBucket (tokensPerSecond b) (maxTokens b) (tokens b - 1) (lastRefill b).

(** [acquire] *)
Definition acquire (b : TokenBucket) (w : World) : TokenBucket * World :=
  let b1 := refill b (now w) in
  if Rleb 1 (tokens b1) then (take_token b1, w)
  else
    let waitMs := (1 - tokens b1) / tokensPerSecond b1 * 1000 in
    let w1 := sleep w waitMs in
    (take_token (refill b1 (now w1)), w1).

(** [RATE_LIMITS]: tokens per second and burst of a source key. *)
Definition RATE_LIMITS (source : string) : R * R :=
  if String.eqb source "openalex" then (10, 10)
  else if String.eqb source "s2" then (1, 1)
  else if String.eqb source "openai" then (5, 5)
  else if String.eqb source "ollama" then (100, 100)
  else (5, 5).

Record HttpRequestOptions : Type := mkOptions {
  opt_method : option string;
  opt_headers : list (string * string);
  opt_body_object : option string;
  opt_body_string : option string;
  opt_timeout : option R;
  opt_source : option string
}.

Inductive Data : Type :=
| JsonData (json : string)
| TextData (text : string).

Record HttpResponse : Type := mkResponse {
  resp_status : Z;
  resp_headers : list (string * string);
  resp_data : Data;
  resp_ok : bool
}.

Record HttpError : Type := mkHttpError {
  err_message : string;
  err_status : Z;
  err_retryable : bool;
  err_response : option Data
}.

(** [HttpClient]; it holds no reference to a cache. *)
Record HttpClient : Type := mkClient {
  buckets : list (string * TokenBucket);
  requestCounts : list (string * Z);
  defaultTimeout : R;
  userAgent : string
}.

Definition new_HttpClient (timeout : option R) (version email : option string)
    : HttpClient :=
  mkClient [] []
           (match timeout with Some t => t | None => 30000 end)
           ("PaperGraph/"
            ++ match version with Some v => v | None => "1.0.0" end
            ++ " (mailto:"
            ++ match email with Some e => e | None => "papergraph@example.com" end
            ++ ")")%string.

(** [getBucket] *)
Definition getBucket (c : HttpClient) (w : World) (source : string)
    : TokenBucket * HttpClient :=
  match map_get String.eqb (buckets c) source with
  | Some b => (b, c)
  | None =>
      let config := RATE_LIMITS source in
      let b := mkBucket (fst config) (snd config) (snd config) (now w) in
      (b, mkClient (map_set String.eqb (buckets c) source b)
                   (requestCounts c) (defaultTimeout c) (userAgent c))
  end.

(** [String.prototype.includes] *)
Fixpoint includes (s sub : string) : bool :=
  String.prefix sub s
  || match s with
     | EmptyString => false
     | String _ s' => includes s' sub
     end.

Section WithParsers.
(** [parseInt(header, 10)] and [new Date(header).getTime()]; [None] is
    [NaN]. *)
Variable parseInt : string -> option Z.
Variable parseDate : string -> option R.

(** [parseRetryAfter] at time [t] *)
Definition parseRetryAfter (header : option string) (t : R) : option R :=
  match header with
  | None => None
  | Some h =>
      if String.eqb h "" then None
      else
        match parseInt h with
        | Some seconds => Some (IZR seconds * 1000)
        | None =>
            match parseDate h with
            | Some date => Some (Rmax 0 (date - t))
            | None => None
            end
        end
  end.

(** [calculateBackoff]: exponential backoff with jitter *)
Definition calculateBackoff (w : World) (attempt : nat) (initial max : R)
    : R * World :=
  let exponential := initial * 2 ^ attempt in
  let (r, w') := math_random w in
  let jitter := r * exponential * (5 / 10) in
  (Rmin max (exponential + jitter), w').

Definition maxRetries : nat := 3.
Definition initialBackoff : R := 1000.
Definition maxBackoff : R := 30000.

(** The outcome of [request]: the response, or the [HttpError] thrown. *)
Definition Outcome : Type := ((HttpResponse + HttpError) * World)%type.

(** [await sleep(backoff); continue], the backoff being the Retry-After
    delay when there is one. *)
Definition after_backoff (continue : World -> Outcome) (w1 : World)
    (attempt : nat) (retryAfter : option R) : Outcome :=
  let (backoff, w2) :=
    match retryAfter with
    | Some ms => (ms, w1)
    | None => calculateBackoff w1 attempt initialBackoff maxBackoff
    end in
  continue (sleep w2 backoff).

(** The [catch] block, for an error that is not an [HttpError].  The
    message of a timeout leaves out the number of milliseconds. *)
Definition on_error (continue : World -> Outcome) (w1 : World) (attempt : nat)
    (url : string) (code : option string) (aborted : bool) (message : string)
    : Outcome :=
  let retryable :=
    match code with
    | Some c => set_has String.eqb RETRYABLE_ERROR_CODES c
    | None => false
    end in
  if retryable && (attempt <? maxRetries)%nat then
    after_backoff continue w1 attempt None
  else if aborted then
    (inr (mkHttpError ("Request timeout: " ++ url) 0 true None), w1)
  else
    (inr (mkHttpError ("Network error: " ++ message) 0 retryable None), w1).

(** The [try] block once [fetch] has answered. *)
Definition on_response (continue : World -> Outcome) (w1 : World)
    (attempt : nat) (url : string) (status : Z) (statusText : string)
    (headers : list (string * string)) (body : string) (bodyParses : bool)
    : Outcome :=
  let contentType :=
    match map_get String.eqb headers "content-type" with
    | Some ct => ct
    | None => ""
    end in
  let isJson := includes contentType "application/json" in
  if isJson && negb bodyParses then
    on_error continue w1 attempt url None false "Unexpected token in JSON"
  else
    let data := if isJson then JsonData body else TextData body in
    let ok := ((200 <=? status) && (status <=? 299))%Z in
    if negb ok then
      let retryable := set_has Z.eqb RETRYABLE_STATUS_CODES status in
      if retryable && (attempt <? maxRetries)%nat then
        after_backoff continue w1 attempt
          (parseRetryAfter (map_get String.eqb headers "retry-after") (now w1))
      else
        (inr (mkHttpError
                ("HTTP " ++ String_of_number (Some status) ++ ": " ++ statusText)
                status retryable (Some data)), w1)
    else (inl (mkResponse status headers data true), w1).

(** The retry loop of [request]: [remaining] attempts are left, [attempt]
    is the index of the next one. *)
Fixpoint attempts (remaining attempt : nat) (w : World) (url method : string)
    (requestHeaders : list (string * string)) (requestBody : option string)
    : Outcome :=
  match remaining with
  | O =>
      (inr (mkHttpError ("Max retries exceeded for " ++ url) 0 false None), w)
  | S remaining' =>
      let (outcome, w1) := fetch w url method requestHeaders requestBody in
      let continue := fun w' =>
        attempts remaining' (S attempt) w' url method requestHeaders requestBody in
      match outcome with
      | Failed code aborted message =>
          on_error continue w1 attempt url code aborted message
      | Responded status statusText headers body bodyParses =>
          on_response continue w1 attempt url status statusText headers body
                      bodyParses
      end
  end.

(** [HttpClient.request]: token, request count, headers and body, then the
    retry loop.  The result is the response or the [HttpError] thrown.  The
    timeout only decides when [fetch] fails with an abort, which the network
    of the world already tells. *)
Definition request (c : HttpClient) (w : World) (url : string)
    (options : HttpRequestOptions)
    : (HttpResponse + HttpError) * HttpClient * World :=
  let method := match opt_method options with
                | Some m => m
                | None => "GET"%string
                end in
  let source := match opt_source options with
                | Some s => s
                | None => "default"%string
                end in
  let (bucket, c1) := getBucket c w source in
  let (bucket', w1) := acquire bucket w in
  let c2 :=
    mkClient (map_set String.eqb (buckets c1) source bucket')
             (map_set String.eqb (requestCounts c1) source
                (match map_get String.eqb (requestCounts c1) source with
                 | Some n => n + 1
                 | None => 0 + 1
                 end)%Z)
             (defaultTimeout c1) (userAgent c1) in
  let headers0 :=
    fold_left (fun h kv => map_set String.eqb h (fst kv) (snd kv))
              (opt_headers options) [("User-Agent"%string, userAgent c)] in
  let (requestHeaders, requestBody) :=
    match opt_body_object options, opt_body_string options with
    | Some json, _ =>
        (if map_has String.eqb headers0 "Content-Type" then headers0
         else map_set String.eqb headers0 "Content-Type" "application/json"%string,
         Some json)
    | None, Some text =>
        (headers0, if String.eqb text "" then None else Some text)
    | None, None => (headers0, None)
    end in
  let (result, w2) :=
    attempts (S maxRetries) 0 w1 url method requestHeaders requestBody in
  (result, c2, w2).

(** [get] and [post] *)
Definition http_get (c : HttpClient) (w : World) (url : string)
    (options : HttpRequestOptions) :=
  request c w url
    (mkOptions (Some "GET"%string) (opt_headers options)
               (opt_body_object options) (opt_body_string options)
               (opt_timeout options) (opt_source options)).

(** [getRequestCount] *)
Definition getRequestCount (c : HttpClient) (source : string) : Z :=
  match map_get String.eqb (requestCounts c) source with
  | Some n => n
  | None => 0%Z
  end.
End WithParsers.

(** A request with no option set. *)
Definition no_options : HttpRequestOptions :=
  mkOptions None [] None None None None.

(** A cache with the default directory and TTL, holding an entry for
    [cached_url] written one second before the request, and a network that
    answers the request with fresh JSON. *)
Definition cached_url : string := "https://api.openalex.org/works/W1".

Definition default_cache : ResponseCache := new_ResponseCache None None None.

Definition fresh_headers : list (string * string) :=
  [ ("content-type", "application/json") ].

Definition world_with_cached_entry (sha256 : string -> string) : World :=
  mkWorld 1000
          (Cache.set sha256 default_cache [] 0 cached_url "{cached}")
          [ Responded 200 "OK" fresh_headers "{fresh}" true ]
          [] [].

End Http.

(* ================================================================== *)
(** * src/builder/graph-builder.ts *)
(* ================================================================== *)

Module Builder.
Import Js Types Database TfIdf Similarity Algorithms Scoring.
Local Open Scope string_scope.
Local Open Scope Z_scope.

(** [SourceAdapter]: each operation returns what the promise resolves to,
    or [None] when it rejects. *)
Record SourceAdapter : Type := mkAdapter {
  searchByTopic : string -> Z -> option (list Paper);
  searchByTitle : string -> Z -> option (list Paper);
  fetchPaper : string -> option (option Paper);
  fetchReferences : string -> Z -> option (list Paper)
}.

(** The clock: [new Date().getFullYear()] and [new Date().toISOString()]. *)
Record Clock : Type := mkClock {
  currentYear : Z;
  nowISO : string
}.

(** A loop whose body may throw. *)
Fixpoint for_each (A S : Type) (body : S -> A -> option S) (l : list A) (s : S)
    : option S :=
  match l with
  | [] => Some s
  | x :: rest =>
      match body s x with
      | Some s' => for_each body rest s'
      | None => None
      end
  end.

(** [`${paper.source}:${paper.source_id}`] *)
Definition paper_key (p : Paper) : string := source p ++ ":" ++ source_id p.

(** [addUnique]; the state is [papers] and [seen]. *)
Definition addUnique (st : list Paper * list string) (p : Paper)
    : list Paper * list string :=
  let (papers, seen) := st in
  if set_has String.eqb seen (paper_key p) then st
  else ((papers ++ [p])%list, set_add String.eqb seen (paper_key p)).

(** [seedLimit = Math.max(10, Math.min(Math.floor(maxPapers * 0.4), 200))];
    for an integer [maxPapers] the floor is that of [2 * maxPapers / 5]. *)
Definition seedLimit (maxPapers : Z) : Z :=
  Z.max 10 (Z.min (2 * maxPapers / 5) 200).

(** [findSeeds]; [None] when a search or a fetch rejects. *)
Definition findSeeds (adapter : SourceAdapter) (config : PaperGraphConfig)
    : option (list Paper) :=
  let limit := seedLimit (maxPapers config) in
  let after_topic :=
    match topic config with
    | Some t =>
        if String.eqb t "" then Some ([], [])
        else
          match searchByTopic adapter t limit with
          | Some results => Some (fold_left addUnique results ([], []))
          | None => None
          end
    | None => Some ([], [])
    end in
  let after_titles :=
    match after_topic with
    | None => None
    | Some st =>
        for_each
          (fun st title =>
             match searchByTitle adapter title 5 with
             | Some (first :: _) => Some (addUnique st first)
             | Some [] => Some st
             | None => None
             end)
          (match paper config with Some titles => titles | None => [] end) st
    end in
  let after_dois :=
    match after_titles with
    | None => None
    | Some st =>
        for_each
          (fun st d =>
             match fetchPaper adapter d with
             | Some (Some p) => Some (addUnique st p)
             | Some None => Some st
             | None => None
             end)
          (match cfg_doi config with Some dois => dois | None => [] end) st
    end in
  match after_dois with
  | Some (papers, _) => Some (array_slice0 limit papers)
  | None => None
  end.

(** The state of [traverseCitations]. *)
Record Traversal : Type := mkTraversal {
  db : Store;
  visited : list string;
  edgeSeen : list (Z * Z);
  allEdges : list Edge;
  nextFrontier : list Paper
}.

Definition cites_edge (src dst : Z) (source : string) (d : Z) : Edge :=
  mkEdge None src dst CITES 1%R 1%R None None algo (ProvCites source d).

(** Emit the CITES edge from [src] to [dst] unless [edgeSeen] has its key
    ([`${src}->${dst}`], the pair here): persist it and push it. *)
Definition emit_edge (st : Traversal) (src dst : Z) (source : string) (d : Z)
    : Traversal :=
  if set_has pair_eqb (edgeSeen st) (src, dst) then st
  else
    let edge := cites_edge src dst source d in
    mkTraversal (insertEdges (db st) [edge]) (visited st)
                (set_add pair_eqb (edgeSeen st) (src, dst))
                (allEdges st ++ [edge]) (nextFrontier st).

(** The body of [for (const ref of refs)] for the frontier paper [p] with
    id [pid], at depth [d]. *)
Definition visit_reference (config : PaperGraphConfig) (d : Z)
    (atCapacity : bool) (p : Paper) (pid : Z) (st : Traversal) (ref : Paper)
    : Traversal :=
  let key := paper_key ref in
  let existingPaper := getPaperBySourceId (db st) (source ref) (source_id ref) in
  match existingPaper, match existingPaper with
                       | Some e => paper_id e
                       | None => None
                       end with
  | Some _, Some existingId => emit_edge st pid existingId (source p) d
  | _, _ =>
      if negb (set_has String.eqb (visited st) key) && negb atCapacity
         && (getPaperCount (db st) <? maxPapers config)
      then
        let (db', ids) := insertPapers (db st) [ref] in
        let st1 := mkTraversal db' (set_add String.eqb (visited st) key)
                               (edgeSeen st) (allEdges st) (nextFrontier st) in
        match ids with
        | Some refId :: _ =>
            let st2 := emit_edge st1 pid refId (source p) d in
            mkTraversal (db st2) (visited st2) (edgeSeen st2) (allEdges st2)
                        (nextFrontier st2 ++ [with_paper_id ref (Some refId)])
        | _ => st1
        end
      else st
  end.

(** The body of [for (const paper of frontier)]: a paper without id is
    skipped, a failed fetch is logged and skipped. *)
Definition visit_paper (adapter : SourceAdapter) (config : PaperGraphConfig)
    (d : Z) (atCapacity : bool) (st : Traversal) (p : Paper) : Traversal :=
  match paper_id p with
  | None => st
  | Some pid =>
      match fetchReferences adapter (source_id p) (maxRefsPerPaper config) with
      | None => st
      | Some refs =>
          fold_left (visit_reference config d atCapacity p pid) refs st
      end
  end.

(** [for (let d = 0; d < depth; d++)], [remaining] iterations being left. *)
Fixpoint depths (adapter : SourceAdapter) (config : PaperGraphConfig)
    (remaining : nat) (d : Z) (frontier : list Paper) (st : Traversal)
    : Traversal :=
  match remaining with
  | O => st
  | S remaining' =>
      let atCapacity := maxPapers config <=? getPaperCount (db st) in
      let st0 := mkTraversal (db st) (visited st) (edgeSeen st) (allEdges st) [] in
      let st1 := fold_left (visit_paper adapter config d atCapacity) frontier st0 in
      match nextFrontier st1 with
      | [] => st1
      | next => depths adapter config remaining' (d + 1) next st1
      end
  end.

(** [traverseCitations] *)
Definition traverseCitations (adapter : SourceAdapter) (store : Store)
    (seedPapers : list Paper) (config : PaperGraphConfig) : Traversal :=
  depths adapter config (Z.to_nat (depth config)) 0 seedPapers
         (mkTraversal store (fold_left (set_add String.eqb)
                                       (map paper_key seedPapers) [])
                      [] [] []).

(** [seedPapers[i].paper_id = seedIds[i]] *)
Fixpoint assign_ids (seedPapers : list Paper) (seedIds : list (option Z))
    : list Paper :=
  match seedPapers, seedIds with
  | p :: ps, id :: ids => with_paper_id p id :: assign_ids ps ids
  | p :: ps, [] => with_paper_id p None :: assign_ids ps []
  | [], _ => []
  end.

(** The map from [source_id] to [paper_id] *)
Definition paperIdMap_of (allPapers : list Paper) : list (string * Z) :=
  fold_left
    (fun m p =>
       match paper_id p with
       | Some id => map_set String.eqb m (source_id p) id
       | None => m
       end)
    allPapers [].

(** The names of the clusters: the top three terms, or [Cluster <id>]. *)
Definition clusterNames_of (corpus : TfIdfCorpus) (allPapers : list Paper)
    (clusterMap : list (Z * list Z)) : list (Z * string) :=
  fold_left
    (fun names entry =>
       let sourceIds :=
         flat_map
           (fun id =>
              match find (fun p => match paper_id p with
                                   | Some i => i =? id
                                   | None => false
                                   end) allPapers with
              | Some p => if String.eqb (source_id p) "" then [] else [source_id p]
              | None => []
              end)
           (snd entry) in
       let top := array_join ", " (getTopTerms corpus sourceIds 3) in
       map_set Z.eqb names (fst entry)
         (if String.eqb top ""
          then "Cluster " ++ String_of_number (Some (fst entry)) else top))
    clusterMap [].

(** Steps 3 to 8 of [buildGraph], after the traversal; [None] when
    PageRank or the clustering throws. *)
Definition postProcess (lib : GraphLibrary) (clock : Clock)
    (config : PaperGraphConfig) (store : Store) : option string * Store :=
  let allPapers := getAllPapers store in
  let corpus := buildCorpus allPapers in
  let paperIdMap := paperIdMap_of allPapers in
  let similar :=
    match spine config with
    | spine_similarity | spine_hybrid => true
    | _ => false
    end in
  let store1 :=
    if similar then
      insertEdges store
        (buildSimilarityEdges paperIdMap corpus
           (match similarity_topK config with Some k => k | None => 10 end)
           (match similarity_threshold config with
            | Some t => t
            | None => (25 / 100)%R
            end))
    else store in
  let dbEdges := getAllEdges store1 in
  let store2 :=
    match spine config with
    | spine_co_citation | spine_hybrid =>
        insertEdges store1 (computeCoCitation dbEdges)
    | _ => store1
    end in
  let store3 :=
    match spine config with
    | spine_coupling | spine_hybrid =>
        insertEdges store2 (computeBibCoupling dbEdges)
    | _ => store2
    end in
  let finalEdges := getAllEdges store3 in
  match computePageRank lib allPapers finalEdges with
  | None => (None, close store3)
  | Some pagerankScores =>
      match computeLouvainClusters lib allPapers finalEdges with
      | None => (None, close store3)
      | Some clusterMap =>
          let clusterNames := clusterNames_of corpus allPapers clusterMap in
          let (clusters, paperMappings) :=
            buildClusterObjects clusterMap clusterNames in
          let store4 := insertClusters store3 clusters paperMappings in
          let store5 :=
            fold_left (fun s entry => updatePaperScore s (fst entry) (snd entry))
                      pagerankScores store4 in
          let stats := getStats store5 in
          let store6 :=
            fst (insertRun store5
                   (mkRun None (nowISO clock) "1.0.0" config (cfg_source config)
                          (spine config) (depth config) stats)) in
          (Some (out config), close store6)
      end
  end.

(** [buildGraph], on the database found at [config.out].  The result is
    the path returned, or [None] when an error is thrown; the store is the
    database the build leaves behind.  The composite scores, computed and
    not used, are left out. *)
Definition buildGraph (lib : GraphLibrary) (clock : Clock)
    (adapter : SourceAdapter) (config : PaperGraphConfig) (store : Store)
    : option string * Store :=
  match findSeeds adapter config with
  | None => (None, close store)
  | Some [] => (Some (out config), close store)
  | Some seedPapers =>
      let (store1, seedIds) := insertPapers store seedPapers in
      let seeds := assign_ids seedPapers seedIds in
      let t := traverseCitations adapter store1 seeds config in
      postProcess lib clock config (db t)
  end.

(** A stand-in for the graph library: PageRank gives every node the same
    score, the clustering puts every node in community 0. *)
Definition uniform_library : GraphLibrary :=
  mkGraphLibrary
    (fun g => Some (map (fun n => (n, (1 / IZR (Z.of_nat (List.length (nodes g))))%R))
                        (nodes g)))
    (fun g => map (fun n => (n, 0)) (nodes g)).

Definition clock_2026 : Clock := mkClock 2026 "2026-11-01T00:00:00.000Z".

Definition paper_of (sid ttl : string) : Paper :=
  mkPaper None "openalex" sid None None ttl None (Some 2020) None None 0 None
          None None.

Definition config_of (t : string) (d m : Z) : PaperGraphConfig :=
  mkConfig (Some t) None None "openalex" spine_citation d m 40 "graph.db"
           None None None None None.

(** An adapter that finds nothing. *)
Definition adapter_without_results : SourceAdapter :=
  mkAdapter (fun _ _ => Some []) (fun _ _ => Some []) (fun _ => Some None)
            (fun _ _ => Some []).

(** An adapter whose topic search finds ten papers, none with references. *)
Definition ten_papers : list Paper :=
  [ paper_of "W1" "Graph Theory"; paper_of "W2" "Number Theory";
    paper_of "W3" "Game Theory"; paper_of "W4" "Set Theory";
    paper_of "W5" "Type Theory"; paper_of "W6" "Knot Theory";
    paper_of "W7" "Group Theory"; paper_of "W8" "Field Theory";
    paper_of "W9" "Ring Theory"; paper_of "W10" "Proof Theory" ].

Definition adapter_with_ten_papers : SourceAdapter :=
  mkAdapter (fun _ _ => Some ten_papers) (fun _ _ => Some [])
            (fun _ => Some None) (fun _ _ => Some []).

(** An adapter whose topic search finds the paper W1, and whose reference
    list of W1 holds W1 itself and W2. *)
Definition adapter_with_self_citation : SourceAdapter :=
  mkAdapter (fun _ _ => Some [paper_of "W1" "Graph Theory"])
            (fun _ _ => Some []) (fun _ => Some None)
            (fun sid _ =>
               if String.eqb sid "W1"
               then Some [paper_of "W1" "Graph Theory";
                          paper_of "W2" "Number Theory"]
               else Some []).

End Builder.

(* ================================================================== *)
(** * src/sources/utils.ts: title matching *)
(* ================================================================== *)

Module TitleMatching.
Import Js.
Local Open Scope Z_scope.

Section CodeUnits.
(** A string is the list of its UTF-16 code units; [eqb] compares two of
    them ([a[i - 1] === b[j - 1]]). *)
Variable Unit : Type.
Variable eqb : Unit -> Unit -> bool.

(** The inner loop of [levenshteinDistance] for row [i], from column 1 on:
    [prev] is row [i - 1] from the column before the current one, [left]
    is [dp[i][j - 1]]. *)
Fixpoint fill_row (ai : Unit) (b : list Unit) (prev : list Z) (left : Z)
    : list Z :=
  match b, prev with
  | bj :: b', diag :: prev' =>
      match prev' with
      | up :: _ =>
          let cost := if eqb ai bj then 0 else 1 in
          let v := Z.min (Z.min (up + 1) (left + 1)) (diag + cost) in
          v :: fill_row ai b' prev' v
      | [] => []
      end
  | _, _ => []
  end.

(** Row [i] from row [i - 1]: [dp[i][0] = i], then the inner loop. *)
Definition next_row (b : list Unit) (st : list Z * Z) (ai : Unit) : list Z * Z :=
  let (prev, i) := st in (i :: fill_row ai b prev i, i + 1).

(** Row 0: [dp[0][j] = j]. *)
Definition first_row (n : nat) : list Z := map Z.of_nat (seq 0 (S n)).

(** [levenshteinDistance]: [dp[m][n]] is the last entry of the last row. *)
Definition levenshteinDistance (a b : list Unit) : Z :=
  let m := List.length a in
  let n := List.length b in
  if (m =? 0)%nat then Z.of_nat n
  else if (n =? 0)%nat then Z.of_nat m
  else last (fst (fold_left (next_row b) a (first_row n, 1))) 0.

(** [normA === normB] *)
Fixpoint units_eqb (a b : list Unit) : bool :=
  match a, b with
  | [], [] => true
  | x :: a', y :: b' => eqb x y && units_eqb a' b'
  | _, _ => false
  end.

(** [titleSimilarity]; [normalizeTitle] (lower case, punctuation and runs
    of white space to one space, trimmed) is a parameter. *)
Variable normalizeTitle : list Unit -> list Unit.

Definition titleSimilarity (a b : list Unit) : R :=
  let normA := normalizeTitle a in
  let normB := normalizeTitle b in
  if units_eqb normA normB then 1%R
  else
    let maxLen := Z.max (Z.of_nat (List.length normA))
                        (Z.of_nat (List.length normB)) in
    if maxLen =? 0 then 1%R
    else (1 - IZR (levenshteinDistance normA normB) / IZR maxLen)%R.

End CodeUnits.

End TitleMatching.

(* ================================================================== *)
(** * Predicates used to state further properties *)
(* ================================================================== *)

Module TokenizerSpec.
Import Js Tokenizer.

(** A character a token may hold. *)
Definition token_char (c : ascii) : bool :=
  is_lower_alpha c || is_digit c || is_hyphen c.

Definition alphanumeric (c : ascii) : bool := is_lower_alpha c || is_digit c.

Definition first_is_hyphen (t : list ascii) : bool :=
  match t with c :: _ => is_hyphen c | [] => false end.

(** What every token of [tokenize] is: two characters or more, all of
    them lower-case letters, digits or hyphens, no hyphen at either end, not
    a number and not a stopword. *)
Definition well_formed_token (t : string) : bool :=
  let cs := list_ascii_of_string t in
  (1 <? List.length cs)%nat
  && forallb token_char cs
  && negb (first_is_hyphen cs)
  && negb (first_is_hyphen (rev cs))
  && negb (pure_number cs)
  && negb (set_has String.eqb STOPWORDS t).

End TokenizerSpec.

Module AlgorithmsSpec.
Import Js Types.

(** The list [edges] holds a CITES edge from [c] to [d]. *)
Definition cites_in (edges : list Edge) (c d : Z) : Prop :=
  exists e, In e edges /\ type e = CITES
            /\ src_paper_id e = c /\ dst_paper_id e = d.

(** The ids of the papers that have one, in order. *)
Definition paper_ids (papers : list Paper) : list Z :=
  flat_map (fun p => match paper_id p with Some id => [id] | None => [] end)
           papers.

(** [l] lists, each once, the papers that [p] cites. *)
Definition references_of (edges : list Edge) (p : Z) (l : list Z) : Prop :=
  NoDup l /\ forall r, In r l <-> cites_in edges p r.

(** [l] lists, each once, the papers that cite both [a] and [b]. *)
Definition co_citers_of (edges : list Edge) (a b : Z) (l : list Z) : Prop :=
  NoDup l /\ forall c, In c l <-> cites_in edges c a /\ cites_in edges c b.

(** The number of elements of [l1] that [l2] holds too. *)
Definition shared (l1 l2 : list Z) : Z :=
  Z.of_nat (List.length (filter (fun r => existsb (Z.eqb r) l2) l1)).

(** In the order of the list, [a] cites before [b] does: the first CITES
    edge from [a] comes before every CITES edge from [b], of which there is
    one. *)
Definition cites_first (edges : list Edge) (a b : Z) : Prop :=
  exists before after,
    map src_paper_id (Algorithms.citesEdges edges) = (before ++ a :: after)%list
    /\ ~ In a before /\ ~ In b before /\ In b after.

(** The pair [xy] falls under the key [key] of the pair counts. *)
Definition key_is (key : Z * Z) (xy : Z * Z) : bool :=
  pair_eqb (Algorithms.coCitationKey (fst xy) (snd xy)) key.

(** The reference set of the entry holds both [a] and [b]. *)
Definition cites_both (a b : Z) (entry : Z * list Z) : bool :=
  set_has Z.eqb (snd entry) a && set_has Z.eqb (snd entry) b.

(** [pairCounts.get(key) ?? 0] *)
Definition count_or_zero (pairCounts : list (Z * Z * Z)) (key : Z * Z) : Z :=
  match map_get pair_eqb pairCounts key with Some n => n | None => 0%Z end.

End AlgorithmsSpec.

Module DatabaseSpec.
Import Types Database.

(** What the schema of the papers table guarantees: the unique index on
    [(source, source_id)], and the primary key, which every row has. *)
Definition well_formed (db : Store) : Prop :=
  NoDup (paper_keys db)
  /\ NoDup (map paper_id (papers db))
  /\ Forall (fun p => exists i, paper_id p = Some i) (papers db).

(** The ids of the stored papers. *)
Definition stored_ids (db : Store) : list Z :=
  flat_map (fun p => match paper_id p with Some id => [id] | None => [] end)
           (papers db).

(** Every edge joins two stored papers: the foreign keys of the edges
    table. *)
Definition edges_closed (db : Store) : Prop :=
  forall e, In e (edges db) ->
    In (src_paper_id e) (stored_ids db) /\ In (dst_paper_id e) (stored_ids db).

(** The number of edges of a type. *)
Definition edges_of_type (db : Store) (t : EdgeType) : Z :=
  Z.of_nat (List.length (filter (fun e => EdgeType_beq (type e) t) (edges db))).

End DatabaseSpec.

Module BuilderSpec.
Import Js Types Database DatabaseSpec Builder.

(** What the loop of [traverseCitations] keeps true, [store] being the
    store it started from: [edgeSeen] holds the citing and cited id of the
    edges pushed so far, each pair once; every edge pushed is a CITES edge
    as [cites_edge] makes it; the edges table is that of [store] followed
    by the edges pushed; the papers table extends that of [store]. *)
Definition traversal_ok (store : Store) (st : Traversal) : Prop :=
  map (fun e => (src_paper_id e, dst_paper_id e)) (allEdges st) = edgeSeen st
  /\ NoDup (edgeSeen st)
  /\ Forall (fun e => exists source d,
               e = cites_edge (src_paper_id e) (dst_paper_id e) source d)
            (allEdges st)
  /\ map (fun e => with_edge_id e None) (edges (db st))
     = map (fun e => with_edge_id e None) (edges store) ++ allEdges st
  /\ exists new, papers (db st) = papers store ++ new.

(** The papers of a list that have an id are stored under it. *)
Definition ids_stored (db : Store) (ps : list Paper) : Prop :=
  forall p id, In p ps -> paper_id p = Some id -> In id (stored_ids db).

(** The store of a traversal has its edges between stored papers, and the
    next frontier holds stored papers. *)
Definition traversal_closed (st : Traversal) : Prop :=
  edges_closed (db st) /\ ids_stored (db st) (nextFrontier st).

(** The invariants of the papers and edges tables together. *)
Definition store_ok (db : Store) : Prop := well_formed db /\ edges_closed db.

End BuilderSpec.

Module HttpSpec.
Import Js Cache Http.
Local Open Scope string_scope.
Local Open Scope R_scope.

Definition is_fetch (e : Event) : bool :=
  match e with Fetched _ _ _ _ => true | Slept _ => false end.

(** The number of calls of [fetch] so far. *)
Definition fetch_count (w : World) : nat :=
  List.length (filter is_fetch (events w)).

(** The number of sleeps so far. *)
Definition sleep_count (w : World) : nat :=
  List.length (filter (fun e => negb (is_fetch e)) (events w)).

(** The source key of a request. *)
Definition source_of (options : HttpRequestOptions) : string :=
  match opt_source options with Some s => s | None => "default" end.

(** The parsed body of a response: JSON when the content type says so. *)
Definition data_of (headers : list (string * string)) (body : string) : Data :=
  if includes (match map_get String.eqb headers "content-type" with
               | Some ct => ct
               | None => ""
               end) "application/json"
  then JsonData body else TextData body.

(** A response whose body is read without error. *)
Definition readable (o : FetchOutcome) : bool :=
  match o with
  | Responded _ _ headers _ bodyParses =>
      negb (includes (match map_get String.eqb headers "content-type" with
                      | Some ct => ct
                      | None => ""
                      end) "application/json")
      || bodyParses
  | Failed _ _ _ => false
  end.

(** An outcome that the loop retries while attempts are left: a readable
    response with a retryable status, or a network error with a retryable
    code. *)
Definition retryable_outcome (o : FetchOutcome) : bool :=
  match o with
  | Responded status _ _ _ _ =>
      readable o && negb ((200 <=? status) && (status <=? 299))%Z
      && set_has Z.eqb RETRYABLE_STATUS_CODES status
  | Failed (Some code) _ _ => set_has String.eqb RETRYABLE_ERROR_CODES code
  | Failed None _ _ => false
  end.

End HttpSpec.

Module TitleMatchingSpec.
Import Js.
Local Open Scope Z_scope.

Section CodeUnits.
Variable Unit : Type.
Variable eqb : Unit -> Unit -> bool.

(** The edit distance by its recurrence, on the strings read from their
    first unit: the number of insertions, deletions and substitutions of
    the cheapest alignment. *)
Fixpoint edit_distance (a : list Unit) : list Unit -> Z :=
  fix inner (b : list Unit) : Z :=
    match a, b with
    | [], _ => Z.of_nat (List.length b)
    | _, [] => Z.of_nat (List.length a)
    | x :: a', y :: b' =>
        Z.min (Z.min (edit_distance a' b + 1) (inner b' + 1))
              (edit_distance a' b' + (if eqb x y then 0 else 1))
    end.

End CodeUnits.

End TitleMatchingSpec.

(* ================================================================== *)
(** * Theorems *)
(* ================================================================== *)

Unset Implicit Arguments.

Lemma StronglySorted_weaken (A : Type) (R1 R2 : A -> A -> Prop) (l : list A) :
  (forall a b, R1 a b -> R2 a b) -> StronglySorted R1 l -> StronglySorted R2 l.
Proof.
  intros Himp. induction 1 as [|a l Hs IH Hall]; constructor; [exact IH|].
  eapply Forall_impl; [|exact Hall]. intros b. apply Himp.
Qed.

Section SortFacts.
Variable A : Type.
Variable leb : A -> A -> bool.
Hypothesis leb_total : forall a b, leb a b = true \/ leb b a = true.
Hypothesis leb_trans : forall a b c, leb a b = true -> leb b c = true -> leb a c = true.

Lemma sort_insert_perm (x : A) (l : list A) :
  Permutation (Js.sort_insert leb x l) (x :: l).
Proof.
  induction l as [|y l IH]; simpl; [reflexivity|].
  destruct (leb x y); [reflexivity|].
  rewrite IH. apply perm_swap.
Qed.

Lemma array_sort_perm (l : list A) : Permutation (Js.array_sort leb l) l.
Proof.
  induction l as [|x l IH]; simpl; [constructor|].
  rewrite sort_insert_perm. now constructor.
Qed.

Lemma sort_insert_sorted (x : A) (l : list A) :
  StronglySorted (fun a b => leb a b = true) l ->
  StronglySorted (fun a b => leb a b = true) (Js.sort_insert leb x l).
Proof.
  induction 1 as [|y l Hs IH Hall]; simpl.
  - repeat constructor.
  - destruct (leb x y) eqn:E.
    + constructor; [now constructor|].
      constructor; [exact E|].
      eapply Forall_impl; [|exact Hall]. intros z Hz. now apply leb_trans with y.
    + constructor; [exact IH|].
      eapply Permutation_Forall.
      * symmetry. apply sort_insert_perm.
      * constructor; [|exact Hall].
        destruct (leb_total x y) as [H|H]; [congruence|exact H].
Qed.

Lemma array_sort_sorted (l : list A) :
  StronglySorted (fun a b => leb a b = true) (Js.array_sort leb l).
Proof.
  induction l as [|x l IH]; simpl; [constructor|].
  now apply sort_insert_sorted.
Qed.
End SortFacts.

Module SourceUtilsFacts.
Import Js SourceUtils.

Lemma push_positions_spec word positions words :
  push_positions word positions words =
  words ++ flat_map
             (fun pos =>
                match pos with
                | JNum n => if (0 <=? n)%Z then [(n, word)] else []
                | _ => []
                end) positions.
Proof.
  unfold push_positions. revert words.
  induction positions as [|p ps IH]; intros words; simpl.
  - now rewrite app_nil_r.
  - rewrite IH. destruct p; try reflexivity.
    destruct (0 <=? n)%Z; [now rewrite <- app_assoc | reflexivity].
Qed.

Lemma collect_words_from entries acc :
  fold_left
    (fun ws entry =>
       match snd entry with
       | JArr positions => push_positions (fst entry) positions ws
       | _ => ws
       end) entries acc = acc ++ spec_tokens entries.
Proof.
  revert acc. induction entries as [|[w v] es IH]; intros acc; simpl.
  - now rewrite app_nil_r.
  - rewrite IH. destruct v; simpl; try reflexivity.
    rewrite push_positions_spec. now rewrite <- app_assoc.
Qed.

Lemma collect_words_spec entries : collect_words entries = spec_tokens entries.
Proof. unfold collect_words. now rewrite collect_words_from. Qed.

(** C8. [invertedIndexToText] returns null for a null index and for an index
    without any valid position (in particular the empty one); otherwise it
    returns the words of the index, one per valid (non-negative, numeric,
    inside an array) position, duplicates kept, in ascending order of
    position and joined by single spaces.  The two indexes of the
    specification give "This is a test" and "the cat chased the mouse"; an
    index with malformed entries gives the words of its valid positions. *)
Theorem invertedIndexToText_sorted_join :
  invertedIndexToText None = None
  /\ invertedIndexToText (Some []) = None
  /\ (forall entries,
        spec_tokens entries = [] -> invertedIndexToText (Some entries) = None)
  /\ (forall entries,
        spec_tokens entries <> [] ->
        exists sorted,
          Permutation sorted (spec_tokens entries)
          /\ StronglySorted (fun a b => (fst a <= fst b)%Z) sorted
          /\ invertedIndexToText (Some entries)
             = Some (String.concat " " (map snd sorted)))
  /\ invertedIndexToText (Some example_index_1) = Some "This is a test"%string
  /\ invertedIndexToText (Some example_index_2)
     = Some "the cat chased the mouse"%string
  /\ invertedIndexToText (Some malformed_index) = Some "a b c"%string.
Proof.
  split; [reflexivity|]. split; [reflexivity|].
  split; [|split; [|repeat split; reflexivity]].
  - intros entries H. unfold invertedIndexToText.
    now rewrite collect_words_spec, H.
  - intros entries H.
    exists (array_sort (fun a b => (fst a <=? fst b)%Z) (spec_tokens entries)).
    split; [apply array_sort_perm|]. split.
    + apply StronglySorted_weaken
        with (R1 := fun a b : Z * string => (fst a <=? fst b)%Z = true).
      * intros a b. apply Z.leb_le.
      * apply array_sort_sorted.
        -- intros a b. rewrite !Z.leb_le. lia.
        -- intros a b c. rewrite !Z.leb_le. lia.
    + unfold invertedIndexToText. rewrite collect_words_spec.
      destruct (spec_tokens entries); [congruence|reflexivity].
Qed.

End SourceUtilsFacts.

(* ------------------------------------------------------------------ *)
(** ** The store: upsert *)
(* ------------------------------------------------------------------ *)

Module DatabaseFacts.
Import Types Database.
Local Open Scope Z_scope.

Lemma same_key_true src sid p :
  same_key src sid p = true <-> source p = src /\ source_id p = sid.
Proof.
  unfold same_key. rewrite andb_true_iff, !String.eqb_eq. tauto.
Qed.

Lemma find_none_filter (A : Type) (f : A -> bool) (l : list A) :
  find f l = None -> filter f l = [].
Proof.
  induction l as [|a l IH]; simpl; [reflexivity|].
  destruct (f a); [discriminate|exact IH].
Qed.

Lemma find_some_filter (A : Type) (f : A -> bool) (l : list A) (r : A) :
  filter f l = [r] -> find f l = Some r.
Proof.
  induction l as [|a l IH]; simpl; [discriminate|].
  destruct (f a); [now intros [= ->]|exact IH].
Qed.

Lemma unique_key_filter rows src sid r :
  NoDup (map key_of rows) ->
  find (same_key src sid) rows = Some r ->
  filter (same_key src sid) rows = [r].
Proof.
  induction rows as [|a rows IH]; simpl; [discriminate|].
  intros Hnd Hfind. inversion Hnd as [|? ? Hnotin Hnd']; subst.
  destruct (same_key src sid a) eqn:E.
  - injection Hfind as ->. f_equal.
    apply find_none_filter.
    destruct (find (same_key src sid) rows) as [b|] eqn:F; [|reflexivity].
    exfalso. apply Hnotin.
    apply find_some in F. destruct F as [Hin Hb].
    apply same_key_true in E. apply same_key_true in Hb.
    apply in_map_iff. exists b. split; [|exact Hin].
    unfold key_of. destruct E as [-> ->], Hb as [-> ->]. reflexivity.
  - now apply IH.
Qed.

Lemma update_conflicting_keys rows q :
  map key_of (update_conflicting rows q) = map key_of rows.
Proof.
  unfold update_conflicting. rewrite map_map. apply map_ext.
  intros a. now destruct (same_key (source q) (source_id q) a).
Qed.

Lemma update_conflicting_filter rows q :
  filter (same_key (source q) (source_id q)) (update_conflicting rows q)
  = map (fun row => merge_on_conflict row q)
        (filter (same_key (source q) (source_id q)) rows).
Proof.
  induction rows as [|a rows IH]; simpl; [reflexivity|].
  destruct (same_key (source q) (source_id q) a) eqn:E; simpl.
  - assert (E' : same_key (source q) (source_id q) (merge_on_conflict a q) = true)
      by exact E.
    rewrite E'. simpl. now rewrite IH.
  - rewrite E. exact IH.
Qed.

Lemma update_conflicting_length rows q :
  List.length (update_conflicting rows q) = List.length rows.
Proof. apply length_map. Qed.

(** What [upsertPaper] does to the table. *)
Lemma upsert_papers db p :
  papers (fst (upsertPaper db p)) =
  match getPaperBySourceId db (source p) (source_id p) with
  | Some _ => update_conflicting (papers db) p
  | None =>
      papers db
      ++ [with_paper_id p (Some (next_rowid (map paper_id (papers db))))]
  end.
Proof.
  unfold upsertPaper, insert_or_ignore.
  destruct (getPaperBySourceId db (source p) (source_id p)) eqn:G;
    cbv zeta; cbn [fst];
    match goal with
    | |- papers (fst (if ?b then _ else match ?o with _ => _ end)) = _ =>
        destruct b; [|destruct o]; reflexivity
    end.
Qed.

(** After an upsert of [p] the key of [p] has exactly one row, the unique
    index still holds, and that row is the merge of the previous one with
    [p], or [p] itself with a fresh id. *)
Lemma upsert_single_row db p :
  NoDup (map key_of (papers db)) ->
  let db1 := fst (upsertPaper db p) in
  NoDup (map key_of (papers db1))
  /\ exists r1,
       rows_with_key db1 (source p) (source_id p) = [r1]
       /\ ((exists old, rows_with_key db (source p) (source_id p) = [old]
                        /\ r1 = merge_on_conflict old p
                        /\ List.length (papers db1) = List.length (papers db))
           \/ (rows_with_key db (source p) (source_id p) = []
               /\ exists id, r1 = with_paper_id p (Some id))).
Proof.
  intros Hnd db1. unfold rows_with_key. subst db1. rewrite upsert_papers.
  unfold getPaperBySourceId.
  destruct (find (same_key (source p) (source_id p)) (papers db)) as [old|] eqn:F.
  - split; [now rewrite update_conflicting_keys|].
    pose proof (unique_key_filter _ _ _ _ Hnd F) as Hf.
    exists (merge_on_conflict old p). rewrite update_conflicting_filter, Hf.
    split; [reflexivity|]. left. exists old.
    split; [reflexivity|]. split; [reflexivity|]. apply update_conflicting_length.
  - pose proof (find_none_filter _ _ _ F) as Hf. split.
    + rewrite map_app. simpl.
      apply NoDup_app; [exact Hnd | repeat constructor; intros [] | ].
      intros k Hin [<-|[]].
      apply in_map_iff in Hin. destruct Hin as [b [Hk Hin]].
      assert (Hb : In b (filter (same_key (source p) (source_id p)) (papers db))).
      { apply filter_In. split; [exact Hin|]. apply same_key_true.
        unfold key_of in Hk. simpl in Hk. now injection Hk. }
      rewrite Hf in Hb. destruct Hb.
    + eexists. rewrite filter_app, Hf. simpl.
      assert (E : same_key (source p) (source_id p)
                    (with_paper_id p (Some (next_rowid (map paper_id (papers db)))))
                  = true) by (apply same_key_true; split; reflexivity).
      rewrite E. split; [reflexivity|]. right. split; [reflexivity|].
      eexists. reflexivity.
Qed.

Lemma coalesce_same (A : Type) (x y : option A) : coalesce x (coalesce x y) = coalesce x y.
Proof. now destruct x. Qed.

Lemma merge_on_conflict_again old p :
  merge_on_conflict (merge_on_conflict old p) p = merge_on_conflict old p.
Proof.
  unfold merge_on_conflict; simpl. rewrite !coalesce_same.
  f_equal. lia.
Qed.

Lemma merge_on_conflict_self p id :
  merge_on_conflict (with_paper_id p id) p = with_paper_id p id.
Proof.
  unfold merge_on_conflict, with_paper_id; simpl.
  f_equal; try (now destruct p; simpl; match goal with |- coalesce ?x ?x = _ => destruct x end).
  lia.
Qed.

Lemma update_conflicting_fixed rows p r1 :
  filter (same_key (source p) (source_id p)) rows = [r1] ->
  merge_on_conflict r1 p = r1 ->
  update_conflicting rows p = rows.
Proof.
  intros Hf Hm. unfold update_conflicting.
  rewrite <- (map_id rows) at 2. apply map_ext_in. intros a Hin.
  destruct (same_key (source p) (source_id p) a) eqn:E; [|reflexivity].
  assert (Ha : In a [r1]) by (rewrite <- Hf; apply filter_In; tauto).
  destruct Ha as [<-|[]]. exact Hm.
Qed.

End DatabaseFacts.

Module UpsertTheorems.
Import Types Database DatabaseFacts.
Local Open Scope Z_scope.

(** C9. In a store whose papers have unique [(source, source_id)] keys,
    upserting a paper [p] and then a paper [q] with the same key leaves
    exactly one row for that key and adds no row the second time; the row
    keeps its id, takes the title of [q], takes every nullable field from
    [q] when [q] has it and keeps the stored one otherwise, and its
    citation count is the maximum of the stored and the incoming one.  The
    first upsert creates the row from [p] when the key was absent.
    Upserting the identical record [p] a second time leaves the table
    unchanged. *)
Theorem upsertPaper_twice (db : Store) (p q : Paper) :
  NoDup (paper_keys db) ->
  source q = source p ->
  source_id q = source_id p ->
  let db1 := fst (upsertPaper db p) in
  let db2 := fst (upsertPaper db1 q) in
  exists r1 r2,
    rows_with_key db1 (source p) (source_id p) = [r1]
    /\ rows_with_key db2 (source p) (source_id p) = [r2]
    /\ (rows_with_key db (source p) (source_id p) = [] ->
        r1 = with_paper_id p (paper_id r1))
    /\ List.length (papers db2) = List.length (papers db1)
    /\ paper_id r2 = paper_id r1
    /\ title r2 = title q
    /\ doi r2 = match doi q with Some x => Some x | None => doi r1 end
    /\ arxiv_id r2
       = match arxiv_id q with Some x => Some x | None => arxiv_id r1 end
    /\ abstract r2
       = match abstract q with Some x => Some x | None => abstract r1 end
    /\ year r2 = match year q with Some x => Some x | None => year r1 end
    /\ venue r2 = match venue q with Some x => Some x | None => venue r1 end
    /\ url r2 = match url q with Some x => Some x | None => url r1 end
    /\ influence_score r2
       = match influence_score q with
         | Some x => Some x
         | None => influence_score r1
         end
    /\ keywords_json r2
       = match keywords_json q with
         | Some x => Some x
         | None => keywords_json r1
         end
    /\ concepts_json r2
       = match concepts_json q with
         | Some x => Some x
         | None => concepts_json r1
         end
    /\ citation_count r2 = Z.max (citation_count r1) (citation_count q)
    /\ papers (fst (upsertPaper db1 p)) = papers db1.
Proof.
  intros Hnd Hs Hi db1 db2.
  destruct (upsert_single_row db p Hnd) as [Hnd1 [r1 [Hr1 Hcase]]].
  fold db1 in Hnd1, Hr1, Hcase.
  destruct (upsert_single_row db1 q Hnd1) as [_ [r2 [Hr2 Hcase2]]].
  fold db2 in Hr2, Hcase2. rewrite Hs, Hi in Hr2, Hcase2.
  exists r1, r2. split; [exact Hr1|]. split; [exact Hr2|].
  destruct Hcase2 as [[old [Hold [-> Hlen]]] | [Hnone _]];
    [|rewrite Hr1 in Hnone; discriminate].
  rewrite Hr1 in Hold. injection Hold as <-.
  split.
  { intros Hempty. destruct Hcase as [[old [Hold _]] | [_ [id ->]]].
    - rewrite Hempty in Hold. discriminate.
    - reflexivity. }
  split; [exact Hlen|].
  assert (Hagain : papers (fst (upsertPaper db1 p)) = papers db1).
  { rewrite upsert_papers. unfold getPaperBySourceId.
    rewrite (find_some_filter _ _ _ _ Hr1).
    apply update_conflicting_fixed with r1; [exact Hr1|].
    destruct Hcase as [[old [_ [-> _]]] | [_ [id ->]]].
    - apply merge_on_conflict_again.
    - apply merge_on_conflict_self. }
  repeat match goal with |- _ /\ _ => split end;
    try exact Hagain; try reflexivity;
    cbn; unfold coalesce;
    match goal with |- match ?x with _ => _ end = _ => now destruct x end.
Qed.

(** The theorem at the papers of the upsert test of the repository. *)
Lemma upsertPaper_twice_witness :
  NoDup (paper_keys empty_store)
  /\ exists r1 r2,
       rows_with_key (fst (upsertPaper empty_store paper_W123))
                     "openalex" "W123" = [r1]
       /\ rows_with_key
            (fst (upsertPaper (fst (upsertPaper empty_store paper_W123))
                              paper_W123_updated))
            "openalex" "W123" = [r2]
       /\ title r2 = "Updated Title"%string
       /\ citation_count r2 = 20.
Proof.
  split; [constructor|].
  destruct (upsertPaper_twice empty_store paper_W123 paper_W123_updated)
    as [r1 [r2 H]]; [constructor | reflexivity | reflexivity |].
  exists r1, r2.
  destruct H as [H1 [H2 [H3 [_ [_ [Ht [_ [_ [_ [_ [_ [_ [_ [_ [_ [Hc _]]]]]]]]]]]]]]]].
  split; [exact H1|]. split; [exact H2|]. split; [exact Ht|].
  rewrite Hc. rewrite (H3 eq_refl). reflexivity.
Defined.

End UpsertTheorems.

(* ------------------------------------------------------------------ *)
(** ** Maps in insertion order *)
(* ------------------------------------------------------------------ *)

Section MapFacts.
Variables K V : Type.
Variable eqb : K -> K -> bool.
Hypothesis eqb_eq : forall a b, eqb a b = true <-> a = b.

Lemma eqb_refl_true (a : K) : eqb a a = true.
Proof. now apply eqb_eq. Qed.

Lemma eqb_false_neq (a b : K) : eqb a b = false <-> a <> b.
Proof.
  split.
  - intros E H. apply eqb_eq in H. congruence.
  - intros H. destruct (eqb a b) eqn:E; [|reflexivity].
    apply eqb_eq in E. contradiction.
Qed.

Lemma map_get_notin (m : list (K * V)) (k : K) :
  ~ In k (map fst m) -> Js.map_get eqb m k = None.
Proof.
  induction m as [|[k' v] m IH]; simpl; [reflexivity|].
  intros H. destruct (eqb k k') eqn:E.
  - apply eqb_eq in E. subst. exfalso. apply H. now left.
  - apply IH. intros Hin. apply H. now right.
Qed.

Lemma map_get_in (m : list (K * V)) (k : K) (v : V) :
  Js.map_get eqb m k = Some v -> In (k, v) m.
Proof.
  induction m as [|[k' v'] m IH]; simpl; [discriminate|].
  destruct (eqb k k') eqn:E.
  - apply eqb_eq in E. subst. intros [= ->]. now left.
  - intros H. right. now apply IH.
Qed.

Lemma map_get_nodup (m : list (K * V)) (k : K) (v : V) :
  NoDup (map fst m) -> In (k, v) m -> Js.map_get eqb m k = Some v.
Proof.
  induction m as [|[k' v'] m IH]; simpl; [intros _ []|].
  intros Hnd [Heq|Hin].
  - injection Heq as -> ->. now rewrite eqb_refl_true.
  - inversion Hnd as [|? ? Hnotin Hnd']; subst.
    destruct (eqb k k') eqn:E.
    + apply eqb_eq in E. subst. exfalso. apply Hnotin.
      apply in_map_iff. now exists (k', v).
    + now apply IH.
Qed.

Lemma map_set_keys (m : list (K * V)) (k : K) (v : V) :
  map fst (Js.map_set eqb m k v)
  = if Js.set_has eqb (map fst m) k then map fst m else map fst m ++ [k].
Proof.
  unfold Js.set_has.
  induction m as [|[k' v'] m IH]; simpl; [reflexivity|].
  destruct (eqb k k') eqn:E; simpl; [reflexivity|].
  rewrite IH. now destruct (existsb (eqb k) (map fst m)).
Qed.

Lemma set_has_true (s : list K) (k : K) :
  Js.set_has eqb s k = true <-> In k s.
Proof.
  unfold Js.set_has. rewrite existsb_exists. split.
  - intros [x [Hin E]]. apply eqb_eq in E. now subst.
  - intros H. exists k. split; [exact H|apply eqb_refl_true].
Qed.

Lemma set_has_false (s : list K) (k : K) :
  Js.set_has eqb s k = false <-> ~ In k s.
Proof.
  rewrite <- set_has_true. destruct (Js.set_has eqb s k); split;
    congruence || (intros H; exfalso; now apply H) || discriminate.
Qed.

Lemma NoDup_snoc (s : list K) (k : K) :
  NoDup s -> ~ In k s -> NoDup (s ++ [k]).
Proof.
  intros Hs Hk. apply NoDup_app; [exact Hs | repeat constructor; intros [] |].
  intros x Hx [<-|[]]. contradiction.
Qed.

Lemma set_add_nodup (s : list K) (k : K) :
  NoDup s -> NoDup (Js.set_add eqb s k).
Proof.
  intros H. unfold Js.set_add. destruct (Js.set_has eqb s k) eqn:E; [exact H|].
  apply NoDup_snoc; [exact H|]. now apply set_has_false.
Qed.

Lemma set_add_in (s : list K) (k x : K) :
  In x (Js.set_add eqb s k) <-> In x s \/ x = k.
Proof.
  unfold Js.set_add. destruct (Js.set_has eqb s k) eqn:E.
  - apply set_has_true in E. split; [tauto|]. intros [H| ->]; assumption.
  - rewrite in_app_iff. simpl. split; intros [H|H]; auto.
    destruct H as [<-|[]]. now right.
Qed.

Lemma map_set_nodup (m : list (K * V)) (k : K) (v : V) :
  NoDup (map fst m) -> NoDup (map fst (Js.map_set eqb m k v)).
Proof.
  intros H. rewrite map_set_keys.
  destruct (Js.set_has eqb (map fst m) k) eqn:E; [exact H|].
  apply NoDup_snoc; [exact H|]. now apply set_has_false.
Qed.

Lemma map_set_in (m : list (K * V)) (k : K) (v : V) (e : K * V) :
  In e (Js.map_set eqb m k v) -> In e m \/ e = (k, v).
Proof.
  induction m as [|[k' v'] m IH]; simpl.
  - intros [<-|[]]. now right.
  - destruct (eqb k k') eqn:E.
    + apply eqb_eq in E. subst. simpl. intros [<-|H]; [now right|].
      left. now right.
    + simpl. intros [<-|H]; [left; now left|].
      destruct (IH H) as [H'|H']; [left; now right|now right].
Qed.
End MapFacts.

Lemma pair_eqb_eq (a b : Z * Z) : Js.pair_eqb a b = true <-> a = b.
Proof.
  unfold Js.pair_eqb. rewrite andb_true_iff, !Z.eqb_eq.
  destruct a, b; simpl. split; [intros [-> ->]; reflexivity|].
  now intros [= -> ->].
Qed.

(* ------------------------------------------------------------------ *)
(** ** Cosine similarity *)
(* ------------------------------------------------------------------ *)

Module SimilarityFacts.
Import Js Types TfIdf Similarity.
Local Open Scope R_scope.

Lemma dot_from (smaller larger : Vec) (acc : R) :
  fold_left
    (fun acc e =>
       match map_get String.eqb larger (fst e) with
       | Some weightB => acc + snd e * weightB
       | None => acc
       end) smaller acc
  = acc + dot smaller larger.
Proof.
  unfold dot. revert acc.
  induction smaller as [|e s IH]; intros acc; simpl; [ring|].
  rewrite IH. rewrite (IH (match _ with Some _ => _ | None => _ end)).
  destruct (map_get String.eqb larger (fst e)); ring.
Qed.

Lemma dot_cons (e : string * R) (s larger : Vec) :
  dot (e :: s) larger = term_product larger e + dot s larger.
Proof.
  unfold dot at 1. simpl. rewrite dot_from. unfold term_product.
  destruct (map_get String.eqb larger (fst e)); ring.
Qed.

Lemma dot_nil_r (s : Vec) : dot s [] = 0.
Proof.
  induction s as [|e s IH]; [reflexivity|].
  rewrite dot_cons, IH. unfold term_product. simpl. ring.
Qed.

Lemma dot_cons_r (e : string * R) (s larger : Vec) :
  NoDup (map fst s) ->
  ~ In (fst e) (map fst larger) ->
  dot s (e :: larger) = term_product s e + dot s larger.
Proof.
  destruct e as [ke we].
  induction s as [|[kx wx] s IH]; intros Hnd Hnotin.
  - unfold term_product. simpl. unfold dot. simpl. ring.
  - inversion Hnd as [|? ? Hx Hnd']; subst.
    rewrite !dot_cons, (IH Hnd' Hnotin).
    unfold term_product. simpl in *.
    destruct (String.eqb kx ke) eqn:E.
    + apply String.eqb_eq in E. subst ke.
      rewrite String.eqb_refl.
      rewrite (map_get_notin _ _ String.eqb String.eqb_eq larger kx Hnotin).
      rewrite (map_get_notin _ _ String.eqb String.eqb_eq s kx Hx).
      ring.
    + rewrite String.eqb_sym, E.
      destruct (map_get String.eqb larger kx);
        destruct (map_get String.eqb s ke); ring.
Qed.

(** The dot product does not depend on which vector is iterated. *)
Lemma dot_comm (u v : Vec) :
  NoDup (map fst u) -> NoDup (map fst v) -> dot u v = dot v u.
Proof.
  revert v. induction u as [|e u IH]; intros v Hu Hv.
  - rewrite dot_nil_r. reflexivity.
  - inversion Hu as [|? ? He Hu']; subst.
    rewrite dot_cons, (dot_cons_r e v u Hv He), (IH v Hu' Hv). reflexivity.
Qed.

Lemma norm2_from (v : Vec) (acc : R) :
  fold_left (fun acc e => acc + snd e * snd e) v acc = acc + norm2 v.
Proof.
  unfold norm2. revert acc.
  induction v as [|e v IH]; intros acc; simpl; [ring|].
  rewrite IH, (IH (0 + _)). ring.
Qed.

Lemma norm2_cons (e : string * R) (v : Vec) :
  norm2 (e :: v) = snd e * snd e + norm2 v.
Proof. unfold norm2 at 1. simpl. rewrite norm2_from. ring. Qed.

Lemma norm2_nonneg (v : Vec) : 0 <= norm2 v.
Proof.
  induction v as [|e v IH]; [unfold norm2; simpl; lra|].
  rewrite norm2_cons. nra.
Qed.

Lemma norm2_zero_iff (v : Vec) :
  norm2 v = 0 <-> forall e, In e v -> snd e = 0.
Proof.
  induction v as [|e v IH].
  - split; [intros _ e []|reflexivity].
  - rewrite norm2_cons. pose proof (norm2_nonneg v) as Hv. split.
    + intros H x [<-|Hin]; [nra|]. apply IH; [nra|exact Hin].
    + intros H. rewrite (H e (or_introl eq_refl)).
      rewrite (proj2 IH); [ring|]. intros x Hx. apply H. now right.
Qed.

Lemma dot_self (v : Vec) : NoDup (map fst v) -> dot v v = norm2 v.
Proof.
  induction v as [|[k w] v IH]; intros Hnd; [reflexivity|].
  inversion Hnd as [|? ? He Hnd']; subst.
  rewrite dot_cons, (dot_cons_r (k, w) v v Hnd' He), norm2_cons, (IH Hnd').
  unfold term_product. simpl in *. rewrite String.eqb_refl.
  rewrite (map_get_notin _ _ String.eqb String.eqb_eq v k He). ring.
Qed.

Lemma Reqb_true (a b : R) : Reqb a b = true <-> a = b.
Proof. unfold Reqb. destruct (Req_dec_T a b); split; congruence. Qed.

Lemma Reqb_false (a b : R) : Reqb a b = false <-> a <> b.
Proof. unfold Reqb. destruct (Req_dec_T a b); split; congruence. Qed.

Lemma Rleb_true (a b : R) : Rleb a b = true <-> a <= b.
Proof. unfold Rleb. destruct (Rle_dec a b); split; congruence. Qed.

Lemma Rleb_false (a b : R) : Rleb a b = false <-> b < a.
Proof.
  unfold Rleb. destruct (Rle_dec a b); split; try congruence; intros; lra.
Qed.

(** A vector of zero weights has similarity 0 with itself. *)
Lemma cosine_self_zero (v : Vec) :
  (forall e, In e v -> snd e = 0) -> cosineSimilarity v v = 0.
Proof.
  intros H. apply norm2_zero_iff in H. unfold cosineSimilarity.
  destruct ((List.length v =? 0)%nat || (List.length v =? 0)%nat); [reflexivity|].
  rewrite Nat.leb_refl, H, sqrt_0, Rmult_0_l.
  now rewrite (proj2 (Reqb_true 0 0) eq_refl).
Qed.

(** A vector with a non-zero weight has similarity 1 with itself. *)
Lemma cosine_self_one (v : Vec) :
  NoDup (map fst v) ->
  (exists e, In e v /\ snd e <> 0) -> cosineSimilarity v v = 1.
Proof.
  intros Hnd [e [Hin He]].
  assert (Hn : norm2 v <> 0).
  { intros H0. apply He. now apply (proj1 (norm2_zero_iff v) H0). }
  unfold cosineSimilarity.
  destruct v as [|x v]; [destruct Hin|].
  cbn [List.length Nat.eqb orb]. rewrite Nat.leb_refl.
  rewrite sqrt_sqrt by apply norm2_nonneg.
  rewrite (proj2 (Reqb_false _ 0) Hn), (dot_self _ Hnd).
  now field.
Qed.

(** In exact arithmetic the cosine similarity of two maps does not depend
    on the order of its arguments. *)
Lemma cosine_comm_exact (u v : Vec) :
  NoDup (map fst u) -> NoDup (map fst v) ->
  cosineSimilarity u v = cosineSimilarity v u.
Proof.
  intros Hu Hv. unfold cosineSimilarity.
  rewrite (orb_comm (List.length v =? 0)%nat).
  destruct ((List.length u =? 0)%nat || (List.length v =? 0)%nat); [reflexivity|].
  rewrite (Rmult_comm (sqrt (norm2 v))).
  destruct (List.length u <=? List.length v)%nat eqn:Euv;
    destruct (List.length v <=? List.length u)%nat eqn:Evu;
    try reflexivity.
  - rewrite (dot_comm u v Hu Hv). reflexivity.
  - apply Nat.leb_gt in Euv, Evu. lia.
Qed.

End SimilarityFacts.

Lemma fold_left_invariant (A B : Type) (P : A -> Prop) (f : A -> B -> A)
    (l : list B) (init : A) :
  P init -> (forall a b, P a -> In b l -> P (f a b)) -> P (fold_left f l init).
Proof.
  revert init. induction l as [|x l IH]; intros init H0 Hstep; simpl; [exact H0|].
  apply IH.
  - apply Hstep; [exact H0|now left].
  - intros a b Ha Hb. apply Hstep; [exact Ha|now right].
Qed.

Module CorpusFacts.
Import Js Types TfIdf Similarity SimilarityFacts.
Local Open Scope R_scope.

Lemma term_counts_nodup (tokens : list string) :
  NoDup (map fst (term_counts tokens)).
Proof.
  unfold term_counts. apply fold_left_invariant; [constructor|].
  intros tf token H _. apply map_set_nodup; [apply String.eqb_eq|exact H].
Qed.

Lemma normalize_tf_keys (tf : list (string * Z)) :
  map fst (normalize_tf tf) = map fst tf.
Proof. unfold normalize_tf. rewrite map_map. reflexivity. Qed.

Lemma weigh_keys (N : Z) (df : list (string * Z)) (docTf : Vec) :
  map fst (weigh N df docTf) = map fst docTf.
Proof. unfold weigh. rewrite map_map. reflexivity. Qed.

Lemma add_paper_nodup (st : list (string * Vec) * list (string * Z)) (p : Paper) :
  Forall (fun d => NoDup (map fst (snd d))) (fst st) ->
  Forall (fun d => NoDup (map fst (snd d))) (fst (add_paper st p)).
Proof.
  destruct st as [docs df]. unfold add_paper. simpl.
  destruct (Tokenizer.tokenize (paper_text p)) as [|t ts] eqn:E; [trivial|].
  intros H. simpl. apply Forall_forall. intros d Hd.
  apply map_set_in in Hd; [|apply String.eqb_eq].
  destruct Hd as [Hd| ->].
  - rewrite Forall_forall in H. now apply H.
  - simpl. rewrite normalize_tf_keys. apply term_counts_nodup.
Qed.

(** Every document vector of a corpus has distinct terms. *)
Lemma buildCorpus_nodup (papers : list Paper) (id : string) (v : Vec) :
  In (id, v) (documents (buildCorpus papers)) -> NoDup (map fst v).
Proof.
  unfold buildCorpus.
  assert (H : Forall (fun d => NoDup (map fst (snd d)))
                (fst (fold_left add_paper papers ([], [])))).
  { apply fold_left_invariant; [constructor|].
    intros st p Hst _. now apply add_paper_nodup. }
  destruct (fold_left add_paper papers ([], [])) as [docs df]. simpl in *.
  intros Hin. apply in_map_iff in Hin. destruct Hin as [d [Hd Hin]].
  injection Hd as _ <-. rewrite weigh_keys.
  rewrite Forall_forall in H. now apply H.
Qed.

(** In exact arithmetic a document vector has similarity 1 with itself
    when it has a non-zero weight, and 0 when it has none. *)
Lemma corpus_self_similarity_exact (papers : list Paper) (id : string) (v : Vec) :
  In (id, v) (documents (buildCorpus papers)) ->
  ((exists e, In e v /\ snd e <> 0) -> cosineSimilarity v v = 1)
  /\ ((forall e, In e v -> snd e = 0) -> cosineSimilarity v v = 0).
Proof.
  intros Hin. split.
  - apply cosine_self_one. now apply buildCorpus_nodup with papers id.
  - apply cosine_self_zero.
Qed.

End CorpusFacts.

(* ------------------------------------------------------------------ *)
(** ** Cosine similarity in binary64 *)
(* ------------------------------------------------------------------ *)

Lemma fold_left_ext_in (A B : Type) (f g : A -> B -> A) (l : list B) (a : A) :
  (forall x y, In y l -> f x y = g x y) -> fold_left f l a = fold_left g l a.
Proof.
  revert a. induction l as [|y l IH]; intros a H; [reflexivity|].
  simpl. rewrite (H a y (or_introl eq_refl)). apply IH.
  intros x z Hz. apply H. now right.
Qed.

Module Similarity64Facts.
Import Js Similarity64.
Import PrimFloat.
Local Open Scope float_scope.

(** Multiplication of doubles is commutative. *)
Lemma mul_comm (x y : float) : x * y = y * x.
Proof.
  rewrite <- (FloatAxioms.SF2Prim_Prim2SF (x * y)).
  rewrite <- (FloatAxioms.SF2Prim_Prim2SF (y * x)).
  rewrite !FloatAxioms.mul_spec. f_equal.
  unfold FloatAxioms.SF64mul, SpecFloat.SFmul.
  destruct (FloatOps.Prim2SF x) as [sx|sx| |sx mx ex],
           (FloatOps.Prim2SF y) as [sy|sy| |sy my ey];
    try reflexivity; rewrite ?(xorb_comm sx sy); try reflexivity.
  rewrite (Pos.mul_comm mx my), (Z.add_comm ex ey). reflexivity.
Qed.

Lemma dot_common_from (u v s : Vec64) (acc : float) :
  (forall e, In e s -> map_get String.eqb u (fst e) = Some (snd e)) ->
  fold_left
    (fun acc e =>
       match map_get String.eqb v (fst e) with
       | Some weightB => acc + snd e * weightB
       | None => acc
       end) s acc
  = fold_left (fun acc term => acc + term_weight u term * term_weight v term)
      (filter (fun term => map_has String.eqb v term) (map fst s)) acc.
Proof.
  revert acc. induction s as [|e s IH]; intros acc H; [reflexivity|].
  cbn [fold_left map filter]. unfold map_has at 1.
  destruct (map_get String.eqb v (fst e)) as [wb|] eqn:G.
  - cbn [fold_left].
    assert (Eu : term_weight u (fst e) = snd e)
      by (unfold term_weight; now rewrite (H e (or_introl eq_refl))).
    assert (Ev : term_weight v (fst e) = wb) by (unfold term_weight; now rewrite G).
    rewrite Eu, Ev. apply IH. intros x Hx. apply H. now right.
  - apply IH. intros x Hx. apply H. now right.
Qed.

(** The dot product adds the products of the common terms, in the order
    of the vector that is iterated. *)
Lemma dot_common (u v : Vec64) :
  NoDup (map fst u) ->
  dot u v
  = fold_left (fun acc term => acc + term_weight u term * term_weight v term)
      (common_terms u v) 0.
Proof.
  intros Hu. unfold dot, common_terms. apply dot_common_from.
  intros [k w] Hin. simpl.
  apply (map_get_nodup _ _ String.eqb String.eqb_eq); assumption.
Qed.

Lemma dot_comm_same_order (u v : Vec64) :
  NoDup (map fst u) -> NoDup (map fst v) ->
  common_terms u v = common_terms v u -> dot u v = dot v u.
Proof.
  intros Hu Hv E. rewrite (dot_common u v Hu), (dot_common v u Hv), E.
  apply fold_left_ext_in. intros x term _. now rewrite mul_comm.
Qed.



(** [cosineSimilarity] is the same both ways round as soon as the dot
    product is, which it is when the vectors differ in size. *)
Lemma cosine_comm_from_dot (u v : Vec64) :
  List.length u <> List.length v \/ dot u v = dot v u ->
  cosineSimilarity u v = cosineSimilarity v u.
Proof.
  intros H. unfold cosineSimilarity.
  rewrite (orb_comm (List.length v =? 0)%nat).
  destruct ((List.length u =? 0)%nat || (List.length v =? 0)%nat); [reflexivity|].
  rewrite (mul_comm (sqrt (norm2 v))).
  destruct (List.length u <=? List.length v)%nat eqn:Euv;
    destruct (List.length v <=? List.length u)%nat eqn:Evu;
    try reflexivity.
  - apply Nat.leb_le in Euv, Evu. destruct H as [H|H]; [lia|].
    rewrite H. reflexivity.
  - apply Nat.leb_gt in Euv, Evu. lia.
Qed.



End Similarity64Facts.

Module SimilarityTheorems.
Import Js Types TfIdf Similarity SimilarityFacts CorpusFacts.
Import PrimFloat.
Local Open Scope R_scope.

(** C10, as the code has it.  In binary64 [cosineSimilarity u v] and
    [cosineSimilarity v u] are the same double when the two vectors differ
    in size, and also when they are maps (distinct terms) that list their
    common terms in the same order: the two calls then add the same
    products in the same order.  Vectors of the same size that list their
    common terms in different orders are left out: for them the two
    results can differ, as [cosineSimilarity_order_matters] shows. *)
Theorem cosineSimilarity_comm (u v : Similarity64.Vec64) :
  (List.length u <> List.length v ->
   Similarity64.cosineSimilarity u v = Similarity64.cosineSimilarity v u)
  /\ (NoDup (map fst u) -> NoDup (map fst v) ->
      Similarity64.common_terms u v = Similarity64.common_terms v u ->
      Similarity64.cosineSimilarity u v = Similarity64.cosineSimilarity v u).
Proof.
  split.
  - intros Hne. apply Similarity64Facts.cosine_comm_from_dot. now left.
  - intros Hu Hv E. apply Similarity64Facts.cosine_comm_from_dot. right.
    now apply Similarity64Facts.dot_comm_same_order.
Qed.

(** C10, as stated, fails: the vector with the weights 0.1, 0.2, 0.3 for
    the terms a, b, c and the vector with the weight 1 for c, b, a have the
    same size, so each call iterates its first argument; one adds
    [0.1 + 0.2 + 0.3], the other [0.3 + 0.2 + 0.1], and the quotients
    differ in the last place. *)
Lemma cosineSimilarity_order_matters :
  NoDup (map fst Similarity64.tenths)
  /\ NoDup (map fst Similarity64.ones_reversed)
  /\ Similarity64.cosineSimilarity Similarity64.tenths Similarity64.ones_reversed
     = 0x1.da05179501505p-1%float
  /\ Similarity64.cosineSimilarity Similarity64.ones_reversed Similarity64.tenths
     = 0x1.da05179501503p-1%float
  /\ Similarity64.cosineSimilarity Similarity64.tenths Similarity64.ones_reversed
     <> Similarity64.cosineSimilarity Similarity64.ones_reversed
          Similarity64.tenths.
Proof.
  split; [repeat constructor; simpl; intuition discriminate|].
  split; [repeat constructor; simpl; intuition discriminate|].
  split; [vm_compute; reflexivity|]. split; [vm_compute; reflexivity|].
  vm_compute. intros H. discriminate H.
Qed.




End SimilarityTheorems.

(* ------------------------------------------------------------------ *)
(** ** Symmetric analytic edges *)
(* ------------------------------------------------------------------ *)

Module AnalyticEdgeFacts.
Import Js Types TfIdf Similarity Algorithms.
Local Open Scope Z_scope.

Lemma pairKey_eq (a b c d : Z) :
  pairKey a b = pairKey c d -> (a = c /\ b = d) \/ (a = d /\ b = c).
Proof. unfold pairKey. intros [= H1 H2]. lia. Qed.

(** *** Citing paper to reference set *)

Lemma add_ref_ok (m : list (Z * list Z)) (e : Edge) :
  refs_ok m -> refs_ok (add_ref m e).
Proof.
  intros [Hk Hs]. unfold add_ref.
  set (m1 := if map_has Z.eqb m (src_paper_id e) then m
             else map_set Z.eqb m (src_paper_id e) []).
  assert (H1 : refs_ok m1).
  { subst m1. destruct (map_has Z.eqb m (src_paper_id e)); [now split|].
    split; [apply map_set_nodup; [apply Z.eqb_eq|exact Hk]|].
    apply Forall_forall. intros x Hx.
    apply map_set_in in Hx; [|apply Z.eqb_eq].
    destruct Hx as [Hx| ->]; [|constructor].
    rewrite Forall_forall in Hs. now apply Hs. }
  destruct H1 as [Hk1 Hs1].
  destruct (map_get Z.eqb m1 (src_paper_id e)) as [refs|] eqn:G; [|now split].
  split; [apply map_set_nodup; [apply Z.eqb_eq|exact Hk1]|].
  apply Forall_forall. intros x Hx.
  apply map_set_in in Hx; [|apply Z.eqb_eq].
  rewrite Forall_forall in Hs1.
  destruct Hx as [Hx| ->]; [now apply Hs1|]. simpl.
  apply set_add_nodup; [apply Z.eqb_eq|].
  apply map_get_in in G; [|apply Z.eqb_eq]. exact (Hs1 _ G).
Qed.

Lemma group_refs_ok (cites : list Edge) : refs_ok (group_refs cites).
Proof.
  unfold group_refs. apply fold_left_invariant.
  - split; constructor.
  - intros m e H _. now apply add_ref_ok.
Qed.

(** *** Co-citation *)

Lemma index_pairs_distinct (l : list Z) (xy : Z * Z) :
  NoDup l -> In xy (index_pairs l) -> fst xy <> snd xy.
Proof.
  induction l as [|x rest IH]; simpl; [intros _ []|].
  intros Hnd Hin. inversion Hnd as [|? ? Hx Hrest]; subst.
  apply in_app_or in Hin. destruct Hin as [Hin|Hin].
  - apply in_map_iff in Hin. destruct Hin as [y [<- Hy]]. simpl.
    intros ->. contradiction.
  - now apply IH.
Qed.

Lemma count_pair_ok (pc : list (Z * Z * Z)) (xy : Z * Z) :
  fst xy <> snd xy -> counts_ok pc -> counts_ok (count_pair pc xy).
Proof.
  intros Hneq [Hk Hlt]. unfold count_pair. split.
  - apply map_set_nodup; [apply pair_eqb_eq|exact Hk].
  - apply Forall_forall. intros kc Hin.
    apply map_set_in in Hin; [|apply pair_eqb_eq].
    destruct Hin as [Hin| ->].
    + rewrite Forall_forall in Hlt. now apply Hlt.
    + unfold coCitationKey. simpl. lia.
Qed.

Lemma count_pairs_ok (m : list (Z * list Z)) :
  refs_ok m -> counts_ok (count_pairs m).
Proof.
  intros [_ Hs]. unfold count_pairs. apply fold_left_invariant.
  - split; constructor.
  - intros pc entry Hpc Hentry.
    rewrite Forall_forall in Hs. pose proof (Hs _ Hentry) as Hnd.
    apply fold_left_invariant; [exact Hpc|].
    intros pc' xy Hpc' Hxy. apply count_pair_ok; [|exact Hpc'].
    now apply index_pairs_distinct with (snd entry).
Qed.

(** *** Bibliographic coupling *)

Lemma couple_with_edges (m : list (Z * list Z)) (pa : Z) (later : list Z) (e : Edge) :
  In e (couple_with m pa later) ->
  src_paper_id e = pa /\ In (dst_paper_id e) later /\ type e = BIB_COUPLED.
Proof.
  unfold couple_with. destruct (set_size (refs_of m pa) =? 0); [intros []|].
  intros Hin. apply in_flat_map in Hin. destruct Hin as [pb [Hpb Hin]].
  destruct (set_size (refs_of m pb) =? 0); [destruct Hin|].
  destruct (overlap_size (refs_of m pa) (refs_of m pb) =? 0); [destruct Hin|].
  destruct Hin as [<-|[]]. simpl. auto.
Qed.

Lemma couple_with_keys (m : list (Z * list Z)) (pa : Z) (later : list Z) :
  NoDup later -> ~ In pa later ->
  NoDup (map (fun e => pairKey (src_paper_id e) (dst_paper_id e))
             (couple_with m pa later)).
Proof.
  unfold couple_with. destruct (set_size (refs_of m pa) =? 0); [constructor|].
  induction later as [|pb later IH]; simpl; [constructor|].
  intros Hnd Hpa. inversion Hnd as [|? ? Hpb Hnd']; subst.
  assert (Hrest : NoDup
            (map (fun e => pairKey (src_paper_id e) (dst_paper_id e))
               (flat_map
                  (fun pb0 =>
                     if set_size (refs_of m pb0) =? 0 then []
                     else if overlap_size (refs_of m pa) (refs_of m pb0) =? 0 then []
                     else [mkEdge None pa pb0 BIB_COUPLED
                             (IZR (overlap_size (refs_of m pa) (refs_of m pb0)) /
                              IZR (Z.min (set_size (refs_of m pa)) (set_size (refs_of m pb0))))%R
                             1%R None None algo
                             (ProvBibCoupling (overlap_size (refs_of m pa) (refs_of m pb0))
                                (set_size (refs_of m pa)) (set_size (refs_of m pb0)))])
                  later))).
  { apply IH; [exact Hnd'|]. intros H. apply Hpa. now right. }
  destruct (set_size (refs_of m pb) =? 0); [exact Hrest|].
  destruct (overlap_size (refs_of m pa) (refs_of m pb) =? 0); [exact Hrest|].
  simpl. constructor; [|exact Hrest].
  intros Hin. apply in_map_iff in Hin. destruct Hin as [e [Hkey Hin]].
  apply in_flat_map in Hin. destruct Hin as [pc [Hpc Hin]].
  destruct (set_size (refs_of m pc) =? 0); [destruct Hin|].
  destruct (overlap_size (refs_of m pa) (refs_of m pc) =? 0); [destruct Hin|].
  destruct Hin as [<-|[]]. simpl in Hkey.
  apply pairKey_eq in Hkey. destruct Hkey as [[_ E]|[E _]].
  - apply Hpb. now rewrite <- E.
  - apply Hpa. left. now symmetry.
Qed.

Lemma couple_all_edges (m : list (Z * list Z)) (papers : list Z) (e : Edge) :
  NoDup papers -> In e (couple_all m papers) ->
  In (src_paper_id e) papers /\ In (dst_paper_id e) papers
  /\ src_paper_id e <> dst_paper_id e /\ type e = BIB_COUPLED.
Proof.
  induction papers as [|pa later IH]; simpl; [intros _ []|].
  intros Hnd Hin. inversion Hnd as [|? ? Hpa Hnd']; subst.
  apply in_app_or in Hin. destruct Hin as [Hin|Hin].
  - apply couple_with_edges in Hin. destruct Hin as [Hs [Hd Ht]].
    repeat split; auto. rewrite Hs. intros ->. contradiction.
  - destruct (IH Hnd' Hin) as [Hs [Hd [Hne Ht]]]. auto.
Qed.

Lemma couple_all_keys (m : list (Z * list Z)) (papers : list Z) :
  NoDup papers ->
  NoDup (map (fun e => pairKey (src_paper_id e) (dst_paper_id e))
             (couple_all m papers)).
Proof.
  induction papers as [|pa later IH]; simpl; [constructor|].
  intros Hnd. inversion Hnd as [|? ? Hpa Hnd']; subst.
  rewrite map_app. apply NoDup_app.
  - now apply couple_with_keys.
  - now apply IH.
  - intros k H1 H2.
    apply in_map_iff in H1. destruct H1 as [e1 [<- H1]].
    apply in_map_iff in H2. destruct H2 as [e2 [Hk H2]].
    apply couple_with_edges in H1. destruct H1 as [Hs1 _].
    apply couple_all_edges in H2; [|exact Hnd'].
    destruct H2 as [Hs2 [Hd2 _]].
    apply pairKey_eq in Hk. rewrite Hs1 in Hk.
    destruct Hk as [[E _]|[_ E]]; apply Hpa; rewrite <- E; assumption.
Qed.

(** *** Similarity *)

Lemma similarity_pairs_ok (paperIdMap : list (string * Z)) (corpus : TfIdfCorpus)
    (topK : Z) (threshold : R) :
  pairs_ok (similarity_loop paperIdMap corpus topK threshold).
Proof.
  unfold similarity_loop. apply fold_left_invariant.
  - repeat split; constructor.
  - intros st entry Hst _. cbv zeta. apply fold_left_invariant; [exact Hst|].
    intros [edges seen] neighbor [Hmap [Hnd Hty]] _. simpl in *.
    destruct (map_get String.eqb paperIdMap (fst neighbor)) as [nid|];
      [|repeat split; assumption].
    destruct (set_has pair_eqb seen (pairKey (snd entry) nid)) eqn:E;
      [repeat split; assumption|].
    unfold set_add. rewrite E.
    apply set_has_false in E; [|apply pair_eqb_eq].
    repeat split; simpl.
    + rewrite map_app, Hmap. reflexivity.
    + apply NoDup_snoc; assumption.
    + apply Forall_app. split; [exact Hty|]. repeat constructor.
Qed.

(** *** Three documents alike, one neighbour each *)

Lemma unit_vector_similarity : cosineSimilarity unit_vector unit_vector = 1%R.
Proof.
  apply SimilarityFacts.cosine_self_one.
  - repeat constructor. intros [].
  - exists ("a"%string, 1%R). split; [now left|simpl; lra].
Qed.

Lemma three_alike_top1 (id : string) :
  In id ["p1"; "p2"; "p3"]%string ->
  findTopKSimilar id three_alike 1 (25 / 100)%R
  = if String.eqb id "p1" then [("p2"%string, 1%R)] else [("p1"%string, 1%R)].
Proof.
  assert (T : Rleb (25 / 100) 1 = true)
    by (apply SimilarityFacts.Rleb_true; lra).
  assert (U : Rleb 1 1 = true) by (apply SimilarityFacts.Rleb_true; lra).
  intros [<-|[<-|[<-|[]]]]; unfold findTopKSimilar, three_alike;
    cbn [map_get documents String.eqb Ascii.eqb Bool.eqb fold_left fst snd];
    rewrite ?unit_vector_similarity, ?T; cbn [app array_sort sort_insert snd];
    rewrite ?U; reflexivity.
Qed.

Lemma three_alike_edges :
  map (fun e => (src_paper_id e, dst_paper_id e, type e))
      (buildSimilarityEdges ids_ascending three_alike 1 (25 / 100)%R)
  = [(1, 2, SIMILAR_TEXT); (3, 1, SIMILAR_TEXT)].
Proof.
  unfold buildSimilarityEdges, similarity_loop, ids_ascending.
  cbn [fold_left fst snd].
  rewrite !three_alike_top1 by (simpl; tauto).
  reflexivity.
Qed.

End AnalyticEdgeFacts.

(* ------------------------------------------------------------------ *)
(** ** Composite score *)
(* ------------------------------------------------------------------ *)

Module ScoringFacts.
Import Js Types TfIdf Tokenizer Scoring SimilarityFacts.
Local Open Scope R_scope.

Lemma fold_min_le (l : list Z) (a : Z) :
  (fold_left Z.min l a <= a)%Z
  /\ (forall x, In x l -> (fold_left Z.min l a <= x)%Z).
Proof.
  revert a. induction l as [|y l IH]; intros a; simpl.
  - split; [lia|intros x []].
  - destruct (IH (Z.min a y)) as [H1 H2]. split; [lia|].
    intros x [<-|Hx]; [lia|now apply H2].
Qed.

Lemma min_years_le (years : list Z) (y : Z) :
  In y years -> exists m, min_years years = Some m /\ (m <= y)%Z.
Proof.
  destruct years as [|a rest]; [intros []|]. simpl.
  destruct (fold_min_le rest a) as [H1 H2].
  intros [<-|Hy]; eexists; (split; [reflexivity|]); auto.
Qed.

Lemma math_max_ge (x : R) (values : list R) :
  x <= math_max x values
  /\ (forall v, In v values -> v <= math_max x values).
Proof.
  unfold math_max. revert x.
  induction values as [|a l IH]; intros x; simpl.
  - split; [lra|intros v []].
  - destruct (IH (Rmax x a)) as [H1 H2].
    pose proof (Rmax_l x a). pose proof (Rmax_r x a).
    split; [lra|]. intros v [<-|Hv]; [lra|now apply H2].
Qed.

Lemma maxPagerank_pos (pagerankScores : list (Z * R)) :
  0 < maxPagerank pagerankScores.
Proof.
  unfold maxPagerank.
  destruct (math_max_ge (1 / 1000) (map_values pagerankScores)) as [H _]. lra.
Qed.

Lemma normalized_pagerank_nonneg (pagerankScores : list (Z * R)) (id : Z) :
  (forall i s, In (i, s) pagerankScores -> 0 <= s) ->
  0 <= normalized_pagerank pagerankScores id.
Proof.
  intros H. unfold normalized_pagerank.
  pose proof (maxPagerank_pos pagerankScores) as Hpos.
  apply Rmult_le_pos; [|left; now apply Rinv_0_lt_compat].
  destruct (map_get Z.eqb pagerankScores id) as [s|] eqn:G; [|lra].
  apply map_get_in in G; [|apply Z.eqb_eq]. exact (H _ _ G).
Qed.

Lemma relevance_sum_nonneg (docVector : Vec) (queryTokens : list string) (acc : R) :
  (forall t w, In (t, w) docVector -> 0 <= w) ->
  0 <= acc ->
  0 <= fold_left
         (fun acc token =>
            match map_get String.eqb docVector token with
            | Some w => acc + w
            | None => acc + 0
            end) queryTokens acc.
Proof.
  intros H. revert acc.
  induction queryTokens as [|t ts IH]; intros acc Hacc; simpl; [exact Hacc|].
  apply IH. destruct (map_get String.eqb docVector t) as [w|] eqn:G; [|lra].
  apply map_get_in in G; [|apply String.eqb_eq].
  pose proof (H _ _ G). lra.
Qed.

Lemma computeRelevance_range (corpus : TfIdfCorpus) (docId : string)
    (queryTokens : list string) :
  (forall d v t w, In (d, v) (documents corpus) -> In (t, w) v -> 0 <= w) ->
  0 <= computeRelevance corpus docId queryTokens <= 1.
Proof.
  intros H. unfold computeRelevance.
  destruct (map_get String.eqb (documents corpus) docId) as [v|] eqn:G; [|lra].
  destruct queryTokens as [|t ts]; [lra|].
  apply map_get_in in G; [|apply String.eqb_eq].
  set (n := IZR (Z.of_nat (List.length (t :: ts)))).
  assert (Hn : 0 < n).
  { subst n. apply IZR_lt. simpl. lia. }
  set (score := fold_left _ (t :: ts) 0).
  assert (Hs : 0 <= score).
  { subst score. apply relevance_sum_nonneg; [|lra].
    intros t' w. apply (H _ _ _ _ G). }
  split; [|apply Rmin_l].
  apply Rmin_glb; [lra|].
  apply Rmult_le_pos; [exact Hs|]. left. now apply Rinv_0_lt_compat.
Qed.

Lemma relevance_of_range (corpus : TfIdfCorpus) (queryTokens : list string)
    (p : Paper) (id : Z) :
  (forall d v t w, In (d, v) (documents corpus) -> In (t, w) v -> 0 <= w) ->
  0 <= relevance_of corpus queryTokens p id <= 1.
Proof.
  intros H. unfold relevance_of.
  destruct queryTokens; [lra|]. now apply computeRelevance_range.
Qed.

(** Every entry of the result is the loop body's value for some paper. *)
Lemma scores_from_papers (currentYear : Z) (papers : list Paper)
    (pagerankScores : list (Z * R)) (corpus : TfIdfCorpus)
    (topic : option string) (weights : ScoringWeights) (id : Z) (s : Num) :
  In (id, s)
     (computeCompositeScores currentYear papers pagerankScores corpus topic weights) ->
  exists p,
    In p papers /\ paper_id p = Some id
    /\ s = composite_of currentYear papers pagerankScores corpus
             (match topic with Some t => tokenize t | None => [] end)
             weights p id.
Proof.
  unfold computeCompositeScores. cbv zeta.
  set (body := composite_of currentYear papers pagerankScores corpus
                 (match topic with Some t => tokenize t | None => [] end) weights).
  revert id s.
  apply (fold_left_invariant _ _
           (fun scores => forall id s, In (id, s) scores ->
              exists p, In p papers /\ paper_id p = Some id /\ s = body p id)).
  - intros id s [].
  - intros scores p Hsc Hp id s Hin.
    destruct (paper_id p) as [i|] eqn:E; [|now apply Hsc].
    apply map_set_in in Hin; [|apply Z.eqb_eq].
    destruct Hin as [Hin|Heq]; [now apply Hsc|].
    injection Heq as -> ->. exists p. auto.
Qed.

End ScoringFacts.

Module ScoringTheorems.
Import Js Types TfIdf Tokenizer Scoring ScoringFacts.
Local Open Scope R_scope.

(** Where the score does stay in range.  With weights, PageRank scores and
    corpus weights that are not negative, every entry of the result of
    [computeCompositeScores] is the value the loop computes for a paper with
    that id, and for every paper whose year is null or greater than 1900 that
    value is a real [s] with [0 <= s <= 1], equal to
    [min(1, pr' * w_p + rel * w_r + rec * w_y)] where
    [rec = (year - year_min) / max(1, current_year - year_min)], a null year
    counting as the current year and [year_min] being the least year above
    1900.  Numbers are exact reals. *)
Lemma composite_score_range (currentYear : Z) (papers : list Paper)
    (pagerankScores : list (Z * R)) (corpus : TfIdfCorpus)
    (topic : option string) (weights : ScoringWeights) :
  (1900 < currentYear)%Z ->
  0 <= w_pagerank weights ->
  0 <= w_relevance weights ->
  0 <= w_recency weights ->
  (forall i s, In (i, s) pagerankScores -> 0 <= s) ->
  (forall d v t w, In (d, v) (documents corpus) -> In (t, w) v -> 0 <= w) ->
  let queryTokens := match topic with Some t => tokenize t | None => [] end in
  (forall id s,
     In (id, s)
        (computeCompositeScores currentYear papers pagerankScores corpus
                                topic weights) ->
     exists p,
       In p papers /\ paper_id p = Some id
       /\ s = composite_of currentYear papers pagerankScores corpus
                queryTokens weights p id)
  /\ (forall p id,
        In p papers ->
        (forall y, year p = Some y -> (1900 < y)%Z) ->
        exists year_min s,
          oldestYear currentYear papers = Some year_min
          /\ composite_of currentYear papers pagerankScores corpus
               queryTokens weights p id = Finite s
          /\ s = Rmin 1
                   (normalized_pagerank pagerankScores id * w_pagerank weights
                    + relevance_of corpus queryTokens p id * w_relevance weights
                    + IZR (year_or currentYear p - year_min)
                      / IZR (Z.max 1 (currentYear - year_min))
                      * w_recency weights)
          /\ 0 <= s <= 1).
Proof.
  intros Hcur Hwp Hwr Hwy Hpr Hcorpus queryTokens. split.
  - intros id s. apply scores_from_papers.
  - intros p id Hp Hyear.
    assert (Hy : (1900 < year_or currentYear p)%Z).
    { unfold year_or. destruct (year p) as [y|]; [now apply Hyear|exact Hcur]. }
    destruct (min_years_le
                (filter (fun y => (1900 <? y)%Z) (map (year_or currentYear) papers))
                (year_or currentYear p)) as [ymin [Hmin Hle]].
    { apply filter_In. split; [now apply in_map|now apply Z.ltb_lt]. }
    exists ymin. eexists. split; [exact Hmin|].
    unfold composite_of, oldestYear. rewrite Hmin.
    unfold yearRange, recency.
    assert (Hrange : (0 <? Z.max 1 (currentYear - ymin))%Z = true)
      by (apply Z.ltb_lt; lia).
    rewrite Hrange. cbn [num_times num_plus num_min1].
    split; [reflexivity|]. split; [reflexivity|].
    split; [|apply Rmin_l].
    pose proof (normalized_pagerank_nonneg pagerankScores id Hpr) as H1.
    pose proof (relevance_of_range corpus queryTokens p id Hcorpus) as [H2 _].
    assert (H3 : 0 <= IZR (year_or currentYear p - ymin)
                      / IZR (Z.max 1 (currentYear - ymin))).
    { apply Rmult_le_pos; [apply IZR_le; lia|].
      left. apply Rinv_0_lt_compat. apply IZR_lt. lia. }
    apply Rmin_glb; [lra|].
    apply Rplus_le_le_0_compat; [apply Rplus_le_le_0_compat|];
      now apply Rmult_le_pos.
Qed.

(** The lemma at the paper of 2000, in 2026, with the default weights. *)
Lemma composite_score_range_witness :
  exists year_min s,
    oldestYear 2026%Z [paper_2000; paper_1850] = Some year_min
    /\ composite_of 2026%Z [paper_2000; paper_1850] example_pagerank
         example_corpus (tokenize "attention") DEFAULT_WEIGHTS paper_2000 1%Z
       = Finite s
    /\ 0 <= s <= 1.
Proof.
  destruct (composite_score_range 2026%Z [paper_2000; paper_1850]
              example_pagerank example_corpus (Some "attention"%string)
              DEFAULT_WEIGHTS) as [_ H].
  - lia.
  - simpl; lra.
  - simpl; lra.
  - simpl; lra.
  - intros i s [E|[E|[]]]; injection E as _ <-; lra.
  - intros d v t w [E|[E|[]]] Hin; injection E as _ <-;
      destruct Hin as [E|[]]; injection E as _ <-; lra.
  - destruct (H paper_2000 1%Z) as [ymin [s [H1 [H2 [_ H3]]]]].
    + now left.
    + intros y [= <-]. lia.
    + exists ymin, s. auto.
Defined.

(** C6 at inputs where the code departs from it.  In 2026, with the
    default weights (which sum to 1), a paper of 1850 next to a paper of
    2000 gets a negative score: the oldest year is taken over the years
    above 1900 only, so the recency of the older paper is negative, and
    [Math.min(1.0, .)] bounds the score from above only.  A paper of 1850
    on its own gets the score [-Infinity]: no year passes the filter, so
    the oldest year is [Math.min()], which is [Infinity]. *)
Theorem composite_score_negative :
  (exists s,
     map_get Z.eqb
       (computeCompositeScores 2026%Z [paper_2000; paper_1850] []
          (buildCorpus [paper_2000; paper_1850]) None DEFAULT_WEIGHTS) 2%Z
     = Some (Finite s)
     /\ s < 0)
  /\ map_get Z.eqb
       (computeCompositeScores 2026%Z [paper_1850] []
          (buildCorpus [paper_1850]) None DEFAULT_WEIGHTS) 2%Z
     = Some NegInfinity.
Proof.
  split.
  - exists (Rmin 1
              (0 / math_max (1 / 1000) [] * (5 / 10) + 0 * (3 / 10)
               + IZR (1850 - 2000) / IZR (Z.max 1 (2026 - 2000)) * (2 / 10))).
    split; [vm_compute; reflexivity|].
    eapply Rle_lt_trans; [apply Rmin_r|].
    unfold math_max. simpl. change (Z.max 1 26) with 26%Z. lra.
  - unfold computeCompositeScores, composite_of. cbn [fold_left paper_id paper_1850].
    cbn [map_set]. cbn [map_get]. rewrite Z.eqb_refl. f_equal.
    unfold oldestYear, yearRange, recency. cbn.
    unfold num_times, DEFAULT_WEIGHTS. cbn [w_recency].
    assert (E : Rltb 0 (2 / 10) = true).
    { unfold Rltb. destruct (Rlt_dec 0 (2 / 10)); [reflexivity|lra]. }
    rewrite E. reflexivity.
Qed.

End ScoringTheorems.

(* ------------------------------------------------------------------ *)
(** ** The transport and the response cache *)
(* ------------------------------------------------------------------ *)

Module HttpFacts.
Import Js Cache Http SimilarityFacts.
Local Open Scope string_scope.
Local Open Scope R_scope.

Lemma Rltb_true (a b : R) : Rltb a b = true <-> a < b.
Proof. unfold Rltb. destruct (Rlt_dec a b); split; congruence. Qed.

Lemma Rltb_false (a b : R) : Rltb a b = false <-> b <= a.
Proof.
  unfold Rltb. destruct (Rlt_dec a b); split; try congruence; intros; lra.
Qed.

(** [ResponseCache.get] returns the payload of an entry that is at most
    [ttlMs] old and treats an older one as a miss. *)
Lemma cache_get_ttl (sha256 : string -> string) (c : ResponseCache)
    (fs : FileSystem) (t timestamp : R) (url stored data : string) :
  enabled c = true ->
  map_get String.eqb fs (filePath sha256 c url) = Some (Entry timestamp stored data) ->
  (t - timestamp <= ttlMs c -> Cache.get sha256 c fs t url = Some data)
  /\ (ttlMs c < t - timestamp -> Cache.get sha256 c fs t url = None).
Proof.
  intros He Hf. unfold Cache.get. rewrite He, Hf. simpl. split; intros H.
  - now rewrite (proj2 (Rltb_false _ _) H).
  - now rewrite (proj2 (Rltb_true _ _) H).
Qed.

(** Taking a token leaves the cache directory and the network as they
    are. *)
Lemma acquire_world (b : TokenBucket) (w : World) :
  files (snd (acquire b w)) = files w
  /\ network (snd (acquire b w)) = network w
  /\ exists slept, events (snd (acquire b w)) = (events w ++ slept)%list
                   /\ forall e, In e slept -> exists ms, e = Slept ms.
Proof.
  unfold acquire. destruct (Rleb 1 (tokens (refill b (now w)))); simpl.
  - repeat split; try reflexivity. exists []. rewrite app_nil_r.
    split; [reflexivity|intros e []].
  - repeat split; try reflexivity. eexists. split; [reflexivity|].
    intros e [<-|[]]. eexists. reflexivity.
Qed.

(** The retry loop never touches the cache directory. *)
Lemma after_backoff_files (continue : World -> Outcome) (w w1 : World)
    (attempt : nat) (retryAfter : option R) :
  (forall w', files (snd (continue w')) = files w') ->
  files w1 = files w ->
  files (snd (after_backoff continue w1 attempt retryAfter)) = files w.
Proof.
  intros Hc Hw. unfold after_backoff.
  destruct retryAfter as [ms|]; simpl; now rewrite Hc.
Qed.

Lemma on_error_files (continue : World -> Outcome) (w w1 : World)
    (attempt : nat) (url : string) (code : option string) (aborted : bool)
    (message : string) :
  (forall w', files (snd (continue w')) = files w') ->
  files w1 = files w ->
  files (snd (on_error continue w1 attempt url code aborted message)) = files w.
Proof.
  intros Hc Hw. unfold on_error. cbv zeta.
  destruct (_ && _); [now apply after_backoff_files|].
  now destruct aborted.
Qed.

Lemma on_response_files (parseInt : string -> option Z)
    (parseDate : string -> option R) (continue : World -> Outcome)
    (w w1 : World) (attempt : nat) (url : string) (status : Z)
    (statusText : string) (headers : list (string * string)) (body : string)
    (bodyParses : bool) :
  (forall w', files (snd (continue w')) = files w') ->
  files w1 = files w ->
  files (snd (on_response parseInt parseDate continue w1 attempt url status
                          statusText headers body bodyParses)) = files w.
Proof.
  intros Hc Hw. unfold on_response. cbv zeta.
  destruct (_ && negb bodyParses); [now apply on_error_files|].
  destruct (negb _); [|exact Hw].
  destruct (_ && _); [now apply after_backoff_files|exact Hw].
Qed.

Lemma attempts_files (parseInt : string -> option Z) (parseDate : string -> option R)
    (remaining attempt : nat) (w : World) (url method : string)
    (hs : list (string * string)) (body : option string) :
  files (snd (attempts parseInt parseDate remaining attempt w url method hs body))
  = files w.
Proof.
  revert attempt w.
  induction remaining as [|n IH]; intros attempt w; [reflexivity|].
  cbn [attempts]. unfold fetch.
  destruct (network w) as [|[status statusText headers body' parses
                            |code aborted message] rest].
  - apply on_error_files; [intros w'; apply IH|reflexivity].
  - apply on_response_files; [intros w'; apply IH|reflexivity].
  - apply on_error_files; [intros w'; apply IH|reflexivity].
Qed.

(** [request] never reads or writes the cache directory. *)
Lemma request_files (parseInt : string -> option Z) (parseDate : string -> option R)
    (c : HttpClient) (w : World) (url : string) (options : HttpRequestOptions) :
  files (snd (request parseInt parseDate c w url options)) = files w.
Proof.
  unfold request. cbv zeta.
  destruct (getBucket c w _) as [bucket c1].
  destruct (acquire_world bucket w) as [Hf _].
  destruct (acquire bucket w) as [bucket' w1]. simpl in Hf.
  destruct (opt_body_object options); [|destruct (opt_body_string options)];
    cbv iota beta;
    match goal with
    | |- context [attempts ?pi ?pd ?r ?a ?w' ?u ?m ?h ?b] =>
        pose proof (attempts_files pi pd r a w' u m h b) as Ha;
        destruct (attempts pi pd r a w' u m h b) as [result w2]
    end; simpl in *; now rewrite Ha.
Qed.

(** When the network answers the first call with a 200 and JSON, [request]
    issues that call and returns the answer. *)
Lemma request_fetches (parseInt : string -> option Z) (parseDate : string -> option R)
    (c : HttpClient) (w : World) (url body : string)
    (headers : list (string * string)) (rest : list FetchOutcome) :
  network w = Responded 200 "OK" headers body true :: rest ->
  map_get String.eqb headers "content-type" = Some "application/json" ->
  fst (fst (request parseInt parseDate c w url no_options))
  = inl (mkResponse 200 headers (JsonData body) true)
  /\ In (Fetched url "GET" [("User-Agent", userAgent c)] None)
        (events (snd (request parseInt parseDate c w url no_options))).
Proof.
  intros Hnet Hct. unfold request. cbv zeta.
  destruct (getBucket c w _) as [bucket c1].
  destruct (acquire_world bucket w) as [_ [Hn _]].
  destruct (acquire bucket w) as [bucket' w1]. simpl in Hn.
  cbn [no_options opt_method opt_timeout opt_source opt_headers
       opt_body_object opt_body_string fold_left].
  cbn [attempts]. unfold fetch. rewrite Hn, Hnet.
  unfold on_response. cbv zeta. rewrite Hct.
  cbn. split; [reflexivity|]. apply in_or_app. right. now left.
Qed.

End HttpFacts.

Module HttpTheorems.
Import Js Cache Http HttpFacts.
Local Open Scope string_scope.
Local Open Scope R_scope.

(** C5 at an input where the code departs from it.  The cache holds an
    entry for the URL, one second old, that [ResponseCache.get] returns;
    [HttpClient.request] for that URL still calls the network, returns the
    network's answer and not the cached payload, and after this successful
    request the cache directory is what it was: nothing was stored. *)
Theorem request_does_not_consult_cache (sha256 : string -> string)
    (parseInt : string -> option Z) (parseDate : string -> option R) :
  let w := world_with_cached_entry sha256 in
  let client := new_HttpClient None None None in
  let outcome := request parseInt parseDate client w cached_url no_options in
  Cache.get sha256 default_cache (files w) (now w) cached_url = Some "{cached}"
  /\ fst (fst outcome) = inl (mkResponse 200 fresh_headers (JsonData "{fresh}") true)
  /\ In (Fetched cached_url "GET" [("User-Agent", userAgent client)] None)
        (events (snd outcome))
  /\ files (snd outcome) = files w.
Proof.
  intros w client outcome. split; [|split; [|split]].
  - unfold Cache.get, Cache.set, default_cache, new_ResponseCache, w,
      world_with_cached_entry. cbn. rewrite String.eqb_refl.
    assert (E : Rltb (24 * 60 * 60 * 1000) (1000 - 0) = false)
      by (apply Rltb_false; lra).
    rewrite E. reflexivity.
  - apply (request_fetches parseInt parseDate client w cached_url "{fresh}"
             fresh_headers []); reflexivity.
  - apply (request_fetches parseInt parseDate client w cached_url "{fresh}"
             fresh_headers []); reflexivity.
  - apply request_files.
Qed.

End HttpTheorems.

(* ------------------------------------------------------------------ *)
(** ** The build *)
(* ------------------------------------------------------------------ *)

Module BuilderFacts.
Import Js Types Database TfIdf Similarity Algorithms Scoring Builder.
Local Open Scope Z_scope.

(** *** Operations of the store that leave the papers alone *)

Lemma insertEdges_papers (store : Store) (es : list Edge) :
  papers (insertEdges store es) = papers store.
Proof.
  unfold insertEdges. apply fold_left_invariant; [reflexivity|].
  intros s e H _. simpl. exact H.
Qed.

Lemma insertEdges_runs (store : Store) (es : list Edge) :
  runs (insertEdges store es) = runs store.
Proof.
  unfold insertEdges. apply fold_left_invariant; [reflexivity|].
  intros s e H _. simpl. exact H.
Qed.

Lemma insertClusters_papers (store : Store) (cs : list Cluster)
    (paperMappings : list (Z * list Z)) :
  papers (insertClusters store cs paperMappings) = papers store.
Proof.
  unfold insertClusters.
  apply (fold_left_invariant _ _ (fun st : Store * Z => papers (fst st) = papers store));
    [reflexivity|].
  intros [s i] c H _. simpl in *. exact H.
Qed.

Lemma updatePaperScores_count (store : Store) (scores : list (Z * R)) :
  List.length
    (papers (fold_left (fun s entry => updatePaperScore s (fst entry) (snd entry))
                       scores store))
  = List.length (papers store).
Proof.
  apply (fold_left_invariant _ _
           (fun s : Store => List.length (papers s) = List.length (papers store)));
    [reflexivity|].
  intros s e H _. simpl. now rewrite length_map.
Qed.

(** *** Inserting papers *)

Lemma insert_or_ignore_count (store : Store) (p : Paper) :
  getPaperCount store <= getPaperCount (fst (insert_or_ignore store p))
  <= getPaperCount store + 1.
Proof.
  unfold insert_or_ignore, getPaperCount.
  destruct (getPaperBySourceId store (source p) (source_id p)); simpl; [lia|].
  rewrite length_app. simpl. lia.
Qed.

Lemma insertPapers_count (store : Store) (ps : list Paper) :
  getPaperCount store <= getPaperCount (fst (insertPapers store ps))
  <= getPaperCount store + Z.of_nat (List.length ps).
Proof.
  unfold insertPapers.
  assert (H : forall st,
            getPaperCount (fst st)
            <= getPaperCount
                 (fst (fold_left
                    (fun (st : Store * list (option Z)) p =>
                       let (db', ids) := st in
                       match insert_or_ignore db' p with
                       | (db'', Some id) => (db'', (ids ++ [Some id])%list)
                       | (db'', None) =>
                           match getPaperBySourceId db'' (source p) (source_id p) with
                           | Some existing => (db'', (ids ++ [paper_id existing])%list)
                           | None => (db'', ids)
                           end
                       end) ps st))
            <= getPaperCount (fst st) + Z.of_nat (List.length ps)).
  { induction ps as [|p ps IH]; intros [s ids]; simpl; [lia|].
    pose proof (insert_or_ignore_count s p) as Hc.
    destruct (insert_or_ignore s p) as [s' [id|]] eqn:E; simpl in Hc.
    - specialize (IH (s', (ids ++ [Some id])%list)). simpl in IH. lia.
    - destruct (getPaperBySourceId s' (source p) (source_id p)) as [ex|].
      + specialize (IH (s', (ids ++ [paper_id ex])%list)). simpl in IH. lia.
      + specialize (IH (s', ids)). simpl in IH. lia. }
  apply (H (store, [])).
Qed.

(** *** The traversal *)

Lemma emit_edge_papers (st : Traversal) (src dst : Z) (source : string) (d : Z) :
  papers (db (emit_edge st src dst source d)) = papers (db st).
Proof.
  unfold emit_edge. destruct (set_has pair_eqb (edgeSeen st) (src, dst));
    [reflexivity|]. simpl. reflexivity.
Qed.

Lemma emit_edge_count (st : Traversal) (src dst : Z) (source : string) (d : Z) :
  getPaperCount (db (emit_edge st src dst source d)) = getPaperCount (db st).
Proof. unfold getPaperCount. now rewrite emit_edge_papers. Qed.

(** A reference adds a paper only while the count is below [maxPapers]. *)
Lemma visit_reference_count (config : PaperGraphConfig) (d : Z) (atCapacity : bool)
    (p : Paper) (pid : Z) (st : Traversal) (ref : Paper) (bound : Z) :
  maxPapers config <= bound ->
  getPaperCount (db st) <= bound ->
  getPaperCount (db (visit_reference config d atCapacity p pid st ref)) <= bound.
Proof.
  intros Hmax Hst. unfold visit_reference. cbv zeta.
  set (cond := negb (set_has String.eqb (visited st) (paper_key ref))
               && negb atCapacity
               && (getPaperCount (db st) <? maxPapers config)).
  assert (Helse : getPaperCount
            (db (if cond
                 then
                   let (db', ids) := insertPapers (db st) [ref] in
                   match ids with
                   | Some refId :: _ =>
                       mkTraversal
                         (db (emit_edge
                                (mkTraversal db'
                                   (set_add String.eqb (visited st) (paper_key ref))
                                   (edgeSeen st) (allEdges st) (nextFrontier st))
                                pid refId (source p) d))
                         (visited (emit_edge
                                (mkTraversal db'
                                   (set_add String.eqb (visited st) (paper_key ref))
                                   (edgeSeen st) (allEdges st) (nextFrontier st))
                                pid refId (source p) d))
                         (edgeSeen (emit_edge
                                (mkTraversal db'
                                   (set_add String.eqb (visited st) (paper_key ref))
                                   (edgeSeen st) (allEdges st) (nextFrontier st))
                                pid refId (source p) d))
                         (allEdges (emit_edge
                                (mkTraversal db'
                                   (set_add String.eqb (visited st) (paper_key ref))
                                   (edgeSeen st) (allEdges st) (nextFrontier st))
                                pid refId (source p) d))
                         (nextFrontier (emit_edge
                                (mkTraversal db'
                                   (set_add String.eqb (visited st) (paper_key ref))
                                   (edgeSeen st) (allEdges st) (nextFrontier st))
                                pid refId (source p) d)
                          ++ [with_paper_id ref (Some refId)])
                   | _ =>
                       mkTraversal db'
                         (set_add String.eqb (visited st) (paper_key ref))
                         (edgeSeen st) (allEdges st) (nextFrontier st)
                   end
                 else st)) <= bound).
  { destruct cond eqn:C; [|exact Hst].
    subst cond. apply andb_true_iff in C. destruct C as [_ C].
    apply Z.ltb_lt in C.
    pose proof (insertPapers_count (db st) [ref]) as Hc.
    destruct (insertPapers (db st) [ref]) as [db' ids]. simpl in Hc.
    destruct ids as [|[refId|] ids]; simpl; try lia.
    rewrite emit_edge_count. simpl. lia. }
  destruct (getPaperBySourceId (db st) (source ref) (source_id ref)) as [e|];
    [|exact Helse].
  destruct (paper_id e); [|exact Helse].
  now rewrite emit_edge_count.
Qed.

Lemma visit_paper_count (adapter : SourceAdapter) (config : PaperGraphConfig)
    (d : Z) (atCapacity : bool) (st : Traversal) (p : Paper) (bound : Z) :
  maxPapers config <= bound ->
  getPaperCount (db st) <= bound ->
  getPaperCount (db (visit_paper adapter config d atCapacity st p)) <= bound.
Proof.
  intros Hmax Hst. unfold visit_paper.
  destruct (paper_id p) as [pid|]; [|exact Hst].
  destruct (fetchReferences adapter (source_id p) (maxRefsPerPaper config))
    as [refs|]; [|exact Hst].
  apply (fold_left_invariant _ _ (fun s : Traversal => getPaperCount (db s) <= bound));
    [exact Hst|].
  intros s ref Hs _. now apply visit_reference_count.
Qed.

Lemma depths_count (adapter : SourceAdapter) (config : PaperGraphConfig)
    (remaining : nat) (d : Z) (frontier : list Paper) (st : Traversal) (bound : Z) :
  maxPapers config <= bound ->
  getPaperCount (db st) <= bound ->
  getPaperCount (db (depths adapter config remaining d frontier st)) <= bound.
Proof.
  intros Hmax. revert d frontier st.
  induction remaining as [|n IH]; intros d frontier st Hst; [exact Hst|].
  cbn [depths]. cbv zeta.
  set (st1 := fold_left _ frontier _).
  assert (H1 : getPaperCount (db st1) <= bound).
  { subst st1.
    apply (fold_left_invariant _ _ (fun s : Traversal => getPaperCount (db s) <= bound));
      [exact Hst|].
    intros s p Hs _. now apply visit_paper_count. }
  destruct (nextFrontier st1); [exact H1|]. now apply IH.
Qed.

(** The traversal inserts new papers only while the count is below
    [maxPapers]. *)
Lemma traverseCitations_count (adapter : SourceAdapter) (store : Store)
    (seedPapers : list Paper) (config : PaperGraphConfig) :
  getPaperCount (db (traverseCitations adapter store seedPapers config))
  <= Z.max (getPaperCount store) (maxPapers config).
Proof.
  unfold traverseCitations. apply depths_count; simpl; lia.
Qed.

(** *** Seeds *)

Lemma array_slice0_length (A : Type) (k : Z) (l : list A) :
  0 <= k -> Z.of_nat (List.length (array_slice0 k l)) <= k.
Proof.
  intros Hk. unfold array_slice0.
  destruct (k <? 0) eqn:E; [apply Z.ltb_lt in E; lia|].
  rewrite length_firstn. lia.
Qed.

Lemma seedLimit_clamp (m : Z) : 10 <= seedLimit m <= 200.
Proof. unfold seedLimit. lia. Qed.

Lemma seedLimit_le (m : Z) : 10 <= m -> seedLimit m <= m.
Proof.
  intros H. unfold seedLimit.
  assert (2 * m / 5 <= m) by (apply Z.div_le_upper_bound; lia). lia.
Qed.

Lemma findSeeds_length (adapter : SourceAdapter) (config : PaperGraphConfig)
    (seeds : list Paper) :
  findSeeds adapter config = Some seeds ->
  Z.of_nat (List.length seeds) <= seedLimit (maxPapers config).
Proof.
  unfold findSeeds. cbv zeta.
  destruct (match _ with Some st => for_each _ _ st | None => None end)
    as [[papers seen]|]; [|discriminate].
  intros [= <-]. apply array_slice0_length.
  pose proof (seedLimit_clamp (maxPapers config)). lia.
Qed.

(** *** After the traversal *)

Lemma postProcess_count (lib : GraphLibrary) (clock : Clock)
    (config : PaperGraphConfig) (store : Store) :
  getPaperCount (snd (postProcess lib clock config store)) = getPaperCount store.
Proof.
  unfold postProcess, getPaperCount. cbv zeta.
  destruct (spine config); cbv iota beta;
    (destruct (computePageRank _ _ _);
       [|simpl; now rewrite ?insertEdges_papers]);
    (destruct (computeLouvainClusters _ _ _);
       [|simpl; now rewrite ?insertEdges_papers]);
    destruct (buildClusterObjects _ _); simpl;
    rewrite updatePaperScores_count, insertClusters_papers, ?insertEdges_papers;
    reflexivity.
Qed.

(** The number of papers a build leaves behind. *)
Lemma buildGraph_count (lib : GraphLibrary) (clock : Clock)
    (adapter : SourceAdapter) (config : PaperGraphConfig) (store : Store) :
  getPaperCount (snd (buildGraph lib clock adapter config store))
  <= Z.max (maxPapers config)
           (getPaperCount store + seedLimit (maxPapers config)).
Proof.
  unfold buildGraph.
  destruct (findSeeds adapter config) as [seeds|] eqn:F;
    [|unfold getPaperCount; simpl;
      pose proof (seedLimit_clamp (maxPapers config)); lia].
  pose proof (findSeeds_length _ _ _ F) as Hlen.
  destruct seeds as [|s0 seeds];
    [unfold getPaperCount; simpl;
     pose proof (seedLimit_clamp (maxPapers config)); lia|].
  pose proof (insertPapers_count store (s0 :: seeds)) as Hins.
  destruct (insertPapers store (s0 :: seeds)) as [store1 seedIds].
  simpl fst in Hins. rewrite postProcess_count.
  pose proof (traverseCitations_count adapter store1
                (assign_ids (s0 :: seeds) seedIds) config) as Ht.
  lia.
Qed.

End BuilderFacts.

Module BuilderTheorems.
Import Js Types Database TfIdf Similarity Algorithms Scoring Builder BuilderFacts.
Local Open Scope string_scope.
Local Open Scope Z_scope.

(** C2 at an input where the code departs from it.  The topic search finds
    W1 and the reference list of W1 holds W1 itself and W2.  The build
    persists the CITES edge from paper 1 to paper 1, next to the edge from 1
    to 2, and then fails: the graph built for the clustering refuses
    loops. *)
Theorem traversal_persists_self_citation :
  let config := config_of "theory" 1 10 in
  let seeds := [with_paper_id (paper_of "W1" "Graph Theory") (Some 1)] in
  let store1 := fst (insertPapers empty_store [paper_of "W1" "Graph Theory"]) in
  let outcome :=
    buildGraph uniform_library clock_2026 adapter_with_self_citation config
               empty_store in
  map (fun e => (src_paper_id e, dst_paper_id e, type e))
      (allEdges (traverseCitations adapter_with_self_citation store1 seeds config))
  = [(1, 1, CITES); (1, 2, CITES)]
  /\ map (fun e => (src_paper_id e, dst_paper_id e, type e))
         (edges (snd outcome))
     = [(1, 1, CITES); (1, 2, CITES)]
  /\ fst outcome = None.
Proof. repeat split; vm_compute; reflexivity. Qed.

(** C3, as the code has it.  In every build the seeds are at most
    [seedLimit = max(10, min(floor(maxPapers * 0.4), 200))], the traversal
    adds papers only while the count is below [maxPapers], and the store
    ends with at most the larger of [maxPapers] and the initial count plus
    [seedLimit].  For a store without papers that is at most [maxPapers]
    when [maxPapers >= 10], and at most 10 when [maxPapers < 10]. *)
Theorem buildGraph_paper_count (lib : GraphLibrary) (clock : Clock)
    (adapter : SourceAdapter) (config : PaperGraphConfig) (store : Store) :
  (forall seeds,
     findSeeds adapter config = Some seeds ->
     Z.of_nat (List.length seeds) <= seedLimit (maxPapers config))
  /\ seedLimit (maxPapers config)
     = Z.max 10 (Z.min (2 * maxPapers config / 5) 200)
  /\ (forall seeds,
        getPaperCount (db (traverseCitations adapter store seeds config))
        <= Z.max (getPaperCount store) (maxPapers config))
  /\ getPaperCount (snd (buildGraph lib clock adapter config store))
     <= Z.max (maxPapers config)
              (getPaperCount store + seedLimit (maxPapers config))
  /\ (getPaperCount store = 0 -> 10 <= maxPapers config ->
      getPaperCount (snd (buildGraph lib clock adapter config store))
      <= maxPapers config)
  /\ (getPaperCount store = 0 -> maxPapers config < 10 ->
      getPaperCount (snd (buildGraph lib clock adapter config store)) <= 10).
Proof.
  pose proof (buildGraph_count lib clock adapter config store) as H.
  split; [|split; [|split; [|split; [|split]]]].
  - intros seeds. apply findSeeds_length.
  - reflexivity.
  - intros seeds. apply traverseCitations_count.
  - exact H.
  - intros Hempty Hmax.
    pose proof (seedLimit_le (maxPapers config) Hmax). lia.
  - intros Hempty Hmax.
    assert (Hs : seedLimit (maxPapers config) = 10).
    { unfold seedLimit.
      assert (2 * maxPapers config / 5 < 10)
        by (apply Z.div_lt_upper_bound; lia).
      lia. }
    lia.
Qed.

(** The theorem at the build with [maxPapers = 10] whose topic search
    finds ten papers. *)
Lemma buildGraph_paper_count_witness :
  10 <= maxPapers (config_of "theory" 2 10)
  /\ getPaperCount empty_store = 0
  /\ getPaperCount
       (snd (buildGraph uniform_library clock_2026 adapter_with_ten_papers
                        (config_of "theory" 2 10) empty_store))
     <= 10.
Proof.
  split; [simpl; lia|]. split; [reflexivity|].
  destruct (buildGraph_paper_count uniform_library clock_2026
              adapter_with_ten_papers (config_of "theory" 2 10) empty_store)
    as [_ [_ [_ [_ [H _]]]]].
  apply H; [reflexivity|simpl; lia].
Defined.

(** C3, as stated, fails: with [maxPapers = 5] the seed limit is 10, and a
    topic search that finds ten papers leaves ten papers in the store. *)
Lemma build_exceeds_small_max_papers :
  ~ (getPaperCount
       (snd (buildGraph uniform_library clock_2026 adapter_with_ten_papers
                        (config_of "theory" 2 5) empty_store))
     <= maxPapers (config_of "theory" 2 5)).
Proof.
  assert (E : getPaperCount
                (snd (buildGraph uniform_library clock_2026
                        adapter_with_ten_papers (config_of "theory" 2 5)
                        empty_store)) = 10)
    by (vm_compute; reflexivity).
  rewrite E. simpl. lia.
Qed.

(** C4, as the code has it.  When the final seed set is empty, [buildGraph]
    returns the output path and closes the store without recording a run:
    the runs, papers and edges of the store are what they were. *)
Theorem buildGraph_without_seeds (lib : GraphLibrary) (clock : Clock)
    (adapter : SourceAdapter) (config : PaperGraphConfig) (store : Store) :
  findSeeds adapter config = Some [] ->
  let outcome := buildGraph lib clock adapter config store in
  fst outcome = Some (out config)
  /\ runs (snd outcome) = runs store
  /\ stats_runs (getStats (snd outcome)) = stats_runs (getStats store)
  /\ papers (snd outcome) = papers store
  /\ edges (snd outcome) = edges store
  /\ is_open (snd outcome) = false.
Proof.
  intros H outcome. subst outcome. unfold buildGraph. rewrite H.
  repeat split.
Qed.

(** The theorem at a build whose searches find nothing. *)
Lemma buildGraph_without_seeds_witness :
  findSeeds adapter_without_results (config_of "theory" 2 150) = Some []
  /\ fst (buildGraph uniform_library clock_2026 adapter_without_results
                     (config_of "theory" 2 150) empty_store)
     = Some "graph.db"
  /\ runs (snd (buildGraph uniform_library clock_2026 adapter_without_results
                           (config_of "theory" 2 150) empty_store))
     = [].
Proof.
  assert (H : findSeeds adapter_without_results (config_of "theory" 2 150)
              = Some []) by reflexivity.
  split; [exact H|].
  destruct (buildGraph_without_seeds uniform_library clock_2026
              adapter_without_results (config_of "theory" 2 150) empty_store H)
    as [H1 [H2 _]].
  split; [exact H1|exact H2].
Defined.

(** C4, as stated, fails: after a build whose searches find nothing the
    run count of the store is not one more than before. *)
Lemma empty_seed_build_records_no_run :
  findSeeds adapter_without_results (config_of "theory" 2 150) = Some []
  /\ stats_runs
       (getStats
          (snd (buildGraph uniform_library clock_2026 adapter_without_results
                           (config_of "theory" 2 150) empty_store)))
     <> stats_runs (getStats empty_store) + 1.
Proof. split; [reflexivity|]. vm_compute. discriminate. Qed.

End BuilderTheorems.

(* ================================================================== *)
(** * Further properties of the code *)
(* ================================================================== *)

(* ------------------------------------------------------------------ *)
(** ** Tokenizer *)
(* ------------------------------------------------------------------ *)

Module TokenizerFacts.
Import Js Tokenizer TokenizerSpec.

Lemma replace_char_class (c : ascii) :
  token_char (replace_char c) = true \/ is_space (replace_char c) = true.
Proof.
  unfold replace_char, token_char.
  destruct (is_lower_alpha c) eqn:A; simpl; [left; now rewrite A|].
  destruct (is_digit c) eqn:D; simpl; [left; rewrite A, D; reflexivity|].
  destruct (is_space c) eqn:S; simpl; [now right|].
  destruct (is_hyphen c) eqn:H; simpl.
  - left. rewrite A, D, H. reflexivity.
  - right. reflexivity.
Qed.

(** The characters of a piece come from the current piece or from the
    text, and are not white space. *)
Lemma split_ws_chars (s cur : list ascii) (in_ws : bool) (piece : list ascii)
    (c : ascii) :
  In piece (split_ws cur in_ws s) -> In c piece ->
  In c cur \/ (In c s /\ is_space c = false).
Proof.
  revert cur in_ws. induction s as [|x s IH]; intros cur in_ws Hp Hc; simpl in Hp.
  - destruct Hp as [<-|[]]. now left.
  - destruct (is_space x) eqn:E.
    + destruct in_ws.
      * destruct (IH _ _ Hp Hc) as [[]|[H1 H2]]. right. split; [now right|exact H2].
      * destruct Hp as [<-|Hp]; [now left|].
        destruct (IH _ _ Hp Hc) as [[]|[H1 H2]]. right. split; [now right|exact H2].
    + destruct (IH _ _ Hp Hc) as [H|[H1 H2]].
      * apply in_app_or in H. destruct H as [H|[<-|[]]]; [now left|].
        right. split; [now left|exact E].
      * right. split; [now right|exact H2].
Qed.

Lemma drop_hyphens_suffix (t : list ascii) :
  exists hs, t = hs ++ drop_hyphens t /\ first_is_hyphen (drop_hyphens t) = false.
Proof.
  induction t as [|c t [hs [IH1 IH2]]]; simpl.
  - exists []. split; reflexivity.
  - destruct (is_hyphen c) eqn:E.
    + exists (c :: hs). split; [simpl; now f_equal|exact IH2].
    + exists []. split; [reflexivity|]. simpl. exact E.
Qed.

(** Trimming keeps a middle part of the token, without hyphen at its
    ends. *)
Lemma trim_hyphens_middle (t : list ascii) :
  (exists front back, t = front ++ trim_hyphens t ++ back)
  /\ first_is_hyphen (trim_hyphens t) = false
  /\ first_is_hyphen (rev (trim_hyphens t)) = false.
Proof.
  unfold trim_hyphens.
  destruct (drop_hyphens_suffix t) as [front [H1 H2]].
  destruct (drop_hyphens_suffix (rev (drop_hyphens t))) as [back [H3 H4]].
  set (y := drop_hyphens t) in *.
  set (z := drop_hyphens (rev y)) in *.
  assert (Hy : y = rev z ++ rev back).
  { rewrite <- rev_app_distr, <- H3. now rewrite rev_involutive. }
  split; [|split].
  - exists front, (rev back). now rewrite <- Hy.
  - destruct (rev z) as [|c r] eqn:E; [reflexivity|].
    rewrite Hy in H2. simpl in H2. exact H2.
  - rewrite rev_involutive. exact H4.
Qed.

Lemma string_of_list_ascii_inv (l : list ascii) :
  list_ascii_of_string (string_of_list_ascii l) = l.
Proof. apply list_ascii_of_string_of_list_ascii. Qed.

(** The tokens of a text, before they are turned into strings, with where
    their characters come from. *)
Lemma token_chars_from_text (text : string) (tok : list ascii) :
  In tok (map trim_hyphens
            (split_ws [] false
               (map replace_char (map to_lower (list_ascii_of_string text))))) ->
  forallb token_char tok = true
  /\ first_is_hyphen tok = false
  /\ first_is_hyphen (rev tok) = false
  /\ forall c, In c tok ->
       exists x, In x (list_ascii_of_string text) /\ c = replace_char (to_lower x).
Proof.
  intros Hin. apply in_map_iff in Hin. destruct Hin as [piece [<- Hp]].
  destruct (trim_hyphens_middle piece) as [[front [back Hmid]] [H1 H2]].
  assert (Hchars : forall c, In c (trim_hyphens piece) ->
            is_space c = false
            /\ exists x, In x (list_ascii_of_string text)
                         /\ c = replace_char (to_lower x)).
  { intros c Hc.
    assert (Hcp : In c piece).
    { rewrite Hmid. apply in_or_app. right. apply in_or_app. now left. }
    destruct (split_ws_chars _ _ _ _ _ Hp Hcp) as [[]|[Hs Hns]].
    split; [exact Hns|].
    apply in_map_iff in Hs. destruct Hs as [l [<- Hl]].
    apply in_map_iff in Hl. destruct Hl as [x [<- Hx]].
    exists x. split; [exact Hx|reflexivity]. }
  split; [|split; [exact H1|split; [exact H2|]]].
  - apply forallb_forall. intros c Hc.
    destruct (Hchars c Hc) as [Hns [x [_ ->]]].
    destruct (replace_char_class (to_lower x)) as [H|H]; [exact H|congruence].
  - intros c Hc. now destruct (Hchars c Hc).
Qed.

End TokenizerFacts.

Module TokenizerTheorems.
Import Js Tokenizer TokenizerSpec TokenizerFacts.

(** X1. Every token that [tokenize] returns has at least two characters,
    all of them lower-case ASCII letters, digits or hyphens, has no hyphen
    at either end, is not a pure number and is not a stopword.  An ASCII
    text (every character below 128, where [toLowerCase] only moves [A-Z]
    to [a-z]) without any letter or digit (empty, punctuation only, hyphens
    only) has no token. *)
Theorem tokenize_tokens_well_formed (text : string) :
  Forall (fun token => well_formed_token token = true) (tokenize text)
  /\ ((forall c, In c (list_ascii_of_string text) -> (code c < 128)%nat) ->
      (forall c, In c (list_ascii_of_string text) ->
         alphanumeric (to_lower c) = false) ->
      tokenize text = []).
Proof.
  assert (Hwf : Forall (fun token => well_formed_token token = true)
                  (tokenize text)
                /\ forall token, In token (tokenize text) ->
                     exists c x, In x (list_ascii_of_string text)
                       /\ c = replace_char (to_lower x)
                       /\ is_hyphen c = false /\ token_char c = true).
  { unfold tokenize. destruct (String.eqb text ""); [split; [constructor|intros t []]|].
    cbv zeta. split.
    - apply Forall_forall. intros token Hin.
      apply in_map_iff in Hin. destruct Hin as [tok [<- Hin]].
      apply filter_In in Hin. destruct Hin as [Hin Hf].
      destruct (token_chars_from_text text tok Hin) as [H1 [H2 [H3 _]]].
      apply andb_true_iff in Hf. destruct Hf as [Hf Hnum].
      apply andb_true_iff in Hf. destruct Hf as [Hlen Hstop].
      unfold well_formed_token. cbv zeta. rewrite string_of_list_ascii_inv.
      rewrite Hlen, H1, H2, H3, Hnum, Hstop. reflexivity.
    - intros token Hin.
      apply in_map_iff in Hin. destruct Hin as [tok [<- Hin]].
      apply filter_In in Hin. destruct Hin as [Hin Hf].
      destruct (token_chars_from_text text tok Hin) as [H1 [H2 [_ H4]]].
      apply andb_true_iff in Hf. destruct Hf as [Hf _].
      apply andb_true_iff in Hf. destruct Hf as [Hlen _].
      destruct tok as [|c tok]; [discriminate|].
      destruct (H4 c (or_introl eq_refl)) as [x [Hx Hc]].
      exists c, x. repeat split; try assumption.
      simpl in H1. apply andb_true_iff in H1. tauto. }
  destruct Hwf as [H1 H2]. split; [exact H1|].
  intros _ Hno. destruct (tokenize text) as [|t ts] eqn:E; [reflexivity|].
  exfalso. destruct (H2 t (or_introl eq_refl)) as [c [x [Hx [Hc [Hh Ht]]]]].
  specialize (Hno x Hx). unfold alphanumeric in Hno.
  apply orb_false_iff in Hno. destruct Hno as [Ha Hd].
  unfold token_char in Ht. rewrite Hh, orb_false_r in Ht.
  unfold replace_char in Hc. rewrite Ha, Hd in Hc. simpl in Hc.
  destruct (is_space (to_lower x) || is_hyphen (to_lower x)) eqn:E2.
  - subst c. rewrite Ha, Hd in Ht. discriminate.
  - subst c. discriminate.
Qed.

End TokenizerTheorems.

(* ------------------------------------------------------------------ *)
(** ** More on maps and arrays *)
(* ------------------------------------------------------------------ *)

Section MapLookupFacts.
Variables K V : Type.
Variable eqb : K -> K -> bool.
Hypothesis eqb_eq : forall a b, eqb a b = true <-> a = b.

Lemma map_get_set_same (m : list (K * V)) (k : K) (v : V) :
  Js.map_get eqb (Js.map_set eqb m k v) k = Some v.
Proof.
  induction m as [|[k' v'] m IH]; simpl.
  - now rewrite (eqb_refl_true _ eqb eqb_eq).
  - destruct (eqb k k') eqn:E; simpl; rewrite E; [reflexivity|exact IH].
Qed.

Lemma map_get_set_other (m : list (K * V)) (k k' : K) (v : V) :
  k' <> k ->
  Js.map_get eqb (Js.map_set eqb m k v) k' = Js.map_get eqb m k'.
Proof.
  intros Hne. induction m as [|[k0 v0] m IH]; simpl.
  - now rewrite (proj2 (eqb_false_neq _ eqb eqb_eq k' k) Hne).
  - destruct (eqb k k0) eqn:E; simpl.
    + apply eqb_eq in E. subst k0.
      now rewrite (proj2 (eqb_false_neq _ eqb eqb_eq k' k) Hne).
    + destruct (eqb k' k0); [reflexivity|exact IH].
Qed.

Lemma map_get_some_key (m : list (K * V)) (k : K) (v : V) :
  Js.map_get eqb m k = Some v -> In k (map fst m).
Proof.
  intros H. apply (map_get_in _ _ eqb eqb_eq) in H.
  apply in_map_iff. now exists (k, v).
Qed.

Lemma map_get_key_some (m : list (K * V)) (k : K) :
  In k (map fst m) -> exists v, Js.map_get eqb m k = Some v.
Proof.
  induction m as [|[k' v'] m IH]; simpl; [intros []|].
  intros [->|H].
  - rewrite (eqb_refl_true _ eqb eqb_eq). now exists v'.
  - destruct (eqb k k'); [now exists v'|now apply IH].
Qed.

Lemma map_set_new_length (m : list (K * V)) (k : K) (v : V) :
  ~ In k (map fst m) ->
  List.length (Js.map_set eqb m k v) = S (List.length m).
Proof.
  intros H.
  rewrite <- (length_map fst (Js.map_set eqb m k v)), (map_set_keys _ _ eqb).
  rewrite (proj2 (set_has_false _ eqb eqb_eq (map fst m) k) H).
  rewrite length_app, length_map. simpl. lia.
Qed.

Lemma map_set_keys_incl (m : list (K * V)) (k x : K) (v : V) :
  In x (map fst (Js.map_set eqb m k v)) <-> In x (map fst m) \/ x = k.
Proof.
  rewrite (map_set_keys _ _ eqb).
  destruct (Js.set_has eqb (map fst m) k) eqn:E.
  - apply (set_has_true _ eqb eqb_eq) in E. split; [tauto|].
    intros [H| ->]; assumption.
  - rewrite in_app_iff. simpl. split; intros [H|H]; auto.
    destruct H as [<-|[]]. now right.
Qed.
End MapLookupFacts.

Lemma array_slice0_firstn (A : Type) (k : Z) (l : list A) :
  exists n, Js.array_slice0 k l = firstn n l
            /\ ((0 <= k)%Z -> n = Z.to_nat k).
Proof.
  unfold Js.array_slice0. destruct (k <? 0)%Z eqn:E.
  - eexists. split; [reflexivity|]. intros H. apply Z.ltb_lt in E. lia.
  - eexists. split; [reflexivity|]. reflexivity.
Qed.

Lemma NoDup_firstn_of (A : Type) (n : nat) (l : list A) :
  NoDup l -> NoDup (firstn n l).
Proof.
  intros H. rewrite <- (firstn_skipn n l) in H.
  now apply NoDup_app_remove_r in H.
Qed.

Lemma In_firstn_of (A : Type) (n : nat) (l : list A) (x : A) :
  In x (firstn n l) -> In x l.
Proof.
  intros H. rewrite <- (firstn_skipn n l). apply in_or_app. now left.
Qed.

Lemma StronglySorted_firstn (A : Type) (R : A -> A -> Prop) (n : nat) (l : list A) :
  StronglySorted R l -> StronglySorted R (firstn n l).
Proof.
  intros H. revert n. induction H as [|a l Hs IH Hall]; intros n.
  - rewrite firstn_nil. constructor.
  - destruct n as [|n]; simpl; constructor; [apply IH|].
    apply Forall_forall. intros x Hx. rewrite Forall_forall in Hall.
    apply Hall. now apply In_firstn_of in Hx.
Qed.

(* ------------------------------------------------------------------ *)
(** ** TF-IDF corpus *)
(* ------------------------------------------------------------------ *)

Module TfIdfFacts.
Import Js Types Tokenizer TfIdf CorpusFacts.
Local Open Scope R_scope.

Lemma unique_terms_nodup (tokens : list string) : NoDup (unique_terms tokens).
Proof.
  unfold unique_terms. apply fold_left_invariant; [constructor|].
  intros s t H _. apply set_add_nodup; [apply String.eqb_eq|exact H].
Qed.

Lemma unique_terms_from (tokens s : list string) (t : string) :
  In t (fold_left (set_add String.eqb) tokens s) <-> In t s \/ In t tokens.
Proof.
  revert s. induction tokens as [|x xs IH]; intros s; simpl; [tauto|].
  rewrite IH, (set_add_in _ String.eqb String.eqb_eq). intuition.
Qed.

Lemma unique_terms_in (tokens : list string) (t : string) :
  In t (unique_terms tokens) <-> In t tokens.
Proof. unfold unique_terms. rewrite unique_terms_from. simpl. tauto. Qed.

(** The terms counted are the distinct tokens, in the order of their
    first occurrence. *)
Lemma term_counts_keys_from (tokens : list string) (tf : list (string * Z)) :
  map fst
    (fold_left
       (fun tf token =>
          map_set String.eqb tf token
            (match map_get String.eqb tf token with
             | Some n => n + 1
             | None => 1
             end)%Z) tokens tf)
  = fold_left (set_add String.eqb) tokens (map fst tf).
Proof.
  revert tf. induction tokens as [|x xs IH]; intros tf; simpl; [reflexivity|].
  rewrite IH. f_equal. rewrite map_set_keys. reflexivity.
Qed.

Lemma term_counts_keys (tokens : list string) :
  map fst (term_counts tokens) = unique_terms tokens.
Proof. unfold term_counts, unique_terms. now rewrite term_counts_keys_from. Qed.

Lemma term_counts_pos (tokens : list string) (t : string) (c : Z) :
  In (t, c) (term_counts tokens) -> (1 <= c)%Z.
Proof.
  unfold term_counts. revert t c.
  apply (fold_left_invariant _ _
           (fun tf : list (string * Z) =>
              forall t c, In (t, c) tf -> (1 <= c)%Z)).
  - intros t c [].
  - intros tf token Htf _ t c Hin.
    apply map_set_in in Hin; [|apply String.eqb_eq].
    destruct Hin as [Hin|Heq]; [now apply (Htf t c)|].
    injection Heq as -> ->.
    destruct (map_get String.eqb tf token) as [n|] eqn:G; [|lia].
    apply map_get_in in G; [|apply String.eqb_eq].
    specialize (Htf _ _ G). lia.
Qed.

Lemma fold_max_ge (l : list Z) (a : Z) :
  (a <= fold_left Z.max l a)%Z
  /\ (forall x, In x l -> (x <= fold_left Z.max l a)%Z).
Proof.
  revert a. induction l as [|y l IH]; intros a; simpl.
  - split; [lia|intros x []].
  - destruct (IH (Z.max a y)) as [H1 H2]. split; [lia|].
    intros x [<-|Hx]; [lia|now apply H2].
Qed.

Lemma max_count_ge (counts : list Z) (c : Z) :
  In c counts -> (c <= max_count counts)%Z.
Proof.
  destruct counts as [|a rest]; [intros []|]. simpl.
  destruct (fold_max_ge rest a) as [H1 H2].
  intros [<-|H]; [exact H1|now apply H2].
Qed.

(** A normalised term frequency is in (0, 1] when the counts are
    positive. *)
Lemma normalize_tf_range (tf : list (string * Z)) (t : string) (w : R) :
  (forall t c, In (t, c) tf -> (1 <= c)%Z) ->
  In (t, w) (normalize_tf tf) -> 0 < w <= 1.
Proof.
  intros Hpos Hin. unfold normalize_tf in Hin. cbv zeta in Hin.
  apply in_map_iff in Hin. destruct Hin as [[t' c] [Heq Hin]].
  simpl in Heq. injection Heq as -> <-.
  assert (Hc : (1 <= c)%Z) by exact (Hpos _ _ Hin).
  assert (Hm : (c <= max_count (map_values tf))%Z).
  { apply max_count_ge. unfold map_values. apply in_map_iff.
    now exists (t, c). }
  assert (H1 : 1 <= IZR c) by (apply IZR_le; exact Hc).
  assert (H2 : IZR c <= IZR (max_count (map_values tf))) by (apply IZR_le; exact Hm).
  set (m := IZR (max_count (map_values tf))) in *.
  assert (H3 : 0 < / m) by (apply Rinv_0_lt_compat; lra).
  unfold Rdiv. split; [apply Rmult_lt_0_compat; lra|].
  apply Rmult_le_reg_r with m; [lra|].
  rewrite Rmult_assoc, Rinv_l by lra. lra.
Qed.

(** What [bump_df] does to one term, for distinct terms. *)
Lemma bump_df_get (terms : list string) (df : list (string * Z)) (t : string) :
  NoDup terms ->
  map_get String.eqb (bump_df df terms) t
  = if set_has String.eqb terms t
    then Some (match map_get String.eqb df t with
               | Some n => n + 1
               | None => 1
               end)%Z
    else map_get String.eqb df t.
Proof.
  unfold bump_df. revert df.
  induction terms as [|x xs IH]; intros df Hnd; simpl; [reflexivity|].
  inversion Hnd as [|? ? Hx Hnd']; subst.
  rewrite (IH _ Hnd'). destruct (String.eqb t x) eqn:E; simpl.
  - apply String.eqb_eq in E. subst x.
    rewrite (proj2 (set_has_false _ String.eqb String.eqb_eq xs t) Hx).
    apply map_get_set_same. apply String.eqb_eq.
  - apply String.eqb_neq in E.
    rewrite (map_get_set_other _ _ String.eqb String.eqb_eq df x t _ E).
    reflexivity.
Qed.

(** Document frequencies stay between 1 and the number of documents, and
    term frequencies in (0, 1], as long as every paper has an identifier
    of its own. *)
Lemma add_papers_frequencies (papers : list Paper)
    (docs : list (string * Vec)) (df : list (string * Z)) :
  NoDup (map doc_id papers) ->
  (forall p, In p papers -> ~ In (doc_id p) (map fst docs)) ->
  (forall t n, map_get String.eqb df t = Some n ->
     (1 <= n <= Z.of_nat (List.length docs))%Z) ->
  (forall id v t w, In (id, v) docs -> In (t, w) v ->
     0 < w <= 1 /\ map_get String.eqb df t <> None) ->
  (forall t n,
     map_get String.eqb (snd (fold_left add_paper papers (docs, df))) t = Some n ->
     (1 <= n <= Z.of_nat (List.length (fst (fold_left add_paper papers (docs, df)))))%Z)
  /\ (forall id v t w,
        In (id, v) (fst (fold_left add_paper papers (docs, df))) -> In (t, w) v ->
        0 < w <= 1
        /\ map_get String.eqb (snd (fold_left add_paper papers (docs, df))) t <> None).
Proof.
  revert docs df. induction papers as [|p papers IH]; intros docs df Hnd Hnew Hdf Hdocs.
  - simpl. split; assumption.
  - simpl fold_left. inversion Hnd as [|? ? Hp Hnd']; subst.
    destruct (add_paper (docs, df) p) as [docs' df'] eqn:Eadd.
    unfold add_paper in Eadd.
    destruct (tokenize (paper_text p)) as [|tok toks] eqn:Etok.
    + injection Eadd as <- <-.
      apply IH; auto. intros q Hq. apply Hnew. now right.
    + set (tokens := tok :: toks) in *. injection Eadd as <- <-.
      assert (Hfresh : ~ In (doc_id p) (map fst docs)) by (apply Hnew; now left).
      apply IH; [exact Hnd'| | |].
      * intros q Hq Hin.
        apply (map_set_keys_incl _ _ String.eqb String.eqb_eq) in Hin.
        destruct Hin as [Hin|Heq].
        -- apply (Hnew q); [now right|exact Hin].
        -- apply Hp. rewrite <- Heq. now apply in_map.
      * intros t n Hget.
        rewrite (map_set_new_length _ _ String.eqb String.eqb_eq _ _ _ Hfresh).
        rewrite (bump_df_get _ _ _ (unique_terms_nodup tokens)) in Hget.
        destruct (set_has String.eqb (unique_terms tokens) t).
        -- destruct (map_get String.eqb df t) as [m|] eqn:G.
           ++ injection Hget as <-. specialize (Hdf _ _ G). lia.
           ++ injection Hget as <-. lia.
        -- specialize (Hdf _ _ Hget). lia.
      * intros id v t w Hin Hw.
        rewrite (bump_df_get _ _ _ (unique_terms_nodup tokens)).
        apply map_set_in in Hin; [|apply String.eqb_eq].
        destruct Hin as [Hin|Heq].
        -- destruct (Hdocs _ _ _ _ Hin Hw) as [H1 H2]. split; [exact H1|].
           destruct (set_has String.eqb (unique_terms tokens) t); [discriminate|exact H2].
        -- injection Heq as -> ->. split.
           ++ apply (normalize_tf_range (term_counts tokens) t w); [|exact Hw].
              apply term_counts_pos.
           ++ assert (Ht : In t (unique_terms tokens)).
              { rewrite <- term_counts_keys, <- normalize_tf_keys.
                apply in_map_iff. now exists (t, w). }
              apply (set_has_true _ String.eqb String.eqb_eq) in Ht.
              rewrite Ht. discriminate.
Qed.

(** The weights of a corpus whose papers have distinct identifiers. *)
Lemma corpus_weight_bounds (papers : list Paper) (id : string) (v : Vec)
    (t : string) (w : R) :
  NoDup (map doc_id papers) ->
  In (id, v) (documents (buildCorpus papers)) -> In (t, w) v ->
  0 <= w <= ln (IZR (size (buildCorpus papers))).
Proof.
  intros Hnd. unfold buildCorpus.
  destruct (add_papers_frequencies papers [] [] Hnd) as [Hdf Hdocs].
  - intros p _ [].
  - intros t' n H. discriminate.
  - intros id' v' t' w' [].
  - destruct (fold_left add_paper papers ([], [])) as [docs df]. simpl in *.
    intros Hin Hw. apply in_map_iff in Hin. destruct Hin as [[id' tfv] [Heq Hin]].
    simpl in Heq. injection Heq as -> <-.
    unfold weigh in Hw. apply in_map_iff in Hw. destruct Hw as [[t' tf] [Heq Hw]].
    simpl in Heq. injection Heq as -> <-.
    destruct (Hdocs _ _ _ _ Hin Hw) as [Htf Hsome].
    unfold idf. destruct (map_get String.eqb df t) as [n|] eqn:G; [|congruence].
    destruct (Hdf _ _ G) as [Hn1 Hn2].
    set (N := Z.of_nat (List.length docs)) in *.
    assert (H1 : 1 <= IZR n) by (apply IZR_le; exact Hn1).
    assert (H2 : IZR n <= IZR N) by (apply IZR_le; exact Hn2).
    assert (Hinv : 0 < / IZR n) by (apply Rinv_0_lt_compat; lra).
    assert (Hq1 : 1 <= IZR N / IZR n).
    { unfold Rdiv. apply Rmult_le_reg_r with (IZR n); [lra|].
      rewrite Rmult_assoc, Rinv_l by lra. lra. }
    assert (Hq2 : IZR N / IZR n <= IZR N).
    { unfold Rdiv. apply Rmult_le_reg_r with (IZR n); [lra|].
      rewrite Rmult_assoc, Rinv_l by lra. nra. }
    assert (Hl1 : 0 <= ln (IZR N / IZR n)).
    { rewrite <- ln_1. destruct Hq1 as [Hlt|Heq].
      - left. apply ln_increasing; lra.
      - rewrite <- Heq. lra. }
    assert (Hl2 : ln (IZR N / IZR n) <= ln (IZR N)).
    { destruct Hq2 as [Hlt|Heq].
      - left. apply ln_increasing; lra.
      - rewrite Heq. lra. }
    split; [apply Rmult_le_pos; lra|]. nra.
Qed.

(** The documents of the first loop of [buildCorpus]: their keys are
    distinct, each comes from a paper with tokens, and every such paper
    has one. *)
Lemma add_papers_documents (papers : list Paper) :
  NoDup (map fst (fst (fold_left add_paper papers ([], []))))
  /\ (forall id v, In (id, v) (fst (fold_left add_paper papers ([], []))) ->
        exists p, In p papers /\ doc_id p = id
                  /\ tokenize (paper_text p) <> []
                  /\ v = normalize_tf (term_counts (tokenize (paper_text p)))).
Proof.
  apply (fold_left_invariant _ _
           (fun st : list (string * Vec) * list (string * Z) =>
              NoDup (map fst (fst st))
              /\ forall id v, In (id, v) (fst st) ->
                   exists p, In p papers /\ doc_id p = id
                     /\ tokenize (paper_text p) <> []
                     /\ v = normalize_tf (term_counts (tokenize (paper_text p))))).
  - split; [constructor|intros id v []].
  - intros [docs df] p [H1 H2] Hp. unfold add_paper.
    destruct (tokenize (paper_text p)) as [|tok toks] eqn:E; [now split|].
    simpl. split; [apply map_set_nodup; [apply String.eqb_eq|exact H1]|].
    intros id v Hin. apply map_set_in in Hin; [|apply String.eqb_eq].
    destruct Hin as [Hin|Heq]; [now apply H2|].
    injection Heq as -> ->. exists p. rewrite E.
    repeat split; [exact Hp|discriminate].
Qed.

Lemma add_papers_keeps_keys (papers : list Paper)
    (st : list (string * Vec) * list (string * Z)) (id : string) :
  In id (map fst (fst st)) ->
  In id (map fst (fst (fold_left add_paper papers st))).
Proof.
  revert st. induction papers as [|p papers IH]; intros st H; simpl; [exact H|].
  apply IH. destruct st as [docs df]. unfold add_paper.
  destruct (tokenize (paper_text p)); [exact H|]. simpl.
  apply (map_set_keys_incl _ _ String.eqb String.eqb_eq). now left.
Qed.

Lemma add_papers_has_document (papers : list Paper)
    (st : list (string * Vec) * list (string * Z)) (p : Paper) :
  In p papers -> tokenize (paper_text p) <> [] ->
  In (doc_id p) (map fst (fst (fold_left add_paper papers st))).
Proof.
  revert st. induction papers as [|q papers IH]; intros st Hin Htok; [destruct Hin|].
  simpl. destruct Hin as [->|Hin]; [|now apply IH].
  apply add_papers_keeps_keys. destruct st as [docs df]. unfold add_paper.
  destruct (tokenize (paper_text p)); [congruence|]. simpl.
  apply (map_set_keys_incl _ _ String.eqb String.eqb_eq). now right.
Qed.

End TfIdfFacts.

Module TfIdfTheorems.
Import Js Types Tokenizer TfIdf CorpusFacts TfIdfFacts ScoringFacts.
Local Open Scope R_scope.

(** X2. [buildCorpus] keeps one document per identifier of a paper with
    tokens: [size] is the number of documents, the document identifiers
    are distinct, every document belongs to a paper of the input that has
    tokens and its terms are that paper's distinct tokens in the order of
    first occurrence, and every paper with tokens can be looked up by
    [getDocumentVector].  A paper without tokens gets no document of its
    own. *)
Theorem buildCorpus_documents (papers : list Paper) :
  size (buildCorpus papers)
    = Z.of_nat (List.length (documents (buildCorpus papers)))
  /\ NoDup (map fst (documents (buildCorpus papers)))
  /\ (forall id v, In (id, v) (documents (buildCorpus papers)) ->
        exists p, In p papers /\ doc_id p = id
                  /\ tokenize (paper_text p) <> []
                  /\ map fst v = unique_terms (tokenize (paper_text p)))
  /\ (forall p, In p papers -> tokenize (paper_text p) <> [] ->
        exists v, getDocumentVector (buildCorpus papers) (doc_id p) = Some v).
Proof.
  destruct (add_papers_documents papers) as [Hnd Hdocs].
  pose proof (fun p => add_papers_has_document papers ([], []) p) as Hhas.
  unfold getDocumentVector, buildCorpus.
  destruct (fold_left add_paper papers ([], [])) as [docs df]. simpl in *.
  assert (Hkeys : map fst (map (fun d : string * Vec =>
                     (fst d, weigh (Z.of_nat (List.length docs)) df (snd d))) docs)
                  = map fst docs).
  { rewrite map_map. reflexivity. }
  split; [now rewrite length_map|].
  split; [now rewrite Hkeys|]. split.
  - intros id v Hin. apply in_map_iff in Hin. destruct Hin as [[id' tfv] [Heq Hin]].
    simpl in Heq. injection Heq as -> <-.
    destruct (Hdocs _ _ Hin) as [p [Hp [Hid [Htok Hv]]]].
    exists p. repeat split; try assumption.
    rewrite weigh_keys, Hv, normalize_tf_keys. apply term_counts_keys.
  - intros p Hp Htok.
    apply (map_get_key_some _ _ String.eqb String.eqb_eq).
    rewrite Hkeys. now apply Hhas.
Qed.

(** X3. When the papers have distinct document identifiers, every TF-IDF
    weight of the corpus lies between 0 and [ln N], [N] being the number of
    documents.  (With a repeated identifier the document frequency of a
    term can exceed [N] and the weight is negative.) *)
Theorem buildCorpus_weights_range (papers : list Paper) (id : string) (v : Vec)
    (t : string) (w : R) :
  NoDup (map doc_id papers) ->
  In (id, v) (documents (buildCorpus papers)) -> In (t, w) v ->
  0 <= w <= ln (IZR (size (buildCorpus papers))).
Proof. apply corpus_weight_bounds. Qed.

(** X4. The relevance of a document to a query, in a corpus built from
    papers with distinct identifiers, is in [0, 1]; it is 0 for a document
    the corpus does not hold and for an empty query. *)
Theorem buildCorpus_relevance_range (papers : list Paper) (docId : string)
    (queryTokens : list string) :
  NoDup (map doc_id papers) ->
  0 <= computeRelevance (buildCorpus papers) docId queryTokens <= 1
  /\ (getDocumentVector (buildCorpus papers) docId = None ->
      computeRelevance (buildCorpus papers) docId queryTokens = 0)
  /\ computeRelevance (buildCorpus papers) docId [] = 0.
Proof.
  intros Hnd. split; [|split].
  - apply computeRelevance_range. intros d v t w Hd Hw.
    apply (corpus_weight_bounds papers d v t w Hnd Hd Hw).
  - unfold getDocumentVector, computeRelevance. now intros ->.
  - unfold computeRelevance.
    now destruct (map_get String.eqb (documents (buildCorpus papers)) docId).
Qed.

(** X5. [getTopTerms] returns distinct terms, each a term of the vector of
    one of the listed documents, and at most [topN] of them when [topN] is
    not negative. *)
Theorem getTopTerms_terms (corpus : TfIdfCorpus) (docIds : list string) (topN : Z) :
  NoDup (getTopTerms corpus docIds topN)
  /\ (forall term, In term (getTopTerms corpus docIds topN) ->
        exists docId v, In docId docIds
          /\ getDocumentVector corpus docId = Some v
          /\ In term (map fst v))
  /\ ((0 <= topN)%Z ->
      (Z.of_nat (List.length (getTopTerms corpus docIds topN)) <= topN)%Z).
Proof.
  unfold getTopTerms, getDocumentVector. cbv zeta.
  match goal with
  | |- context [array_sort _ ?ts] => set (termScores := ts)
  end.
  assert (Hinv : NoDup (map fst termScores)
                 /\ forall term, In term (map fst termScores) ->
                      exists docId v, In docId docIds
                        /\ map_get String.eqb (documents corpus) docId = Some v
                        /\ In term (map fst v)).
  { subst termScores.
    apply (fold_left_invariant _ _
             (fun scores : Vec =>
                NoDup (map fst scores)
                /\ forall term, In term (map fst scores) ->
                     exists docId v, In docId docIds
                       /\ map_get String.eqb (documents corpus) docId = Some v
                       /\ In term (map fst v))).
    - split; [constructor|intros term []].
    - intros scores docId Hsc Hd.
      destruct (map_get String.eqb (documents corpus) docId) as [vector|] eqn:G;
        [|exact Hsc].
      apply (fold_left_invariant _ _
               (fun sc : Vec =>
                  NoDup (map fst sc)
                  /\ forall term, In term (map fst sc) ->
                       exists docId v, In docId docIds
                         /\ map_get String.eqb (documents corpus) docId = Some v
                         /\ In term (map fst v))); [exact Hsc|].
      intros sc e [H1 H2] He. split.
      + apply map_set_nodup; [apply String.eqb_eq|exact H1].
      + intros term Hin.
        apply (map_set_keys_incl _ _ String.eqb String.eqb_eq) in Hin.
        destruct Hin as [Hin| ->]; [now apply H2|].
        exists docId, vector. repeat split; try assumption. now apply in_map. }
  destruct Hinv as [Hnd Hfrom].
  set (sorted := array_sort _ termScores).
  assert (Hperm : Permutation (map fst sorted) (map fst termScores)).
  { apply Permutation_map. apply array_sort_perm. }
  destruct (array_slice0_firstn _ topN sorted) as [n [-> Hn]].
  rewrite <- firstn_map. split; [|split].
  - apply NoDup_firstn_of.
    apply (Permutation_NoDup (Permutation_sym Hperm) Hnd).
  - intros term Hin. apply In_firstn_of in Hin. apply Hfrom.
    apply (Permutation_in _ Hperm Hin).
  - intros H0. rewrite (Hn H0).
    pose proof (firstn_le_length (Z.to_nat topN) (map fst sorted)). lia.
Qed.

End TfIdfTheorems.

(* ------------------------------------------------------------------ *)
(** ** Nearest documents and similarity edges *)
(* ------------------------------------------------------------------ *)

Module CosineFacts.
Import Js Types TfIdf Similarity SimilarityFacts CorpusFacts.
Local Open Scope R_scope.

(** What [findTopKSimilar] returns, before it is cut to [k] entries. *)
Lemma findTopKSimilar_results (docId : string) (corpus : TfIdfCorpus) (k : Z)
    (threshold : R) (id : string) (s : R) :
  In (id, s) (findTopKSimilar docId corpus k threshold) ->
  id <> docId /\ threshold <= s
  /\ exists docVector v,
       map_get String.eqb (documents corpus) docId = Some docVector
       /\ In (id, v) (documents corpus)
       /\ s = cosineSimilarity docVector v.
Proof.
  unfold findTopKSimilar.
  destruct (map_get String.eqb (documents corpus) docId) as [docVector|] eqn:G;
    [|intros []].
  cbv zeta. intros Hin.
  destruct (array_slice0_firstn _ k
              (array_sort (fun a b : string * R => Rleb (snd b) (snd a))
                 (fold_left
                    (fun (acc : list (string * R)) other =>
                       if String.eqb (fst other) docId then acc
                       else if Rleb threshold (cosineSimilarity docVector (snd other))
                            then (acc ++ [(fst other,
                                           cosineSimilarity docVector (snd other))])%list
                            else acc)
                    (documents corpus) []))) as [n [E _]].
  rewrite E in Hin. clear E. apply In_firstn_of in Hin.
  apply (Permutation_in _ (array_sort_perm _ _ _)) in Hin.
  revert id s Hin.
  apply (fold_left_invariant _ _
           (fun acc : list (string * R) =>
              forall id s, In (id, s) acc ->
                id <> docId /\ threshold <= s
                /\ exists docVector' v,
                     Some docVector = Some docVector'
                     /\ In (id, v) (documents corpus)
                     /\ s = cosineSimilarity docVector' v)).
  - intros id s [].
  - intros acc [oid ov] Hacc Hother id s Hin. simpl in Hin.
    destruct (String.eqb oid docId) eqn:E; [now apply Hacc|].
    destruct (Rleb threshold (cosineSimilarity docVector ov)) eqn:T;
      [|now apply Hacc].
    apply in_app_or in Hin. destruct Hin as [Hin|[Heq|[]]]; [now apply Hacc|].
    injection Heq as <- <-. apply String.eqb_neq in E. apply Rleb_true in T.
    split; [exact E|]. split; [exact T|].
    exists docVector, ov. repeat split. exact Hother.
Qed.

(** The edges of [buildSimilarityEdges] and where their parts come from. *)
Lemma similarity_edges_shape (paperIdMap : list (string * Z))
    (corpus : TfIdfCorpus) (topK : Z) (threshold : R) (e : Edge) :
  In e (buildSimilarityEdges paperIdMap corpus topK threshold) ->
  type e = SIMILAR_TEXT /\ created_by e = algo /\ edge_id e = None
  /\ confidence e = weight e /\ threshold <= weight e
  /\ exists sourceId neighborId u v,
       sourceId <> neighborId
       /\ In (sourceId, src_paper_id e) paperIdMap
       /\ map_get String.eqb paperIdMap neighborId = Some (dst_paper_id e)
       /\ getDocumentVector corpus sourceId = Some u
       /\ In (neighborId, v) (documents corpus)
       /\ weight e = cosineSimilarity u v.
Proof.
  unfold buildSimilarityEdges, similarity_loop, getDocumentVector. revert e.
  apply (fold_left_invariant _ _
           (fun st : list Edge * list (Z * Z) =>
              forall e, In e (fst st) ->
                type e = SIMILAR_TEXT /\ created_by e = algo /\ edge_id e = None
                /\ confidence e = weight e /\ threshold <= weight e
                /\ exists sourceId neighborId u v,
                     sourceId <> neighborId
                     /\ In (sourceId, src_paper_id e) paperIdMap
                     /\ map_get String.eqb paperIdMap neighborId
                        = Some (dst_paper_id e)
                     /\ map_get String.eqb (documents corpus) sourceId = Some u
                     /\ In (neighborId, v) (documents corpus)
                     /\ weight e = cosineSimilarity u v)).
  - intros e [].
  - intros st [sourceId paperId] Hst Hentry. cbv zeta. simpl fst. simpl snd.
    apply (fold_left_invariant _ _
             (fun st : list Edge * list (Z * Z) =>
                forall e, In e (fst st) ->
                  type e = SIMILAR_TEXT /\ created_by e = algo /\ edge_id e = None
                  /\ confidence e = weight e /\ threshold <= weight e
                  /\ exists sourceId neighborId u v,
                       sourceId <> neighborId
                       /\ In (sourceId, src_paper_id e) paperIdMap
                       /\ map_get String.eqb paperIdMap neighborId
                          = Some (dst_paper_id e)
                       /\ map_get String.eqb (documents corpus) sourceId = Some u
                       /\ In (neighborId, v) (documents corpus)
                       /\ weight e = cosineSimilarity u v)); [exact Hst|].
    intros [edges seen] [nid s] Hin Hn e. simpl fst. simpl snd.
    destruct (map_get String.eqb paperIdMap nid) as [neighborPaperId|] eqn:G;
      [|apply Hin].
    destruct (set_has pair_eqb seen (pairKey paperId neighborPaperId));
      [apply Hin|].
    simpl fst. intros He. apply in_app_or in He.
    destruct He as [He|[<-|[]]]; [now apply Hin|].
    destruct (findTopKSimilar_results _ _ _ _ _ _ Hn)
      as [Hne [Hthr [u [v [Hu [Hv Hs]]]]]].
    simpl. repeat split; try assumption.
    exists sourceId, nid, u, v. repeat split; auto.
Qed.

End CosineFacts.

Module CosineTheorems.
Import Js Types TfIdf Similarity SimilarityFacts CorpusFacts CosineFacts.
Local Open Scope R_scope.

(** X7. [findTopKSimilar] returns documents of the corpus other than the
    one asked for, each with its cosine similarity to it, which is at least
    the threshold; the result is in descending order of similarity and has
    at most [k] entries for [k >= 0].  For a document the corpus does not
    hold the result is empty. *)
Theorem findTopKSimilar_result (docId : string) (corpus : TfIdfCorpus) (k : Z)
    (threshold : R) :
  (forall id s, In (id, s) (findTopKSimilar docId corpus k threshold) ->
     id <> docId /\ threshold <= s
     /\ exists docVector v,
          getDocumentVector corpus docId = Some docVector
          /\ In (id, v) (documents corpus)
          /\ s = cosineSimilarity docVector v)
  /\ StronglySorted (fun a b => snd b <= snd a)
       (findTopKSimilar docId corpus k threshold)
  /\ ((0 <= k)%Z ->
      (Z.of_nat (List.length (findTopKSimilar docId corpus k threshold)) <= k)%Z)
  /\ (getDocumentVector corpus docId = None ->
      findTopKSimilar docId corpus k threshold = []).
Proof.
  split; [apply findTopKSimilar_results|].
  unfold findTopKSimilar, getDocumentVector.
  destruct (map_get String.eqb (documents corpus) docId) as [docVector|].
  - cbv zeta.
    match goal with
    | |- context [array_slice0 k ?l] =>
        destruct (array_slice0_firstn _ k l) as [n [-> Hn]]
    end.
    split; [|split; [|discriminate]].
    + apply StronglySorted_firstn.
      eapply StronglySorted_weaken;
        [|apply array_sort_sorted].
      * intros a b H. cbv beta in H. now apply Rleb_true in H.
      * intros a b. destruct (Rle_dec (snd b) (snd a)) as [H|H].
        -- left. now apply Rleb_true.
        -- right. apply Rleb_true. lra.
      * intros a b c H1 H2. apply Rleb_true in H1, H2. apply Rleb_true. lra.
    + intros H0. rewrite (Hn H0).
      match goal with
      | |- context [firstn ?m ?l] => pose proof (firstn_le_length m l)
      end. lia.
  - split; [constructor|]. split; [intros; simpl; lia|reflexivity].
Qed.

(** X8. Every edge of [buildSimilarityEdges] is a SIMILAR_TEXT edge made
    by the algorithm, whose weight and confidence are both the cosine
    similarity of the vectors of two different documents, at least the
    threshold; its source is the row id of the first document in
    [paperIdMap] and its target the row id of the second. *)
Theorem buildSimilarityEdges_edges (paperIdMap : list (string * Z))
    (corpus : TfIdfCorpus) (topK : Z) (threshold : R) (e : Edge) :
  In e (buildSimilarityEdges paperIdMap corpus topK threshold) ->
  type e = SIMILAR_TEXT /\ created_by e = algo /\ edge_id e = None
  /\ confidence e = weight e /\ threshold <= weight e
  /\ exists sourceId neighborId u v,
       sourceId <> neighborId
       /\ In (sourceId, src_paper_id e) paperIdMap
       /\ map_get String.eqb paperIdMap neighborId = Some (dst_paper_id e)
       /\ getDocumentVector corpus sourceId = Some u
       /\ In (neighborId, v) (documents corpus)
       /\ weight e = cosineSimilarity u v.
Proof. apply similarity_edges_shape. Qed.

End CosineTheorems.

(* ------------------------------------------------------------------ *)
(** ** Co-citation and bibliographic coupling *)
(* ------------------------------------------------------------------ *)

Module CitationFacts.
Import Js Types Algorithms AlgorithmsSpec AnalyticEdgeFacts TfIdfFacts.
Local Open Scope Z_scope.

Lemma EdgeType_beq_eq (x y : EdgeType) : EdgeType_beq x y = true <-> x = y.
Proof. destruct x, y; split; intros H; reflexivity || discriminate. Qed.

Lemma citesEdges_in (edges : list Edge) (e : Edge) :
  In e (citesEdges edges) <-> In e edges /\ type e = CITES.
Proof.
  unfold citesEdges. rewrite filter_In, EdgeType_beq_eq. reflexivity.
Qed.

(** What [add_ref] does to the entry of one citing paper. *)
Lemma add_ref_get (m : list (Z * list Z)) (e : Edge) (c : Z) :
  map_get Z.eqb (add_ref m e) c
  = if c =? src_paper_id e
    then Some (set_add Z.eqb (refs_of m (src_paper_id e)) (dst_paper_id e))
    else map_get Z.eqb m c.
Proof.
  unfold add_ref, refs_of, map_has. cbv zeta.
  destruct (map_get Z.eqb m (src_paper_id e)) as [refs|] eqn:G.
  - rewrite G. destruct (c =? src_paper_id e) eqn:E.
    + apply Z.eqb_eq in E. subst c. apply map_get_set_same. apply Z.eqb_eq.
    + apply Z.eqb_neq in E. now apply map_get_set_other; [apply Z.eqb_eq|].
  - rewrite (map_get_set_same _ _ Z.eqb Z.eqb_eq).
    destruct (c =? src_paper_id e) eqn:E.
    + apply Z.eqb_eq in E. subst c. apply map_get_set_same. apply Z.eqb_eq.
    + apply Z.eqb_neq in E.
      rewrite !(map_get_set_other _ _ Z.eqb Z.eqb_eq) by exact E.
      reflexivity.
Qed.

Lemma add_ref_refs (m : list (Z * list Z)) (e : Edge) (c d : Z) :
  In d (refs_of (add_ref m e) c)
  <-> In d (refs_of m c) \/ (src_paper_id e = c /\ dst_paper_id e = d).
Proof.
  unfold refs_of at 1. rewrite add_ref_get.
  destruct (c =? src_paper_id e) eqn:E.
  - apply Z.eqb_eq in E. subst c.
    rewrite (set_add_in _ Z.eqb Z.eqb_eq). intuition.
  - apply Z.eqb_neq in E. fold (refs_of m c). intuition. congruence.
Qed.

Lemma fold_add_ref_refs (l : list Edge) (m : list (Z * list Z)) (c d : Z) :
  In d (refs_of (fold_left add_ref l m) c)
  <-> In d (refs_of m c)
      \/ exists e, In e l /\ src_paper_id e = c /\ dst_paper_id e = d.
Proof.
  revert m. induction l as [|x l IH]; intros m; simpl.
  - split; [tauto|]. intros [H|[e [[] _]]]. exact H.
  - rewrite IH, add_ref_refs. split.
    + intros [[H|H]|[e [He H]]]; [now left| |].
      * right. exists x. tauto.
      * right. exists e. tauto.
    + intros [H|[e [[<-|He] H]]]; [tauto|tauto|].
      right. exists e. tauto.
Qed.

(** The reference set of a paper holds what it cites. *)
Lemma group_refs_refs (edges : list Edge) (c d : Z) :
  In d (refs_of (group_refs (citesEdges edges)) c) <-> cites_in edges c d.
Proof.
  unfold group_refs, cites_in. rewrite fold_add_ref_refs. unfold refs_of at 1.
  simpl. split.
  - intros [[]|[e [He H]]]. apply citesEdges_in in He. exists e. tauto.
  - intros [e [He [Ht H]]]. right. exists e. split; [|exact H].
    apply citesEdges_in. tauto.
Qed.

Lemma refs_of_in_key (m : list (Z * list Z)) (c d : Z) :
  In d (refs_of m c) -> In c (map fst m).
Proof.
  unfold refs_of. destruct (map_get Z.eqb m c) as [refs|] eqn:G; [|intros []].
  intros _. now apply (map_get_some_key _ _ Z.eqb Z.eqb_eq) in G.
Qed.

Lemma refs_of_entry (m : list (Z * list Z)) (c : Z) (refs : list Z) :
  NoDup (map fst m) -> In (c, refs) m -> refs_of m c = refs.
Proof.
  intros Hnd Hin. unfold refs_of.
  now rewrite (map_get_nodup _ _ Z.eqb Z.eqb_eq m c refs Hnd Hin).
Qed.

Lemma refs_of_nodup (m : list (Z * list Z)) (c : Z) :
  refs_ok m -> NoDup (refs_of m c).
Proof.
  intros [_ Hs]. unfold refs_of.
  destruct (map_get Z.eqb m c) as [refs|] eqn:G; [|constructor].
  apply map_get_in in G; [|apply Z.eqb_eq].
  rewrite Forall_forall in Hs. exact (Hs _ G).
Qed.

(** *** Pairs of a reference list *)

Lemma index_pairs_in (l : list Z) (x y : Z) :
  In (x, y) (index_pairs l) -> In x l /\ In y l.
Proof.
  induction l as [|a rest IH]; simpl; [intros []|].
  intros H. apply in_app_or in H. destruct H as [H|H].
  - apply in_map_iff in H. destruct H as [z [[= <- <-] Hz]]. tauto.
  - destruct (IH H). tauto.
Qed.

Lemma index_pairs_complete (l : list Z) (x y : Z) :
  In x l -> In y l -> x <> y ->
  In (x, y) (index_pairs l) \/ In (y, x) (index_pairs l).
Proof.
  induction l as [|a rest IH]; simpl; [intros []|].
  intros [->|Hx] [->|Hy] Hne; try congruence.
  - left. apply in_or_app. left. now apply in_map.
  - right. apply in_or_app. left. now apply in_map.
  - destruct (IH Hx Hy Hne) as [H|H]; [left|right]; apply in_or_app; now right.
Qed.

Lemma fold_count_pair_keys (pairs : list (Z * Z)) (pc : list (Z * Z * Z))
    (key : Z * Z) :
  In key (map fst (fold_left count_pair pairs pc))
  <-> In key (map fst pc)
      \/ exists xy, In xy pairs /\ coCitationKey (fst xy) (snd xy) = key.
Proof.
  revert pc. induction pairs as [|p pairs IH]; intros pc; simpl.
  - split; [tauto|]. intros [H|[xy [[] _]]]. exact H.
  - rewrite IH. unfold count_pair.
    rewrite (map_set_keys_incl _ _ pair_eqb pair_eqb_eq). split.
    + intros [[H|H]|[xy [Hxy H]]]; [now left| |].
      * right. exists p. split; [now left|now symmetry].
      * right. exists xy. split; [now right|exact H].
    + intros [H|[xy [[<-|Hxy] H]]]; [tauto| |].
      * left. right. now symmetry.
      * right. exists xy. tauto.
Qed.

Lemma count_pairs_keys_from (m : list (Z * list Z)) (pc : list (Z * Z * Z))
    (key : Z * Z) :
  In key (map fst
            (fold_left
               (fun pairCounts entry =>
                  fold_left count_pair (index_pairs (snd entry)) pairCounts)
               m pc))
  <-> In key (map fst pc)
      \/ exists entry xy, In entry m /\ In xy (index_pairs (snd entry))
                          /\ coCitationKey (fst xy) (snd xy) = key.
Proof.
  revert pc. induction m as [|en m IH]; intros pc; simpl.
  - split; [tauto|]. intros [H|[entry [xy [[] _]]]]. exact H.
  - rewrite IH, fold_count_pair_keys. split.
    + intros [[H|[xy [Hxy H]]]|[entry [xy [He H]]]]; [now left| |].
      * right. exists en, xy. tauto.
      * right. exists entry, xy. tauto.
    + intros [H|[entry [xy [[<-|He] H]]]]; [tauto| |].
      * left. right. exists xy. tauto.
      * right. exists entry, xy. tauto.
Qed.

Lemma count_pairs_keys (m : list (Z * list Z)) (key : Z * Z) :
  In key (map fst (count_pairs m))
  <-> exists entry xy, In entry m /\ In xy (index_pairs (snd entry))
                       /\ coCitationKey (fst xy) (snd xy) = key.
Proof.
  unfold count_pairs. rewrite count_pairs_keys_from. simpl. tauto.
Qed.

Lemma count_pairs_pos (m : list (Z * list Z)) (kc : Z * Z * Z) :
  In kc (count_pairs m) -> 1 <= snd kc.
Proof.
  unfold count_pairs. revert kc.
  apply (fold_left_invariant _ _
           (fun pc : list (Z * Z * Z) => forall kc, In kc pc -> 1 <= snd kc)).
  - intros kc [].
  - intros pc entry Hpc _.
    apply (fold_left_invariant _ _
             (fun pc : list (Z * Z * Z) => forall kc, In kc pc -> 1 <= snd kc));
      [exact Hpc|].
    intros pc' xy Hpc' _ kc Hin. unfold count_pair in Hin.
    apply map_set_in in Hin; [|apply pair_eqb_eq].
    destruct Hin as [Hin| ->]; [now apply Hpc'|]. simpl.
    destruct (map_get pair_eqb pc' (coCitationKey (fst xy) (snd xy))) as [n|] eqn:G;
      [|lia].
    apply map_get_in in G; [|apply pair_eqb_eq].
    specialize (Hpc' _ G). simpl in Hpc'. lia.
Qed.

(** The largest count is one of the counts. *)
Lemma fold_max_attained (l : list Z) (a : Z) :
  fold_left Z.max l a = a \/ In (fold_left Z.max l a) l.
Proof.
  revert a. induction l as [|x l IH]; intros a; simpl; [now left|].
  destruct (IH (Z.max a x)) as [H|H]; [|right; now right].
  rewrite H. destruct (Z.max_spec a x) as [[_ E]|[_ E]]; rewrite E.
  - right. now left.
  - now left.
Qed.

(** *** Pairs of citing papers *)

Lemma overlap_nonzero (refsA refsB : list Z) :
  overlap_size refsA refsB <> 0 <-> exists r, In r refsA /\ In r refsB.
Proof.
  unfold overlap_size. split.
  - intros H.
    destruct (filter (fun ref => set_has Z.eqb refsB ref) refsA) as [|r l] eqn:E;
      [now simpl in H|].
    assert (Hr : In r (filter (fun ref => set_has Z.eqb refsB ref) refsA))
      by (rewrite E; now left).
    apply filter_In in Hr. destruct Hr as [H1 H2].
    apply (set_has_true _ Z.eqb Z.eqb_eq) in H2. now exists r.
  - intros [r [H1 H2]] H.
    assert (Hr : In r (filter (fun ref => set_has Z.eqb refsB ref) refsA)).
    { apply filter_In. split; [exact H1|].
      now apply (set_has_true _ Z.eqb Z.eqb_eq). }
    destruct (filter (fun ref => set_has Z.eqb refsB ref) refsA);
      [destruct Hr|simpl in H; lia].
Qed.

Lemma couple_with_complete (m : list (Z * list Z)) (pa pb : Z) (later : list Z) :
  In pb later ->
  overlap_size (refs_of m pa) (refs_of m pb) <> 0 ->
  exists e, In e (couple_with m pa later)
            /\ src_paper_id e = pa /\ dst_paper_id e = pb.
Proof.
  intros Hpb Hov.
  pose proof (proj1 (overlap_nonzero _ _) Hov) as [r [HrA HrB]].
  assert (HA : (set_size (refs_of m pa) =? 0) = false).
  { apply Z.eqb_neq. unfold set_size.
    destruct (refs_of m pa); [destruct HrA|simpl; lia]. }
  assert (HB : (set_size (refs_of m pb) =? 0) = false).
  { apply Z.eqb_neq. unfold set_size.
    destruct (refs_of m pb); [destruct HrB|simpl; lia]. }
  unfold couple_with. rewrite HA. eexists. split.
  - apply in_flat_map. exists pb. split; [exact Hpb|].
    rewrite HB. apply Z.eqb_neq in Hov. rewrite Hov. left. reflexivity.
  - split; reflexivity.
Qed.

Lemma couple_all_complete (m : list (Z * list Z)) (papers : list Z) (pa pb : Z) :
  In pa papers -> In pb papers -> pa <> pb ->
  overlap_size (refs_of m pa) (refs_of m pb) <> 0 ->
  overlap_size (refs_of m pb) (refs_of m pa) <> 0 ->
  exists e, In e (couple_all m papers)
            /\ ((src_paper_id e = pa /\ dst_paper_id e = pb)
                \/ (src_paper_id e = pb /\ dst_paper_id e = pa)).
Proof.
  induction papers as [|x later IH]; simpl; [intros []|].
  intros [->|Ha] [->|Hb] Hne H1 H2; try congruence.
  - destruct (couple_with_complete m pa pb later Hb H1) as [e [He Hsd]].
    exists e. split; [apply in_or_app; now left|now left].
  - destruct (couple_with_complete m pb pa later Ha H2) as [e [He Hsd]].
    exists e. split; [apply in_or_app; now left|now right].
  - destruct (IH Ha Hb Hne H1 H2) as [e [He Hsd]].
    exists e. split; [apply in_or_app; now right|exact Hsd].
Qed.

Lemma overlap_le (refsA refsB : list Z) :
  NoDup refsA ->
  overlap_size refsA refsB <= Z.min (set_size refsA) (set_size refsB).
Proof.
  intros Hnd. unfold overlap_size, set_size.
  assert (H1 : (List.length (filter (fun ref => set_has Z.eqb refsB ref) refsA)
                <= List.length refsA)%nat) by apply filter_length_le.
  assert (H2 : (List.length (filter (fun ref => set_has Z.eqb refsB ref) refsA)
                <= List.length refsB)%nat).
  { apply NoDup_incl_length; [now apply NoDup_filter|].
    intros r Hr. apply filter_In in Hr.
    now apply (set_has_true _ Z.eqb Z.eqb_eq). }
  lia.
Qed.

Lemma couple_all_weights (m : list (Z * list Z)) (papers : list Z) (e : Edge) :
  In e (couple_all m papers) ->
  exists pa pb,
    e = mkEdge None pa pb BIB_COUPLED
          (IZR (overlap_size (refs_of m pa) (refs_of m pb))
           / IZR (Z.min (set_size (refs_of m pa)) (set_size (refs_of m pb))))%R
          1%R None None algo
          (ProvBibCoupling (overlap_size (refs_of m pa) (refs_of m pb))
             (set_size (refs_of m pa)) (set_size (refs_of m pb)))
    /\ overlap_size (refs_of m pa) (refs_of m pb) <> 0.
Proof.
  induction papers as [|pa later IH]; simpl; [intros []|].
  intros Hin. apply in_app_or in Hin. destruct Hin as [Hin|Hin]; [|now apply IH].
  unfold couple_with in Hin.
  destruct (set_size (refs_of m pa) =? 0); [destruct Hin|].
  apply in_flat_map in Hin. destruct Hin as [pb [Hpb Hin]].
  destruct (set_size (refs_of m pb) =? 0); [destruct Hin|].
  destruct (overlap_size (refs_of m pa) (refs_of m pb) =? 0) eqn:E; [destruct Hin|].
  destruct Hin as [<-|[]]. exists pa, pb. split; [reflexivity|].
  now apply Z.eqb_neq.
Qed.

(** The pairs that get a CO_CITED edge. *)
Lemma coCitation_pairs (edges : list Edge) (a b : Z) :
  (exists e, In e (computeCoCitation edges)
             /\ src_paper_id e = a /\ dst_paper_id e = b)
  <-> a < b /\ exists c, cites_in edges c a /\ cites_in edges c b.
Proof.
  pose proof (group_refs_ok (citesEdges edges)) as Hok.
  pose proof (count_pairs_ok _ Hok) as [_ Hlt].
  assert (Hkeys : (exists e, In e (computeCoCitation edges)
                     /\ src_paper_id e = a /\ dst_paper_id e = b)
                  <-> In (a, b) (map fst (count_pairs (group_refs (citesEdges edges))))).
  { unfold computeCoCitation. cbv zeta. split.
    - intros [e [He [Ha Hb]]]. apply in_map_iff in He.
      destruct He as [[[x y] n] [<- Hin]]. simpl in *. subst.
      apply in_map_iff. now exists (a, b, n).
    - intros Hin. apply in_map_iff in Hin. destruct Hin as [[[x y] n] [Heq Hin]].
      simpl in Heq. injection Heq as -> ->.
      eexists. split; [apply in_map_iff; exists (a, b, n); split;
                       [reflexivity|exact Hin]|]. split; reflexivity. }
  rewrite Hkeys, count_pairs_keys. destruct Hok as [Hk Hs]. split.
  - intros [[c refs] [[x y] [Hentry [Hxy Hkey]]]]. simpl in *.
    rewrite Forall_forall in Hs. pose proof (Hs _ Hentry) as Hnd. simpl in Hnd.
    pose proof (index_pairs_distinct refs (x, y) Hnd Hxy) as Hne. simpl in Hne.
    apply index_pairs_in in Hxy. destruct Hxy as [Hx Hy].
    rewrite <- (refs_of_entry _ c refs Hk Hentry) in Hx, Hy.
    apply group_refs_refs in Hx, Hy.
    unfold coCitationKey in Hkey. injection Hkey as <- <-.
    split; [lia|]. exists c.
    destruct (Z.min_spec x y) as [[_ ->]|[_ ->]];
      destruct (Z.max_spec x y) as [[_ ->]|[_ ->]]; try tauto; lia.
  - intros [Hab [c [Ha Hb]]].
    apply group_refs_refs in Ha, Hb.
    assert (Hc : In c (map fst (group_refs (citesEdges edges))))
      by (eapply refs_of_in_key; exact Ha).
    apply (map_get_key_some _ _ Z.eqb Z.eqb_eq) in Hc. destruct Hc as [refs G].
    unfold refs_of in Ha, Hb. rewrite G in Ha, Hb.
    apply map_get_in in G; [|apply Z.eqb_eq].
    destruct (index_pairs_complete refs a b Ha Hb) as [H|H]; [lia| |].
    + exists (c, refs), (a, b). repeat split; try assumption.
      unfold coCitationKey. simpl. f_equal; lia.
    + exists (c, refs), (b, a). repeat split; try assumption.
      unfold coCitationKey. simpl. f_equal; lia.
Qed.

(** The pairs that get a BIB_COUPLED edge. *)
Lemma bibCoupling_pairs (edges : list Edge) (a b : Z) :
  (exists e, In e (computeBibCoupling edges)
             /\ ((src_paper_id e = a /\ dst_paper_id e = b)
                 \/ (src_paper_id e = b /\ dst_paper_id e = a)))
  <-> a <> b /\ exists r, cites_in edges a r /\ cites_in edges b r.
Proof.
  pose proof (group_refs_ok (citesEdges edges)) as Hok.
  unfold computeBibCoupling. cbv zeta.
  set (m := group_refs (citesEdges edges)) in *.
  destruct Hok as [Hk Hs]. split.
  - intros [e [He Hsd]].
    destruct (couple_all_edges m (map_keys m) e Hk He) as [_ [_ [Hne _]]].
    destruct (couple_all_weights m (map_keys m) e He) as [pa [pb [-> Hov]]].
    simpl in *. apply overlap_nonzero in Hov. destruct Hov as [r [H1 H2]].
    apply group_refs_refs in H1, H2.
    destruct Hsd as [[-> ->]|[-> ->]].
    + split; [exact Hne|]. now exists r.
    + split; [congruence|]. now exists r.
  - intros [Hne [r [Ha Hb]]]. apply group_refs_refs in Ha, Hb. fold m in Ha, Hb.
    apply (couple_all_complete m (map_keys m) a b).
    + eapply refs_of_in_key. exact Ha.
    + eapply refs_of_in_key. exact Hb.
    + exact Hne.
    + apply overlap_nonzero. now exists r.
    + apply overlap_nonzero. now exists r.
Qed.

End CitationFacts.

(** *** The count of a pair *)

Module CoCitationCountFacts.
Import Js Types Algorithms AlgorithmsSpec AnalyticEdgeFacts TfIdfFacts CitationFacts.
Local Open Scope Z_scope.

Lemma count_pair_get (pc : list (Z * Z * Z)) (xy key : Z * Z) :
  map_get pair_eqb (count_pair pc xy) key
  = if key_is key xy then Some (count_or_zero pc key + 1)
    else map_get pair_eqb pc key.
Proof.
  unfold count_pair, key_is, count_or_zero. cbv zeta.
  destruct (pair_eqb (coCitationKey (fst xy) (snd xy)) key) eqn:E.
  - apply pair_eqb_eq in E. rewrite E.
    rewrite (map_get_set_same _ _ pair_eqb pair_eqb_eq).
    destruct (map_get pair_eqb pc key); reflexivity.
  - apply (map_get_set_other _ _ pair_eqb pair_eqb_eq).
    intros H. rewrite H in E.
    now rewrite (proj2 (pair_eqb_eq _ _) eq_refl) in E.
Qed.

Lemma fold_count_pair_get (pairs : list (Z * Z)) (pc : list (Z * Z * Z))
    (key : Z * Z) :
  map_get pair_eqb (fold_left count_pair pairs pc) key
  = let n := Z.of_nat (List.length (filter (key_is key) pairs)) in
    if n =? 0 then map_get pair_eqb pc key
    else Some (count_or_zero pc key + n).
Proof.
  revert pc. induction pairs as [|xy pairs IH]; intros pc; [reflexivity|].
  cbn [fold_left filter]. rewrite IH. cbv zeta.
  unfold count_or_zero at 1. rewrite (count_pair_get pc xy key).
  destruct (key_is key xy) eqn:E.
  - cbn [List.length].
    destruct (Z.of_nat (List.length (filter (key_is key) pairs)) =? 0) eqn:E0.
    + apply Z.eqb_eq in E0.
      replace (Z.of_nat (S (List.length (filter (key_is key) pairs)))) with 1 by lia.
      reflexivity.
    + apply Z.eqb_neq in E0.
      destruct (Z.of_nat (S (List.length (filter (key_is key) pairs))) =? 0) eqn:E1;
        [apply Z.eqb_eq in E1; lia|].
      f_equal. lia.
  - destruct (Z.of_nat (List.length (filter (key_is key) pairs)) =? 0);
      reflexivity.
Qed.

Lemma count_pairs_flat (m : list (Z * list Z)) :
  count_pairs m
  = fold_left count_pair (flat_map (fun entry => index_pairs (snd entry)) m) [].
Proof.
  unfold count_pairs. generalize (@nil (Z * Z * Z)).
  induction m as [|entry m IH]; intros pc; [reflexivity|].
  cbn [fold_left flat_map]. rewrite fold_left_app. apply IH.
Qed.

Lemma count_equal (l : list Z) (b : Z) :
  NoDup l ->
  List.length (filter (fun y => y =? b) l) = Nat.b2n (set_has Z.eqb l b).
Proof.
  unfold set_has. induction l as [|x l IH]; intros Hnd; [reflexivity|].
  inversion Hnd as [|? ? Hx Hl]; subst. cbn [filter existsb].
  rewrite (Z.eqb_sym b x).
  destruct (x =? b) eqn:E.
  - apply Z.eqb_eq in E. subst x. cbn [List.length orb Nat.b2n].
    rewrite (IH Hl).
    assert (Hb : existsb (Z.eqb b) l = false).
    { apply (set_has_false _ Z.eqb Z.eqb_eq). exact Hx. }
    rewrite Hb. reflexivity.
  - cbn [orb]. now apply IH.
Qed.

Lemma key_is_pair (a b x y : Z) :
  a < b ->
  key_is (a, b) (x, y) = ((x =? a) && (y =? b)) || ((x =? b) && (y =? a)).
Proof.
  intros Hab. unfold key_is, coCitationKey, pair_eqb. simpl.
  destruct (x =? a) eqn:E1, (y =? b) eqn:E2, (x =? b) eqn:E3, (y =? a) eqn:E4;
    rewrite ?Z.eqb_eq, ?Z.eqb_neq in *; subst; simpl;
    try lia;
    try (apply andb_true_iff; rewrite !Z.eqb_eq; lia);
    try (apply andb_false_iff; rewrite !Z.eqb_neq; lia).
Qed.

Lemma filter_map_length (A B : Type) (f : A -> B) (p : B -> bool) (l : list A) :
  List.length (filter p (map f l)) = List.length (filter (fun y => p (f y)) l).
Proof.
  induction l as [|y l IH]; [reflexivity|]. simpl.
  destruct (p (f y)); simpl; now rewrite IH.
Qed.

Lemma filter_none (A : Type) (p : A -> bool) (l : list A) :
  (forall y, In y l -> p y = false) -> filter p l = [].
Proof.
  induction l as [|y l IH]; intros H; [reflexivity|]. simpl.
  rewrite (H y (or_introl eq_refl)). apply IH. intros z Hz. apply H. now right.
Qed.

Lemma index_pairs_count (l : list Z) (a b : Z) :
  a < b -> NoDup l ->
  List.length (filter (key_is (a, b)) (index_pairs l))
  = Nat.b2n (set_has Z.eqb l a && set_has Z.eqb l b).
Proof.
  intros Hab. induction l as [|x rest IH]; intros Hnd; [reflexivity|].
  inversion Hnd as [|? ? Hx Hrest]; subst.
  cbn [index_pairs]. rewrite filter_app, length_app, (IH Hrest).
  rewrite filter_map_length.
  unfold set_has. cbn [existsb]. fold (set_has Z.eqb rest a).
  fold (set_has Z.eqb rest b).
  destruct (Z.eq_dec x a) as [->|Hxa]; [|destruct (Z.eq_dec x b) as [->|Hxb]].
  - rewrite (filter_ext (fun y => key_is (a, b) (a, y)) (fun y => y =? b)).
    + rewrite (count_equal rest b Hrest).
      rewrite (proj2 (set_has_false _ Z.eqb Z.eqb_eq rest a) Hx).
      rewrite Z.eqb_refl. cbn [andb orb Nat.b2n].
      assert (E : (b =? a) = false) by (apply Z.eqb_neq; lia).
      rewrite E. destruct (set_has Z.eqb rest b); reflexivity.
    + intros y. rewrite (key_is_pair a b a y Hab), Z.eqb_refl.
      assert (E : (a =? b) = false) by (apply Z.eqb_neq; lia).
      rewrite E. cbn [andb]. now rewrite orb_false_r.
  - rewrite (filter_ext (fun y => key_is (a, b) (b, y)) (fun y => y =? a)).
    + rewrite (count_equal rest a Hrest).
      rewrite (proj2 (set_has_false _ Z.eqb Z.eqb_eq rest b) Hx).
      rewrite Z.eqb_refl.
      assert (E : (a =? b) = false) by (apply Z.eqb_neq; lia).
      rewrite E. destruct (set_has Z.eqb rest a); reflexivity.
    + intros y. rewrite (key_is_pair a b b y Hab), Z.eqb_refl.
      assert (E : (b =? a) = false) by (apply Z.eqb_neq; lia).
      rewrite E. reflexivity.
  - rewrite (filter_none _ (fun y => key_is (a, b) (x, y)) rest).
    + assert (E1 : (a =? x) = false) by (apply Z.eqb_neq; lia).
      assert (E2 : (b =? x) = false) by (apply Z.eqb_neq; lia).
      rewrite E1, E2. reflexivity.
    + intros y _. rewrite (key_is_pair a b x y Hab).
      assert (E1 : (x =? a) = false) by (apply Z.eqb_neq; lia).
      assert (E2 : (x =? b) = false) by (apply Z.eqb_neq; lia).
      rewrite E1, E2. reflexivity.
Qed.

Lemma flat_pairs_count (m : list (Z * list Z)) (a b : Z) :
  a < b -> Forall (fun entry => NoDup (snd entry)) m ->
  List.length
    (filter (key_is (a, b)) (flat_map (fun entry => index_pairs (snd entry)) m))
  = List.length (filter (cites_both a b) m).
Proof.
  intros Hab. induction m as [|entry m IH]; intros H; [reflexivity|].
  inversion H as [|? ? He Hm]; subst.
  cbn [flat_map filter]. rewrite filter_app, length_app, (IH Hm).
  rewrite (index_pairs_count (snd entry) a b Hab He).
  unfold cites_both at 2.
  destruct (set_has Z.eqb (snd entry) a && set_has Z.eqb (snd entry) b);
    reflexivity.
Qed.

(** The count of a pair is the number of citing papers whose reference
    set holds both papers. *)
Lemma count_pairs_get (m : list (Z * list Z)) (a b : Z) :
  a < b -> refs_ok m ->
  map_get pair_eqb (count_pairs m) (a, b)
  = let n := Z.of_nat (List.length (filter (cites_both a b) m)) in
    if n =? 0 then None else Some n.
Proof.
  intros Hab [_ Hs]. rewrite count_pairs_flat, fold_count_pair_get.
  cbv zeta. rewrite (flat_pairs_count m a b Hab Hs).
  unfold count_or_zero. simpl. reflexivity.
Qed.

Lemma filter_keys_nodup (K V : Type) (keep : K * V -> bool) (m : list (K * V)) :
  NoDup (map fst m) -> NoDup (map fst (filter keep m)).
Proof.
  induction m as [|[k v] m IH]; intros Hnd; [constructor|].
  inversion Hnd as [|? ? Hk Hm]; subst. simpl.
  destruct (keep (k, v)); [|now apply IH]. simpl. constructor; [|now apply IH].
  intros Hin. apply Hk. apply in_map_iff in Hin.
  destruct Hin as [entry [E Hentry]]. apply filter_In in Hentry.
  apply in_map_iff. exists entry. tauto.
Qed.

(** The citing papers whose reference set holds [a] and [b] are the papers
    that cite both. *)
Lemma cites_both_citers (edges : list Edge) (a b : Z) :
  co_citers_of edges a b
    (map fst (filter (cites_both a b) (group_refs (citesEdges edges)))).
Proof.
  pose proof (group_refs_ok (citesEdges edges)) as [Hk Hs].
  set (m := group_refs (citesEdges edges)) in *.
  split; [now apply filter_keys_nodup|].
  intros c. rewrite <- !group_refs_refs. fold m. split.
  - intros Hin. apply in_map_iff in Hin. destruct Hin as [[c' refs] [<- Hin]].
    apply filter_In in Hin. destruct Hin as [Hin Hb]. simpl.
    rewrite (refs_of_entry m c' refs Hk Hin).
    unfold cites_both in Hb. simpl in Hb. apply andb_true_iff in Hb.
    destruct Hb as [Ha Hb].
    split; apply (set_has_true _ Z.eqb Z.eqb_eq); assumption.
  - intros [Ha Hb].
    pose proof (refs_of_in_key m c a Ha) as Hc.
    apply in_map_iff in Hc. destruct Hc as [[c' refs] [E Hin]].
    simpl in E. subst c'.
    rewrite (refs_of_entry m c refs Hk Hin) in Ha, Hb.
    apply in_map_iff. exists (c, refs). split; [reflexivity|].
    apply filter_In. split; [exact Hin|].
    unfold cites_both. simpl. apply andb_true_iff.
    split; apply (set_has_true _ Z.eqb Z.eqb_eq); assumption.
Qed.

End CoCitationCountFacts.

(** *** String keys *)

Module CoCitationKeysFacts.
Import Js Types Algorithms AlgorithmsSpec CoCitationKeys AnalyticEdgeFacts TfIdfFacts CitationFacts.
Local Open Scope Z_scope.

Lemma append_assoc (a b c : string) :
  ((a ++ b) ++ c)%string = (a ++ (b ++ c))%string.
Proof. induction a as [|x a IH]; simpl; [reflexivity|now rewrite IH]. Qed.

Lemma append_nil_r (a : string) : (a ++ "")%string = a.
Proof. induction a as [|x a IH]; simpl; [reflexivity|now rewrite IH]. Qed.

Lemma split_dash_plain (cur s : string) :
  no_dash s -> split_dash cur s = [(cur ++ s)%string].
Proof.
  revert cur. induction s as [|c s IH]; intros cur H; simpl.
  - now rewrite append_nil_r.
  - assert (Hc : Ascii.eqb c "-" = false).
    { apply Ascii.eqb_neq. apply H. now left. }
    rewrite Hc, IH.
    + now rewrite append_assoc.
    + intros x Hx. apply H. now right.
Qed.

Lemma split_dash_app (cur s rest : string) :
  no_dash s ->
  split_dash cur (s ++ String "-" rest)
  = (cur ++ s)%string :: split_dash "" rest.
Proof.
  revert cur. induction s as [|c s IH]; intros cur H; simpl.
  - now rewrite append_nil_r.
  - assert (Hc : Ascii.eqb c "-" = false).
    { apply Ascii.eqb_neq. apply H. now left. }
    rewrite Hc, IH.
    + now rewrite append_assoc.
    + intros x Hx. apply H. now right.
Qed.

Lemma digits_no_dash (d : Decimal.uint) : no_dash (NilEmpty.string_of_uint d).
Proof.
  induction d; simpl; intros c Hc; try destruct Hc as [<-|Hc];
    try discriminate; try (now apply IHd); destruct Hc.
Qed.

Lemma string_of_uint_digits (d : Decimal.uint) :
  no_dash (NilZero.string_of_uint d)
  /\ Number (NilZero.string_of_uint d) = Z.of_uint d.
Proof.
  assert (H : no_dash (NilEmpty.string_of_uint d)
              /\ Number (NilEmpty.string_of_uint d) = Z.of_uint d).
  { split; [apply digits_no_dash|].
    unfold Number. now rewrite NilEmpty.usu. }
  destruct d; try exact H.
  split; [|reflexivity]. intros c [<-|[]]. discriminate.
Qed.

(** The decimal string of an id that is not negative holds digits only
    and reads back as the id. *)
Lemma String_of_number_digits (z : Z) :
  0 <= z ->
  no_dash (String_of_number (Some z))
  /\ Number (String_of_number (Some z)) = z.
Proof.
  intros Hz. unfold String_of_number.
  pose proof (DecimalZ.of_to z) as E.
  destruct z as [|p|p]; [| |lia].
  - exact (string_of_uint_digits (Decimal.D0 Decimal.Nil)).
  - change (Z.of_int (Z.to_int (Z.pos p))) with (Z.of_uint (Pos.to_uint p)) in E.
    destruct (string_of_uint_digits (Pos.to_uint p)) as [H1 H2].
    split; [exact H1|]. exact (eq_trans H2 E).
Qed.

(** A key gives back the pair it was made of, when the ids are not
    negative. *)
Lemma key_ends_key_of (k : Z * Z) :
  not_negative k -> key_ends (key_of_pair k) = k.
Proof.
  intros [Ha Hb]. destruct k as [a b]. simpl in *.
  destruct (String_of_number_digits a Ha) as [Da Na].
  destruct (String_of_number_digits b Hb) as [Db Nb].
  unfold key_ends, key_of_pair. cbn [fst snd].
  change (String_of_number (Some a) ++ "-" ++ String_of_number (Some b))%string
    with (String_of_number (Some a) ++ String "-" (String_of_number (Some b)))%string.
  rewrite (split_dash_app "" _ _ Da), (split_dash_plain "" _ Db).
  cbn [map nth String.append]. now rewrite Na, Nb.
Qed.

Lemma key_of_inj (k1 k2 : Z * Z) :
  not_negative k1 -> not_negative k2 -> key_of_pair k1 = key_of_pair k2 -> k1 = k2.
Proof.
  intros H1 H2 E. rewrite <- (key_ends_key_of k1 H1), <- (key_ends_key_of k2 H2).
  now rewrite E.
Qed.

Lemma pairCountsKey_key_of (x y : Z) :
  pairCountsKey x y = key_of_pair (coCitationKey x y).
Proof. reflexivity. Qed.

Lemma coCitationKey_not_negative (x y : Z) :
  0 <= x -> 0 <= y -> not_negative (coCitationKey x y).
Proof. intros Hx Hy. unfold not_negative, coCitationKey. simpl. lia. Qed.

Lemma map_get_keyed (pc : list (Z * Z * Z)) (k : Z * Z) :
  Forall not_negative (map fst pc) -> not_negative k ->
  map_get String.eqb (map keyed pc) (key_of_pair k) = map_get pair_eqb pc k.
Proof.
  intros Hpc Hk. induction pc as [|[k' n] pc IH]; [reflexivity|].
  inversion Hpc as [|? ? Hk' Hrest]; subst. simpl in Hk'.
  cbn [map map_get keyed fst snd].
  destruct (pair_eqb k k') eqn:E.
  - apply pair_eqb_eq in E. subst k'. now rewrite String.eqb_refl.
  - assert (Hne : String.eqb (key_of_pair k) (key_of_pair k') = false).
    { apply String.eqb_neq. intros H. apply key_of_inj in H; try assumption.
      subst k'. now rewrite (proj2 (pair_eqb_eq k k) eq_refl) in E. }
    rewrite Hne. now apply IH.
Qed.

Lemma map_set_keyed (pc : list (Z * Z * Z)) (k : Z * Z) (v : Z) :
  Forall not_negative (map fst pc) -> not_negative k ->
  map_set String.eqb (map keyed pc) (key_of_pair k) v
  = map keyed (map_set pair_eqb pc k v).
Proof.
  intros Hpc Hk. induction pc as [|[k' n] pc IH]; [reflexivity|].
  inversion Hpc as [|? ? Hk' Hrest]; subst. simpl in Hk'.
  cbn [map map_set keyed fst snd].
  destruct (pair_eqb k k') eqn:E.
  - apply pair_eqb_eq in E. subst k'. now rewrite String.eqb_refl.
  - assert (Hne : String.eqb (key_of_pair k) (key_of_pair k') = false).
    { apply String.eqb_neq. intros H. apply key_of_inj in H; try assumption.
      subst k'. now rewrite (proj2 (pair_eqb_eq k k) eq_refl) in E. }
    rewrite Hne. cbn [map keyed fst snd]. f_equal. now apply IH.
Qed.

Lemma count_key_keyed (pc : list (Z * Z * Z)) (xy : Z * Z) :
  Forall not_negative (map fst pc) -> not_negative xy ->
  count_key (map keyed pc) xy = map keyed (count_pair pc xy)
  /\ Forall not_negative (map fst (count_pair pc xy)).
Proof.
  intros Hpc [Hx Hy].
  pose proof (coCitationKey_not_negative _ _ Hx Hy) as Hk.
  unfold count_key, count_pair. cbv zeta.
  rewrite pairCountsKey_key_of, (map_get_keyed pc _ Hpc Hk).
  split; [now apply map_set_keyed|].
  apply Forall_forall. intros k Hin.
  apply (map_set_keys_incl _ _ pair_eqb pair_eqb_eq) in Hin.
  destruct Hin as [Hin| ->]; [|exact Hk].
  rewrite Forall_forall in Hpc. now apply Hpc.
Qed.

Lemma fold_count_key_keyed (pairs : list (Z * Z)) (pc : list (Z * Z * Z)) :
  Forall not_negative (map fst pc) -> Forall not_negative pairs ->
  fold_left count_key pairs (map keyed pc)
  = map keyed (fold_left count_pair pairs pc)
  /\ Forall not_negative (map fst (fold_left count_pair pairs pc)).
Proof.
  revert pc. induction pairs as [|xy pairs IH]; intros pc Hpc Hp; [now split|].
  inversion Hp as [|? ? Hxy Hrest]; subst.
  destruct (count_key_keyed pc xy Hpc Hxy) as [E H].
  cbn [fold_left]. rewrite E. now apply IH.
Qed.

Lemma index_pairs_not_negative (refs : list Z) :
  Forall (fun r => 0 <= r) refs -> Forall not_negative (index_pairs refs).
Proof.
  intros H. apply Forall_forall. intros [x y] Hin.
  apply index_pairs_in in Hin. rewrite Forall_forall in H.
  split; apply H; tauto.
Qed.

Lemma count_keys_keyed (m : list (Z * list Z)) :
  Forall (fun entry => Forall (fun r => 0 <= r) (snd entry)) m ->
  count_keys m = map keyed (count_pairs m)
  /\ Forall not_negative (map fst (count_pairs m)).
Proof.
  unfold count_keys, count_pairs.
  change (@nil (string * Z)) with (map keyed []).
  assert (H0 : Forall not_negative (map fst (@nil (Z * Z * Z)))) by constructor.
  revert H0. generalize (@nil (Z * Z * Z)).
  induction m as [|entry m IH]; intros pc Hpc Hm; [now split|].
  inversion Hm as [|? ? He Hrest]; subst.
  destruct (fold_count_key_keyed (index_pairs (snd entry)) pc Hpc
              (index_pairs_not_negative _ He)) as [E H].
  cbn [fold_left]. rewrite E. now apply IH.
Qed.

Lemma group_refs_not_negative (edges : list Edge) :
  Forall (fun e => 0 <= dst_paper_id e) (citesEdges edges) ->
  Forall (fun entry => Forall (fun r => 0 <= r) (snd entry))
         (group_refs (citesEdges edges)).
Proof.
  intros H. pose proof (group_refs_ok (citesEdges edges)) as [Hk _].
  apply Forall_forall. intros [c refs] Hin. apply Forall_forall. intros r Hr.
  simpl in Hr.
  rewrite <- (refs_of_entry _ c refs Hk Hin) in Hr.
  apply group_refs_refs in Hr. destruct Hr as [e [He [Ht [_ <-]]]].
  rewrite Forall_forall in H. apply H. apply citesEdges_in. now split.
Qed.

(** With ids that are not negative the keys of [pairCounts] stand for the
    pairs, and the edges are those of the function on pairs. *)
Lemma computeCoCitation_keys (edges : list Edge) :
  Forall (fun e => 0 <= dst_paper_id e) (citesEdges edges) ->
  CoCitationKeys.computeCoCitation edges = Algorithms.computeCoCitation edges.
Proof.
  intros H. unfold CoCitationKeys.computeCoCitation, Algorithms.computeCoCitation.
  cbv zeta.
  destruct (count_keys_keyed _ (group_refs_not_negative edges H)) as [E Hnn].
  rewrite E. unfold map_values. rewrite !map_map.
  apply map_ext_in. intros [k n] Hin. cbn [keyed fst snd].
  rewrite key_ends_key_of; [reflexivity|].
  rewrite Forall_forall in Hnn. apply Hnn.
  apply in_map_iff. now exists (k, n).
Qed.

(** *** The pieces of any key are numbers *)

Lemma numeric_app (a b : string) : numeric a -> numeric b -> numeric (a ++ b).
Proof.
  unfold numeric. induction a as [|c a IH]; simpl; [auto|].
  intros Ha Hb.
  destruct (NilEmpty.uint_of_string a) as [da|] eqn:Ea.
  - destruct (NilEmpty.uint_of_string (a ++ b)) as [dab|] eqn:Eab.
    + unfold uint_of_char in *.
      destruct c as [[] [] [] [] [] [] [] []]; simpl in *; congruence.
    + exfalso. apply IH; [congruence|exact Hb|reflexivity].
  - exfalso. apply Ha. unfold uint_of_char.
    destruct c as [[] [] [] [] [] [] [] []]; reflexivity.
Qed.

Lemma split_dash_numeric (cur s : string) :
  numeric cur ->
  (forall c, In c (list_ascii_of_string s) -> digit_or_dash c) ->
  Forall numeric (split_dash cur s).
Proof.
  revert cur. induction s as [|c s IH]; intros cur Hcur H; simpl.
  - now constructor.
  - assert (Hs : forall x, In x (list_ascii_of_string s) -> digit_or_dash x)
      by (intros x Hx; apply H; now right).
    destruct (Ascii.eqb c "-") eqn:E.
    + constructor; [exact Hcur|]. apply IH; [discriminate|exact Hs].
    + apply IH; [|exact Hs]. apply numeric_app; [exact Hcur|].
      destruct (H c (or_introl eq_refl)) as [->|Hc]; [discriminate|exact Hc].
Qed.

Lemma split_dash_nonempty (cur s : string) :
  (1 <= List.length (split_dash cur s))%nat.
Proof.
  revert cur. induction s as [|c s IH]; intros cur; simpl; [lia|].
  destruct (Ascii.eqb c "-"); simpl; [lia|apply IH].
Qed.

Lemma split_dash_length (cur s : string) :
  In "-"%char (list_ascii_of_string s) ->
  (2 <= List.length (split_dash cur s))%nat.
Proof.
  revert cur. induction s as [|c s IH]; intros cur H; [destruct H|]. simpl.
  destruct (Ascii.eqb c "-") eqn:E.
  - simpl. pose proof (split_dash_nonempty "" s). lia.
  - apply IH. destruct H as [->|H]; [discriminate|exact H].
Qed.

Lemma digits_chars (d : Decimal.uint) (c : ascii) :
  In c (list_ascii_of_string (NilEmpty.string_of_uint d)) ->
  numeric (String c "").
Proof.
  induction d; simpl; intros H; try destruct H as [<-|H];
    try discriminate; try (now apply IHd); destruct H.
Qed.

Lemma String_of_number_chars (z : Z) (c : ascii) :
  In c (list_ascii_of_string (String_of_number (Some z))) -> digit_or_dash c.
Proof.
  assert (U : forall d, In c (list_ascii_of_string (NilZero.string_of_uint d)) ->
                        numeric (String c "")).
  { intros d. destruct d; try apply digits_chars.
    intros [<-|[]]. discriminate. }
  unfold String_of_number, NilZero.string_of_int.
  destruct (Z.to_int z) as [d|d].
  - intros H. right. now apply U with d.
  - intros [<-|H]; [now left|]. right. now apply U with d.
Qed.

Lemma list_ascii_app (a b : string) :
  list_ascii_of_string (a ++ b)
  = (list_ascii_of_string a ++ list_ascii_of_string b)%list.
Proof. induction a as [|c a IH]; simpl; [reflexivity|now rewrite IH]. Qed.

(** Whatever the ids, a key splits into two pieces at least, and each
    piece is empty or a string of digits. *)
Lemma pairCountsKey_pieces (x y : Z) :
  Forall numeric (split_dash "" (pairCountsKey x y))
  /\ (2 <= List.length (split_dash "" (pairCountsKey x y)))%nat.
Proof.
  unfold pairCountsKey. split.
  - apply split_dash_numeric; [discriminate|].
    intros c. rewrite !list_ascii_app, !in_app_iff.
    intros [H|[H|H]].
    + now apply String_of_number_chars with (Z.min x y).
    + destruct H as [<-|[]]. now left.
    + now apply String_of_number_chars with (Z.max x y).
  - apply split_dash_length. rewrite !list_ascii_app, !in_app_iff.
    right. left. now left.
Qed.

(** With a negative id the ends of a key are not the two ids: the key of
    -1 and 2 starts with the sign, so its first piece is empty. *)
Lemma negative_id_edges :
  map (fun e => (src_paper_id e, dst_paper_id e))
      (CoCitationKeys.computeCoCitation negative_id_example)
  = [(0, 1)].
Proof. vm_compute. reflexivity. Qed.

End CoCitationKeysFacts.

(** *** The direction of an edge *)

Module DirectionFacts.
Import Js Types TfIdf Similarity Algorithms AlgorithmsSpec AnalyticEdgeFacts TfIdfFacts CitationFacts.
Local Open Scope Z_scope.

(** [computeBibCoupling] pairs each paper with the papers after it. *)
Lemma couple_all_order (m : list (Z * list Z)) (papers : list Z) (e : Edge) :
  In e (couple_all m papers) ->
  exists l1 l2, papers = (l1 ++ src_paper_id e :: l2)%list
                /\ In (dst_paper_id e) l2.
Proof.
  induction papers as [|pa later IH]; simpl; [intros []|].
  intros Hin. apply in_app_or in Hin. destruct Hin as [Hin|Hin].
  - apply couple_with_edges in Hin. destruct Hin as [Hs [Hd _]].
    exists [], later. rewrite Hs. split; [reflexivity|exact Hd].
  - destruct (IH Hin) as [l1 [l2 [E Hd]]].
    exists (pa :: l1), l2. rewrite E. split; [reflexivity|exact Hd].
Qed.

Lemma add_ref_keys (m : list (Z * list Z)) (e : Edge) :
  map fst (add_ref m e)
  = if set_has Z.eqb (map fst m) (src_paper_id e) then map fst m
    else (map fst m ++ [src_paper_id e])%list.
Proof.
  unfold add_ref. cbv zeta.
  assert (Hhas : map_has Z.eqb m (src_paper_id e)
                 = set_has Z.eqb (map fst m) (src_paper_id e)).
  { unfold map_has.
    destruct (set_has Z.eqb (map fst m) (src_paper_id e)) eqn:E.
    - apply (set_has_true _ Z.eqb Z.eqb_eq) in E.
      destruct (map_get_key_some _ _ Z.eqb Z.eqb_eq m (src_paper_id e) E)
        as [v ->]. reflexivity.
    - apply (set_has_false _ Z.eqb Z.eqb_eq) in E.
      now rewrite (map_get_notin _ _ Z.eqb Z.eqb_eq m (src_paper_id e) E). }
  rewrite Hhas.
  destruct (set_has Z.eqb (map fst m) (src_paper_id e)) eqn:E.
  - destruct (map_get Z.eqb m (src_paper_id e)) as [refs|]; [|reflexivity].
    rewrite (map_set_keys _ _ Z.eqb), E. reflexivity.
  - rewrite (map_get_set_same _ _ Z.eqb Z.eqb_eq).
    rewrite !(map_set_keys _ _ Z.eqb), E.
    assert (E2 : set_has Z.eqb (map fst m ++ [src_paper_id e]) (src_paper_id e)
                 = true).
    { apply (set_has_true _ Z.eqb Z.eqb_eq). apply in_or_app. right. now left. }
    rewrite E2. reflexivity.
Qed.

Lemma group_refs_snoc (cites : list Edge) (e : Edge) :
  group_refs (cites ++ [e]) = add_ref (group_refs cites) e.
Proof. unfold group_refs. now rewrite fold_left_app. Qed.

Lemma group_refs_key_in (cites : list Edge) (c : Z) :
  In c (map fst (group_refs cites)) <-> In c (map src_paper_id cites).
Proof.
  revert c. induction cites as [|e cites IH] using rev_ind; intros c;
    [reflexivity|].
  rewrite group_refs_snoc, add_ref_keys, map_app, in_app_iff. simpl.
  destruct (set_has Z.eqb (map fst (group_refs cites)) (src_paper_id e)) eqn:E.
  - apply (set_has_true _ Z.eqb Z.eqb_eq) in E. rewrite IH. apply IH in E.
    split; [tauto|]. intros [H|[<-|[]]]; assumption.
  - rewrite in_app_iff, IH. simpl. tauto.
Qed.

Lemma first_occurrence (l : list Z) (a : Z) :
  In a l -> exists before after, l = (before ++ a :: after)%list /\ ~ In a before.
Proof.
  induction l as [|x l IH]; [intros []|].
  destruct (Z.eq_dec x a) as [->|Hne].
  - intros _. exists [], l. split; [reflexivity|intros []].
  - intros [H|H]; [contradiction|].
    destruct (IH H) as [before [after [-> Hb]]].
    exists (x :: before), after. split; [reflexivity|].
    intros [E|E]; [contradiction|now apply Hb].
Qed.

(** The keys of the map from citing paper to references are in the order
    in which the papers first cite. *)
Lemma group_refs_key_order (cites : list Edge) (l1 l2 : list Z) (a b : Z) :
  map fst (group_refs cites) = (l1 ++ a :: l2)%list -> In b l2 ->
  exists before after,
    map src_paper_id cites = (before ++ a :: after)%list
    /\ ~ In a before /\ ~ In b before /\ In b after.
Proof.
  revert l1 l2. induction cites as [|e cites IH] using rev_ind; intros l1 l2 E Hb.
  - destruct l1; discriminate.
  - rewrite group_refs_snoc, add_ref_keys in E.
    assert (Hext : forall l1 l2,
              map fst (group_refs cites) = (l1 ++ a :: l2)%list -> In b l2 ->
              exists before after,
                map src_paper_id (cites ++ [e]) = (before ++ a :: after)%list
                /\ ~ In a before /\ ~ In b before /\ In b after).
    { intros k1 k2 E' Hb'.
      destruct (IH k1 k2 E' Hb') as [before [after [E1 [H1 [H2 H3]]]]].
      exists before, (after ++ [src_paper_id e])%list.
      rewrite map_app, E1, <- app_assoc. simpl.
      repeat split; try assumption. apply in_or_app. now left. }
    destruct (set_has Z.eqb (map fst (group_refs cites)) (src_paper_id e)) eqn:Es.
    + now apply (Hext l1 l2).
    + apply (set_has_false _ Z.eqb Z.eqb_eq) in Es.
      destruct (exists_last (l := l2)) as [l2' [z E2]];
        [intros ->; destruct Hb|].
      subst l2.
      change (l1 ++ a :: l2' ++ [z])%list with (l1 ++ (a :: l2') ++ [z])%list in E.
      rewrite app_assoc in E. apply app_inj_tail in E. destruct E as [E Ez].
      apply in_app_or in Hb. destruct Hb as [Hb|[Hb|[]]].
      * now apply (Hext l1 l2').
      * subst z b.
        assert (Ha : In a (map src_paper_id cites)).
        { apply group_refs_key_in. rewrite E. apply in_or_app. right. now left. }
        destruct (first_occurrence _ a Ha) as [before [after [E1 H1]]].
        exists before, (after ++ [src_paper_id e])%list.
        rewrite map_app, E1, <- app_assoc. simpl.
        split; [reflexivity|]. split; [exact H1|].
        split; [|apply in_or_app; right; now left].
        intros Hin. apply Es. apply group_refs_key_in. rewrite E1.
        apply in_or_app. now left.
Qed.

(** A BIB_COUPLED edge goes from the paper that cites first to the one
    that cites later. *)
Lemma bibCoupling_direction (edges : list Edge) (e : Edge) :
  In e (computeBibCoupling edges) ->
  cites_first edges (src_paper_id e) (dst_paper_id e).
Proof.
  unfold computeBibCoupling. cbv zeta. intros Hin.
  apply couple_all_order in Hin. destruct Hin as [l1 [l2 [E Hd]]].
  unfold cites_first. now apply group_refs_key_order with l1 l2.
Qed.

(** A SIMILAR_TEXT edge goes from the paper whose neighbours are being
    listed to one of these neighbours. *)
Lemma similarity_direction (paperIdMap : list (string * Z))
    (corpus : TfIdfCorpus) (topK : Z) (threshold : R) (e : Edge) :
  In e (buildSimilarityEdges paperIdMap corpus topK threshold) ->
  exists sourceId neighbor,
    In (sourceId, src_paper_id e) paperIdMap
    /\ In neighbor (findTopKSimilar sourceId corpus topK threshold)
    /\ map_get String.eqb paperIdMap (fst neighbor) = Some (dst_paper_id e)
    /\ weight e = snd neighbor.
Proof.
  unfold buildSimilarityEdges, similarity_loop. revert e.
  apply (fold_left_invariant _ _
           (fun st : list Edge * list (Z * Z) =>
              forall e, In e (fst st) ->
                exists sourceId neighbor,
                  In (sourceId, src_paper_id e) paperIdMap
                  /\ In neighbor (findTopKSimilar sourceId corpus topK threshold)
                  /\ map_get String.eqb paperIdMap (fst neighbor)
                     = Some (dst_paper_id e)
                  /\ weight e = snd neighbor)).
  - intros e [].
  - intros st [sourceId paperId] Hst Hentry. cbv zeta. simpl fst. simpl snd.
    apply (fold_left_invariant _ _
             (fun st : list Edge * list (Z * Z) =>
                forall e, In e (fst st) ->
                  exists sourceId neighbor,
                    In (sourceId, src_paper_id e) paperIdMap
                    /\ In neighbor (findTopKSimilar sourceId corpus topK threshold)
                    /\ map_get String.eqb paperIdMap (fst neighbor)
                       = Some (dst_paper_id e)
                    /\ weight e = snd neighbor)); [exact Hst|].
    intros [edges seen] neighbor Hinv Hn.
    destruct (map_get String.eqb paperIdMap (fst neighbor)) as [nid|] eqn:G;
      [|exact Hinv].
    destruct (set_has pair_eqb seen (pairKey paperId nid)); [exact Hinv|].
    intros e He. simpl in He. apply in_app_or in He.
    destruct He as [He|[<-|[]]]; [now apply Hinv|].
    exists sourceId, neighbor. simpl. auto.
Qed.

End DirectionFacts.

Module CitationTheorems.
Import Js Types Algorithms AlgorithmsSpec AnalyticEdgeFacts TfIdfFacts CitationFacts
       CoCitationCountFacts CoCitationKeysFacts.
Local Open Scope Z_scope.

(** X9. For CITES edges whose cited ids are not negative,
    [computeCoCitation], with its string keys, has an edge from [a] to [b]
    exactly when [a < b] and some paper cites both: the CITES edges of the
    input decide it, edges of other types do not count. *)
Theorem computeCoCitation_pairs (edges : list Edge) (a b : Z) :
  Forall (fun e => 0 <= dst_paper_id e) (citesEdges edges) ->
  (exists e, In e (CoCitationKeys.computeCoCitation edges)
             /\ src_paper_id e = a /\ dst_paper_id e = b)
  <-> a < b /\ exists c, cites_in edges c a /\ cites_in edges c b.
Proof.
  intros H. rewrite (computeCoCitation_keys edges H). apply coCitation_pairs.
Qed.

(** X10. For CITES edges whose cited ids are not negative, the weight of
    every CO_CITED edge is its count divided by the largest count: the
    count, which the provenance records, is the number of papers that cite
    both ends of the edge, it is at least 1 and at most the largest count,
    so the weight is in (0, 1]; the confidence is 1.  When there is an edge
    at all, one of them has the largest count and the weight 1. *)
Theorem computeCoCitation_weights (edges : list Edge) :
  Forall (fun e => 0 <= dst_paper_id e) (citesEdges edges) ->
  exists maxCount,
    1 <= maxCount
    /\ (forall e, In e (CoCitationKeys.computeCoCitation edges) ->
          exists citers,
            co_citers_of edges (src_paper_id e) (dst_paper_id e) citers
            /\ provenance_json e = ProvCoCitation (Z.of_nat (List.length citers))
            /\ 1 <= Z.of_nat (List.length citers) <= maxCount
            /\ weight e = (IZR (Z.of_nat (List.length citers)) / IZR maxCount)%R
            /\ (0 < weight e <= 1)%R
            /\ confidence e = 1%R /\ created_by e = algo)
    /\ (CoCitationKeys.computeCoCitation edges <> [] ->
        exists e, In e (CoCitationKeys.computeCoCitation edges)
                  /\ provenance_json e = ProvCoCitation maxCount
                  /\ weight e = 1%R).
Proof.
  intros Hids. rewrite (computeCoCitation_keys edges Hids).
  unfold computeCoCitation. cbv zeta.
  pose proof (group_refs_ok (citesEdges edges)) as Hok.
  destruct (count_pairs_ok _ Hok) as [Hk Hlt].
  set (m := group_refs (citesEdges edges)) in *.
  set (pc := count_pairs m) in *.
  set (maxCount := fold_left Z.max (map_values pc) 1).
  assert (Hpos : forall kc, In kc pc -> 1 <= snd kc)
    by (intros kc; apply count_pairs_pos).
  destruct (fold_max_ge (map_values pc) 1) as [Hm1 Hmax]. fold maxCount in Hm1, Hmax.
  assert (Hinv : (0 < / IZR maxCount)%R).
  { apply Rinv_0_lt_compat. apply IZR_lt. lia. }
  exists maxCount. split; [lia|]. split.
  - intros e He. apply in_map_iff in He. destruct He as [[[a b] n] [<- Hin]].
    cbn [src_paper_id dst_paper_id provenance_json weight confidence created_by
         fst snd].
    assert (Hab : a < b).
    { rewrite Forall_forall in Hlt. exact (Hlt _ Hin). }
    assert (Hn : n = Z.of_nat (List.length (filter (cites_both a b) m))).
    { pose proof (map_get_nodup _ _ pair_eqb pair_eqb_eq pc (a, b) n Hk Hin) as G.
      unfold pc in G. rewrite (count_pairs_get m a b Hab Hok) in G.
      cbv zeta in G.
      destruct (Z.of_nat (List.length (filter (cites_both a b) m)) =? 0);
        [discriminate|]. now injection G. }
    exists (map fst (filter (cites_both a b) m)).
    rewrite length_map, <- Hn.
    assert (H1 : 1 <= n) by exact (Hpos _ Hin).
    assert (H2 : n <= maxCount).
    { apply Hmax. unfold map_values. apply in_map_iff. now exists (a, b, n). }
    split; [apply cites_both_citers|]. split; [reflexivity|].
    split; [lia|]. split; [reflexivity|]. split; [|split; reflexivity].
    split.
    + unfold Rdiv. apply Rmult_lt_0_compat; [apply IZR_lt; lia|exact Hinv].
    + unfold Rdiv. apply Rmult_le_reg_r with (IZR maxCount); [apply IZR_lt; lia|].
      rewrite Rmult_assoc, Rinv_l, Rmult_1_r, Rmult_1_l.
      * now apply IZR_le.
      * apply not_0_IZR. lia.
  - intros Hne.
    assert (Hex : exists kc, In kc pc /\ snd kc = maxCount).
    { destruct (fold_max_attained (map_values pc) 1) as [H|H]; fold maxCount in H.
      - destruct pc as [|kc rest] eqn:E; [now simpl in Hne|].
        exists kc. split; [now left|].
        assert (H1 : 1 <= snd kc) by (apply Hpos; now left).
        assert (H2 : snd kc <= maxCount).
        { apply Hmax. unfold map_values. simpl. now left. }
        lia.
      - unfold map_values in H. apply in_map_iff in H.
        destruct H as [kc [H1 H2]]. now exists kc. }
    destruct Hex as [kc [Hin Hkc]].
    eexists. split; [apply in_map_iff; exists kc; split; [reflexivity|exact Hin]|].
    simpl. rewrite Hkc. split; [reflexivity|].
    unfold Rdiv. apply Rinv_r. apply not_0_IZR. lia.
Qed.

(** X11. [computeBibCoupling] has an edge between [a] and [b], in one
    direction or the other, exactly when they are two different papers
    that both cite some paper. *)
Theorem computeBibCoupling_pairs (edges : list Edge) (a b : Z) :
  (exists e, In e (computeBibCoupling edges)
             /\ ((src_paper_id e = a /\ dst_paper_id e = b)
                 \/ (src_paper_id e = b /\ dst_paper_id e = a)))
  <-> a <> b /\ exists r, cites_in edges a r /\ cites_in edges b r.
Proof. apply bibCoupling_pairs. Qed.

(** X12. The weight of every BIB_COUPLED edge is the number of references
    that its two papers share, which is at least 1, divided by the size of
    the smaller of their two reference sets, so it is in (0, 1]; the
    provenance records the number shared and the sizes of the reference
    sets of the source and of the target, and the confidence is 1. *)
Theorem computeBibCoupling_weights (edges : list Edge) (e : Edge) :
  In e (computeBibCoupling edges) ->
  exists referencesA referencesB,
    references_of edges (src_paper_id e) referencesA
    /\ references_of edges (dst_paper_id e) referencesB
    /\ provenance_json e
       = ProvBibCoupling (shared referencesA referencesB)
           (Z.of_nat (List.length referencesA))
           (Z.of_nat (List.length referencesB))
    /\ 1 <= shared referencesA referencesB
         <= Z.min (Z.of_nat (List.length referencesA))
                  (Z.of_nat (List.length referencesB))
    /\ weight e
       = (IZR (shared referencesA referencesB)
          / IZR (Z.min (Z.of_nat (List.length referencesA))
                       (Z.of_nat (List.length referencesB))))%R
    /\ (0 < weight e <= 1)%R
    /\ confidence e = 1%R /\ created_by e = algo.
Proof.
  pose proof (group_refs_ok (citesEdges edges)) as Hok.
  unfold computeBibCoupling. cbv zeta.
  set (m := group_refs (citesEdges edges)) in *. intros He.
  destruct (couple_all_weights m (map_keys m) e He) as [pa [pb [-> Hov]]].
  pose proof (overlap_le (refs_of m pa) (refs_of m pb) (refs_of_nodup m pa Hok))
    as Hle.
  assert (H0 : 0 <= overlap_size (refs_of m pa) (refs_of m pb))
    by (unfold overlap_size; lia).
  exists (refs_of m pa), (refs_of m pb).
  change (shared (refs_of m pa) (refs_of m pb))
    with (overlap_size (refs_of m pa) (refs_of m pb)).
  change (Z.of_nat (List.length (refs_of m pa))) with (set_size (refs_of m pa)).
  change (Z.of_nat (List.length (refs_of m pb))) with (set_size (refs_of m pb)).
  set (ov := overlap_size (refs_of m pa) (refs_of m pb)) in *.
  set (mn := Z.min (set_size (refs_of m pa)) (set_size (refs_of m pb))) in *.
  assert (Hinv : (0 < / IZR mn)%R).
  { apply Rinv_0_lt_compat. apply IZR_lt. lia. }
  cbn [src_paper_id dst_paper_id provenance_json weight confidence created_by].
  split; [split; [now apply refs_of_nodup|intros r; apply group_refs_refs]|].
  split; [split; [now apply refs_of_nodup|intros r; apply group_refs_refs]|].
  split; [reflexivity|]. split; [lia|]. split; [reflexivity|].
  split; [|split; reflexivity]. split.
  - unfold Rdiv. apply Rmult_lt_0_compat; [apply IZR_lt; lia|exact Hinv].
  - unfold Rdiv. apply Rmult_le_reg_r with (IZR mn); [apply IZR_lt; lia|].
    rewrite Rmult_assoc, Rinv_l, Rmult_1_r, Rmult_1_l.
    + now apply IZR_le.
    + apply not_0_IZR. lia.
Qed.

End CitationTheorems.

Module AnalyticEdgeTheorems.
Import Js Types TfIdf Similarity Algorithms AlgorithmsSpec AnalyticEdgeFacts
       CitationFacts CoCitationKeysFacts DirectionFacts.
Local Open Scope Z_scope.

(** C1, as the code has it. In the output of each of [computeCoCitation],
    [computeBibCoupling] and [buildSimilarityEdges] every unordered pair of
    papers appears in at most one edge, and the edges carry the type of
    their function; for [computeCoCitation], with its string keys, this is
    for CITES edges whose cited ids are not negative.  Every CO_CITED edge
    has [src < dst].  A BIB_COUPLED edge has [src <> dst] and goes from the
    paper that cites first in the list of CITES edges to the one that
    cites later.  A SIMILAR_TEXT edge goes from the paper whose neighbours
    are being listed to one of these neighbours.  For the last two types
    [src] may be the larger id. *)
Theorem symmetric_edges_once_per_pair :
  (forall edges,
     Forall (fun e => 0 <= dst_paper_id e) (citesEdges edges) ->
     NoDup (map (fun e => pairKey (src_paper_id e) (dst_paper_id e))
                (CoCitationKeys.computeCoCitation edges))
     /\ Forall (fun e => src_paper_id e < dst_paper_id e /\ type e = CO_CITED)
               (CoCitationKeys.computeCoCitation edges))
  /\ (forall edges,
        NoDup (map (fun e => pairKey (src_paper_id e) (dst_paper_id e))
                   (computeBibCoupling edges))
        /\ Forall (fun e => src_paper_id e <> dst_paper_id e
                            /\ type e = BIB_COUPLED
                            /\ cites_first edges (src_paper_id e)
                                 (dst_paper_id e))
                  (computeBibCoupling edges))
  /\ (forall paperIdMap corpus topK threshold,
        NoDup (map (fun e => pairKey (src_paper_id e) (dst_paper_id e))
                   (buildSimilarityEdges paperIdMap corpus topK threshold))
        /\ Forall (fun e =>
                     type e = SIMILAR_TEXT
                     /\ exists sourceId neighbor,
                          In (sourceId, src_paper_id e) paperIdMap
                          /\ In neighbor
                               (findTopKSimilar sourceId corpus topK threshold)
                          /\ map_get String.eqb paperIdMap (fst neighbor)
                             = Some (dst_paper_id e))
                  (buildSimilarityEdges paperIdMap corpus topK threshold)).
Proof.
  split; [|split].
  - intros edges Hids. rewrite (computeCoCitation_keys edges Hids).
    unfold computeCoCitation.
    destruct (count_pairs_ok _ (group_refs_ok (citesEdges edges))) as [Hk Hlt].
    set (pc := count_pairs (group_refs (citesEdges edges))) in *.
    split.
    + rewrite map_map. simpl.
      assert (E : map (fun kc : Z * Z * Z =>
                         pairKey (fst (fst kc)) (snd (fst kc))) pc
                  = map fst pc).
      { apply map_ext_in. intros [[a b] c] Hin.
        rewrite Forall_forall in Hlt. specialize (Hlt _ Hin). simpl in *.
        unfold pairKey. f_equal; lia. }
      rewrite E. exact Hk.
    + apply Forall_forall. intros e Hin.
      apply in_map_iff in Hin. destruct Hin as [kc [<- Hin]]. simpl.
      rewrite Forall_forall in Hlt. split; [now apply Hlt|reflexivity].
  - intros edges.
    split.
    + unfold computeBibCoupling.
      destruct (group_refs_ok (citesEdges edges)) as [Hk _].
      now apply couple_all_keys.
    + apply Forall_forall. intros e Hin.
      pose proof (bibCoupling_direction edges e Hin) as Hdir.
      unfold computeBibCoupling in Hin.
      destruct (group_refs_ok (citesEdges edges)) as [Hk _].
      apply couple_all_edges in Hin; [|exact Hk]. tauto.
  - intros paperIdMap corpus topK threshold.
    destruct (similarity_pairs_ok paperIdMap corpus topK threshold)
      as [Hmap [Hnd Hty]].
    split; [unfold buildSimilarityEdges; rewrite Hmap; exact Hnd|].
    apply Forall_forall. intros e Hin. split.
    + unfold buildSimilarityEdges in Hin. rewrite Forall_forall in Hty.
      now apply Hty.
    + destruct (similarity_direction paperIdMap corpus topK threshold e Hin)
        as [sourceId [neighbor [H1 [H2 [H3 _]]]]].
      exists sourceId, neighbor. auto.
Qed.

(** C1, as stated, fails: from the CITES edges [5 -> 1] and [3 -> 1],
    [computeBibCoupling] emits the BIB_COUPLED edge from 5 to 3; and for
    three documents alike, with ids 1, 2, 3 in this order and one neighbour
    per paper, [buildSimilarityEdges] emits the SIMILAR_TEXT edge from 3
    to 1. *)
Lemma symmetric_edges_not_ordered :
  (exists e,
     In e (computeBibCoupling coupling_example)
     /\ type e = BIB_COUPLED
     /\ ~ (src_paper_id e < dst_paper_id e))
  /\ (exists e,
        In e (buildSimilarityEdges ids_ascending three_alike 1 (25 / 100)%R)
        /\ type e = SIMILAR_TEXT
        /\ ~ (src_paper_id e < dst_paper_id e)).
Proof.
  split.
  - exists (mkEdge None 5 3 BIB_COUPLED (IZR 1 / IZR (Z.min 1 1))%R 1%R None
                   None algo (ProvBibCoupling 1 1 1)).
    split; [vm_compute; left; reflexivity|].
    split; [reflexivity|]. simpl. lia.
  - pose proof three_alike_edges as H.
    destruct (buildSimilarityEdges ids_ascending three_alike 1 (25 / 100)%R)
      as [|e1 [|e2 [|e3 rest]]]; try discriminate.
    simpl in H. injection H; intros. exists e2.
    split; [right; now left|]. split; [assumption|lia].
Qed.

End AnalyticEdgeTheorems.

(* ------------------------------------------------------------------ *)
(** ** The graph handed to the clustering *)
(* ------------------------------------------------------------------ *)

Module GraphFacts.
Import Js Types Algorithms AlgorithmsSpec.
Local Open Scope Z_scope.

Lemma add_nodes_thrown (papers : list Paper) :
  fold_left
    (fun og p =>
       match og, paper_id p with
       | Some g, Some id => addNode g id
       | _, _ => og
       end) papers None = None.
Proof. induction papers as [|p papers IH]; simpl; [reflexivity|exact IH]. Qed.

(** Adding the nodes succeeds when no node is added twice, and throws
    otherwise. *)
Lemma add_nodes_from (papers : list Paper) (g : Graph) :
  NoDup (nodes g) ->
  fold_left
    (fun og p =>
       match og, paper_id p with
       | Some g, Some id => addNode g id
       | _, _ => og
       end) papers (Some g)
  = if ListDec.NoDup_dec Z.eq_dec (nodes g ++ paper_ids papers)
    then Some (mkGraph (nodes g ++ paper_ids papers) (arcs g))
    else None.
Proof.
  revert g. induction papers as [|p papers IH]; intros g Hg.
  - simpl. rewrite app_nil_r.
    destruct (ListDec.NoDup_dec Z.eq_dec (nodes g)); [now destruct g|contradiction].
  - cbn [fold_left]. unfold paper_ids. cbn [flat_map]. fold (paper_ids papers).
    destruct (paper_id p) as [id|]; [|now apply IH].
    unfold addNode, hasNode. destruct (set_has Z.eqb (nodes g) id) eqn:E.
    + rewrite add_nodes_thrown.
      destruct (ListDec.NoDup_dec Z.eq_dec (nodes g ++ ([id] ++ paper_ids papers)))
        as [H|H]; [exfalso|reflexivity].
      apply (set_has_true _ Z.eqb Z.eqb_eq) in E.
      apply NoDup_remove_2 in H. apply H. apply in_or_app. now left.
    + apply (set_has_false _ Z.eqb Z.eqb_eq) in E.
      rewrite IH by (apply NoDup_snoc; assumption). simpl nodes. simpl arcs.
      rewrite <- !app_assoc. reflexivity.
Qed.

Lemma add_paper_nodes_result (papers : list Paper) :
  add_paper_nodes papers
  = if ListDec.NoDup_dec Z.eq_dec (paper_ids papers)
    then Some (mkGraph (paper_ids papers) [])
    else None.
Proof.
  unfold add_paper_nodes. rewrite add_nodes_from by constructor. reflexivity.
Qed.

Lemma add_edges_thrown (allowSelfLoops : bool) (edges : list Edge) :
  add_edges allowSelfLoops edges None = None.
Proof.
  unfold add_edges. induction edges as [|e edges IH]; simpl; [reflexivity|exact IH].
Qed.

Lemma hasEdge_no_loop (g : Graph) (a : Z) :
  (forall arc, In arc (arcs g) -> fst (fst arc) <> snd (fst arc)) ->
  hasEdge g a a = false.
Proof.
  intros H. unfold hasEdge.
  destruct (existsb (fun arc => pair_eqb (fst arc) (a, a)) (arcs g)) eqn:E;
    [|reflexivity].
  apply existsb_exists in E. destruct E as [arc [Hin Heq]].
  apply pair_eqb_eq in Heq. specialize (H arc Hin). rewrite Heq in H. now simpl in H.
Qed.

Lemma add_edges_cons (allowSelfLoops : bool) (e : Edge) (edges : list Edge)
    (g : Graph) :
  add_edges allowSelfLoops (e :: edges) (Some g)
  = add_edges allowSelfLoops edges
      (if hasNode g (src_paper_id e) && hasNode g (dst_paper_id e)
          && negb (hasEdge g (src_paper_id e) (dst_paper_id e))
       then addEdge allowSelfLoops g (src_paper_id e) (dst_paper_id e) (weight e)
       else Some g).
Proof. reflexivity. Qed.

(** In a graph without self-loops, the first self-loop between stored
    nodes makes [addEdge] throw; without one every edge is added or
    skipped. *)
Lemma add_edges_no_loops (edges : list Edge) (g : Graph) :
  (forall arc, In arc (arcs g) -> fst (fst arc) <> snd (fst arc)) ->
  if existsb (fun e => (src_paper_id e =? dst_paper_id e)
                       && hasNode g (src_paper_id e)) edges
  then add_edges false edges (Some g) = None
  else exists g', add_edges false edges (Some g) = Some g'
                  /\ nodes g' = nodes g.
Proof.
  revert g. induction edges as [|e edges IH]; intros g Hg.
  - simpl. now exists g.
  - cbn [existsb]. rewrite add_edges_cons.
    destruct (src_paper_id e =? dst_paper_id e) eqn:Eloop.
    + apply Z.eqb_eq in Eloop. rewrite <- Eloop.
      destruct (hasNode g (src_paper_id e)) eqn:En.
      * cbn [andb orb]. rewrite (hasEdge_no_loop g _ Hg). cbn [negb andb].
        unfold addEdge. rewrite Z.eqb_refl. cbn [negb andb].
        apply add_edges_thrown.
      * cbn [andb orb]. now apply IH.
    + cbn [andb orb].
      destruct (hasNode g (src_paper_id e) && hasNode g (dst_paper_id e)
                && negb (hasEdge g (src_paper_id e) (dst_paper_id e)));
        [|now apply IH].
      unfold addEdge. rewrite Eloop. cbn [negb andb].
      specialize (IH (mkGraph (nodes g)
                        (arcs g ++ [(src_paper_id e, dst_paper_id e, weight e)]))).
      unfold hasNode in *. simpl nodes in IH. apply IH. simpl arcs. intros arc Harc.
      apply in_app_or in Harc. destruct Harc as [Harc|[<-|[]]]; [now apply Hg|].
      simpl. now apply Z.eqb_neq.
Qed.

End GraphFacts.

Module GraphTheorems.
Import Js Types Algorithms AlgorithmsSpec GraphFacts.
Local Open Scope Z_scope.

(** X13. [computeLouvainClusters] throws exactly when two papers have the
    same id (the node is added twice) or some edge is a self-loop on a
    paper of the list: its graph is built with [allowSelfLoops: false] and
    the loop is handed to [addEdge].  Every other edge is added or
    skipped, and the Louvain routine of the library, given a graph, returns
    its communities. *)
Theorem computeLouvainClusters_throws (lib : GraphLibrary) (papers : list Paper)
    (edges : list Edge) :
  computeLouvainClusters lib papers edges = None
  <-> ~ NoDup (paper_ids papers)
      \/ exists e, In e edges /\ src_paper_id e = dst_paper_id e
                   /\ In (src_paper_id e) (paper_ids papers).
Proof.
  unfold computeLouvainClusters. rewrite add_paper_nodes_result.
  destruct (ListDec.NoDup_dec Z.eq_dec (paper_ids papers)) as [Hnd|Hnd].
  - pose proof (add_edges_no_loops edges (mkGraph (paper_ids papers) [])) as H.
    unfold hasNode in H. simpl in H.
    specialize (H (fun arc (F : False) => match F with end)).
    destruct (existsb _ edges) eqn:E.
    + rewrite H. split; [intros _|reflexivity]. right.
      apply existsb_exists in E. destruct E as [e [He Hc]].
      apply andb_true_iff in Hc. destruct Hc as [H1 H2].
      apply Z.eqb_eq in H1. apply (set_has_true _ Z.eqb Z.eqb_eq) in H2.
      now exists e.
    + destruct H as [g' [-> Hg']]. split.
      * destruct (List.length (nodes g') =? 0)%nat; discriminate.
      * intros [H|[e [He [H1 H2]]]]; [contradiction|exfalso].
        assert (Ht : existsb
                       (fun e => (src_paper_id e =? dst_paper_id e)
                                 && set_has Z.eqb (paper_ids papers) (src_paper_id e))
                       edges = true).
        { apply existsb_exists. exists e. split; [exact He|].
          apply andb_true_iff. split; [now apply Z.eqb_eq|].
          now apply (set_has_true _ Z.eqb Z.eqb_eq). }
        congruence.
  - rewrite add_edges_thrown. split; [now left|reflexivity].
Qed.

End GraphTheorems.

(* ------------------------------------------------------------------ *)
(** ** The store: inserting and looking up *)
(* ------------------------------------------------------------------ *)

Module StoreFacts.
Import Js Types Database DatabaseSpec DatabaseFacts.
Local Open Scope Z_scope.

Lemma find_app_some (A : Type) (f : A -> bool) (l l' : list A) (x : A) :
  find f l = Some x -> find f (l ++ l') = Some x.
Proof.
  induction l as [|a l IH]; simpl; [discriminate|].
  destruct (f a); [trivial|exact IH].
Qed.

Lemma find_app_none (A : Type) (f : A -> bool) (l l' : list A) :
  find f l = None -> find f (l ++ l') = find f l'.
Proof.
  induction l as [|a l IH]; simpl; [reflexivity|].
  destruct (f a); [discriminate|exact IH].
Qed.

Lemma same_key_self (p : Paper) (id : option Z) :
  same_key (source p) (source_id p) (with_paper_id p id) = true.
Proof. apply same_key_true. split; reflexivity. Qed.

(** A new rowid is positive and above every rowid in use. *)
Lemma next_rowid_above (ids : list (option Z)) :
  1 <= next_rowid ids /\ forall i, In (Some i) ids -> i < next_rowid ids.
Proof.
  unfold next_rowid.
  assert (H : forall m,
            m <= fold_left (fun m id => match id with
                                        | Some i => Z.max m i
                                        | None => m
                                        end) ids m
            /\ forall i, In (Some i) ids ->
                 i <= fold_left (fun m id => match id with
                                             | Some i => Z.max m i
                                             | None => m
                                             end) ids m).
  { induction ids as [|[j|] ids IH]; intros m; simpl.
    - split; [lia|intros i []].
    - destruct (IH (Z.max m j)) as [H1 H2]. split; [lia|].
      intros i [[= ->]|Hi]; [lia|now apply H2].
    - destruct (IH m) as [H1 H2]. split; [exact H1|].
      intros i [Hi|Hi]; [discriminate|now apply H2]. }
  destruct (H 0) as [H1 H2]. split; [lia|].
  intros i Hi. specialize (H2 i Hi). lia.
Qed.

(** The two outcomes of [INSERT OR IGNORE]. *)
Lemma insert_or_ignore_cases (db : Store) (p : Paper) :
  (exists row, getPaperBySourceId db (source p) (source_id p) = Some row
               /\ insert_or_ignore db p = (db, None))
  \/ (getPaperBySourceId db (source p) (source_id p) = None
      /\ insert_or_ignore db p
         = (set_papers db
              (papers db
               ++ [with_paper_id p (Some (next_rowid (map paper_id (papers db))))])
              (next_rowid (map paper_id (papers db))),
            Some (next_rowid (map paper_id (papers db))))).
Proof.
  unfold insert_or_ignore.
  destruct (getPaperBySourceId db (source p) (source_id p)) as [row|].
  - left. now exists row.
  - right. split; reflexivity.
Qed.

Lemma insert_or_ignore_lookup (db : Store) (p : Paper) :
  exists row,
    getPaperBySourceId (fst (insert_or_ignore db p)) (source p) (source_id p)
    = Some row
    /\ match snd (insert_or_ignore db p) with
       | Some id => paper_id row = Some id
                    /\ getPaperBySourceId db (source p) (source_id p) = None
       | None => getPaperBySourceId db (source p) (source_id p) = Some row
       end.
Proof.
  destruct (insert_or_ignore_cases db p) as [[row [H ->]]|[H ->]].
  - exists row. split; assumption.
  - exists (with_paper_id p (Some (next_rowid (map paper_id (papers db))))).
    split; [|split; [reflexivity|exact H]].
    unfold getPaperBySourceId in *. simpl.
    rewrite (find_app_none _ _ _ _ H). simpl. rewrite same_key_self. reflexivity.
Qed.

Lemma insert_or_ignore_stable (db : Store) (p : Paper) (src sid : string)
    (row : Paper) :
  getPaperBySourceId db src sid = Some row ->
  getPaperBySourceId (fst (insert_or_ignore db p)) src sid = Some row.
Proof.
  intros H. destruct (insert_or_ignore_cases db p) as [[r [_ ->]]|[_ ->]];
    [exact H|].
  unfold getPaperBySourceId in *. simpl. now apply find_app_some.
Qed.

(** The pushed ids, apart from the accumulator. *)
Lemma insertPapers_acc (ps : list Paper) (db : Store) (ids0 : list (option Z)) :
  fold_left
    (fun (st : Store * list (option Z)) p =>
       let (db', ids) := st in
       match insert_or_ignore db' p with
       | (db'', Some id) => (db'', ids ++ [Some id])
       | (db'', None) =>
           match getPaperBySourceId db'' (source p) (source_id p) with
           | Some existing => (db'', ids ++ [paper_id existing])
           | None => (db'', ids)
           end
       end)
    ps (db, ids0)
  = (fst (insertPapers db ps), ids0 ++ snd (insertPapers db ps)).
Proof.
  unfold insertPapers. revert db ids0.
  induction ps as [|p ps IH]; intros db ids0.
  - simpl. now rewrite app_nil_r.
  - cbn [fold_left]. destruct (insert_or_ignore db p) as [db'' [id|]].
    + rewrite IH, (IH db'' ([] ++ [Some id])). simpl.
      now rewrite <- app_assoc.
    + destruct (getPaperBySourceId db'' (source p) (source_id p)) as [ex|].
      * rewrite IH, (IH db'' ([] ++ [paper_id ex])). simpl.
        now rewrite <- app_assoc.
      * rewrite IH, (IH db'' []). reflexivity.
Qed.

(** One paper: the store after [INSERT OR IGNORE], and the id of the row
    that now has the paper's key. *)
Lemma insertPapers_one (db : Store) (p : Paper) :
  exists row,
    insertPapers db [p] = (fst (insert_or_ignore db p), [paper_id row])
    /\ getPaperBySourceId (fst (insert_or_ignore db p)) (source p) (source_id p)
       = Some row.
Proof.
  destruct (insert_or_ignore_lookup db p) as [row [Hrow Hcase]].
  exists row. split; [|exact Hrow].
  unfold insertPapers. cbn [fold_left].
  destruct (insert_or_ignore db p) as [db'' [id|]]; simpl in *.
  - destruct Hcase as [-> _]. reflexivity.
  - rewrite Hrow. reflexivity.
Qed.

Lemma insertPapers_cons (db : Store) (p : Paper) (ps : list Paper) :
  insertPapers db (p :: ps)
  = (fst (insertPapers (fst (insert_or_ignore db p)) ps),
     snd (insertPapers db [p])
     ++ snd (insertPapers (fst (insert_or_ignore db p)) ps)).
Proof.
  unfold insertPapers. cbn [fold_left].
  destruct (insert_or_ignore db p) as [db'' [id|]]; cbn [fst snd].
  - pose proof (insertPapers_acc ps db'' ([] ++ [Some id])) as A.
    unfold insertPapers in A. rewrite A. reflexivity.
  - destruct (getPaperBySourceId db'' (source p) (source_id p)) as [ex|].
    + pose proof (insertPapers_acc ps db'' ([] ++ [paper_id ex])) as A.
      unfold insertPapers in A. rewrite A. reflexivity.
    + pose proof (insertPapers_acc ps db'' []) as A.
      unfold insertPapers in A. rewrite A. reflexivity.
Qed.

Lemma insertPapers_stable (ps : list Paper) (db : Store) (src sid : string)
    (row : Paper) :
  getPaperBySourceId db src sid = Some row ->
  getPaperBySourceId (fst (insertPapers db ps)) src sid = Some row.
Proof.
  revert db. induction ps as [|p ps IH]; intros db H; [exact H|].
  rewrite insertPapers_cons. cbn [fst]. apply IH.
  now apply insert_or_ignore_stable.
Qed.

(** One id per paper, each the id of the row found under the paper's
    key. *)
Lemma insertPapers_lookup (ps : list Paper) (db : Store) :
  Forall2
    (fun p id =>
       exists row,
         getPaperBySourceId (fst (insertPapers db ps)) (source p) (source_id p)
         = Some row
         /\ id = paper_id row)
    ps (snd (insertPapers db ps)).
Proof.
  revert db. induction ps as [|p ps IH]; intros db; [constructor|].
  rewrite insertPapers_cons. cbn [fst snd].
  destruct (insertPapers_one db p) as [row [-> Hrow]]. cbn [snd app].
  constructor; [|apply IH].
  exists row. split; [|reflexivity]. now apply insertPapers_stable.
Qed.

(** Papers that are all stored already leave the store as it is. *)
Lemma insertPapers_present (ps : list Paper) (db : Store) :
  (forall p, In p ps ->
     getPaperBySourceId db (source p) (source_id p) <> None) ->
  fst (insertPapers db ps) = db.
Proof.
  induction ps as [|p ps IH]; intros H; [reflexivity|].
  rewrite insertPapers_cons. cbn [fst].
  destruct (insert_or_ignore_cases db p) as [[row [_ ->]]|[Hnone _]].
  - cbn [fst]. apply IH. intros q Hq. apply H. now right.
  - exfalso. apply (H p); [now left|exact Hnone].
Qed.

Lemma Forall2_functional (A B : Type) (R : A -> B -> Prop) (l : list A)
    (l1 l2 : list B) :
  (forall a b1 b2, R a b1 -> R a b2 -> b1 = b2) ->
  Forall2 R l l1 -> Forall2 R l l2 -> l1 = l2.
Proof.
  intros Hf H1. revert l2. induction H1 as [|a b l l1 Hab H1 IH]; intros l2 H2.
  - now inversion H2.
  - inversion H2 as [|? b2 ? l2' Hab2 H2']; subst. f_equal.
    + now apply Hf with a.
    + now apply IH.
Qed.

Lemma Forall2_in_l (A B : Type) (R : A -> B -> Prop) (l : list A) (l' : list B)
    (a : A) :
  Forall2 R l l' -> In a l -> exists b, In b l' /\ R a b.
Proof.
  induction 1 as [|x y l l' Hxy H IH]; [intros []|].
  intros [<-|Hin].
  - exists y. split; [now left|exact Hxy].
  - destruct (IH Hin) as [b [Hb Hab]]. exists b. split; [now right|exact Hab].
Qed.

(** *** The schema invariants *)

Lemma key_not_stored (db : Store) (p : Paper) :
  getPaperBySourceId db (source p) (source_id p) = None ->
  ~ In (key_of p) (paper_keys db).
Proof.
  unfold getPaperBySourceId, paper_keys. intros H Hin.
  apply in_map_iff in Hin. destruct Hin as [row [Hk Hrow]].
  apply (find_none _ _ H) in Hrow.
  assert (E : same_key (source p) (source_id p) row = true).
  { apply same_key_true. unfold key_of in Hk. now injection Hk. }
  congruence.
Qed.

Lemma insert_or_ignore_well_formed (db : Store) (p : Paper) :
  well_formed db -> well_formed (fst (insert_or_ignore db p)).
Proof.
  intros [Hk [Hi Ha]].
  destruct (insert_or_ignore_cases db p) as [[row [_ ->]]|[Hnone ->]];
    [now repeat split|].
  cbn [fst]. unfold well_formed, paper_keys. simpl.
  destruct (next_rowid_above (map paper_id (papers db))) as [_ Habove].
  rewrite !map_app. simpl. repeat split.
  - apply NoDup_snoc; [exact Hk|]. now apply key_not_stored.
  - apply NoDup_snoc; [exact Hi|]. intros Hin. specialize (Habove _ Hin). lia.
  - apply Forall_app. split; [exact Ha|]. repeat constructor.
    eexists. reflexivity.
Qed.

Lemma insertPapers_well_formed (ps : list Paper) (db : Store) :
  well_formed db -> well_formed (fst (insertPapers db ps)).
Proof.
  revert db. induction ps as [|p ps IH]; intros db H; [exact H|].
  rewrite insertPapers_cons. cbn [fst]. apply IH.
  now apply insert_or_ignore_well_formed.
Qed.

Lemma update_conflicting_ids (rows : list Paper) (q : Paper) :
  map paper_id (update_conflicting rows q) = map paper_id rows.
Proof.
  unfold update_conflicting. rewrite map_map. apply map_ext.
  intros a. now destruct (same_key (source q) (source_id q) a).
Qed.

Lemma upsertPaper_well_formed (db : Store) (p : Paper) :
  well_formed db -> well_formed (fst (upsertPaper db p)).
Proof.
  intros H. unfold well_formed, paper_keys. rewrite upsert_papers.
  destruct (getPaperBySourceId db (source p) (source_id p)) as [old|] eqn:G.
  - destruct H as [Hk [Hi Ha]].
    rewrite update_conflicting_keys, update_conflicting_ids.
    repeat split; try assumption.
    unfold update_conflicting. apply Forall_map.
    eapply Forall_impl; [|exact Ha]. intros row [i Hrow]. exists i.
    now destruct (same_key (source p) (source_id p) row).
  - pose proof (insert_or_ignore_well_formed db p H) as H'.
    destruct (insert_or_ignore_cases db p) as [[row [Hrow _]]|[_ E]];
      [congruence|].
    rewrite E in H'. exact H'.
Qed.

(** *** Edges *)

Lemma insertEdges_snoc (db : Store) (es : list Edge) (e : Edge) :
  insertEdges db (es ++ [e])
  = set_edges (insertEdges db es)
      (edges (insertEdges db es)
       ++ [with_edge_id e (Some (next_rowid (map edge_id (edges (insertEdges db es)))))])
      (next_rowid (map edge_id (edges (insertEdges db es)))).
Proof. unfold insertEdges. now rewrite fold_left_app. Qed.

Lemma insertEdges_rows (es : list Edge) (db : Store) :
  map (fun e => with_edge_id e None) (edges (insertEdges db es))
  = map (fun e => with_edge_id e None) (edges db)
    ++ map (fun e => with_edge_id e None) es.
Proof.
  induction es as [|e es IH] using rev_ind.
  - simpl. now rewrite app_nil_r.
  - rewrite insertEdges_snoc. simpl. rewrite !map_app, IH, <- app_assoc.
    reflexivity.
Qed.

Lemma insertEdges_ids (es : list Edge) (db : Store) :
  NoDup (map edge_id (edges db)) ->
  NoDup (map edge_id (edges (insertEdges db es))).
Proof.
  intros H. induction es as [|e es IH] using rev_ind; [exact H|].
  rewrite insertEdges_snoc. simpl. rewrite map_app. simpl.
  apply NoDup_snoc; [exact IH|]. intros Hin.
  destruct (next_rowid_above (map edge_id (edges (insertEdges db es)))) as [_ Ha].
  specialize (Ha _ Hin). lia.
Qed.

(** *** Counting by type *)

Lemma count_by_type_snoc (es : list Edge) (e : Edge) :
  count_by_type (es ++ [e])
  = map_set EdgeType_beq (count_by_type es) (type e)
      (match map_get EdgeType_beq (count_by_type es) (type e) with
       | Some n => n + 1
       | None => 1
       end).
Proof. unfold count_by_type. now rewrite fold_left_app. Qed.

Lemma EdgeType_beq_true (x y : EdgeType) : EdgeType_beq x y = true <-> x = y.
Proof. destruct x, y; split; intros H; reflexivity || discriminate. Qed.

Lemma count_by_type_get (es : list Edge) (t : EdgeType) :
  map_get EdgeType_beq (count_by_type es) t
  = if (List.length (filter (fun e => EdgeType_beq (type e) t) es) =? 0)%nat
    then None
    else Some (Z.of_nat
                 (List.length (filter (fun e => EdgeType_beq (type e) t) es))).
Proof.
  induction es as [|e es IH] using rev_ind; [reflexivity|].
  rewrite count_by_type_snoc, filter_app, length_app. simpl.
  destruct (EdgeType_beq (type e) t) eqn:E.
  - apply EdgeType_beq_true in E. subst t.
    rewrite (map_get_set_same _ _ EdgeType_beq EdgeType_beq_true), IH.
    simpl List.length.
    destruct (List.length (filter (fun e0 => EdgeType_beq (type e0) (type e)) es))
      as [|n]; simpl; [reflexivity|].
    replace (n + 1)%nat with (S n) by lia. simpl. f_equal. lia.
  - assert (Hne : t <> type e).
    { intros ->. rewrite (proj2 (EdgeType_beq_true _ _) eq_refl) in E. discriminate. }
    rewrite (map_get_set_other _ _ EdgeType_beq EdgeType_beq_true _ _ _ _ Hne), IH.
    simpl. now rewrite Nat.add_0_r.
Qed.

Lemma count_by_type_nodup (es : list Edge) : NoDup (map fst (count_by_type es)).
Proof.
  unfold count_by_type. apply fold_left_invariant; [constructor|].
  intros m e H _. apply map_set_nodup; [apply EdgeType_beq_true|exact H].
Qed.

End StoreFacts.

(** *** Foreign keys *)

Module ForeignKeysFacts.
Import Js Types Database DatabaseSpec ForeignKeys StoreFacts.
Local Open Scope Z_scope.

Lemma paper_exists_stored (db : Store) (id : Z) :
  paper_exists db id = true <-> In id (stored_ids db).
Proof.
  unfold paper_exists, stored_ids. rewrite existsb_exists, in_flat_map.
  split; intros [p [Hp H]]; exists p; (split; [exact Hp|]);
    destruct (paper_id p) as [i|].
  - apply Z.eqb_eq in H. now left.
  - discriminate.
  - destruct H as [->|[]]. apply Z.eqb_refl.
  - destruct H.
Qed.

Lemma insertEdges_none (es : list Edge) :
  fold_left
    (fun odb e =>
       match odb with
       | Some db' => run_insert_edge db' e
       | None => None
       end)
    es None = None.
Proof. induction es as [|e es IH]; [reflexivity|exact IH]. Qed.

Lemma insertEdges_keeps_papers (db : Store) (es : list Edge) :
  papers (Database.insertEdges db es) = papers db.
Proof.
  unfold Database.insertEdges. apply fold_left_invariant; [reflexivity|].
  intros s e Hs _. exact Hs.
Qed.

(** The insert with foreign keys goes through exactly when every edge joins
    two stored papers, and then stores what the insert without the check
    stores. *)
Lemma insertEdges_checked (es : list Edge) (db : Store) :
  ForeignKeys.insertEdges db es
  = if forallb (joins_stored db) es then Some (Database.insertEdges db es)
    else None.
Proof.
  revert db. induction es as [|e es IH]; intros db; [reflexivity|].
  unfold ForeignKeys.insertEdges. cbn [fold_left forallb].
  unfold run_insert_edge at 2. unfold joins_stored at 1.
  destruct (paper_exists db (src_paper_id e) && paper_exists db (dst_paper_id e)).
  - cbv zeta. fold (ForeignKeys.insertEdges
                 (set_edges db
                    (edges db ++ [with_edge_id e (Some (next_rowid (map edge_id (edges db))))])
                    (next_rowid (map edge_id (edges db)))) es).
    rewrite IH. reflexivity.
  - apply insertEdges_none.
Qed.

Lemma forallb_false (A : Type) (f : A -> bool) (l : list A) :
  forallb f l = false -> exists x, In x l /\ f x = false.
Proof.
  induction l as [|x l IH]; [discriminate|]. simpl.
  destruct (f x) eqn:E.
  - intros H. destruct (IH H) as [y [Hy Hf]]. exists y. auto.
  - intros _. exists x. auto.
Qed.

Lemma joins_stored_iff (db : Store) (e : Edge) :
  joins_stored db e = true
  <-> In (src_paper_id e) (stored_ids db) /\ In (dst_paper_id e) (stored_ids db).
Proof.
  unfold joins_stored. now rewrite andb_true_iff, !paper_exists_stored.
Qed.

End ForeignKeysFacts.

Module StoreTheorems.
Import Js Types Database DatabaseSpec DatabaseFacts StoreFacts ForeignKeysFacts.
Local Open Scope Z_scope.

(** X14. [insertPapers] returns one id per paper, in the order of the
    input, and each id is the [paper_id] of the row that
    [getPaperBySourceId] finds under the paper's source and source id in
    the store it leaves: the new row when the paper was inserted, the row
    already there when the insert was ignored. *)
Theorem insertPapers_lookup_ids (db : Store) (ps : list Paper) :
  List.length (snd (insertPapers db ps)) = List.length ps
  /\ Forall2
       (fun p id =>
          exists row,
            getPaperBySourceId (fst (insertPapers db ps)) (source p) (source_id p)
            = Some row
            /\ id = paper_id row)
       ps (snd (insertPapers db ps)).
Proof.
  pose proof (insertPapers_lookup ps db) as H. split; [|exact H].
  symmetry. exact (Forall2_length H).
Qed.

(** X15. [insertPapers] and [upsertPaper] keep the invariants of the
    papers table: no two rows with the same [(source, source_id)], no two
    rows with the same [paper_id], and every row has a [paper_id]. *)
Theorem writes_keep_store_well_formed (db : Store) (ps : list Paper) (p : Paper) :
  well_formed db ->
  well_formed (fst (insertPapers db ps)) /\ well_formed (fst (upsertPaper db p)).
Proof.
  intros H. split;
    [now apply insertPapers_well_formed|now apply upsertPaper_well_formed].
Qed.

(** X16. Inserting the same papers a second time changes nothing in the
    store and returns the same ids. *)
Theorem insertPapers_idempotent (db : Store) (ps : list Paper) :
  insertPapers (fst (insertPapers db ps)) ps = insertPapers db ps.
Proof.
  pose proof (insertPapers_lookup ps db) as H1.
  set (db1 := fst (insertPapers db ps)) in *.
  assert (Hfst : fst (insertPapers db1 ps) = db1).
  { apply insertPapers_present. intros p Hp.
    destruct (Forall2_in_l _ _ _ _ _ p H1 Hp) as [id [_ [row [Hrow _]]]].
    congruence. }
  pose proof (insertPapers_lookup ps db1) as H2. rewrite Hfst in H2.
  assert (Hsnd : snd (insertPapers db1 ps) = snd (insertPapers db ps)).
  { apply (Forall2_functional _ _ _ ps _ _) with (3 := H1); [|exact H2].
    intros a b1 b2 [r1 [Hr1 ->]] [r2 [Hr2 ->]]. congruence. }
  rewrite (surjective_pairing (insertPapers db1 ps)), Hfst, Hsnd.
  subst db1. symmetry. apply surjective_pairing.
Qed.

(** X17. [insertEdges], with the foreign keys of the edges table: when
    every edge joins two stored papers it appends the edges to the table in
    the order given, unchanged but for the [edge_id], gives each a fresh
    [edge_id], and leaves the papers alone; it goes through only then.
    Otherwise, for some edge that names a paper that is not stored, it
    throws, and the transaction leaves the store as it was. *)
Theorem insertEdges_appends (db : Store) (es : list Edge) :
  match ForeignKeys.insertEdges db es with
  | Some db' =>
      (forall e, In e es ->
         In (src_paper_id e) (stored_ids db)
         /\ In (dst_paper_id e) (stored_ids db))
      /\ map (fun e => with_edge_id e None) (edges db')
         = map (fun e => with_edge_id e None) (edges db)
           ++ map (fun e => with_edge_id e None) es
      /\ getEdgeCount db' = getEdgeCount db + Z.of_nat (List.length es)
      /\ (NoDup (map edge_id (edges db)) -> NoDup (map edge_id (edges db')))
      /\ papers db' = papers db
  | None =>
      exists e, In e es
                /\ ~ (In (src_paper_id e) (stored_ids db)
                      /\ In (dst_paper_id e) (stored_ids db))
  end.
Proof.
  rewrite insertEdges_checked.
  destruct (forallb (ForeignKeys.joins_stored db) es) eqn:E.
  - pose proof (insertEdges_rows es db) as H.
    split; [|split; [exact H|split; [|split]]].
    + intros e He. apply joins_stored_iff.
      rewrite forallb_forall in E. now apply E.
    + unfold getEdgeCount. apply (f_equal (@List.length _)) in H.
      rewrite length_app, !length_map in H. lia.
    + apply insertEdges_ids.
    + apply insertEdges_keeps_papers.
  - apply forallb_false in E. destruct E as [e [He Hf]].
    exists e. split; [exact He|]. intros H. apply joins_stored_iff in H.
    congruence.
Qed.

(** X18. The [edgesByType] of [getStats] lists each type that has an edge
    once, with the number of edges of that type, and no type without an
    edge. *)
Theorem getStats_edgesByType (db : Store) (t : EdgeType) :
  NoDup (map fst (edgesByType (getStats db)))
  /\ map_get EdgeType_beq (edgesByType (getStats db)) t
     = if edges_of_type db t =? 0 then None else Some (edges_of_type db t).
Proof.
  unfold getStats, edges_of_type. simpl. split; [apply count_by_type_nodup|].
  rewrite count_by_type_get.
  destruct (List.length (filter (fun e => EdgeType_beq (type e) t) (edges db)))
    as [|n]; reflexivity.
Qed.

(** X19. [upsertPaper] of a paper whose key is new returns the id of the
    row it inserts, under which the paper is then found.  On a conflict
    the statement inserts no row and [lastInsertRowid] still is the rowid
    of the last insert on the connection, whatever row that was; when it
    is not 0 it is what [upsertPaper] returns. *)
Theorem upsertPaper_returned_id (db : Store) (p : Paper) :
  (getPaperBySourceId db (source p) (source_id p) = None ->
   exists row,
     getPaperBySourceId (fst (upsertPaper db p)) (source p) (source_id p)
     = Some row
     /\ paper_id row = Some (snd (upsertPaper db p)))
  /\ (getPaperBySourceId db (source p) (source_id p) <> None ->
      last_insert_rowid db <> 0 ->
      snd (upsertPaper db p) = last_insert_rowid db).
Proof.
  unfold upsertPaper. cbv zeta. split.
  - intros Hnone. rewrite Hnone.
    destruct (insert_or_ignore_lookup db p) as [row [Hrow Hcase]].
    destruct (insert_or_ignore_cases db p) as [[r [Hr _]]|[_ E]]; [congruence|].
    rewrite E in *. cbn [fst snd] in *. destruct Hcase as [Hid _].
    destruct (next_rowid_above (map paper_id (papers db))) as [Hpos _].
    simpl last_insert_rowid.
    destruct (next_rowid (map paper_id (papers db)) =? 0) eqn:Z0;
      [apply Z.eqb_eq in Z0; lia|].
    cbn [negb fst snd]. exists row. split; assumption.
  - intros Hsome Hlast.
    destruct (getPaperBySourceId db (source p) (source_id p)); [|congruence].
    simpl last_insert_rowid. apply Z.eqb_neq in Hlast. rewrite Hlast. reflexivity.
Qed.

End StoreTheorems.

(* ------------------------------------------------------------------ *)
(** ** The traversal: edges and referential integrity *)
(* ------------------------------------------------------------------ *)

Module TraversalFacts.
Import Js Types Database DatabaseSpec DatabaseFacts StoreFacts Builder BuilderSpec
       BuilderFacts.
Local Open Scope Z_scope.

Lemma stored_ids_app (db : Store) (l1 l2 : list Paper) :
  papers db = l1 ++ l2 ->
  stored_ids db
  = flat_map (fun p => match paper_id p with Some id => [id] | None => [] end) l1
    ++ flat_map (fun p => match paper_id p with Some id => [id] | None => [] end) l2.
Proof. unfold stored_ids. intros ->. apply flat_map_app. Qed.

Lemma stored_ids_grow (db db' : Store) (i : Z) :
  (exists new, papers db' = papers db ++ new) ->
  In i (stored_ids db) -> In i (stored_ids db').
Proof.
  intros [new H] Hi. rewrite (stored_ids_app db' _ _ H).
  apply in_or_app. now left.
Qed.

Lemma stored_ids_in (db : Store) (row : Paper) (i : Z) :
  In row (papers db) -> paper_id row = Some i -> In i (stored_ids db).
Proof.
  intros Hrow Hid. unfold stored_ids. apply in_flat_map. exists row.
  split; [exact Hrow|]. rewrite Hid. now left.
Qed.

Lemma lookup_stored (db : Store) (src sid : string) (row : Paper) (i : Z) :
  getPaperBySourceId db src sid = Some row -> paper_id row = Some i ->
  In i (stored_ids db).
Proof.
  unfold getPaperBySourceId. intros H. apply find_some in H.
  apply stored_ids_in. tauto.
Qed.

Lemma insert_or_ignore_tables (db : Store) (p : Paper) :
  edges (fst (insert_or_ignore db p)) = edges db
  /\ runs (fst (insert_or_ignore db p)) = runs db
  /\ is_open (fst (insert_or_ignore db p)) = is_open db
  /\ exists new, papers (fst (insert_or_ignore db p)) = papers db ++ new.
Proof.
  destruct (insert_or_ignore_cases db p) as [[row [_ ->]]|[_ ->]]; cbn [fst].
  - repeat split. exists []. now rewrite app_nil_r.
  - repeat split. eexists. reflexivity.
Qed.

Lemma insertPapers_tables (ps : list Paper) (db : Store) :
  edges (fst (insertPapers db ps)) = edges db
  /\ runs (fst (insertPapers db ps)) = runs db
  /\ is_open (fst (insertPapers db ps)) = is_open db
  /\ exists new, papers (fst (insertPapers db ps)) = papers db ++ new.
Proof.
  revert db. induction ps as [|p ps IH]; intros db.
  - repeat split. exists []. simpl. now rewrite app_nil_r.
  - rewrite insertPapers_cons. cbn [fst].
    destruct (IH (fst (insert_or_ignore db p))) as [H1 [H2 [H3 [new H4]]]].
    destruct (insert_or_ignore_tables db p) as [H5 [H6 [H7 [new' H8]]]].
    rewrite H1, H2, H3, H4, H8. repeat split; try assumption.
    exists (new' ++ new). now rewrite app_assoc.
Qed.

(** *** One edge *)

Lemma emit_edge_new (st : Traversal) (src dst : Z) (source : string) (d : Z) :
  set_has pair_eqb (edgeSeen st) (src, dst) = false ->
  db (emit_edge st src dst source d)
  = insertEdges (db st) [cites_edge src dst source d]
  /\ edgeSeen (emit_edge st src dst source d) = edgeSeen st ++ [(src, dst)]
  /\ allEdges (emit_edge st src dst source d)
     = allEdges st ++ [cites_edge src dst source d].
Proof.
  intros E. unfold emit_edge, set_add. rewrite E. repeat split.
Qed.

Lemma emit_edge_ok (store : Store) (st : Traversal) (src dst : Z)
    (source : string) (d : Z) :
  traversal_ok store st -> traversal_ok store (emit_edge st src dst source d).
Proof.
  intros [H1 [H2 [H3 [H4 H5]]]].
  destruct (set_has pair_eqb (edgeSeen st) (src, dst)) eqn:E.
  - unfold emit_edge. rewrite E. repeat split; assumption.
  - destruct (emit_edge_new st src dst source d E) as [Edb [Eseen Eall]].
    apply (set_has_false _ pair_eqb pair_eqb_eq) in E.
    unfold traversal_ok. rewrite Edb, Eseen, Eall. repeat split.
    + rewrite map_app, H1. reflexivity.
    + apply NoDup_snoc; assumption.
    + apply Forall_app. split; [exact H3|]. repeat constructor.
      exists source, d. reflexivity.
    + rewrite insertEdges_rows, H4, <- app_assoc. reflexivity.
    + rewrite insertEdges_papers. exact H5.
Qed.

Lemma emit_edge_fields (st : Traversal) (src dst : Z) (source : string) (d : Z) :
  visited (emit_edge st src dst source d) = visited st
  /\ nextFrontier (emit_edge st src dst source d) = nextFrontier st
  /\ papers (db (emit_edge st src dst source d)) = papers (db st)
  /\ runs (db (emit_edge st src dst source d)) = runs (db st)
  /\ is_open (db (emit_edge st src dst source d)) = is_open (db st).
Proof.
  unfold emit_edge. destruct (set_has pair_eqb (edgeSeen st) (src, dst));
    repeat split.
Qed.

Lemma emit_edge_closed (st : Traversal) (src dst : Z) (source : string) (d : Z) :
  In src (stored_ids (db st)) -> In dst (stored_ids (db st)) ->
  edges_closed (db st) -> edges_closed (db (emit_edge st src dst source d)).
Proof.
  intros Hs Hd Hc. unfold emit_edge.
  destruct (set_has pair_eqb (edgeSeen st) (src, dst)); [exact Hc|].
  unfold edges_closed, stored_ids. simpl. intros e He.
  apply in_app_or in He. destruct He as [He|[<-|[]]]; [now apply Hc|].
  simpl. split; assumption.
Qed.

(** *** One reference *)

Lemma visit_reference_cases (config : PaperGraphConfig) (d : Z)
    (atCapacity : bool) (p : Paper) (pid : Z) (st : Traversal) (ref : Paper) :
  (exists row existingId,
     getPaperBySourceId (db st) (source ref) (source_id ref) = Some row
     /\ paper_id row = Some existingId
     /\ visit_reference config d atCapacity p pid st ref
        = emit_edge st pid existingId (source p) d)
  \/ visit_reference config d atCapacity p pid st ref = st
  \/ (getPaperCount (db st) < maxPapers config
      /\ exists row,
        getPaperBySourceId (fst (insertPapers (db st) [ref]))
          (source ref) (source_id ref) = Some row
        /\ ((exists refId,
              paper_id row = Some refId
              /\ visit_reference config d atCapacity p pid st ref
                 = mkTraversal
                     (db (emit_edge
                            (mkTraversal (fst (insertPapers (db st) [ref]))
                               (set_add String.eqb (visited st) (paper_key ref))
                               (edgeSeen st) (allEdges st) (nextFrontier st))
                            pid refId (source p) d))
                     (set_add String.eqb (visited st) (paper_key ref))
                     (edgeSeen (emit_edge
                            (mkTraversal (fst (insertPapers (db st) [ref]))
                               (set_add String.eqb (visited st) (paper_key ref))
                               (edgeSeen st) (allEdges st) (nextFrontier st))
                            pid refId (source p) d))
                     (allEdges (emit_edge
                            (mkTraversal (fst (insertPapers (db st) [ref]))
                               (set_add String.eqb (visited st) (paper_key ref))
                               (edgeSeen st) (allEdges st) (nextFrontier st))
                            pid refId (source p) d))
                     (nextFrontier st ++ [with_paper_id ref (Some refId)]))
            \/ visit_reference config d atCapacity p pid st ref
               = mkTraversal (fst (insertPapers (db st) [ref]))
                   (set_add String.eqb (visited st) (paper_key ref))
                   (edgeSeen st) (allEdges st) (nextFrontier st))).
Proof.
  assert (Hnew :
    (if negb (set_has String.eqb (visited st) (paper_key ref)) && negb atCapacity
        && (getPaperCount (db st) <? maxPapers config)
     then
       let (db', ids) := insertPapers (db st) [ref] in
       let st1 := mkTraversal db' (set_add String.eqb (visited st) (paper_key ref))
                              (edgeSeen st) (allEdges st) (nextFrontier st) in
       match ids with
       | Some refId :: _ =>
           let st2 := emit_edge st1 pid refId (source p) d in
           mkTraversal (db st2) (visited st2) (edgeSeen st2) (allEdges st2)
                       (nextFrontier st2 ++ [with_paper_id ref (Some refId)])
       | _ => st1
       end
     else st) = visit_reference config d atCapacity p pid st ref ->
    visit_reference config d atCapacity p pid st ref = st
    \/ (getPaperCount (db st) < maxPapers config
        /\ exists row,
          getPaperBySourceId (fst (insertPapers (db st) [ref]))
            (source ref) (source_id ref) = Some row
          /\ ((exists refId,
                paper_id row = Some refId
                /\ visit_reference config d atCapacity p pid st ref
                   = mkTraversal
                       (db (emit_edge
                              (mkTraversal (fst (insertPapers (db st) [ref]))
                                 (set_add String.eqb (visited st) (paper_key ref))
                                 (edgeSeen st) (allEdges st) (nextFrontier st))
                              pid refId (source p) d))
                       (set_add String.eqb (visited st) (paper_key ref))
                       (edgeSeen (emit_edge
                              (mkTraversal (fst (insertPapers (db st) [ref]))
                                 (set_add String.eqb (visited st) (paper_key ref))
                                 (edgeSeen st) (allEdges st) (nextFrontier st))
                              pid refId (source p) d))
                       (allEdges (emit_edge
                              (mkTraversal (fst (insertPapers (db st) [ref]))
                                 (set_add String.eqb (visited st) (paper_key ref))
                                 (edgeSeen st) (allEdges st) (nextFrontier st))
                              pid refId (source p) d))
                       (nextFrontier st ++ [with_paper_id ref (Some refId)]))
              \/ visit_reference config d atCapacity p pid st ref
                 = mkTraversal (fst (insertPapers (db st) [ref]))
                     (set_add String.eqb (visited st) (paper_key ref))
                     (edgeSeen st) (allEdges st) (nextFrontier st)))).
  { intros <-.
    destruct (negb (set_has String.eqb (visited st) (paper_key ref))
              && negb atCapacity
              && (getPaperCount (db st) <? maxPapers config)) eqn:C; [|now left].
    right. apply andb_true_iff in C. destruct C as [_ C]. apply Z.ltb_lt in C.
    split; [exact C|].
    destruct (insertPapers_one (db st) ref) as [row [E Hrow]].
    exists row. rewrite E. cbn [fst]. split; [exact Hrow|].
    destruct (paper_id row) as [refId|] eqn:Pid.
    - left. exists refId. split; [reflexivity|]. cbv zeta.
      destruct (emit_edge_fields
                  (mkTraversal (fst (insert_or_ignore (db st) ref))
                     (set_add String.eqb (visited st) (paper_key ref))
                     (edgeSeen st) (allEdges st) (nextFrontier st))
                  pid refId (source p) d) as [-> [-> _]].
      reflexivity.
    - right. reflexivity. }
  unfold visit_reference in *. cbv zeta in *.
  destruct (getPaperBySourceId (db st) (source ref) (source_id ref)) as [row|] eqn:G.
  - destruct (paper_id row) as [existingId|] eqn:Pid.
    + left. exists row, existingId. repeat split; try reflexivity. exact Pid.
    + right. apply Hnew. reflexivity.
  - right. apply Hnew. reflexivity.
Qed.

Lemma traversal_ok_fields (store : Store) (st st' : Traversal) :
  db st' = db st -> edgeSeen st' = edgeSeen st -> allEdges st' = allEdges st ->
  traversal_ok store st -> traversal_ok store st'.
Proof. unfold traversal_ok. intros -> -> ->. trivial. Qed.

Lemma traversal_ok_insert (store : Store) (st : Traversal) (ps : list Paper)
    (v : list string) (nf : list Paper) :
  traversal_ok store st ->
  traversal_ok store
    (mkTraversal (fst (insertPapers (db st) ps)) v (edgeSeen st) (allEdges st) nf).
Proof.
  intros [H1 [H2 [H3 [H4 [new H5]]]]].
  destruct (insertPapers_tables ps (db st)) as [E1 [_ [_ [new' E2]]]].
  unfold traversal_ok. simpl. rewrite E1, E2, H5. repeat split; try assumption.
  exists (new ++ new'). now rewrite app_assoc.
Qed.

Lemma visit_reference_ok (store : Store) (config : PaperGraphConfig) (d : Z)
    (atCapacity : bool) (p : Paper) (pid : Z) (st : Traversal) (ref : Paper) :
  traversal_ok store st ->
  traversal_ok store (visit_reference config d atCapacity p pid st ref).
Proof.
  intros H.
  destruct (visit_reference_cases config d atCapacity p pid st ref)
    as [[row [i [_ [_ ->]]]]|[->|[_ [row [_ [[i [_ ->]]| ->]]]]]].
  - now apply emit_edge_ok.
  - exact H.
  - apply (traversal_ok_fields store
             (emit_edge
                (mkTraversal (fst (insertPapers (db st) [ref]))
                   (set_add String.eqb (visited st) (paper_key ref))
                   (edgeSeen st) (allEdges st) (nextFrontier st))
                pid i (source p) d)); try reflexivity.
    apply emit_edge_ok. now apply traversal_ok_insert.
  - now apply traversal_ok_insert.
Qed.

Lemma visit_paper_ok (store : Store) (adapter : SourceAdapter)
    (config : PaperGraphConfig) (d : Z) (atCapacity : bool) (st : Traversal)
    (p : Paper) :
  traversal_ok store st ->
  traversal_ok store (visit_paper adapter config d atCapacity st p).
Proof.
  intros H. unfold visit_paper.
  destruct (paper_id p) as [pid|]; [|exact H].
  destruct (fetchReferences adapter (source_id p) (maxRefsPerPaper config))
    as [refs|]; [|exact H].
  apply (fold_left_invariant _ _ (fun s : Traversal => traversal_ok store s));
    [exact H|].
  intros s ref Hs _. now apply visit_reference_ok.
Qed.

Lemma depths_ok (store : Store) (adapter : SourceAdapter)
    (config : PaperGraphConfig) (remaining : nat) (d : Z)
    (frontier : list Paper) (st : Traversal) :
  traversal_ok store st ->
  traversal_ok store (depths adapter config remaining d frontier st).
Proof.
  revert d frontier st.
  induction remaining as [|n IH]; intros d frontier st H; [exact H|].
  cbn [depths]. cbv zeta.
  match goal with
  | |- traversal_ok store (match nextFrontier ?s with _ => _ end) =>
      assert (H1 : traversal_ok store s)
  end.
  { apply (fold_left_invariant _ _ (fun s : Traversal => traversal_ok store s)).
    - eapply traversal_ok_fields; [| | |exact H]; reflexivity.
    - intros s p Hs _. now apply visit_paper_ok. }
  match goal with
  | |- traversal_ok store (match nextFrontier ?s with _ => _ end) =>
      destruct (nextFrontier s); [exact H1|now apply IH]
  end.
Qed.

(** *** Referential integrity *)

Lemma visit_reference_papers (config : PaperGraphConfig) (d : Z)
    (atCapacity : bool) (p : Paper) (pid : Z) (st : Traversal) (ref : Paper) :
  exists new,
    papers (db (visit_reference config d atCapacity p pid st ref))
    = papers (db st) ++ new.
Proof.
  destruct (insertPapers_tables [ref] (db st)) as [_ [_ [_ Hnew]]].
  destruct (visit_reference_cases config d atCapacity p pid st ref)
    as [[row [i [_ [_ ->]]]]|[->|[_ [row [_ [[i [_ ->]]| ->]]]]]].
  - destruct (emit_edge_fields st pid i (source p) d) as [_ [_ [-> _]]].
    exists []. now rewrite app_nil_r.
  - exists []. now rewrite app_nil_r.
  - cbn [db].
    destruct (emit_edge_fields
                (mkTraversal (fst (insertPapers (db st) [ref]))
                   (set_add String.eqb (visited st) (paper_key ref))
                   (edgeSeen st) (allEdges st) (nextFrontier st))
                pid i (source p) d) as [_ [_ [-> _]]].
    exact Hnew.
  - exact Hnew.
Qed.

Lemma edges_closed_grow (db db' : Store) :
  edges db' = edges db -> (exists new, papers db' = papers db ++ new) ->
  edges_closed db -> edges_closed db'.
Proof.
  intros He Hp Hc e Hin. rewrite He in Hin. destruct (Hc e Hin) as [H1 H2].
  split; now apply (stored_ids_grow db db').
Qed.

Lemma ids_stored_grow (db db' : Store) (ps : list Paper) :
  (exists new, papers db' = papers db ++ new) ->
  ids_stored db ps -> ids_stored db' ps.
Proof.
  intros Hp H q id Hq Hid. apply (stored_ids_grow db db' id Hp). now apply (H q).
Qed.

Lemma visit_reference_closed (config : PaperGraphConfig) (d : Z)
    (atCapacity : bool) (p : Paper) (pid : Z) (st : Traversal) (ref : Paper) :
  In pid (stored_ids (db st)) ->
  traversal_closed st ->
  traversal_closed (visit_reference config d atCapacity p pid st ref).
Proof.
  intros Hpid [Hc Hf].
  destruct (insertPapers_tables [ref] (db st)) as [He [_ [_ Hnew]]].
  destruct (visit_reference_cases config d atCapacity p pid st ref)
    as [[row [i [Hrow [Hi ->]]]]|[->|[_ [row [Hrow [[i [Hi ->]]| ->]]]]]].
  - split.
    + apply emit_edge_closed; [exact Hpid| |exact Hc].
      now apply (lookup_stored _ _ _ _ _ Hrow).
    + destruct (emit_edge_fields st pid i (source p) d) as [_ [-> [Hp _]]].
      intros q id Hq Hid. unfold stored_ids. rewrite Hp. now apply (Hf q).
  - now split.
  - set (st1 := mkTraversal (fst (insertPapers (db st) [ref]))
                  (set_add String.eqb (visited st) (paper_key ref))
                  (edgeSeen st) (allEdges st) (nextFrontier st)).
    assert (Hi1 : In i (stored_ids (db st1)))
      by now apply (lookup_stored _ _ _ _ _ Hrow).
    assert (Hp1 : In pid (stored_ids (db st1)))
      by now apply (stored_ids_grow (db st) (db st1)).
    assert (Hc1 : edges_closed (db st1))
      by now apply (edges_closed_grow (db st) (db st1)).
    destruct (emit_edge_fields st1 pid i (source p) d) as [_ [_ [Hp _]]].
    split; cbn [db nextFrontier].
    + now apply emit_edge_closed.
    + intros q id Hq Hid. unfold stored_ids. rewrite Hp.
      fold (stored_ids (db st1)).
      apply in_app_or in Hq. destruct Hq as [Hq|[<-|[]]].
      * apply (stored_ids_grow (db st) (db st1)); [exact Hnew|].
        now apply (Hf q).
      * simpl in Hid. injection Hid as <-. exact Hi1.
  - split; cbn [db nextFrontier].
    + now apply (edges_closed_grow (db st)).
    + now apply (ids_stored_grow (db st)).
Qed.

Lemma visit_paper_closed (adapter : SourceAdapter) (config : PaperGraphConfig)
    (d : Z) (atCapacity : bool) (st : Traversal) (p : Paper) :
  ids_stored (db st) [p] ->
  traversal_closed st ->
  traversal_closed (visit_paper adapter config d atCapacity st p)
  /\ exists new,
       papers (db (visit_paper adapter config d atCapacity st p))
       = papers (db st) ++ new.
Proof.
  intros Hp Hst. unfold visit_paper.
  destruct (paper_id p) as [pid|] eqn:Pid;
    [|split; [exact Hst|exists []; now rewrite app_nil_r]].
  destruct (fetchReferences adapter (source_id p) (maxRefsPerPaper config))
    as [refs|]; [|split; [exact Hst|exists []; now rewrite app_nil_r]].
  assert (Hpid : In pid (stored_ids (db st)))
    by (apply (Hp p); [now left|exact Pid]).
  apply (fold_left_invariant _ _
           (fun s : Traversal =>
              traversal_closed s
              /\ exists new, papers (db s) = papers (db st) ++ new)).
  - split; [exact Hst|exists []; now rewrite app_nil_r].
  - intros s ref [Hs [new Hnew]] _. split.
    + apply visit_reference_closed; [|exact Hs].
      apply (stored_ids_grow (db st)); [now exists new|exact Hpid].
    + destruct (visit_reference_papers config d atCapacity p pid s ref)
        as [new' Hnew'].
      exists (new ++ new'). now rewrite Hnew', Hnew, app_assoc.
Qed.

Lemma depths_closed (adapter : SourceAdapter) (config : PaperGraphConfig)
    (remaining : nat) (d : Z) (frontier : list Paper) (st : Traversal) :
  ids_stored (db st) frontier ->
  edges_closed (db st) ->
  edges_closed (db (depths adapter config remaining d frontier st)).
Proof.
  revert d frontier st.
  induction remaining as [|n IH]; intros d frontier st Hf Hc; [exact Hc|].
  cbn [depths]. cbv zeta.
  match goal with
  | |- edges_closed (db (match nextFrontier ?s with _ => _ end)) =>
      assert (H1 : traversal_closed s
                   /\ exists new, papers (db s) = papers (db st) ++ new)
  end.
  { apply (fold_left_invariant _ _
             (fun s : Traversal =>
                traversal_closed s
                /\ exists new, papers (db s) = papers (db st) ++ new)).
    - split; [|exists []; simpl; now rewrite app_nil_r].
      split; [exact Hc|]. intros q id [].
    - intros s p [Hs [new Hnew]] Hp.
      destruct (visit_paper_closed adapter config d
                  (maxPapers config <=? getPaperCount (db st)) s p)
        as [H2 [new' Hnew']]; [|exact Hs|].
      + intros q id [<-|[]] Hid.
        apply (stored_ids_grow (db st)); [now exists new|]. now apply (Hf p).
      + split; [exact H2|]. exists (new ++ new').
        now rewrite Hnew', Hnew, app_assoc. }
  destruct H1 as [[Hc1 Hf1] _].
  match goal with
  | |- edges_closed (db (match nextFrontier ?s with _ => _ end)) =>
      destruct (nextFrontier s) eqn:E; [exact Hc1|]
  end.
  apply IH; [|exact Hc1]. exact Hf1.
Qed.

End TraversalFacts.

(* ------------------------------------------------------------------ *)
(** ** Seeds *)
(* ------------------------------------------------------------------ *)

Module SeedFacts.
Import Js Types Database Builder BuilderFacts.
Local Open Scope Z_scope.

Lemma for_each_invariant (A S : Type) (P : S -> Prop) (body : S -> A -> option S)
    (l : list A) (s s' : S) :
  P s ->
  (forall s0 x s1, P s0 -> In x l -> body s0 x = Some s1 -> P s1) ->
  for_each body l s = Some s' -> P s'.
Proof.
  revert s. induction l as [|x l IH]; intros s Hs Hstep; simpl.
  - now intros [= <-].
  - destruct (body s x) as [s1|] eqn:E; [|discriminate].
    apply IH.
    + apply (Hstep s x s1 Hs (or_introl eq_refl) E).
    + intros s0 y s2 H0 Hy. apply Hstep; [exact H0|now right].
Qed.

(** [seen] holds the keys of the papers collected, each once. *)
Lemma addUnique_keys (st : list Paper * list string) (p : Paper) :
  map paper_key (fst st) = snd st /\ NoDup (snd st) ->
  map paper_key (fst (addUnique st p)) = snd (addUnique st p)
  /\ NoDup (snd (addUnique st p)).
Proof.
  destruct st as [papers seen]. unfold addUnique. simpl. intros [H1 H2].
  destruct (set_has String.eqb seen (paper_key p)) eqn:E; [now split|].
  simpl. unfold set_add. rewrite E.
  apply (set_has_false _ String.eqb String.eqb_eq) in E.
  split; [now rewrite map_app, H1|]. now apply NoDup_snoc.
Qed.

Lemma findSeeds_keys (adapter : SourceAdapter) (config : PaperGraphConfig)
    (seeds : list Paper) :
  findSeeds adapter config = Some seeds -> NoDup (map paper_key seeds).
Proof.
  unfold findSeeds. cbv zeta.
  match goal with
  | |- match ?dois with Some _ => _ | None => None end = _ -> _ =>
      destruct dois as [[papers seen]|] eqn:Ed; [|discriminate]
  end.
  intros [= <-].
  assert (Hok : (fun st : list Paper * list string =>
                   map paper_key (fst st) = snd st /\ NoDup (snd st))
                  (papers, seen)).
  { revert Ed.
    match goal with
    | |- match ?titles with Some _ => _ | None => None end = _ -> _ =>
        destruct titles as [st1|] eqn:Et; [|discriminate]
    end.
    intros Ed.
    refine (for_each_invariant _ _
              (fun st : list Paper * list string =>
                 map paper_key (fst st) = snd st /\ NoDup (snd st))
              _ _ _ _ _ _ Ed).
    - revert Et.
      match goal with
      | |- match ?tp with Some _ => _ | None => None end = _ -> _ =>
          destruct tp as [st0|] eqn:E0; [|discriminate]
      end.
      intros Et.
      refine (for_each_invariant _ _
                (fun st : list Paper * list string =>
                   map paper_key (fst st) = snd st /\ NoDup (snd st))
                _ _ _ _ _ _ Et).
      + assert (Hnil : map paper_key (fst (@nil Paper, @nil string))
                       = snd (@nil Paper, @nil string)
                       /\ NoDup (snd (@nil Paper, @nil string)))
          by (split; [reflexivity|constructor]).
        destruct (topic config) as [t|]; [|now injection E0 as <-].
        destruct (String.eqb t ""); [now injection E0 as <-|].
        destruct (searchByTopic adapter t (seedLimit (maxPapers config)))
          as [results|]; [|discriminate].
        injection E0 as <-.
        apply (fold_left_invariant _ _
                 (fun st : list Paper * list string =>
                    map paper_key (fst st) = snd st /\ NoDup (snd st)));
          [exact Hnil|].
        intros st p Hst _. now apply addUnique_keys.
      + intros s0 title s1 H0 _.
        destruct (searchByTitle adapter title 5) as [[|first rest]|];
          [now intros [= <-]| |discriminate].
        intros [= <-]. now apply addUnique_keys.
    - intros s0 d s1 H0 _.
      destruct (fetchPaper adapter d) as [[p|]|];
        [|now intros [= <-]|discriminate].
      intros [= <-]. now apply addUnique_keys. }
  simpl in Hok. destruct Hok as [Hk Hnd].
  destruct (array_slice0_firstn _ (seedLimit (maxPapers config)) papers)
    as [n [-> _]].
  rewrite <- firstn_map. apply NoDup_firstn_of. now rewrite Hk.
Qed.

End SeedFacts.

(* ------------------------------------------------------------------ *)
(** ** The build: what it leaves in the store *)
(* ------------------------------------------------------------------ *)

Module BuildFacts.
Import Js Types Database DatabaseSpec DatabaseFacts StoreFacts TfIdf Similarity
       Algorithms AlgorithmsSpec Builder BuilderSpec BuilderFacts TraversalFacts
       CosineFacts CitationFacts.
Local Open Scope Z_scope.

Lemma stored_ids_map (db : Store) :
  stored_ids db
  = flat_map (fun o : option Z => match o with Some id => [id] | None => [] end)
             (map paper_id (papers db)).
Proof.
  unfold stored_ids. induction (papers db) as [|p l IH]; simpl; [reflexivity|].
  now rewrite IH.
Qed.

(** The invariants depend on the ids and keys of the papers and on the
    edges only. *)
Lemma store_ok_same (db db' : Store) :
  map paper_id (papers db') = map paper_id (papers db) ->
  paper_keys db' = paper_keys db ->
  edges db' = edges db ->
  store_ok db -> store_ok db'.
Proof.
  intros Hi Hk He [[H1 [H2 H3]] H4]. split; [split; [|split]|].
  - now rewrite Hk.
  - now rewrite Hi.
  - apply Forall_forall. intros p Hp.
    assert (Hin : In (paper_id p) (map paper_id (papers db)))
      by (rewrite <- Hi; now apply in_map).
    apply in_map_iff in Hin. destruct Hin as [q [Hq Hin]].
    rewrite Forall_forall in H3. destruct (H3 q Hin) as [i Hqi].
    exists i. congruence.
  - intros e Hin. rewrite He in Hin. rewrite (stored_ids_map db'), Hi,
      <- (stored_ids_map db). now apply H4.
Qed.

Lemma store_ok_close (db : Store) : store_ok db -> store_ok (close db).
Proof. now apply store_ok_same. Qed.

Lemma store_ok_insertRun (db : Store) (run : RunRecord) :
  store_ok db -> store_ok (fst (insertRun db run)).
Proof. now apply store_ok_same. Qed.

Lemma insertClusters_tables (db : Store) (cs : list Cluster)
    (paperMappings : list (Z * list Z)) :
  edges (insertClusters db cs paperMappings) = edges db
  /\ runs (insertClusters db cs paperMappings) = runs db
  /\ List.length (clusters (insertClusters db cs paperMappings))
     = (List.length (clusters db) + List.length cs)%nat.
Proof.
  unfold insertClusters.
  assert (H : forall (st : Store * Z),
            let r := fold_left
              (fun (st : Store * Z) c =>
                 let (db', clusterIndex) := st in
                 let clusterId := next_rowid (map cluster_id (clusters db')) in
                 let row := mkCluster (Some clusterId) (method c) (name c)
                              (description c) (stats_member_count c)
                              (stats_community_id c) in
                 let paperIds :=
                   match map_get Z.eqb paperMappings clusterIndex with
                   | Some ids => ids
                   | None => []
                   end in
                 let links :=
                   fold_left
                     (fun ls pid =>
                        if existsb (fun l => (fst l =? pid) && (snd l =? clusterId)) ls
                        then ls else ls ++ [(pid, clusterId)])
                     paperIds (paper_clusters db') in
                 (set_clusters db' (clusters db' ++ [row]) links clusterId,
                  clusterIndex + 1))
              cs st in
            edges (fst r) = edges (fst st) /\ runs (fst r) = runs (fst st)
            /\ List.length (clusters (fst r))
               = (List.length (clusters (fst st)) + List.length cs)%nat).
  { induction cs as [|c cs IH]; intros [s i]; cbn [fold_left]; cbv zeta.
    - simpl. repeat split. lia.
    - match goal with
      | |- context [fold_left _ cs ?st'] => specialize (IH st')
      end.
      cbv zeta in IH. destruct IH as [H1 [H2 H3]].
      rewrite H1, H2, H3. simpl. rewrite length_app. simpl. repeat split. lia. }
  apply (H (db, 0)).
Qed.

Lemma store_ok_insertClusters (db : Store) (cs : list Cluster)
    (paperMappings : list (Z * list Z)) :
  store_ok db -> store_ok (insertClusters db cs paperMappings).
Proof.
  destruct (insertClusters_tables db cs paperMappings) as [He _].
  apply store_ok_same; [| |exact He];
    unfold paper_keys; now rewrite insertClusters_papers.
Qed.

Lemma updatePaperScores_tables (scores : list (Z * R)) (db : Store) :
  map paper_id
      (papers (fold_left (fun s entry => updatePaperScore s (fst entry) (snd entry))
                         scores db))
  = map paper_id (papers db)
  /\ paper_keys (fold_left (fun s entry => updatePaperScore s (fst entry) (snd entry))
                           scores db)
     = paper_keys db
  /\ edges (fold_left (fun s entry => updatePaperScore s (fst entry) (snd entry))
                      scores db)
     = edges db
  /\ runs (fold_left (fun s entry => updatePaperScore s (fst entry) (snd entry))
                     scores db)
     = runs db
  /\ clusters (fold_left (fun s entry => updatePaperScore s (fst entry) (snd entry))
                         scores db)
     = clusters db.
Proof.
  apply (fold_left_invariant _ _
           (fun s : Store =>
              map paper_id (papers s) = map paper_id (papers db)
              /\ paper_keys s = paper_keys db
              /\ edges s = edges db /\ runs s = runs db
              /\ clusters s = clusters db)).
  - repeat split.
  - intros s entry [H1 [H2 [H3 [H4 H5]]]] _.
    unfold updatePaperScore, paper_keys in *. simpl.
    rewrite !map_map. rewrite <- H1, <- H2. repeat split; try assumption.
    + apply map_ext. intros row. destruct (paper_id row) as [i|] eqn:E;
        [|exact E]. now destruct (i =? fst entry).
    + apply map_ext. intros row. destruct (paper_id row) as [i|];
        [|reflexivity]. now destruct (i =? fst entry).
Qed.

Lemma store_ok_scores (scores : list (Z * R)) (db : Store) :
  store_ok db ->
  store_ok (fold_left (fun s entry => updatePaperScore s (fst entry) (snd entry))
                      scores db).
Proof.
  destruct (updatePaperScores_tables scores db) as [H1 [H2 [H3 _]]].
  now apply store_ok_same.
Qed.

Lemma stored_ids_insertEdges (db : Store) (es : list Edge) :
  stored_ids (insertEdges db es) = stored_ids db.
Proof. unfold stored_ids. now rewrite insertEdges_papers. Qed.

Lemma store_ok_insertEdges (db : Store) (es : list Edge) :
  store_ok db ->
  (forall e, In e es ->
     In (src_paper_id e) (stored_ids db) /\ In (dst_paper_id e) (stored_ids db)) ->
  store_ok (insertEdges db es).
Proof.
  intros [[H1 [H2 H3]] H4] Hes. split.
  - unfold well_formed, paper_keys. rewrite insertEdges_papers. now repeat split.
  - intros e Hin. rewrite stored_ids_insertEdges.
    assert (Hs : In (with_edge_id e None)
                    (map (fun e => with_edge_id e None) (edges (insertEdges db es))))
      by (apply (in_map (fun e => with_edge_id e None)); exact Hin).
    rewrite insertEdges_rows in Hs. apply in_app_or in Hs.
    destruct Hs as [Hs|Hs]; apply in_map_iff in Hs; destruct Hs as [e' [Heq Hin']].
    + assert (Hsrc : src_paper_id e = src_paper_id e')
        by (apply (f_equal src_paper_id) in Heq; simpl in Heq; congruence).
      assert (Hdst : dst_paper_id e = dst_paper_id e')
        by (apply (f_equal dst_paper_id) in Heq; simpl in Heq; congruence).
      rewrite Hsrc, Hdst. now apply H4.
    + assert (Hsrc : src_paper_id e = src_paper_id e')
        by (apply (f_equal src_paper_id) in Heq; simpl in Heq; congruence).
      assert (Hdst : dst_paper_id e = dst_paper_id e')
        by (apply (f_equal dst_paper_id) in Heq; simpl in Heq; congruence).
      rewrite Hsrc, Hdst. now apply Hes.
Qed.

(** *** The analytic edges join stored papers *)

Lemma paperIdMap_of_ids (allPapers : list Paper) (sid : string) (id : Z) :
  In (sid, id) (paperIdMap_of allPapers) ->
  exists p, In p allPapers /\ paper_id p = Some id.
Proof.
  unfold paperIdMap_of. revert sid id.
  apply (fold_left_invariant _ _
           (fun m : list (string * Z) =>
              forall sid id, In (sid, id) m ->
                exists p, In p allPapers /\ paper_id p = Some id)).
  - intros sid id [].
  - intros m p Hm Hp sid id Hin.
    destruct (paper_id p) as [i|] eqn:E; [|now apply (Hm sid)].
    apply map_set_in in Hin; [|apply String.eqb_eq].
    destruct Hin as [Hin|[= _ ->]]; [now apply (Hm sid)|].
    now exists p.
Qed.

Lemma similarity_edges_stored (db : Store) (corpus : TfIdfCorpus) (topK : Z)
    (threshold : R) (e : Edge) :
  In e (buildSimilarityEdges (paperIdMap_of (getAllPapers db)) corpus topK threshold) ->
  In (src_paper_id e) (stored_ids db) /\ In (dst_paper_id e) (stored_ids db).
Proof.
  intros He.
  destruct (similarity_edges_shape _ _ _ _ _ He)
    as [_ [_ [_ [_ [_ [sid [nid [u [v [_ [Hs [Hd _]]]]]]]]]]]].
  apply map_get_in in Hd; [|apply String.eqb_eq].
  apply paperIdMap_of_ids in Hs, Hd.
  destruct Hs as [p [Hp Hpid]], Hd as [q [Hq Hqid]].
  split; [now apply (stored_ids_in db p)|now apply (stored_ids_in db q)].
Qed.

Lemma coCitation_edges_stored (db : Store) (e : Edge) :
  edges_closed db ->
  In e (computeCoCitation (getAllEdges db)) ->
  In (src_paper_id e) (stored_ids db) /\ In (dst_paper_id e) (stored_ids db).
Proof.
  intros Hc He.
  assert (H : exists e', In e' (computeCoCitation (getAllEdges db))
                         /\ src_paper_id e' = src_paper_id e
                         /\ dst_paper_id e' = dst_paper_id e)
    by (exists e; auto).
  apply coCitation_pairs in H. destruct H as [_ [c [[e1 [H1 [_ [_ D1]]]] [e2 [H2 [_ [_ D2]]]]]]].
  rewrite <- D1, <- D2. split; [now apply (Hc e1)|now apply (Hc e2)].
Qed.

Lemma bibCoupling_edges_stored (db : Store) (e : Edge) :
  edges_closed db ->
  In e (computeBibCoupling (getAllEdges db)) ->
  In (src_paper_id e) (stored_ids db) /\ In (dst_paper_id e) (stored_ids db).
Proof.
  intros Hc He.
  assert (H : exists e', In e' (computeBibCoupling (getAllEdges db))
                         /\ ((src_paper_id e' = src_paper_id e
                              /\ dst_paper_id e' = dst_paper_id e)
                             \/ (src_paper_id e' = dst_paper_id e
                                 /\ dst_paper_id e' = src_paper_id e)))
    by (exists e; auto).
  apply bibCoupling_pairs in H.
  destruct H as [_ [r [[e1 [H1 [_ [S1 _]]]] [e2 [H2 [_ [S2 _]]]]]]].
  rewrite <- S1, <- S2. split; [now apply (Hc e1)|now apply (Hc e2)].
Qed.

Lemma store_ok_similarity (db : Store) (corpus : TfIdfCorpus) (topK : Z)
    (threshold : R) :
  store_ok db ->
  store_ok (insertEdges db
              (buildSimilarityEdges (paperIdMap_of (getAllPapers db)) corpus
                 topK threshold)).
Proof.
  intros H. apply store_ok_insertEdges; [exact H|].
  intros e. apply similarity_edges_stored.
Qed.

Lemma store_ok_cocitation (db : Store) :
  store_ok db -> store_ok (insertEdges db (computeCoCitation (getAllEdges db))).
Proof.
  intros H. apply store_ok_insertEdges; [exact H|].
  intros e. apply coCitation_edges_stored. apply H.
Qed.

Lemma store_ok_coupling (db1 db2 : Store) :
  store_ok db2 -> edges_closed db1 -> stored_ids db2 = stored_ids db1 ->
  store_ok (insertEdges db2 (computeBibCoupling (getAllEdges db1))).
Proof.
  intros H Hc Hids. apply store_ok_insertEdges; [exact H|].
  intros e He. rewrite Hids. now apply bibCoupling_edges_stored.
Qed.

(** Steps 3 to 8 of the build keep the invariants. *)
Lemma postProcess_ok (lib : GraphLibrary) (clock : Clock)
    (config : PaperGraphConfig) (store : Store) :
  store_ok store -> store_ok (snd (postProcess lib clock config store)).
Proof.
  intros H. unfold postProcess. cbv zeta.
  destruct (spine config); cbv iota beta;
    (destruct (computePageRank _ _ _);
       [destruct (computeLouvainClusters _ _ _);
          [destruct (buildClusterObjects _ _); cbn [snd];
           apply store_ok_close, store_ok_insertRun, store_ok_scores,
                 store_ok_insertClusters
          |cbn [snd]; apply store_ok_close]
       |cbn [snd]; apply store_ok_close]);
    repeat first
      [ exact H
      | apply store_ok_similarity
      | apply store_ok_cocitation
      | apply store_ok_coupling; [| |now rewrite ?stored_ids_insertEdges]
      | (apply store_ok_similarity; exact H) ].
  all: try (apply store_ok_similarity; exact H).
  all: try (apply (proj2 H)).
  all: try (apply (proj2 (store_ok_similarity _ _ _ _ H))).
Qed.

(** *** The traversal keeps the papers table well formed *)

Lemma well_formed_papers (db db' : Store) :
  papers db' = papers db -> well_formed db -> well_formed db'.
Proof. unfold well_formed, paper_keys. now intros ->. Qed.

Lemma visit_reference_well_formed (config : PaperGraphConfig) (d : Z)
    (atCapacity : bool) (p : Paper) (pid : Z) (st : Traversal) (ref : Paper) :
  well_formed (db st) ->
  well_formed (db (visit_reference config d atCapacity p pid st ref)).
Proof.
  intros H.
  destruct (visit_reference_cases config d atCapacity p pid st ref)
    as [[row [i [_ [_ ->]]]]|[->|[_ [row [_ [[i [_ ->]]| ->]]]]]].
  - destruct (emit_edge_fields st pid i (source p) d) as [_ [_ [Hp _]]].
    now apply (well_formed_papers (db st)).
  - exact H.
  - cbn [db].
    destruct (emit_edge_fields
                (mkTraversal (fst (insertPapers (db st) [ref]))
                   (set_add String.eqb (visited st) (paper_key ref))
                   (edgeSeen st) (allEdges st) (nextFrontier st))
                pid i (source p) d) as [_ [_ [Hp _]]].
    apply (well_formed_papers _ _ Hp). cbn [db].
    now apply insertPapers_well_formed.
  - cbn [db]. now apply insertPapers_well_formed.
Qed.

Lemma visit_reference_runs (config : PaperGraphConfig) (d : Z)
    (atCapacity : bool) (p : Paper) (pid : Z) (st : Traversal) (ref : Paper) :
  runs (db (visit_reference config d atCapacity p pid st ref)) = runs (db st).
Proof.
  destruct (insertPapers_tables [ref] (db st)) as [_ [Hr _]].
  destruct (visit_reference_cases config d atCapacity p pid st ref)
    as [[row [i [_ [_ ->]]]]|[->|[_ [row [_ [[i [_ ->]]| ->]]]]]].
  - now destruct (emit_edge_fields st pid i (source p) d) as [_ [_ [_ [-> _]]]].
  - reflexivity.
  - cbn [db].
    destruct (emit_edge_fields
                (mkTraversal (fst (insertPapers (db st) [ref]))
                   (set_add String.eqb (visited st) (paper_key ref))
                   (edgeSeen st) (allEdges st) (nextFrontier st))
                pid i (source p) d) as [_ [_ [_ [-> _]]]].
    exact Hr.
  - exact Hr.
Qed.

Lemma depths_well_formed (adapter : SourceAdapter) (config : PaperGraphConfig)
    (remaining : nat) (d : Z) (frontier : list Paper) (st : Traversal) :
  well_formed (db st) ->
  well_formed (db (depths adapter config remaining d frontier st)).
Proof.
  revert d frontier st.
  induction remaining as [|n IH]; intros d frontier st H; [exact H|].
  cbn [depths]. cbv zeta.
  match goal with
  | |- well_formed (db (match nextFrontier ?s with _ => _ end)) =>
      assert (H1 : well_formed (db s))
  end.
  { apply (fold_left_invariant _ _ (fun s : Traversal => well_formed (db s)));
      [exact H|].
    intros s p Hs _. unfold visit_paper.
    destruct (paper_id p) as [pid|]; [|exact Hs].
    destruct (fetchReferences adapter (source_id p) (maxRefsPerPaper config))
      as [refs|]; [|exact Hs].
    apply (fold_left_invariant _ _ (fun s : Traversal => well_formed (db s)));
      [exact Hs|].
    intros s' ref Hs' _. now apply visit_reference_well_formed. }
  match goal with
  | |- well_formed (db (match nextFrontier ?s with _ => _ end)) =>
      destruct (nextFrontier s); [exact H1|now apply IH]
  end.
Qed.

Lemma depths_runs (adapter : SourceAdapter) (config : PaperGraphConfig)
    (remaining : nat) (d : Z) (frontier : list Paper) (st : Traversal) :
  runs (db (depths adapter config remaining d frontier st)) = runs (db st).
Proof.
  revert d frontier st.
  induction remaining as [|n IH]; intros d frontier st; [reflexivity|].
  cbn [depths]. cbv zeta.
  match goal with
  | |- runs (db (match nextFrontier ?s with _ => _ end)) = _ =>
      assert (H1 : runs (db s) = runs (db st))
  end.
  { apply (fold_left_invariant _ _
             (fun s : Traversal => runs (db s) = runs (db st)));
      [reflexivity|].
    intros s p Hs _. unfold visit_paper.
    destruct (paper_id p) as [pid|]; [|exact Hs].
    destruct (fetchReferences adapter (source_id p) (maxRefsPerPaper config))
      as [refs|]; [|exact Hs].
    apply (fold_left_invariant _ _
             (fun s : Traversal => runs (db s) = runs (db st)));
      [exact Hs|].
    intros s' ref Hs' _. now rewrite visit_reference_runs. }
  match goal with
  | |- runs (db (match nextFrontier ?s with _ => _ end)) = _ =>
      destruct (nextFrontier s); [exact H1|now rewrite IH]
  end.
Qed.

(** *** The seeds after [insertPapers] *)

Lemma assign_ids_stored (db : Store) (ps : list Paper) (ids : list (option Z)) :
  Forall2
    (fun p id =>
       exists row,
         getPaperBySourceId db (source p) (source_id p) = Some row
         /\ id = paper_id row)
    ps ids ->
  ids_stored db (assign_ids ps ids).
Proof.
  induction 1 as [|p id ps ids [row [Hrow ->]] H IH]; [intros q i []|].
  intros q i [<-|Hq] Hi.
  - simpl in Hi. now apply (lookup_stored _ _ _ _ _ Hrow).
  - now apply (IH q).
Qed.

(** What [postProcess] does to the handle and to the runs table. *)
Lemma postProcess_runs (lib : GraphLibrary) (clock : Clock)
    (config : PaperGraphConfig) (store : Store) :
  is_open (snd (postProcess lib clock config store)) = false
  /\ (fst (postProcess lib clock config store) = None ->
      runs (snd (postProcess lib clock config store)) = runs store)
  /\ (fst (postProcess lib clock config store) <> None ->
      exists run,
        runs (snd (postProcess lib clock config store)) = runs store ++ [run]
        /\ stats_papers (stats_json run)
           = getPaperCount (snd (postProcess lib clock config store))
        /\ stats_edges (stats_json run)
           = getEdgeCount (snd (postProcess lib clock config store))
        /\ stats_clusters (stats_json run)
           = getClusterCount (snd (postProcess lib clock config store))
        /\ stats_runs (stats_json run) = Z.of_nat (List.length (runs store))
        /\ created_at run = nowISO clock
        /\ run_spine run = spine config /\ run_depth run = depth config).
Proof.
  unfold postProcess. cbv zeta.
  destruct (spine config); cbv iota beta;
    (destruct (computePageRank _ _ _);
       [destruct (computeLouvainClusters _ _ _);
          [destruct (buildClusterObjects _ _)|]|]);
    cbn [fst snd]; (split; [reflexivity|]);
    (split; [intros Hnone; try discriminate; simpl;
             now rewrite ?insertEdges_runs
            |intros Hsome; try congruence]).
  all: eexists; split;
    [simpl;
     match goal with
     | |- runs (fold_left ?f ?sc ?s) ++ _ = _ =>
         destruct (updatePaperScores_tables sc s) as [_ [_ [_ [-> _]]]]
     end;
     match goal with
     | |- runs (insertClusters ?s ?c ?m) ++ _ = _ =>
         destruct (insertClusters_tables s c m) as [_ [-> _]]
     end;
     rewrite ?insertEdges_runs; reflexivity
    |].
  all: simpl;
    match goal with
    | |- context [runs (fold_left ?f ?sc ?s)] =>
        destruct (updatePaperScores_tables sc s) as [_ [_ [_ [-> _]]]]
    end;
    match goal with
    | |- context [runs (insertClusters ?s ?c ?m)] =>
        destruct (insertClusters_tables s c m) as [_ [-> _]]
    end;
    rewrite ?insertEdges_runs; repeat split.
Qed.

(** The traversal keeps the invariants of the store. *)
Lemma traversal_keeps_store_ok (adapter : SourceAdapter) (store : Store)
    (seedPapers : list Paper) (config : PaperGraphConfig) :
  store_ok store -> ids_stored store seedPapers ->
  store_ok (db (traverseCitations adapter store seedPapers config)).
Proof.
  intros [Hw Hc] Hs. unfold traverseCitations. split.
  - now apply depths_well_formed.
  - now apply depths_closed.
Qed.

End BuildFacts.

Module BuildTheorems.
Import Js Types Database DatabaseSpec DatabaseFacts StoreFacts TfIdf Similarity
       Algorithms AlgorithmsSpec Builder BuilderSpec BuilderFacts TraversalFacts
       SeedFacts BuildFacts.
Local Open Scope Z_scope.

(** X20. The seeds that [findSeeds] returns have distinct
    [source:source_id] keys, and there are at most [seedLimit] of them. *)
Theorem findSeeds_distinct (adapter : SourceAdapter) (config : PaperGraphConfig)
    (seeds : list Paper) :
  findSeeds adapter config = Some seeds ->
  NoDup (map paper_key seeds)
  /\ Z.of_nat (List.length seeds) <= seedLimit (maxPapers config).
Proof.
  intros H. split; [now apply findSeeds_keys with adapter config|].
  now apply findSeeds_length with adapter.
Qed.

(** The theorem at the search that finds ten papers. *)
Lemma findSeeds_distinct_witness :
  findSeeds adapter_with_ten_papers (config_of "theory" 2 150) = Some ten_papers
  /\ NoDup (map paper_key ten_papers).
Proof.
  assert (H : findSeeds adapter_with_ten_papers (config_of "theory" 2 150)
              = Some ten_papers) by reflexivity.
  split; [exact H|].
  exact (proj1 (findSeeds_distinct _ _ _ H)).
Defined.

(** X21. The edges that [traverseCitations] pushes are CITES edges of
    weight and confidence 1 made by the algorithm, no two of them with the
    same citing and cited paper; they are what the traversal adds to the
    edges table, in that order; the papers table is extended, never
    rewritten, and the runs table is left alone.  A store that already
    holds [maxPapers] papers gains no paper, whatever the references
    are. *)
Theorem traverseCitations_edges (adapter : SourceAdapter) (store : Store)
    (seedPapers : list Paper) (config : PaperGraphConfig) :
  let t := traverseCitations adapter store seedPapers config in
  Forall (fun e => type e = CITES /\ weight e = 1%R /\ confidence e = 1%R
                   /\ created_by e = algo /\ edge_id e = None)
         (allEdges t)
  /\ NoDup (map (fun e => (src_paper_id e, dst_paper_id e)) (allEdges t))
  /\ map (fun e => with_edge_id e None) (edges (db t))
     = map (fun e => with_edge_id e None) (edges store) ++ allEdges t
  /\ (exists new, papers (db t) = papers store ++ new)
  /\ runs (db t) = runs store
  /\ (maxPapers config <= getPaperCount store -> papers (db t) = papers store).
Proof.
  intros t.
  assert (H : traversal_ok store t).
  { subst t. unfold traverseCitations. apply depths_ok.
    unfold traversal_ok. simpl. repeat split; try constructor.
    - now rewrite app_nil_r.
    - exists []. now rewrite app_nil_r. }
  destruct H as [H1 [H2 [H3 [H4 [new Hnew]]]]].
  split; [|split; [|split; [|split; [|split]]]].
  - eapply Forall_impl; [|exact H3]. intros e [source [d ->]]. now repeat split.
  - now rewrite H1.
  - exact H4.
  - now exists new.
  - subst t. unfold traverseCitations. now rewrite depths_runs.
  - intros Hcap.
    pose proof (traverseCitations_count adapter store seedPapers config) as Hc.
    fold t in Hc. unfold getPaperCount in Hc, Hcap. rewrite Hnew in Hc.
    rewrite Hnew. rewrite length_app in Hc.
    destruct new as [|x new]; [apply app_nil_r|]. simpl in Hc. lia.
Qed.

(** X22. The traversal keeps the edges between stored papers: when every
    edge of the store joins two stored papers and the seeds carry the ids
    under which they are stored, every edge of the store after the
    traversal joins two stored papers.  It also keeps the papers table
    free of duplicate keys and ids. *)
Theorem traverseCitations_closed (adapter : SourceAdapter) (store : Store)
    (seedPapers : list Paper) (config : PaperGraphConfig) :
  store_ok store -> ids_stored store seedPapers ->
  store_ok (db (traverseCitations adapter store seedPapers config)).
Proof. apply traversal_keeps_store_ok. Qed.

(** The theorem at a store that holds W1, whose references are W1 itself
    and W2. *)
Lemma traverseCitations_closed_witness :
  store_ok (fst (insertPapers empty_store [paper_of "W1" "Graph Theory"]))
  /\ ids_stored (fst (insertPapers empty_store [paper_of "W1" "Graph Theory"]))
                [with_paper_id (paper_of "W1" "Graph Theory") (Some 1)]
  /\ store_ok
       (db (traverseCitations adapter_with_self_citation
              (fst (insertPapers empty_store [paper_of "W1" "Graph Theory"]))
              [with_paper_id (paper_of "W1" "Graph Theory") (Some 1)]
              (config_of "theory" 2 150))).
Proof.
  assert (H1 : store_ok
                 (fst (insertPapers empty_store [paper_of "W1" "Graph Theory"]))).
  { split.
    - apply insertPapers_well_formed. repeat split; constructor.
    - intros e []. }
  assert (H2 : ids_stored
                 (fst (insertPapers empty_store [paper_of "W1" "Graph Theory"]))
                 [with_paper_id (paper_of "W1" "Graph Theory") (Some 1)]).
  { intros p id [<-|[]] [= <-]. vm_compute. left. reflexivity. }
  split; [exact H1|]. split; [exact H2|].
  exact (traverseCitations_closed _ _ _ _ H1 H2).
Defined.

(** X23. [buildGraph] keeps the invariants of the store on every path, the
    failing ones included: the papers table has no duplicate key and no
    duplicate id, and every edge of the edges table, CITES edges and
    analytic edges alike, joins two stored papers. *)
Theorem buildGraph_keeps_store_ok (lib : GraphLibrary) (clock : Clock)
    (adapter : SourceAdapter) (config : PaperGraphConfig) (store : Store) :
  store_ok store -> store_ok (snd (buildGraph lib clock adapter config store)).
Proof.
  intros H. unfold buildGraph.
  destruct (findSeeds adapter config) as [[|s0 seeds]|];
    [now apply store_ok_close| |now apply store_ok_close].
  pose proof (insertPapers_lookup (s0 :: seeds) store) as Hl.
  destruct (insertPapers_tables (s0 :: seeds) store) as [He [_ [_ Hp]]].
  pose proof (insertPapers_well_formed (s0 :: seeds) store (proj1 H)) as Hw.
  destruct (insertPapers store (s0 :: seeds)) as [store1 seedIds].
  cbn [fst snd] in *. apply postProcess_ok.
  apply traversal_keeps_store_ok.
  - split; [exact Hw|]. now apply (edges_closed_grow store store1 He Hp), H.
  - now apply assign_ids_stored.
Qed.

(** The theorem at a build from the empty store. *)
Lemma buildGraph_keeps_store_ok_witness :
  store_ok empty_store
  /\ store_ok (snd (buildGraph uniform_library clock_2026
                      adapter_with_ten_papers (config_of "theory" 2 150)
                      empty_store)).
Proof.
  assert (H : store_ok empty_store).
  { split; [repeat split; constructor|intros e []]. }
  split; [exact H|]. exact (buildGraph_keeps_store_ok _ _ _ _ _ H).
Defined.

(** X24. [buildGraph] closes the database on every path.  When it throws,
    no run is recorded.  When it succeeds with seeds, it appends exactly
    one run, whose statistics are the numbers of papers, edges and
    clusters of the store it leaves, and the number of runs before this
    one. *)
Theorem buildGraph_handle_and_runs (lib : GraphLibrary) (clock : Clock)
    (adapter : SourceAdapter) (config : PaperGraphConfig) (store : Store) :
  let outcome := buildGraph lib clock adapter config store in
  is_open (snd outcome) = false
  /\ (fst outcome = None -> runs (snd outcome) = runs store)
  /\ (forall seeds,
        findSeeds adapter config = Some seeds -> seeds <> [] ->
        fst outcome <> None ->
        exists run,
          runs (snd outcome) = runs store ++ [run]
          /\ stats_papers (stats_json run) = getPaperCount (snd outcome)
          /\ stats_edges (stats_json run) = getEdgeCount (snd outcome)
          /\ stats_clusters (stats_json run) = getClusterCount (snd outcome)
          /\ stats_runs (stats_json run) = Z.of_nat (List.length (runs store))
          /\ created_at run = nowISO clock
          /\ run_spine run = spine config /\ run_depth run = depth config).
Proof.
  intros outcome. subst outcome. unfold buildGraph.
  destruct (findSeeds adapter config) as [[|s0 seeds]|].
  - repeat split. intros seeds [= <-] Hne. congruence.
  - destruct (insertPapers_tables (s0 :: seeds) store) as [_ [Hr _]].
    destruct (insertPapers store (s0 :: seeds)) as [store1 seedIds].
    cbn [fst snd] in *.
    set (t := traverseCitations adapter store1 (assign_ids (s0 :: seeds) seedIds)
                config).
    assert (Ht : runs (db t) = runs store).
    { subst t. unfold traverseCitations. now rewrite depths_runs. }
    destruct (postProcess_runs lib clock config (db t)) as [H1 [H2 H3]].
    rewrite Ht in H2, H3. split; [exact H1|]. split; [exact H2|].
    intros seeds' _ _. exact H3.
  - repeat split. intros seeds [=].
Qed.

End BuildTheorems.

(* ------------------------------------------------------------------ *)
(** ** The transport: rate limit and retries *)
(* ------------------------------------------------------------------ *)

Module TransportFacts.
Import Js Cache Http HttpSpec SimilarityFacts HttpFacts.
Local Open Scope string_scope.
Local Open Scope R_scope.

Lemma fetch_count_sleep (w : World) (ms : R) :
  fetch_count (sleep w ms) = fetch_count w.
Proof.
  unfold fetch_count, sleep. simpl. rewrite filter_app. simpl.
  now rewrite app_nil_r.
Qed.

Lemma fetch_count_fetch (w : World) (url method : string)
    (headers : list (string * string)) (body : option string) :
  fetch_count (snd (fetch w url method headers body)) = S (fetch_count w).
Proof.
  unfold fetch_count, fetch. cbv zeta.
  destruct (network w); simpl; rewrite filter_app, length_app; simpl; lia.
Qed.

Lemma fetch_count_backoff (w : World) (attempt : nat) (initial max : R) :
  fetch_count (snd (calculateBackoff w attempt initial max)) = fetch_count w.
Proof. reflexivity. Qed.

Lemma fetch_count_acquire (b : TokenBucket) (w : World) :
  fetch_count (snd (acquire b w)) = fetch_count w.
Proof.
  unfold acquire. cbv zeta.
  destruct (Rleb 1 (tokens (refill b (now w)))); [reflexivity|].
  cbn [snd]. apply fetch_count_sleep.
Qed.

(** What an outcome of the loop satisfies when [budget] calls of [fetch]
    were left at the world [w0]: at least one call was made and at most
    [budget], and an error is not the one thrown after the loop. *)
Lemma after_backoff_calls (continue : World -> Outcome) (w1 : World)
    (attempt : nat) (retryAfter : option R) (lo hi : nat) (url : string) :
  (forall w', fetch_count w' = fetch_count w1 ->
     (lo <= fetch_count (snd (continue w')) <= hi)%nat
     /\ forall e, fst (continue w') = inr e ->
          err_message e <> "Max retries exceeded for " ++ url) ->
  (lo <= fetch_count (snd (after_backoff continue w1 attempt retryAfter)) <= hi)%nat
  /\ forall e, fst (after_backoff continue w1 attempt retryAfter) = inr e ->
       err_message e <> "Max retries exceeded for " ++ url.
Proof.
  intros Hc. unfold after_backoff.
  destruct retryAfter as [ms|]; cbv iota beta.
  - apply Hc. apply fetch_count_sleep.
  - unfold calculateBackoff, math_random. cbv zeta iota beta.
    apply Hc. now rewrite fetch_count_sleep.
Qed.

Lemma on_error_calls (continue : World -> Outcome) (w1 : World) (attempt : nat)
    (url : string) (code : option string) (aborted : bool) (message : string)
    (hi : nat) :
  (fetch_count w1 <= hi)%nat ->
  ((attempt < maxRetries)%nat ->
   forall w', fetch_count w' = fetch_count w1 ->
     (fetch_count w1 <= fetch_count (snd (continue w')) <= hi)%nat
     /\ forall e, fst (continue w') = inr e ->
          err_message e <> "Max retries exceeded for " ++ url) ->
  (fetch_count w1
   <= fetch_count (snd (on_error continue w1 attempt url code aborted message))
   <= hi)%nat
  /\ forall e, fst (on_error continue w1 attempt url code aborted message) = inr e ->
       err_message e <> "Max retries exceeded for " ++ url.
Proof.
  intros Hhi Hc. unfold on_error. cbv zeta.
  destruct (match code with
            | Some c => set_has String.eqb RETRYABLE_ERROR_CODES c
            | None => false
            end) eqn:Er; cbn [andb].
  - destruct (attempt <? maxRetries)%nat eqn:Ea.
    + apply after_backoff_calls. apply Hc. now apply Nat.ltb_lt.
    + destruct aborted; cbn [fst snd]; (split; [lia|]);
        intros e [= <-]; simpl; discriminate.
  - destruct aborted; cbn [fst snd]; (split; [lia|]);
      intros e [= <-]; simpl; discriminate.
Qed.

Lemma on_response_calls (parseInt : string -> option Z)
    (parseDate : string -> option R) (continue : World -> Outcome)
    (w1 : World) (attempt : nat) (url : string) (status : Z)
    (statusText : string) (headers : list (string * string)) (body : string)
    (bodyParses : bool) (hi : nat) :
  (fetch_count w1 <= hi)%nat ->
  ((attempt < maxRetries)%nat ->
   forall w', fetch_count w' = fetch_count w1 ->
     (fetch_count w1 <= fetch_count (snd (continue w')) <= hi)%nat
     /\ forall e, fst (continue w') = inr e ->
          err_message e <> "Max retries exceeded for " ++ url) ->
  (fetch_count w1
   <= fetch_count (snd (on_response parseInt parseDate continue w1 attempt url
                          status statusText headers body bodyParses))
   <= hi)%nat
  /\ forall e, fst (on_response parseInt parseDate continue w1 attempt url
                      status statusText headers body bodyParses) = inr e ->
       err_message e <> "Max retries exceeded for " ++ url.
Proof.
  intros Hhi Hc. unfold on_response. cbv zeta.
  destruct (_ && negb bodyParses); [now apply on_error_calls|].
  destruct (negb _).
  - destruct (set_has Z.eqb RETRYABLE_STATUS_CODES status); cbn [andb].
    + destruct (attempt <? maxRetries)%nat eqn:Ea.
      * apply after_backoff_calls. apply Hc. now apply Nat.ltb_lt.
      * cbn [fst snd]. split; [lia|]. intros e [= <-]. simpl. discriminate.
    + cbn [fst snd]. split; [lia|]. intros e [= <-]. simpl. discriminate.
  - cbn [fst snd]. split; [lia|]. intros e; discriminate.
Qed.

Lemma attempts_calls (parseInt : string -> option Z) (parseDate : string -> option R)
    (remaining attempt : nat) (w : World) (url method : string)
    (hs : list (string * string)) (body : option string) :
  (attempt + remaining = S maxRetries)%nat -> (1 <= remaining)%nat ->
  (S (fetch_count w)
   <= fetch_count (snd (attempts parseInt parseDate remaining attempt w url
                          method hs body))
   <= fetch_count w + remaining)%nat
  /\ forall e, fst (attempts parseInt parseDate remaining attempt w url method
                      hs body) = inr e ->
       err_message e <> "Max retries exceeded for " ++ url.
Proof.
  revert attempt w.
  induction remaining as [|n IH]; intros attempt w Hsum Hpos; [lia|].
  cbn [attempts].
  pose proof (fetch_count_fetch w url method hs body) as Hf.
  destruct (fetch w url method hs body) as [outcome w1]. cbn [snd] in Hf.
  assert (Hcont : (attempt < maxRetries)%nat ->
            forall w', fetch_count w' = fetch_count w1 ->
              (fetch_count w1
               <= fetch_count (snd (attempts parseInt parseDate n (S attempt) w'
                                      url method hs body))
               <= fetch_count w + S n)%nat
              /\ forall e, fst (attempts parseInt parseDate n (S attempt) w' url
                                  method hs body) = inr e ->
                   err_message e <> "Max retries exceeded for " ++ url).
  { intros Ha w' Hw'. unfold maxRetries in *.
    destruct (IH (S attempt) w') as [H1 H2]; [lia|lia|].
    split; [lia|exact H2]. }
  destruct outcome as [status statusText headers body' parses|code aborted message].
  - destruct (on_response_calls parseInt parseDate
                (fun w' => attempts parseInt parseDate n (S attempt) w' url method
                             hs body)
                w1 attempt url status statusText headers body' parses
                (fetch_count w + S n)%nat) as [H1 H2]; [lia|exact Hcont|].
    split; [lia|exact H2].
  - destruct (on_error_calls
                (fun w' => attempts parseInt parseDate n (S attempt) w' url method
                             hs body)
                w1 attempt url code aborted message
                (fetch_count w + S n)%nat) as [H1 H2]; [lia|exact Hcont|].
    split; [lia|exact H2].
Qed.

(** The parts of [request] around the loop. *)
Lemma request_parts (parseInt : string -> option Z) (parseDate : string -> option R)
    (c : HttpClient) (w : World) (url : string) (options : HttpRequestOptions) :
  exists method hs body,
    request parseInt parseDate c w url options
    = (fst (attempts parseInt parseDate (S maxRetries) 0
              (snd (acquire (fst (getBucket c w (source_of options))) w))
              url method hs body),
       mkClient
         (map_set String.eqb (buckets (snd (getBucket c w (source_of options))))
            (source_of options)
            (fst (acquire (fst (getBucket c w (source_of options))) w)))
         (map_set String.eqb
            (requestCounts (snd (getBucket c w (source_of options))))
            (source_of options)
            (match map_get String.eqb
                     (requestCounts (snd (getBucket c w (source_of options))))
                     (source_of options) with
             | Some n => n + 1
             | None => 0 + 1
             end)%Z)
         (defaultTimeout (snd (getBucket c w (source_of options))))
         (userAgent (snd (getBucket c w (source_of options)))),
       snd (attempts parseInt parseDate (S maxRetries) 0
              (snd (acquire (fst (getBucket c w (source_of options))) w))
              url method hs body)).
Proof.
  unfold request, source_of. cbv zeta.
  destruct (getBucket c w _) as [bucket c1]. cbn [fst snd].
  destruct (acquire bucket w) as [bucket' w1]. cbn [fst snd].
  destruct (opt_body_object options); [|destruct (opt_body_string options)];
    cbv iota beta;
    match goal with
    | |- context [attempts ?pi ?pd ?r ?a ?w' ?u ?m ?h ?b] =>
        exists m, h, b; destruct (attempts pi pd r a w' u m h b) as [result w2]
    end; reflexivity.
Qed.

Lemma getBucket_counts (c : HttpClient) (w : World) (source : string) :
  requestCounts (snd (getBucket c w source)) = requestCounts c.
Proof.
  unfold getBucket. now destruct (map_get String.eqb (buckets c) source).
Qed.

(** *** Retries used up *)

Lemma network_fetch (w : World) (url method : string)
    (headers : list (string * string)) (body : option string)
    (o : FetchOutcome) (rest : list FetchOutcome) :
  network w = o :: rest ->
  fst (fetch w url method headers body) = o
  /\ network (snd (fetch w url method headers body)) = rest.
Proof. intros H. unfold fetch. cbv zeta. rewrite H. split; reflexivity. Qed.

Lemma after_backoff_network (continue : World -> Outcome) (w1 : World)
    (attempt : nat) (retryAfter : option R) :
  exists w', network w' = network w1
             /\ sleep_count w' = S (sleep_count w1)
             /\ fetch_count w' = fetch_count w1
             /\ after_backoff continue w1 attempt retryAfter = continue w'.
Proof.
  unfold after_backoff.
  destruct retryAfter as [ms|]; cbv iota beta.
  - exists (sleep w1 ms). repeat split.
    + unfold sleep_count, sleep. simpl. rewrite filter_app, length_app. simpl. lia.
    + apply fetch_count_sleep.
  - unfold calculateBackoff, math_random. cbv zeta iota beta.
    eexists. split; [|split; [|split; [|reflexivity]]].
    + reflexivity.
    + unfold sleep_count, sleep. simpl. rewrite filter_app, length_app. simpl. lia.
    + now rewrite fetch_count_sleep.
Qed.

(** One turn of the loop on a retryable outcome: with attempts left the
    loop sleeps once and goes on; without, it throws a retryable error. *)
Lemma attempts_retryable (parseInt : string -> option Z)
    (parseDate : string -> option R) (n attempt : nat) (w : World)
    (url method : string) (hs : list (string * string)) (body : option string)
    (o : FetchOutcome) (rest : list FetchOutcome) :
  network w = o :: rest -> retryable_outcome o = true ->
  if (attempt <? maxRetries)%nat
  then exists w',
         network w' = rest /\ sleep_count w' = S (sleep_count w)
         /\ fetch_count w' = S (fetch_count w)
         /\ attempts parseInt parseDate (S n) attempt w url method hs body
            = attempts parseInt parseDate n (S attempt) w' url method hs body
  else exists e,
         fst (attempts parseInt parseDate (S n) attempt w url method hs body)
         = inr e
         /\ err_retryable e = true
         /\ network (snd (attempts parseInt parseDate (S n) attempt w url method
                            hs body)) = rest
         /\ sleep_count (snd (attempts parseInt parseDate (S n) attempt w url
                                method hs body)) = sleep_count w
         /\ fetch_count (snd (attempts parseInt parseDate (S n) attempt w url
                                method hs body)) = S (fetch_count w).
Proof.
  intros Hnet Hret. cbn [attempts].
  destruct (network_fetch w url method hs body o rest Hnet) as [Ho Hrest].
  pose proof (fetch_count_fetch w url method hs body) as Hfc.
  assert (Hsc : sleep_count (snd (fetch w url method hs body)) = sleep_count w).
  { unfold sleep_count, fetch. cbv zeta. rewrite Hnet. simpl.
    rewrite filter_app. simpl. now rewrite app_nil_r. }
  destruct (fetch w url method hs body) as [o' w1]. cbn [fst snd] in *. subst o'.
  destruct o as [status statusText headers body' parses|[code|] aborted message];
    cbv beta iota delta [retryable_outcome readable] in Hret; try discriminate.
  - apply andb_true_iff in Hret. destruct Hret as [Hret Hst].
    apply andb_true_iff in Hret. destruct Hret as [Hread Hok].
    unfold on_response. cbv zeta.
    assert (Hparse : includes (match map_get String.eqb headers "content-type" with
                               | Some ct => ct
                               | None => ""
                               end) "application/json" && negb parses = false).
    { destruct (includes _ _); [|reflexivity]. simpl in Hread. now rewrite Hread. }
    rewrite Hparse, Hok, Hst. cbn [andb].
    destruct (attempt <? maxRetries)%nat.
    + destruct (after_backoff_network
                  (fun w' => attempts parseInt parseDate n (S attempt) w' url method
                               hs body)
                  w1 attempt
                  (parseRetryAfter parseInt parseDate
                     (map_get String.eqb headers "retry-after") (now w1)))
        as [w' [H1 [H2 [H3 H4]]]].
      exists w'. rewrite H4. repeat split; congruence.
    + eexists. cbn [fst snd]. repeat split; assumption.
  - unfold on_error. cbv zeta. rewrite Hret. cbn [andb].
    destruct (attempt <? maxRetries)%nat.
    + destruct (after_backoff_network
                  (fun w' => attempts parseInt parseDate n (S attempt) w' url method
                               hs body)
                  w1 attempt None) as [w' [H1 [H2 [H3 H4]]]].
      exists w'. rewrite H4. repeat split; congruence.
    + destruct aborted; eexists; cbn [fst snd]; repeat split; assumption.
Qed.

End TransportFacts.

Module TransportTheorems.
Import Js Cache Http HttpSpec SimilarityFacts HttpFacts TransportFacts.
Local Open Scope string_scope.
Local Open Scope R_scope.

(** X26. One [request] calls [fetch] at least once and at most four times
    (the first attempt and three retries), counts as one request of its
    source whatever the number of attempts, leaves the counts of the other
    sources alone, and never throws the error placed after the loop
    ([Max retries exceeded]). *)
Theorem request_attempts (parseInt : string -> option Z)
    (parseDate : string -> option R) (c : HttpClient) (w : World) (url : string)
    (options : HttpRequestOptions) :
  let outcome := request parseInt parseDate c w url options in
  (fetch_count w + 1 <= fetch_count (snd outcome) <= fetch_count w + 4)%nat
  /\ getRequestCount (snd (fst outcome)) (source_of options)
     = (getRequestCount c (source_of options) + 1)%Z
  /\ (forall s, s <> source_of options ->
        getRequestCount (snd (fst outcome)) s = getRequestCount c s)
  /\ (forall e, fst (fst outcome) = inr e ->
        err_message e <> "Max retries exceeded for " ++ url).
Proof.
  intros outcome. subst outcome.
  destruct (request_parts parseInt parseDate c w url options)
    as [method [hs [body ->]]].
  cbn [fst snd]. unfold getRequestCount. cbn [requestCounts].
  rewrite getBucket_counts.
  destruct (attempts_calls parseInt parseDate (S maxRetries) 0
              (snd (acquire (fst (getBucket c w (source_of options))) w))
              url method hs body) as [H1 H2]; [reflexivity|lia|].
  rewrite fetch_count_acquire in H1.
  split; [unfold maxRetries in *; lia|]. split; [|split; [|exact H2]].
  - rewrite (map_get_set_same _ _ String.eqb String.eqb_eq).
    destruct (map_get String.eqb (requestCounts c) (source_of options));
      reflexivity.
  - intros s Hs.
    now rewrite (map_get_set_other _ _ String.eqb String.eqb_eq _ _ _ _ Hs).
Qed.

(** X27. When the network answers the first four calls of a request with
    retryable outcomes (a readable response with status 429, 500, 502, 503
    or 504, or a network error with a retryable code), the request makes
    exactly those four calls, sleeps exactly three times between them
    (apart from the wait for the rate limit) and throws an error marked
    retryable. *)
Theorem request_gives_up (parseInt : string -> option Z)
    (parseDate : string -> option R) (c : HttpClient) (w : World) (url : string)
    (options : HttpRequestOptions) (o1 o2 o3 o4 : FetchOutcome)
    (rest : list FetchOutcome) :
  network w = o1 :: o2 :: o3 :: o4 :: rest ->
  retryable_outcome o1 = true -> retryable_outcome o2 = true ->
  retryable_outcome o3 = true -> retryable_outcome o4 = true ->
  let outcome := request parseInt parseDate c w url options in
  (exists e, fst (fst outcome) = inr e /\ err_retryable e = true)
  /\ network (snd outcome) = rest
  /\ fetch_count (snd outcome) = (fetch_count w + 4)%nat
  /\ sleep_count (snd outcome)
     = (sleep_count (snd (acquire (fst (getBucket c w (source_of options))) w))
        + 3)%nat.
Proof.
  intros Hnet R1 R2 R3 R4 outcome. subst outcome.
  destruct (request_parts parseInt parseDate c w url options)
    as [method [hs [body ->]]].
  cbn [fst snd].
  set (w0 := snd (acquire (fst (getBucket c w (source_of options))) w)).
  assert (Hn0 : network w0 = o1 :: o2 :: o3 :: o4 :: rest).
  { subst w0.
    destruct (acquire_world (fst (getBucket c w (source_of options))) w)
      as [_ [-> _]]. exact Hnet. }
  assert (Hf0 : fetch_count w0 = fetch_count w)
    by (subst w0; apply fetch_count_acquire).
  pose proof (attempts_retryable parseInt parseDate 3 0 w0 url method hs body
                o1 _ Hn0 R1) as S1.
  cbn [Nat.ltb Nat.leb maxRetries] in S1.
  destruct S1 as [w1 [N1 [SC1 [FC1 E1]]]].
  pose proof (attempts_retryable parseInt parseDate 2 1 w1 url method hs body
                o2 _ N1 R2) as S2.
  cbn [Nat.ltb Nat.leb maxRetries] in S2.
  destruct S2 as [w2 [N2 [SC2 [FC2 E2]]]].
  pose proof (attempts_retryable parseInt parseDate 1 2 w2 url method hs body
                o3 _ N2 R3) as S3.
  cbn [Nat.ltb Nat.leb maxRetries] in S3.
  destruct S3 as [w3 [N3 [SC3 [FC3 E3]]]].
  pose proof (attempts_retryable parseInt parseDate 0 3 w3 url method hs body
                o4 _ N3 R4) as S4.
  cbn [Nat.ltb Nat.leb maxRetries] in S4.
  destruct S4 as [e [He [Hr [N4 [SC4 FC4]]]]].
  unfold maxRetries. rewrite E1, E2, E3.
  split; [now exists e|]. split; [exact N4|]. split; lia.
Qed.

End TransportTheorems.

(* ------------------------------------------------------------------ *)
(** ** The response cache *)
(* ------------------------------------------------------------------ *)

Module CacheTheorems.
Import Js Cache SimilarityFacts HttpFacts.
Local Open Scope string_scope.
Local Open Scope R_scope.

(** X28. What [set] stores at time [t0], [get] returns at time [t] as long
    as no more than the time to live has passed, and no longer after that;
    [has] agrees with [get]; the entries of URLs with another file path
    are not touched.  A disabled cache stores nothing and returns
    nothing. *)
Theorem cache_set_then_get (sha256 : string -> string) (c : ResponseCache)
    (fs : FileSystem) (t0 t : R) (url data : string) :
  (enabled c = true ->
   (t - t0 <= ttlMs c ->
    Cache.get sha256 c (Cache.set sha256 c fs t0 url data) t url = Some data
    /\ Cache.has sha256 c (Cache.set sha256 c fs t0 url data) t url = true)
   /\ (ttlMs c < t - t0 ->
       Cache.get sha256 c (Cache.set sha256 c fs t0 url data) t url = None)
   /\ (forall url', filePath sha256 c url' <> filePath sha256 c url ->
         Cache.get sha256 c (Cache.set sha256 c fs t0 url data) t url'
         = Cache.get sha256 c fs t url'))
  /\ (enabled c = false ->
      Cache.set sha256 c fs t0 url data = fs
      /\ Cache.get sha256 c fs t url = None).
Proof.
  split.
  - intros He. unfold Cache.has, Cache.get, Cache.set. rewrite He. cbn [negb].
    rewrite (map_get_set_same _ _ String.eqb String.eqb_eq).
    split; [|split].
    + intros Hle. rewrite (proj2 (Rltb_false _ _) Hle). split; reflexivity.
    + intros Hlt. now rewrite (proj2 (Rltb_true _ _) Hlt).
    + intros url' Hne.
      now rewrite (map_get_set_other _ _ String.eqb String.eqb_eq _ _ _ _ Hne).
  - intros He. unfold Cache.get, Cache.set. rewrite He. split; reflexivity.
Qed.

End CacheTheorems.

(* ------------------------------------------------------------------ *)
(** ** The theorems at concrete inputs *)
(* ------------------------------------------------------------------ *)

Module Instances.
Import Js Types Database DatabaseSpec TfIdf Similarity Algorithms
       AlgorithmsSpec Cache Http HttpSpec Builder BuilderSpec.

(** X3 at the corpus of two documents. *)
Lemma buildCorpus_weights_range_witness :
  NoDup (map doc_id [paper_speech; paper_image])
  /\ In ("p1"%string, two_document_vector)
        (documents (buildCorpus [paper_speech; paper_image]))
  /\ In ("speech"%string, (1 / 1 * ln (2 / 1))%R) two_document_vector
  /\ (0 <= 1 / 1 * ln (2 / 1)
      <= ln (IZR (size (buildCorpus [paper_speech; paper_image]))))%R.
Proof.
  assert (H1 : NoDup (map doc_id [paper_speech; paper_image])).
  { repeat constructor; simpl; intuition discriminate. }
  assert (H2 : In ("p1"%string, two_document_vector)
                  (documents (buildCorpus [paper_speech; paper_image]))).
  { vm_compute. left. reflexivity. }
  assert (H3 : In ("speech"%string, (1 / 1 * ln (2 / 1))%R) two_document_vector)
    by (left; reflexivity).
  split; [exact H1|]. split; [exact H2|]. split; [exact H3|].
  exact (TfIdfTheorems.buildCorpus_weights_range _ _ _ _ _ H1 H2 H3).
Defined.

(** X4 at the corpus of two documents. *)
Lemma buildCorpus_relevance_range_witness :
  NoDup (map doc_id [paper_speech; paper_image])
  /\ (0 <= computeRelevance (buildCorpus [paper_speech; paper_image]) "p1"
             ["speech"%string] <= 1)%R.
Proof.
  assert (H1 : NoDup (map doc_id [paper_speech; paper_image])).
  { repeat constructor; simpl; intuition discriminate. }
  split; [exact H1|].
  exact (proj1 (TfIdfTheorems.buildCorpus_relevance_range _ "p1"%string
                  ["speech"%string] H1)).
Defined.

(** X8 at three documents alike. *)
Lemma buildSimilarityEdges_edges_witness :
  In (similarity_edge 1 2 1 1 (25 / 100))
     (buildSimilarityEdges ids_ascending three_alike 1 (25 / 100)%R)
  /\ (25 / 100 <= weight (similarity_edge 1 2 1 1 (25 / 100)))%R.
Proof.
  assert (H : In (similarity_edge 1 2 1 1 (25 / 100))
                 (buildSimilarityEdges ids_ascending three_alike 1 (25 / 100)%R)).
  { unfold buildSimilarityEdges, similarity_loop, ids_ascending.
    cbn [fold_left fst snd].
    rewrite !AnalyticEdgeFacts.three_alike_top1 by (simpl; tauto).
    left. reflexivity. }
  split; [exact H|].
  destruct (CosineTheorems.buildSimilarityEdges_edges _ _ _ _ _ H)
    as [_ [_ [_ [_ [Hw _]]]]].
  exact Hw.
Defined.

(** X9 at two papers that both cite papers 1 and 2. *)
Lemma computeCoCitation_pairs_witness :
  Forall (fun e => (0 <= dst_paper_id e)%Z)
         (citesEdges CoCitationKeys.cocitation_example)
  /\ exists e, In e (CoCitationKeys.computeCoCitation
                       CoCitationKeys.cocitation_example)
               /\ src_paper_id e = 1%Z /\ dst_paper_id e = 2%Z.
Proof.
  assert (H : Forall (fun e => (0 <= dst_paper_id e)%Z)
                (citesEdges CoCitationKeys.cocitation_example)).
  { repeat constructor; simpl; discriminate. }
  split; [exact H|].
  apply (proj2 (CitationTheorems.computeCoCitation_pairs
                  CoCitationKeys.cocitation_example 1 2 H)).
  split; [reflexivity|]. exists 3%Z. split.
  - exists (cites 3 1). simpl. tauto.
  - exists (cites 3 2). simpl. tauto.
Defined.

(** X10 at the same edges. *)
Lemma computeCoCitation_weights_witness :
  Forall (fun e => (0 <= dst_paper_id e)%Z)
         (citesEdges CoCitationKeys.cocitation_example)
  /\ exists maxCount,
       (1 <= maxCount)%Z
       /\ (CoCitationKeys.computeCoCitation CoCitationKeys.cocitation_example
           <> [] ->
           exists e, In e (CoCitationKeys.computeCoCitation
                             CoCitationKeys.cocitation_example)
                     /\ provenance_json e = ProvCoCitation maxCount
                     /\ weight e = 1%R).
Proof.
  assert (H : Forall (fun e => (0 <= dst_paper_id e)%Z)
                (citesEdges CoCitationKeys.cocitation_example)).
  { repeat constructor; simpl; discriminate. }
  split; [exact H|].
  destruct (CitationTheorems.computeCoCitation_weights
              CoCitationKeys.cocitation_example H) as [maxCount [H1 [_ H3]]].
  exists maxCount. split; [exact H1|exact H3].
Defined.

(** X12 at two papers that cite the same paper. *)
Lemma computeBibCoupling_weights_witness :
  In (mkEdge None 5 3 BIB_COUPLED (1 / 1)%R 1%R None None algo
        (ProvBibCoupling 1 1 1))
     (computeBibCoupling coupling_example)
  /\ (0 < 1 / 1 <= 1)%R.
Proof.
  assert (H : In (mkEdge None 5 3 BIB_COUPLED (1 / 1)%R 1%R None None algo
                    (ProvBibCoupling 1 1 1))
                 (computeBibCoupling coupling_example)).
  { vm_compute. left. reflexivity. }
  split; [exact H|].
  destruct (CitationTheorems.computeBibCoupling_weights _ _ H)
    as [referencesA [referencesB [_ [_ [_ [_ [_ [Hw _]]]]]]]].
  exact Hw.
Defined.

(** X15 at the empty store. *)
Lemma writes_keep_store_well_formed_witness :
  well_formed empty_store
  /\ well_formed (fst (insertPapers empty_store [paper_W123; paper_W123_updated]))
  /\ well_formed (fst (upsertPaper empty_store paper_W123)).
Proof.
  assert (H : well_formed empty_store) by (repeat split; constructor).
  split; [exact H|].
  exact (StoreTheorems.writes_keep_store_well_formed _ _ _ H).
Defined.

(** X27 at a service that answers 503 four times. *)
Lemma request_gives_up_witness :
  network (mkWorld 0 [] [ Responded 503 "Service Unavailable" [] "busy" true;
                          Responded 503 "Service Unavailable" [] "busy" true;
                          Responded 503 "Service Unavailable" [] "busy" true;
                          Responded 503 "Service Unavailable" [] "busy" true ]
                   [] [])
  = [ Responded 503 "Service Unavailable" [] "busy" true;
      Responded 503 "Service Unavailable" [] "busy" true;
      Responded 503 "Service Unavailable" [] "busy" true;
      Responded 503 "Service Unavailable" [] "busy" true ]
  /\ retryable_outcome (Responded 503 "Service Unavailable" [] "busy" true) = true
  /\ fetch_count
       (snd (request (fun _ => None) (fun _ => None)
               (new_HttpClient None None None)
               (mkWorld 0 [] [ Responded 503 "Service Unavailable" [] "busy" true;
                               Responded 503 "Service Unavailable" [] "busy" true;
                               Responded 503 "Service Unavailable" [] "busy" true;
                               Responded 503 "Service Unavailable" [] "busy" true ]
                        [] [])
               "https://api.openalex.org/works" no_options))
     = 4%nat.
Proof.
  assert (H : retryable_outcome (Responded 503 "Service Unavailable" [] "busy" true)
              = true) by reflexivity.
  split; [reflexivity|]. split; [exact H|].
  destruct (TransportTheorems.request_gives_up (fun _ => None) (fun _ => None)
              (new_HttpClient None None None)
              (mkWorld 0 [] [ Responded 503 "Service Unavailable" [] "busy" true;
                              Responded 503 "Service Unavailable" [] "busy" true;
                              Responded 503 "Service Unavailable" [] "busy" true;
                              Responded 503 "Service Unavailable" [] "busy" true ]
                       [] [])
              "https://api.openalex.org/works" no_options _ _ _ _ [] eq_refl
              H H H H) as [_ [_ [Hf _]]].
  exact Hf.
Defined.

End Instances.

(* ------------------------------------------------------------------ *)
(** ** Title matching *)
(* ------------------------------------------------------------------ *)

Module TitleMatchingFacts.
Import Js TitleMatching TitleMatchingSpec.
Local Open Scope Z_scope.

Section CodeUnits.
Variable Unit : Type.
Variable eqb : Unit -> Unit -> bool.
Hypothesis eqb_eq : forall x y, eqb x y = true <-> x = y.

Lemma edit_distance_nil_l (b : list Unit) : (edit_distance eqb) [] b = Z.of_nat (List.length b).
Proof. now destruct b. Qed.

Lemma edit_distance_nil_r (a : list Unit) : (edit_distance eqb) a [] = Z.of_nat (List.length a).
Proof. now destruct a. Qed.

Lemma edit_distance_cons (x y : Unit) (a b : list Unit) :
  (edit_distance eqb) (x :: a) (y :: b)
  = Z.min (Z.min ((edit_distance eqb) a (y :: b) + 1) ((edit_distance eqb) (x :: a) b + 1))
          ((edit_distance eqb) a b + (if eqb x y then 0 else 1)).
Proof. reflexivity. Qed.

(** *** The table holds the edit distances of the prefixes *)

Lemma map_seq_cons (f : nat -> Z) (n : nat) :
  map f (seq 0 (S n)) = f 0%nat :: map (fun k => f (S k)) (seq 0 n).
Proof. cbn [seq map]. now rewrite <- seq_shift, map_map. Qed.

Lemma fill_row_prefixes (x : Unit) (ru : list Unit) (bs pre : list Unit) :
  fill_row eqb x bs
    (map (fun k => (edit_distance eqb) ru (rev (firstn k bs) ++ pre)) (seq 0 (S (List.length bs))))
    ((edit_distance eqb) (x :: ru) pre)
  = map (fun k => (edit_distance eqb) (x :: ru) (rev (firstn (S k) bs) ++ pre))
        (seq 0 (List.length bs)).
Proof.
  revert pre. induction bs as [|y bs IH]; intros pre; [reflexivity|].
  cbn [List.length].
  rewrite (map_seq_cons (fun k => (edit_distance eqb) ru (rev (firstn k (y :: bs)) ++ pre))).
  rewrite (map_seq_cons (fun k => (edit_distance eqb) ru (rev (firstn (S k) (y :: bs)) ++ pre))).
  rewrite (map_seq_cons (fun k => (edit_distance eqb) (x :: ru) (rev (firstn (S k) (y :: bs)) ++ pre))).
  cbn [fill_row]. cbv zeta.
  assert (E0 : (edit_distance eqb) ru (rev (firstn 0 (y :: bs)) ++ pre) = (edit_distance eqb) ru pre) by reflexivity.
  assert (E1 : (edit_distance eqb) ru (rev (firstn 1 (y :: bs)) ++ pre) = (edit_distance eqb) ru (y :: pre))
    by reflexivity.
  assert (E2 : (edit_distance eqb) (x :: ru) (rev (firstn 1 (y :: bs)) ++ pre) = (edit_distance eqb) (x :: ru) (y :: pre))
    by reflexivity.
  rewrite E0, E1, E2, <- edit_distance_cons. f_equal.
  assert (HP : (edit_distance eqb) ru (y :: pre)
               :: map (fun k => (edit_distance eqb) ru (rev (firstn (S (S k)) (y :: bs)) ++ pre))
                      (seq 0 (List.length bs))
               = map (fun k => (edit_distance eqb) ru (rev (firstn k bs) ++ y :: pre))
                     (seq 0 (S (List.length bs)))).
  { rewrite (map_seq_cons (fun k => (edit_distance eqb) ru (rev (firstn k bs) ++ y :: pre))).
    f_equal. apply map_ext. intros k. cbn [firstn rev].
    now rewrite <- app_assoc. }
  rewrite HP, IH. apply map_ext. intros k. cbn [firstn rev].
  now rewrite <- app_assoc.
Qed.

(** Row [i] of the table, for the prefix of [a] whose reversal is [ru]. *)
Lemma next_row_prefixes (b : list Unit) (x : Unit) (ru : list Unit) :
  next_row eqb b
    (map (fun k => (edit_distance eqb) ru (rev (firstn k b))) (seq 0 (S (List.length b))),
     Z.of_nat (S (List.length ru))) x
  = (map (fun k => (edit_distance eqb) (x :: ru) (rev (firstn k b))) (seq 0 (S (List.length b))),
     Z.of_nat (S (List.length (x :: ru)))).
Proof.
  unfold next_row. f_equal; [|simpl List.length; lia].
  rewrite (map_seq_cons (fun k => (edit_distance eqb) (x :: ru) (rev (firstn k b)))).
  assert (E0 : (edit_distance eqb) (x :: ru) (rev (firstn 0 b)) = Z.of_nat (S (List.length ru)))
    by (cbn [firstn rev]; now rewrite edit_distance_nil_r).
  rewrite E0. f_equal.
  pose proof (fill_row_prefixes x ru b []) as H.
  rewrite edit_distance_nil_r in H.
  assert (E1 : map (fun k => (edit_distance eqb) ru (rev (firstn k b) ++ []))
                   (seq 0 (S (List.length b)))
               = map (fun k => (edit_distance eqb) ru (rev (firstn k b))) (seq 0 (S (List.length b)))).
  { apply map_ext. intros k. now rewrite app_nil_r. }
  rewrite E1 in H. change (List.length (x :: ru)) with (S (List.length ru)) in H.
  rewrite H. apply map_ext. intros k. now rewrite app_nil_r.
Qed.

Lemma rows_prefixes (b rest ru : list Unit) :
  fold_left (next_row eqb b) rest
    (map (fun k => (edit_distance eqb) ru (rev (firstn k b))) (seq 0 (S (List.length b))),
     Z.of_nat (S (List.length ru)))
  = (map (fun k => (edit_distance eqb) (rev rest ++ ru) (rev (firstn k b)))
         (seq 0 (S (List.length b))),
     Z.of_nat (S (List.length (rev rest ++ ru)))).
Proof.
  revert ru. induction rest as [|x rest IH]; intros ru; [reflexivity|].
  cbn [fold_left]. rewrite next_row_prefixes, IH.
  cbn [rev]. now rewrite <- app_assoc.
Qed.

Lemma first_row_prefixes (b : list Unit) :
  first_row (List.length b)
  = map (fun k => (edit_distance eqb) [] (rev (firstn k b))) (seq 0 (S (List.length b))).
Proof.
  unfold first_row. apply map_ext_in. intros k Hk. apply in_seq in Hk.
  rewrite edit_distance_nil_l, length_rev, length_firstn. lia.
Qed.

Lemma last_map_seq (f : nat -> Z) (n : nat) (d : Z) :
  last (map f (seq 0 (S n))) d = f n.
Proof.
  rewrite seq_S, map_app. simpl. apply last_last.
Qed.

(** [levenshteinDistance] computes the edit distance: the table is filled
    by prefixes, so the recurrence reads the strings from their ends. *)
Lemma levenshteinDistance_edit_distance (a b : list Unit) :
  levenshteinDistance eqb a b = (edit_distance eqb) (rev a) (rev b).
Proof.
  unfold levenshteinDistance. cbv zeta.
  destruct a as [|x a].
  - simpl. now rewrite edit_distance_nil_l, length_rev.
  - destruct b as [|y b].
    + cbn [List.length Nat.eqb rev app]. rewrite edit_distance_nil_r.
      rewrite length_app, length_rev. simpl. f_equal. lia.
    + cbn [List.length Nat.eqb].
      change (S (List.length b)) with (List.length (y :: b)).
      rewrite first_row_prefixes.
      change 1 with (Z.of_nat (S (@List.length Unit []))).
      rewrite rows_prefixes. cbn [fst]. rewrite last_map_seq.
      now rewrite app_nil_r, firstn_all.
Qed.

(** *** Properties of the edit distance *)

Lemma edit_distance_bounds (a b : list Unit) :
  Z.abs (Z.of_nat (List.length a) - Z.of_nat (List.length b)) <= (edit_distance eqb) a b
  <= Z.max (Z.of_nat (List.length a)) (Z.of_nat (List.length b)).
Proof.
  revert b. induction a as [|x a IHa]; intros b.
  - rewrite edit_distance_nil_l. simpl. lia.
  - induction b as [|y b IHb].
    + rewrite edit_distance_nil_r. simpl List.length. lia.
    + rewrite edit_distance_cons.
      pose proof (IHa (y :: b)) as H1. pose proof (IHa b) as H2.
      cbn [List.length] in *.
      destruct (eqb x y); lia.
Qed.

Lemma edit_distance_zero (a b : list Unit) : (edit_distance eqb) a b = 0 <-> a = b.
Proof.
  revert b. induction a as [|x a IHa]; intros b.
  - rewrite edit_distance_nil_l. destruct b; simpl; split; intros H;
      congruence || lia.
  - induction b as [|y b IHb].
    + rewrite edit_distance_nil_r. simpl. split; intros H; congruence || lia.
    + rewrite edit_distance_cons.
      pose proof (edit_distance_bounds a (y :: b)) as H1.
      pose proof (edit_distance_bounds (x :: a) b) as H2.
      pose proof (edit_distance_bounds a b) as H3.
      destruct (eqb x y) eqn:E.
      * apply eqb_eq in E. subst y. split.
        -- intros H. f_equal. apply IHa. cbn [List.length] in *. lia.
        -- intros [= ->]. assert (H0 : (edit_distance eqb) b b = 0) by now apply IHa.
           cbn [List.length] in *. lia.
      * split.
        -- intros H. cbn [List.length] in *. lia.
        -- intros [= -> ->]. exfalso.
           assert (eqb y y = true) by now apply eqb_eq. congruence.
Qed.

Lemma edit_distance_comm (a b : list Unit) : (edit_distance eqb) a b = (edit_distance eqb) b a.
Proof.
  revert b. induction a as [|x a IHa]; intros b.
  - now rewrite edit_distance_nil_l, edit_distance_nil_r.
  - induction b as [|y b IHb].
    + now rewrite edit_distance_nil_l, edit_distance_nil_r.
    + rewrite !edit_distance_cons, IHb, (IHa (y :: b)), (IHa b).
      assert (E : eqb x y = eqb y x).
      { destruct (eqb x y) eqn:E1, (eqb y x) eqn:E2; try reflexivity.
        - apply eqb_eq in E1. subst.
          assert (eqb y y = true) by now apply eqb_eq. congruence.
        - apply eqb_eq in E2. subst.
          assert (eqb x x = true) by now apply eqb_eq. congruence. }
      rewrite E. lia.
Qed.

Lemma levenshteinDistance_bounds (a b : list Unit) :
  Z.abs (Z.of_nat (List.length a) - Z.of_nat (List.length b))
  <= levenshteinDistance eqb a b
  <= Z.max (Z.of_nat (List.length a)) (Z.of_nat (List.length b)).
Proof.
  rewrite levenshteinDistance_edit_distance.
  pose proof (edit_distance_bounds (rev a) (rev b)) as H.
  now rewrite !length_rev in H.
Qed.

Lemma levenshteinDistance_zero (a b : list Unit) :
  levenshteinDistance eqb a b = 0 <-> a = b.
Proof.
  rewrite levenshteinDistance_edit_distance, edit_distance_zero.
  split; [|now intros ->].
  intros H. apply (f_equal (@rev Unit)) in H. now rewrite !rev_involutive in H.
Qed.

Lemma units_eqb_eq (a b : list Unit) : units_eqb eqb a b = true <-> a = b.
Proof.
  revert b. induction a as [|x a IH]; intros [|y b]; simpl;
    try (split; congruence).
  rewrite andb_true_iff, eqb_eq, IH. split.
  - now intros [-> ->].
  - now intros [= -> ->].
Qed.

End CodeUnits.

End TitleMatchingFacts.

Module TitleMatchingTheorems.
Import Js TitleMatching TitleMatchingSpec TitleMatchingFacts.
Local Open Scope Z_scope.

(** X29. [levenshteinDistance] is the edit distance of its arguments: it
    is symmetric, it lies between the difference of the two lengths and
    the larger length, and it is 0 exactly for equal strings.  Strings are
    lists of code units with a decidable equality. *)
Theorem levenshteinDistance_metric (Unit : Type) (eqb : Unit -> Unit -> bool)
    (a b : list Unit) :
  (forall x y, eqb x y = true <-> x = y) ->
  levenshteinDistance eqb a b = levenshteinDistance eqb b a
  /\ Z.abs (Z.of_nat (List.length a) - Z.of_nat (List.length b))
     <= levenshteinDistance eqb a b
     <= Z.max (Z.of_nat (List.length a)) (Z.of_nat (List.length b))
  /\ (levenshteinDistance eqb a b = 0 <-> a = b).
Proof.
  intros Heq. split; [|split].
  - rewrite !levenshteinDistance_edit_distance. now apply edit_distance_comm.
  - apply levenshteinDistance_bounds.
  - now apply levenshteinDistance_zero.
Qed.

(** The theorem at two strings of numbers, [kitten] and [sitting] in
    ASCII. *)
Lemma levenshteinDistance_metric_witness :
  (forall x y, Z.eqb x y = true <-> x = y)
  /\ levenshteinDistance Z.eqb [107; 105; 116; 116; 101; 110]
       [115; 105; 116; 116; 105; 110; 103]
     = levenshteinDistance Z.eqb [115; 105; 116; 116; 105; 110; 103]
         [107; 105; 116; 116; 101; 110].
Proof.
  split; [exact Z.eqb_eq|].
  exact (proj1 (levenshteinDistance_metric Z Z.eqb _ _ Z.eqb_eq)).
Defined.

(** X30. [titleSimilarity] is between 0 and 1, and it is 1 exactly when
    the two titles have the same normal form.  Numbers are exact reals;
    [normalizeTitle] is any function. *)
Theorem titleSimilarity_range (Unit : Type) (eqb : Unit -> Unit -> bool)
    (normalizeTitle : list Unit -> list Unit) (a b : list Unit) :
  (forall x y, eqb x y = true <-> x = y) ->
  (0 <= titleSimilarity eqb normalizeTitle a b <= 1)%R
  /\ (titleSimilarity eqb normalizeTitle a b = 1%R
      <-> normalizeTitle a = normalizeTitle b).
Proof.
  intros Heq. unfold titleSimilarity. cbv zeta.
  destruct (units_eqb eqb (normalizeTitle a) (normalizeTitle b)) eqn:E.
  - apply (units_eqb_eq _ eqb Heq) in E. split; [lra|]. split; [now intros _|reflexivity].
  - assert (Hne : normalizeTitle a <> normalizeTitle b).
    { intros H. apply (units_eqb_eq _ eqb Heq) in H. congruence. }
    destruct (levenshteinDistance_bounds Unit eqb (normalizeTitle a)
                (normalizeTitle b)) as [Hlo Hhi].
    pose proof (levenshteinDistance_zero Unit eqb Heq (normalizeTitle a)
                  (normalizeTitle b)) as Hz.
    set (d := levenshteinDistance eqb (normalizeTitle a) (normalizeTitle b)) in *.
    set (mx := Z.max (Z.of_nat (List.length (normalizeTitle a)))
                     (Z.of_nat (List.length (normalizeTitle b)))) in *.
    assert (Hd : 1 <= d).
    { assert (d <> 0) by (intros H0; apply Hne; now apply Hz). lia. }
    destruct (mx =? 0) eqn:Em; [apply Z.eqb_eq in Em; lia|].
    assert (H1 : (1 <= IZR d)%R) by (apply IZR_le; exact Hd).
    assert (H2 : (IZR d <= IZR mx)%R) by (apply IZR_le; exact Hhi).
    assert (Hinv : (0 < / IZR mx)%R) by (apply Rinv_0_lt_compat; lra).
    assert (Hq1 : (0 < IZR d / IZR mx)%R)
      by (unfold Rdiv; apply Rmult_lt_0_compat; lra).
    assert (Hq2 : (IZR d / IZR mx <= 1)%R).
    { unfold Rdiv. apply Rmult_le_reg_r with (IZR mx); [lra|].
      rewrite Rmult_assoc, Rinv_l by lra. lra. }
    split; [lra|]. split; [intros H; lra|intros H; contradiction].
Qed.

(** The theorem at two titles, with the identity for [normalizeTitle]. *)
Lemma titleSimilarity_range_witness :
  (forall x y, Z.eqb x y = true <-> x = y)
  /\ (0 <= titleSimilarity Z.eqb (fun t => t) [107; 105; 116]%Z [115; 105; 116]%Z
      <= 1)%R.
Proof.
  split; [exact Z.eqb_eq|].
  exact (proj1 (titleSimilarity_range Z Z.eqb (fun t => t) _ _ Z.eqb_eq)).
Defined.

End TitleMatchingTheorems.
